(** * Identifier reconciliation and relationship resolution of the data loader

    A shallow embedding of [packages/appwrite-utils-cli/src/migrations/dataLoader.ts]
    (class [DataLoader]) and the properties its design document states about
    it.  The file is organised as the loader is:

    - [JsString]: the string primitives the loader calls ([toLowerCase],
      [replace], template literals);
    - [JsMap]: the insertion-ordered [Map<string, V>] the loader keeps its
      tables in;
    - [Store]: JavaScript values, the object store, and [mergeObjects];
    - [Ids]: [checkMapValuesForId] and [getTrueUniqueId];
    - [Config]: the import configuration and the staged records;
    - [Resolver]: [updateOldReferencesForNew];
    - [Ingest]: [prepareCreateData];
    - [Identity]: [prepareUserData] and the tables it keeps;
    - [Pipeline]: the control flow of [start].

    Definitions come first, theorems after them. *)

From Stdlib Require Import ZArith List String Ascii Bool Lia DecimalString.
From stdpp Require Import base list.
Import ListNotations.
Open Scope string_scope.
Open Scope list_scope.

(* ===================================================================== *)
(** * Strings *)
(* ===================================================================== *)

Module JsString.

(** [String.prototype.toLowerCase] on the ASCII letters; bytes outside
    [A-Z] are left as they are. *)
Definition lowerAscii (c : ascii) : ascii :=
  let n := nat_of_ascii c in
  if Nat.leb 65 n && Nat.leb n 90 then ascii_of_nat (n + 32) else c.

Fixpoint toLowerCase (s : string) : string :=
  match s with
  | EmptyString => EmptyString
  | String c r => String (lowerAscii c) (toLowerCase r)
  end.

(** [s.replace(pat, rep)] with a string pattern of one character: only the
    FIRST occurrence of the pattern is replaced. *)
Fixpoint replace (pat : ascii) (rep s : string) : string :=
  match s with
  | EmptyString => EmptyString
  | String c r =>
      if Ascii.eqb c pat then String.append rep r else String c (replace pat rep r)
  end.

(** What a global replacement ([replaceAll], or a [/ /g] pattern) would do:
    used only to say what "spaces stripped" means. *)
Fixpoint stripAll (pat : ascii) (s : string) : string :=
  match s with
  | EmptyString => EmptyString
  | String c r =>
      if Ascii.eqb c pat then stripAll pat r else String c (stripAll pat r)
  end.

Fixpoint occurrences (pat : ascii) (s : string) : nat :=
  match s with
  | EmptyString => 0
  | String c r => (if Ascii.eqb c pat then 1 else 0) + occurrences pat r
  end.

(** Decimal rendering of an integer, as a template literal prints it. *)
Definition ofZ (z : Z) : string := NilZero.string_of_int (Z.to_int z).

Definition ofNat (n : nat) : string := ofZ (Z.of_nat n).

(** A property key that is a canonical array index ("0", "1", "12", but
    not "01" or "+1"). *)
Definition indexOfKey (key : string) : option nat :=
  match NilEmpty.uint_of_string key with
  | Some u =>
      let n := Nat.of_uint u in
      if String.eqb (ofNat n) key then Some n else None
  | None => None
  end.

(** The truth value of a string: only the empty string is falsy. *)
Definition nonEmpty (s : string) : bool := negb (String.eqb s "").

End JsString.

(* ===================================================================== *)
(** * [Map<string, V>]: insertion-ordered association *)
(* ===================================================================== *)

Module JsMap.
Section Defs.
Context {V : Type}.

Fixpoint get (k : string) (m : list (string * V)) : option V :=
  match m with
  | [] => None
  | (k', v) :: r => if String.eqb k k' then Some v else get k r
  end.

Definition has (k : string) (m : list (string * V)) : bool :=
  match get k m with Some _ => true | None => false end.

(** [m.set(k, v)]: an existing key keeps its place, a new one goes last. *)
Fixpoint set (k : string) (v : V) (m : list (string * V)) : list (string * V) :=
  match m with
  | [] => [(k, v)]
  | (k', v') :: r =>
      if String.eqb k k' then (k, v) :: r else (k', v') :: set k v r
  end.

Definition keys (m : list (string * V)) : list string := map fst m.
Definition values (m : list (string * V)) : list V := map snd m.

Definition wf (m : list (string * V)) : Prop := NoDup (keys m).
End Defs.

(** Entries in insertion order; a [Map] never holds a key twice. *)
Abbreviation t V := (list (string * V)) (only parsing).
End JsMap.

(* ===================================================================== *)
(** * Collection keys *)
(* ===================================================================== *)

(** [getCollectionKey(name)]: [name.toLowerCase().replace(" ", "")]. *)
Definition getCollectionKey (name : string) : string :=
  JsString.replace " "%char "" (JsString.toLowerCase name).

(* ===================================================================== *)
(** * Identifier tables and unique identifiers *)
(* ===================================================================== *)

Module Ids.

(** [oldIdToNewIdPerCollectionMap]: per collection key, old id to new id. *)
Definition tables := JsMap.t (JsMap.t string).

(** [checkMapValuesForId] returns the KEY whose value is the new id, or
    [false]. *)
Inductive keyOrFalse := Key (key : string) | False_.

Fixpoint scanEntries (newId : string) (entries : list (string * string)) : keyOrFalse :=
  match entries with
  | [] => False_
  | (key, value) :: rest =>
      if String.eqb value newId then Key key else scanEntries newId rest
  end.

(** The table of one collection, or no entries when it has none yet
    ([oldIdMap?.entries() || []]). *)
Definition tableOf (tbl : tables) (collectionName : string) : JsMap.t string :=
  match JsMap.get collectionName tbl with Some m => m | None => [] end.

Definition checkMapValuesForId (tbl : tables) (newId collectionName : string) : keyOrFalse :=
  scanEntries newId (tableOf tbl collectionName).

(** The loop condition [while (this.checkMapValuesForId(...))] converts the
    result to a boolean: a string is true unless it is empty. *)
Definition truthy (r : keyOrFalse) : bool :=
  match r with
  | Key key => JsString.nonEmpty key
  | False_ => false
  end.

(** [getTrueUniqueId].  [ID.unique()] is a source of identifiers outside
    the program: [supply] lists the identifiers its next calls return.
    The result is the accepted identifier and the unused supply; [None]
    when the loop asks for more identifiers than [supply] holds. *)
Fixpoint getTrueUniqueId (tbl : tables) (collectionName : string)
    (supply : list string) : option (string * list string) :=
  match supply with
  | [] => None
  | newId :: rest =>
      if truthy (checkMapValuesForId tbl newId collectionName)
      then getTrueUniqueId tbl collectionName rest
      else Some (newId, rest)
  end.

(** The identifiers already assigned in a collection: the values of its
    table. *)
Definition assigned (tbl : tables) (collectionName : string) : list string :=
  JsMap.values (tableOf tbl collectionName).

End Ids.

(* ===================================================================== *)
(** * JavaScript values and the object store *)
(* ===================================================================== *)

Module Store.

(** Objects, arrays and dates live in the store and are handled through
    references, so that two names for one object see each other's writes
    and [===] on objects is identity.  Numbers are the integers (the
    identifiers and counters of the migrated data). *)
Abbreviation loc := nat (only parsing).

Inductive value :=
| VUndef
| VNull
| VBool (b : bool)
| VNum (n : Z)
| VStr (s : string)
| VRef (l : loc).

Inductive cell :=
| CObj (props : list (string * value))   (* own properties, insertion order *)
| CArr (elems : list value)
| CDate (text : string).                 (* a Date, with the text it prints as *)

Abbreviation heap := (list cell) (only parsing).

(** [===] and the SameValueZero comparison of [Set] agree on these
    values. *)
Definition value_eqb (a b : value) : bool :=
  match a, b with
  | VUndef, VUndef => true
  | VNull, VNull => true
  | VBool x, VBool y => Bool.eqb x y
  | VNum x, VNum y => Z.eqb x y
  | VStr x, VStr y => String.eqb x y
  | VRef x, VRef y => Nat.eqb x y
  | _, _ => false
  end.

Definition isNullish (v : value) : bool :=
  match v with VUndef | VNull => true | _ => false end.

(** ToBoolean. *)
Definition truthy (v : value) : bool :=
  match v with
  | VUndef | VNull => false
  | VBool b => b
  | VNum n => negb (Z.eqb n 0)
  | VStr s => JsString.nonEmpty s
  | VRef _ => true
  end.

(** ** The store monad

    A computation runs on a store and either returns a value and a store,
    throws (leaving the store as it was at the throw), or is outside the
    model ([Fail]: a reference to no cell, recursion deeper
    than the fuel given). *)
Inductive outcome (A : Type) :=
| Ok (a : A) (h : heap)
| Throw (h : heap)
| Fail.
Arguments Ok {A} a h.
Arguments Throw {A} h.
Arguments Fail {A}.

Definition M (A : Type) := heap -> outcome A.

Definition ret {A} (a : A) : M A := fun h => Ok a h.
Definition bind {A B} (m : M A) (f : A -> M B) : M B :=
  fun h => match m h with
           | Ok a h' => f a h'
           | Throw h' => Throw h'
           | Fail => Fail
           end.
Definition throwTypeError {A} : M A := fun h => Throw h.
Definition throwError {A} : M A := fun h => Throw h.   (* [throw new Error(...)] *)
Definition fail {A} : M A := fun _ => Fail.

Declare Scope store_scope.
Delimit Scope store_scope with store.
Notation "'let*' x ':=' m 'in' f" := (bind m (fun x => f))
  (at level 10, x name, m at level 100, f at level 200) : store_scope.
Notation "'exec' m 'then' f" := (bind m (fun _ => f))
  (at level 10, m at level 100, f at level 200) : store_scope.
Local Open Scope store_scope.

Fixpoint forEach {A} (f : A -> M unit) (l : list A) : M unit :=
  match l with
  | [] => ret tt
  | x :: r => exec f x then forEach f r
  end.

(** A new cell at the first free location. *)
Definition alloc (c : cell) : M value :=
  fun h => Ok (VRef (length h)) (h ++ [c]).

Definition readCell (l : loc) : M cell :=
  fun h => match h !! l with Some c => Ok c h | None => Fail end.

(** ** Own properties *)

Fixpoint props_get (key : string) (ps : list (string * value)) : value :=
  match ps with
  | [] => VUndef
  | (k, v) :: r => if String.eqb key k then v else props_get key r
  end.

Fixpoint props_has (key : string) (ps : list (string * value)) : bool :=
  match ps with
  | [] => false
  | (k, _) :: r => if String.eqb key k then true else props_has key r
  end.

(** An own property is updated in its place; a new one goes last (for the
    keys that are array indices, which JavaScript lists first, see
    [nameKey] below). *)
Fixpoint props_set (key : string) (v : value) (ps : list (string * value))
    : list (string * value) :=
  match ps with
  | [] => [(key, v)]
  | (k, v') :: r =>
      if String.eqb key k then (k, v) :: r else (k, v') :: props_set key v r
  end.

(** The indexed properties of an array or of a string. *)
Fixpoint indexed (i : nat) (vs : list value) : list (string * value) :=
  match vs with
  | [] => []
  | v :: r => (JsString.ofNat i, v) :: indexed (S i) r
  end.

Fixpoint chars (s : string) : list value :=
  match s with
  | EmptyString => []
  | String c r => VStr (String c EmptyString) :: chars r
  end.

Definition seq_prop (vs : list value) (key : string) : value :=
  if String.eqb key "length" then VNum (Z.of_nat (length vs))
  else match JsString.indexOfKey key with
       | Some i => match vs !! i with Some v => v | None => VUndef end
       | None => VUndef
       end.

(** [o[key]].  Reading a property of [undefined] or [null] throws.  The
    read is that of an own property: for a key that the value has no own
    property for, the program goes on to the prototypes, which the store
    does not hold (see [inherited] below for the objects). *)
Definition getProp (o : value) (key : string) : M value :=
  match o with
  | VUndef | VNull => throwTypeError
  | VBool _ | VNum _ => ret VUndef
  | VStr s => ret (seq_prop (chars s) key)
  | VRef l =>
      let* c := readCell l in
      match c with
      | CObj ps => ret (props_get key ps)
      | CArr es => ret (seq_prop es key)
      | CDate _ => ret VUndef
      end
  end.

(** The own enumerable properties that [{...o}] copies. *)
Definition ownProps (o : value) : M (list (string * value)) :=
  match o with
  | VUndef | VNull | VBool _ | VNum _ => ret []
  | VStr s => ret (indexed 0 (chars s))
  | VRef l =>
      let* c := readCell l in
      match c with
      | CObj ps => ret ps
      | CArr es => ret (indexed 0 es)
      | CDate _ => ret []
      end
  end.

(** [Object.keys(o)] throws on [undefined] and [null]. *)
Definition objectKeys (o : value) : M (list string) :=
  match o with
  | VUndef | VNull => throwTypeError
  | _ => let* ps := ownProps o in ret (map fst ps)
  end.

(** [o[key] = v] (module code is strict: assigning to a property of a
    primitive throws): an own property is updated or created.  Named
    properties on arrays and dates are outside the model; so is the key
    [__proto__] on an object without an own property of the name, where
    the program calls an accessor (see [inherited] below). *)
Definition setProp (o : value) (key : string) (v : value) : M unit :=
  match o with
  | VRef l =>
      fun h => match h !! l with
               | Some (CObj ps) => Ok tt (<[l := CObj (props_set key v ps)]> h)
               | _ => Fail
               end
  | _ => throwTypeError
  end.

Definition isArray (v : value) : M bool :=
  match v with
  | VRef l =>
      let* c := readCell l in
      ret (match c with CArr _ => true | _ => false end)
  | _ => ret false
  end.

(** [v !== null && typeof v === "object" && !(v instanceof Date)]. *)
Definition isNonDateObject (v : value) : M bool :=
  match v with
  | VRef l =>
      let* c := readCell l in
      ret (match c with CDate _ => false | _ => true end)
  | _ => ret false
  end.

(** The elements [...a] of an array. *)
Definition elements (a : value) : M (list value) :=
  match a with
  | VRef l =>
      let* c := readCell l in
      match c with CArr es => ret es | _ => fail end
  | _ => fail
  end.

(** [[...new Set(vs)]]: the first occurrence of each value, in order. *)
Fixpoint uniqFrom (seen vs : list value) : list value :=
  match vs with
  | [] => []
  | v :: r =>
      if existsb (value_eqb v) seen then uniqFrom seen r
      else v :: uniqFrom (v :: seen) r
  end.

Definition uniq (vs : list value) : list value := uniqFrom [] vs.

(** ** [mergeObjects] *)

(** The body of [Object.keys(update).forEach((key) => ...)]; [self] is the
    recursive call. *)
Definition mergeKey (self : value -> value -> M value)
    (source update result : value) (key : string) : M unit :=
  let* sourceValue := getProp source key in
  let* updateValue := getProp update key in
  let* updIsArray := isArray updateValue in
  if updIsArray then
    let* srcIsArray := isArray sourceValue in
    let* sourceArray := (if srcIsArray then elements sourceValue else ret []) in
    let* updateArray := elements updateValue in
    let* merged := alloc (CArr (uniq (sourceArray ++ updateArray))) in
    setProp result key merged
  else
    let* updIsObject := isNonDateObject updateValue in
    if updIsObject then
      let* merged := self sourceValue updateValue in
      setProp result key merged
    else if negb (isNullish updateValue) then
      setProp result key updateValue
    else if value_eqb sourceValue VUndef then
      setProp result key updateValue
    else ret tt.

(** [mergeObjects(source, update)]; [fuel] bounds the depth of the
    recursion into nested objects of [update]. *)
Fixpoint mergeObjects (fuel : nat) (source update : value) : M value :=
  match fuel with
  | O => fail
  | S fuel' =>
      let* props := ownProps source in
      let* result := alloc (CObj props) in
      let* keys := objectKeys update in
      exec forEach (mergeKey (mergeObjects fuel') source update result) keys then
      ret result
  end.

(** ** Template literals and [_.isEmpty] *)

Fixpoint joinWith (sep : string) (parts : list string) : string :=
  match parts with
  | [] => ""
  | [p] => p
  | p :: r => String.append p (String.append sep (joinWith sep r))
  end.

Fixpoint mapOpt {A B} (f : A -> option B) (l : list A) : option (list B) :=
  match l with
  | [] => Some []
  | x :: r =>
      match f x, mapOpt f r with
      | Some y, Some ys => Some (y :: ys)
      | _, _ => None
      end
  end.

(** ToString, as a template literal applies it.  A plain object prints as
    "[object Object]", an array as its elements joined by commas, with
    [null] and [undefined] elements printing as nothing.  A number prints
    as the integer it is: the numbers of the model are the integers that a
    double holds exactly and that print without an exponent.  [fuel]
    bounds the nesting of arrays. *)
Fixpoint toStringFuel (fuel : nat) (h : heap) (v : value) : option string :=
  match v with
  | VUndef => Some "undefined"
  | VNull => Some "null"
  | VBool b => Some (if b then "true" else "false")
  | VNum n => Some (JsString.ofZ n)
  | VStr s => Some s
  | VRef l =>
      match h !! l with
      | Some (CObj _) => Some "[object Object]"
      | Some (CDate d) => Some d
      | Some (CArr es) =>
          match fuel with
          | O => None
          | S fuel' =>
              option_map (joinWith ",")
                (mapOpt (fun e => if isNullish e then Some ""
                                  else toStringFuel fuel' h e) es)
          end
      | None => None
      end
  end.

(** Arrays nest no deeper than the store has cells, unless they are
    cyclic (then the conversion is outside the model). *)
Definition toString (v : value) : M string :=
  fun h => match toStringFuel (length h) h v with
           | Some s => Ok s h
           | None => Fail
           end.

(** lodash's [_.isEmpty]: [true] for [null], [undefined], numbers and
    booleans; for strings and arrays, whether the length is 0; for other
    objects, whether they have no own enumerable property. *)
Definition isEmpty (v : value) : M bool :=
  match v with
  | VUndef | VNull | VBool _ | VNum _ => ret true
  | VStr s => ret (String.eqb s "")
  | VRef l =>
      let* c := readCell l in
      ret (match c with
           | CObj [] | CArr [] | CDate _ => true
           | _ => false
           end)
  end.

(** [xs.filter(p)] with a predicate that reads the store. *)
Fixpoint filterM {A} (p : A -> M bool) (l : list A) : M (list A) :=
  match l with
  | [] => ret []
  | x :: r =>
      let* keep := p x in
      let* rest := filterM p r in
      ret (if keep then x :: rest else rest)
  end.

(** A loop that carries local variables [acc] from one turn to the next. *)
Fixpoint forEachAcc {A S} (f : A -> S -> M S) (l : list A) (acc : S) : M S :=
  match l with
  | [] => ret acc
  | x :: r => let* acc' := f x acc in forEachAcc f r acc'
  end.

(** The elements of a value that is an array of the store, none
    otherwise ([Array.isArray(v) ? v : []]). *)
Definition arrayElements (h : heap) (v : value) : list value :=
match v with
| VRef l => match h !! l with Some (CArr es) => es | _ => [] end
| _ => []
end.

(** Booleans, numbers and strings. *)
Definition isScalar (v : value) : bool :=
match v with
| VBool _ | VNum _ | VStr _ => true
| _ => false
end.

(** Objects and arrays of the store nest at most [n] deep below a value. *)
Inductive depthLe (h : heap) : nat -> value -> Prop :=
| depth_prim n v : (forall l, v <> VRef l) -> depthLe h n v
| depth_date n l d : h !! l = Some (CDate d) -> depthLe h n (VRef l)
| depth_arr n l es :
    h !! l = Some (CArr es) ->
    (forall v, v ∈ es -> depthLe h n v) ->
    depthLe h (S n) (VRef l)
| depth_obj n l ps :
    h !! l = Some (CObj ps) ->
    (forall v, v ∈ map snd ps -> depthLe h n v) ->
    depthLe h (S n) (VRef l).

(** Every reference held by a cell of the store points into the store. *)
Definition refsOf (c : cell) : list value :=
  match c with
  | CObj ps => map snd ps
  | CArr es => es
  | CDate _ => []
  end.

Definition validValue (h : heap) (v : value) : Prop :=
  match v with VRef l => l < length h | _ => True end.

Definition closed (h : heap) : Prop :=
  forall l c, h !! l = Some c -> Forall (validValue h) (refsOf c).

(** An object holds a key once. *)
Definition uniqueKeys (h : heap) : Prop :=
  forall l ps, h !! l = Some (CObj ps) -> NoDup (map fst ps).

(** ** Where the store stands for the objects of the program

    A cell lists the own properties of an object.  The objects of the
    program (parsed from JSON, or built by a spread) inherit from
    [Object.prototype]: reading a key of the list below on an object without
    an own property of the name gives the inherited method, the operator
    [in] finds the key, and [__proto__] is an accessor, so that writing it
    creates no own property.  The store holds no functions: such reads and
    writes are not what [getProp] and [setProp] compute, and what is proved
    of the fields or of the keys of an object is stated of the other
    keys. *)
Definition inheritedKeys : list string :=
  ["constructor"; "__defineGetter__"; "__defineSetter__"; "hasOwnProperty";
   "__lookupGetter__"; "__lookupSetter__"; "isPrototypeOf";
   "propertyIsEnumerable"; "toString"; "valueOf"; "__proto__";
   "toLocaleString"].

Definition inherited (key : string) : bool :=
  existsb (String.eqb key) inheritedKeys.

(** The own keys of an object are listed in the order of their creation.
    JavaScript lists keys that are array indices ("0", "12") before the
    others, in numeric order; what is proved of the order of keys is stated
    of objects without such keys. *)
Definition nameKey (key : string) : bool :=
  negb (inherited key)
  && match JsString.indexOfKey key with Some _ => false | None => true end.

(** ** What a deep merge is

    The object with the properties [rp] is a merge of the object with the
    properties [sp] (the existing record) with the one with the properties
    [up] (the update), to the depth [n]; [h] is the store the merge was
    called in, [h'] the store it has left, and every cell it has made lies
    beyond [lo]. *)
Section Merged.
Variables (h h' : heap) (lo : loc).

(** The field: [a] is its value in the existing record, [b] in the update
    and [v] in the result; [deeper] is what holds of a nested merge. *)
Definition fieldMerged
    (deeper : list (string * value) -> list (string * value) ->
              list (string * value) -> Prop)
    (a b v : value) : Prop :=
  (* [null], [undefined] or absent in the update: the existing value stays *)
  (isNullish b = true -> a <> VUndef -> v = a) /\
  (isNullish b = true -> a = VUndef -> v = b) /\
  (* a boolean, a number, a string or a date replaces the existing value *)
  (isScalar b = true -> v = b) /\
  (forall lb d, b = VRef lb -> h !! lb = Some (CDate d) -> v = b) /\
  (* an array: a new array, of the existing elements followed by those of
     the update, each value once *)
  (forall lb eb, b = VRef lb -> h !! lb = Some (CArr eb) ->
     exists lr es,
       v = VRef lr /\ lo < lr /\ h' !! lr = Some (CArr es) /\
       es = uniq (arrayElements h a ++ eb) /\
       NoDup es /\ forall x, x ∈ es <-> x ∈ arrayElements h a ++ eb) /\
  (* an object: a new object, which is the merge of the existing object
     with it *)
  (forall lb pb, b = VRef lb -> h !! lb = Some (CObj pb) ->
     exists lr pr,
       v = VRef lr /\ lo < lr /\ h' !! lr = Some (CObj pr) /\
       forall la pa, a = VRef la -> h !! la = Some (CObj pa) -> deeper pa pb pr).

Fixpoint merged (n : nat) (sp up rp : list (string * value)) : Prop :=
  match n with
  | O => True
  | S m =>
      forall key, inherited key = false ->
        fieldMerged (merged m)
          (props_get key sp) (props_get key up) (props_get key rp)
  end.
End Merged.

End Store.

(* ===================================================================== *)
(** * Configuration and staged records *)
(* ===================================================================== *)

Module Config.
Import Store.

(** An [IdMapping] of an import definition: the fields the loader reads. *)
Record idMapping := {
  sourceField : string;
  fieldToSet : option string;
  targetCollection : string;
  targetField : string;
}.

Inductive defType := TypeCreate | TypeUpdate.

(** An [ImportDef]; [A] is the type of its attribute mappings, which the
    loader only hands to its collaborators. *)
Record importDef (A : Type) := {
  type : option defType;
  primaryKeyField : string;
  idMappings : option (list idMapping);
  attributeMappings : A;
}.
Arguments type {A} _.
Arguments primaryKeyField {A} _.
Arguments idMappings {A} _.
Arguments attributeMappings {A} _.

Record configCollection (A : Type) := {
  collId : string;     (* [$id] *)
  name : string;
  importDefs : list (importDef A);
}.
Arguments collId {A} _.
Arguments name {A} _.
Arguments importDefs {A} _.

Record configDatabase := {
  dbId : string;       (* [$id] *)
  dbName : string;
}.

(** One entry of [CollectionImportData.data]. *)
Record importRecord (A : Type) := {
  rawData : value;
  context : value;
  finalData : value;
  recordDef : option (importDef A);   (* [importDef] *)
}.
Arguments rawData {A} _.
Arguments context {A} _.
Arguments finalData {A} _.
Arguments recordDef {A} _.

(** [CollectionImportData], without the collection schema. *)
Record stage (A : Type) := { data : list (importRecord A) }.
Arguments data {A} _.

Definition importMap (A : Type) := JsMap.t (stage A).

(** [a || b] on an optional string and a string. *)
Definition orElse (a : option string) (b : string) : string :=
  match a with
  | Some s => if JsString.nonEmpty s then s else b
  | None => b
  end.

End Config.

(* ===================================================================== *)
(** * The general cross-collection lookup *)
(* ===================================================================== *)

Module Resolver.
Import Store Config.
Local Open Scope store_scope.

(** What [logger.error] is called with when no target record matches. *)
Record diagnostic := NoDataFound {
  inCollection : string;
  forValue : string;
  forField : string;
}.

Section Lookup.
Context {A : Type}.

(** The callback of [targetCollectionData.data.filter(...)]. *)
Definition isMatch (idMapping : idMapping) (valueToMatch : value)
    (data : importRecord A) : M bool :=
  let* targetValue := getProp (context data) (targetField idMapping) in
  let* t := toString targetValue in
  let* m := toString valueToMatch in
  ret (String.eqb t m).

(** The body of [for (const idMapping of importDef.idMappings)], for the
    record [item] of the collection being walked.  The loop variables are
    [needsUpdate] and the diagnostics logged so far. *)
Definition resolveIdMapping (im : importMap A) (item : importRecord A)
    (idMapping : idMapping) (acc : bool * list diagnostic)
    : M (bool * list diagnostic) :=
  let targetCollectionKey := getCollectionKey (targetCollection idMapping) in
  let fieldToSetKey := orElse (fieldToSet idMapping) (sourceField idMapping) in
  let* valueToMatch := getProp (context item) (sourceField idMapping) in
  if negb (truthy valueToMatch) then ret acc else
  let* empty := isEmpty valueToMatch in
  if empty then ret acc else
  match JsMap.get targetCollectionKey im with
  | None => ret acc
  | Some targetCollectionData =>
      let* foundData :=
        filterM (isMatch idMapping valueToMatch) (data targetCollectionData) in
      match foundData with
      | [] =>
          let* shown := toString valueToMatch in
          ret (fst acc,
               snd acc ++ [NoDataFound targetCollectionKey shown fieldToSetKey])
      | first :: _ =>
          let* current := getProp (finalData item) fieldToSetKey in
          let* currentIsArray := isArray current in
          if currentIsArray then
            let* all := alloc (CArr (map finalData foundData)) in
            exec setProp (finalData item) fieldToSetKey all then
            ret (true, snd acc)
          else
            exec setProp (finalData item) fieldToSetKey (finalData first) then
            ret (true, snd acc)
      end
  end.

Definition resolveImportDef (im : importMap A) (item : importRecord A)
    (def : importDef A) (acc : bool * list diagnostic)
    : M (bool * list diagnostic) :=
  match idMappings def with
  | Some mappings => forEachAcc (resolveIdMapping im item) mappings acc
  | None => ret acc
  end.

Definition resolveItem (im : importMap A) (defs : list (importDef A))
    (item : importRecord A) (acc : bool * list diagnostic)
    : M (bool * list diagnostic) :=
  forEachAcc (resolveImportDef im item) defs acc.

(** The body of [for (const collectionConfig of this.config.collections)].
    The stage put back by [importMap.set] is the object that was read. *)
Definition resolveCollection (collectionConfig : configCollection A)
    (acc : importMap A * list diagnostic) : M (importMap A * list diagnostic) :=
  let im := fst acc in
  let collectionKey := getCollectionKey (name collectionConfig) in
  match JsMap.get collectionKey im with
  | None => ret acc
  | Some collectionData =>
      let* r := forEachAcc (resolveItem im (importDefs collectionConfig))
                  (data collectionData) (false, snd acc) in
      ret (if fst r then JsMap.set collectionKey collectionData im else im,
           snd r)
  end.

(** [updateOldReferencesForNew]; [collections] is [this.config.collections],
    which may be missing. *)
Definition updateOldReferencesForNew
    (collections : option (list (configCollection A))) (im : importMap A)
    : M (importMap A * list diagnostic) :=
  match collections with
  | None => ret (im, [])
  | Some cs => forEachAcc resolveCollection cs (im, [])
  end.
(** *** What the lookup observes of a store *)

(** The text a template literal prints for [v] in the store [h]. *)
Definition textOf (h : heap) (v : value) : option string :=
toStringFuel (length h) h v.

(** A staged record matches when its [context[targetField]] prints as the
    value to match does. *)
Definition matchesIn (h : heap) (idMapping : idMapping) (valueToMatch : value)
    (data : importRecord A) : bool :=
match getProp (context data) (targetField idMapping) h with
| Ok targetValue _ =>
    match textOf h targetValue, textOf h valueToMatch with
    | Some t, Some m => String.eqb t m
    | _, _ => false
    end
| _ => false
end.

(** The field of a record's final payload that a mapping sets. *)
Definition fieldToSetKey (idMapping : idMapping) : string :=
orElse (fieldToSet idMapping) (sourceField idMapping).

(** The cells that are the final payload of a staged record of a
    configured collection. *)
Definition isPayload (cs : list (configCollection A)) (im : importMap A)
    (l : loc) : Prop :=
exists cc st it,
  cc ∈ cs /\ JsMap.get (getCollectionKey (name cc)) im = Some st /\
  it ∈ data st /\ finalData it = VRef l.
End Lookup.

End Resolver.

(* ===================================================================== *)
(** * The create pass of an ordinary collection *)
(* ===================================================================== *)

Module Ingest.
Import Store Config.
Local Open Scope store_scope.

(** The calls of [logger.error] in [prepareCreateData]. *)
Inductive logEntry :=
| DuplicatePrimaryKey (collectionName oldId : string)
| NoStageForCreate (collectionName : string).

(** The fields of the [DataLoader] the create pass reads and writes;
    [idSupply] is what the next calls of [ID.unique()] return. *)
Record loader (A : Type) := {
  importMap : Config.importMap A;
  oldIdToNewIdPerCollectionMap : Ids.tables;
  collectionImportOperations : JsMap.t string;
  idSupply : list string;
  errors : list logEntry;
}.
Arguments importMap {A} _.
Arguments oldIdToNewIdPerCollectionMap {A} _.
Arguments collectionImportOperations {A} _.
Arguments idSupply {A} _.
Arguments errors {A} _.

Definition withTables {A} (t : Ids.tables) (st : loader A) : loader A :=
  {| importMap := importMap st; oldIdToNewIdPerCollectionMap := t;
     collectionImportOperations := collectionImportOperations st;
     idSupply := idSupply st; errors := errors st |}.

Definition withImportMap {A} (im : Config.importMap A) (st : loader A) : loader A :=
  {| importMap := im;
     oldIdToNewIdPerCollectionMap := oldIdToNewIdPerCollectionMap st;
     collectionImportOperations := collectionImportOperations st;
     idSupply := idSupply st; errors := errors st |}.

Definition withSupply {A} (s : list string) (st : loader A) : loader A :=
  {| importMap := importMap st;
     oldIdToNewIdPerCollectionMap := oldIdToNewIdPerCollectionMap st;
     collectionImportOperations := collectionImportOperations st;
     idSupply := s; errors := errors st |}.

Definition logError {A} (e : logEntry) (st : loader A) : loader A :=
  {| importMap := importMap st;
     oldIdToNewIdPerCollectionMap := oldIdToNewIdPerCollectionMap st;
     collectionImportOperations := collectionImportOperations st;
     idSupply := idSupply st; errors := errors st ++ [e] |}.

Abbreviation tableOf := Ids.tableOf (only parsing).

(** [{ ...base, k1: v1, ... }]: later properties overwrite earlier ones. *)
Definition assignProps (base extra : list (string * value)) : list (string * value) :=
  fold_left (fun acc kv => props_set (fst kv) (snd kv) acc) extra base.

(** [createContext(db, collection, item, docId)]. *)
Definition createContext {A} (db : configDatabase) (collection : configCollection A)
    (item : value) (docId : string) : M value :=
  let* itemProps := ownProps item in
  let* createdDoc := alloc (CObj []) in
  alloc (CObj (assignProps itemProps
                 [("dbId", VStr (dbId db)); ("dbName", VStr (dbName db));
                  ("collId", VStr (collId collection));
                  ("collName", VStr (name collection));
                  ("docId", VStr docId); ("createdDoc", createdDoc)])).

(** [{ ...a, ...b }]. *)
Definition spread2 (a b : value) : M value :=
  let* aProps := ownProps a in
  let* bProps := ownProps b in
  alloc (CObj (assignProps aProps bProps)).

(** The text [`${item[primaryKeyField]}`] of an item's primary key, as the
    store [h] has it. *)
Definition primaryKeyText (h : heap) (item : value) (primaryKeyField : string)
    : option string :=
match getProp item primaryKeyField h with
| Ok oldId _ =>
    match toString oldId h with
    | Ok text _ => Some text
    | _ => None
    end
| _ => None
end.

Section CreatePass.
Context {A : Type}.

(** The collaborators of the loader: [this.transformData] (the converters
    of the attribute mappings), [importDataActions.validateItem], and the
    template resolution inside [getAttributeMappingsWithActions].  They
    work on the store; the loader's tables are private to it. *)
Variable transformData : value -> A -> M value.
Variable validateItem : value -> A -> value -> M bool.
Variable getAttributeMappingsWithActions : A -> value -> value -> M A.

(** What follows the primary-key check in the loop body. *)
Definition stageItem (collection : configCollection A) (importDef : importDef A)
    (currentData : option (stage A)) (item context transformedData : value)
    (st : loader A) : M (loader A) :=
  let key := getCollectionKey (name collection) in
  let* context := spread2 context transformedData in
  let* isValid := validateItem transformedData (attributeMappings importDef) context in
  if negb isValid then ret st else
  let* mappingsWithActions :=
    getAttributeMappingsWithActions (attributeMappings importDef) context transformedData in
  let newImportDef :=
    {| type := type importDef; primaryKeyField := primaryKeyField importDef;
       idMappings := idMappings importDef;
       attributeMappings := mappingsWithActions |} in
  match currentData with
  | Some cd =>
      let pushed :=
        {| data := data cd ++
             [{| rawData := item; context := context;
                 finalData := transformedData;
                 recordDef := Some newImportDef |}] |} in
      let t := oldIdToNewIdPerCollectionMap st in
      ret (withTables (JsMap.set key (tableOf t key) t)
             (withImportMap (JsMap.set key pushed (importMap st)) st))
  | None => ret (logError (NoStageForCreate (name collection)) st)
  end.

(** The body of [for (const item of rawData)]. *)
Definition createItem (db : configDatabase) (collection : configCollection A)
    (importDef : importDef A) (item : value) (st : loader A) : M (loader A) :=
  let key := getCollectionKey (name collection) in
  match Ids.getTrueUniqueId (oldIdToNewIdPerCollectionMap st) key (idSupply st) with
  | None => fail
  | Some (itemIdNew, supply') =>
      let st := withSupply supply' st in
      let currentData := JsMap.get key (importMap st) in
      let* context := createContext db collection item itemIdNew in
      let* transformedData := transformData item (attributeMappings importDef) in
      if JsString.nonEmpty (primaryKeyField importDef) then
        let* oldId := getProp item (primaryKeyField importDef) in
        let* oldIdText := toString oldId in
        let t := oldIdToNewIdPerCollectionMap st in
        if JsMap.has oldIdText (tableOf t key) then
          ret (logError (DuplicatePrimaryKey (name collection) oldIdText) st)
        else
          let st := withTables
                      (JsMap.set key (JsMap.set oldIdText itemIdNew (tableOf t key)) t)
                      st in
          stageItem collection importDef currentData item context transformedData st
      else
        stageItem collection importDef currentData item context transformedData st
  end.

(** [prepareCreateData(db, collection, importDef)]; [rawData] is what
    [this.loadData(importDef)] read from the data file. *)
Definition prepareCreateData (db : configDatabase) (collection : configCollection A)
    (importDef : importDef A) (rawData : list value) (st : loader A) : M (loader A) :=
  let key := getCollectionKey (name collection) in
  match JsMap.get key (collectionImportOperations st) with
  | None => throwError
  | Some operationId =>
      if negb (JsString.nonEmpty operationId) then throwError else
      let t := oldIdToNewIdPerCollectionMap st in
      let st := match JsMap.get key t with
                | Some _ => st
                | None => withTables (JsMap.set key [] t) st
                end in
      forEachAcc (createItem db collection importDef) rawData st
  end.
End CreatePass.

End Ingest.

(* ===================================================================== *)
(** * Identity deduplication *)
(* ===================================================================== *)

Module Identity.

(** The fields of a parsed account ([userData.data]) the loader reads; a
    field that is [null] or [undefined] is [None]. *)
Record authUser := {
  email : option string;
  phone : option string;
}.

(** A record of the "users" stage: the raw item and the parsed account,
    with the [userId] written into it. *)
Record stagedUser (item : Type) := {
  rawData : item;
  finalData : authUser;
  userId : option string;
}.
Arguments rawData {item} _.
Arguments finalData {item} _.
Arguments userId {item} _.

(** The tables of the [DataLoader] that [prepareUserData] works on. *)
Record registry (item : Type) := {
  emailToUserIdMap : JsMap.t string;
  phoneToUserIdMap : JsMap.t string;
  mergedUserMap : JsMap.t (list string);
  usersStage : list (stagedUser item);   (* [importMap.get("users").data] *)
}.
Arguments emailToUserIdMap {item} _.
Arguments phoneToUserIdMap {item} _.
Arguments mergedUserMap {item} _.
Arguments usersStage {item} _.

(** What [prepareUserData] returns: the transformed item alone when the
    account does not parse, the triple otherwise. *)
Inductive prepared (item : Type) :=
| InvalidUser (transformedItem : item)
| PreparedUser (transformedItem : item) (existingId : string)
    (userDataToAdd : stagedUser item).
Arguments InvalidUser {item} _.
Arguments PreparedUser {item} _ _ _.

(** The truth value of [existingId : string | undefined]. *)
Definition truthyId (existingId : option string) : bool :=
  match existingId with
  | Some s => JsString.nonEmpty s
  | None => false
  end.

(** One of the two checks: [if (k && k.length > 0) { if (index.has(k))
    existingId = index.get(k); else index.set(k, newId); }]. *)
Definition checkNaturalKey (k : option string) (newId : string)
    (index : JsMap.t string) (existingId : option string)
    : JsMap.t string * option string :=
  match k with
  | Some key =>
      if JsString.nonEmpty key then
        if JsMap.has key index then (index, JsMap.get key index)
        else (JsMap.set key newId index, existingId)
      else (index, existingId)
  | None => (index, existingId)
  end.

(** [mergedUsers = map.get(id) || []; mergedUsers.push(old); map.set(id,
    mergedUsers)]. *)
Definition addToBucket (id oldId : string) (m : JsMap.t (list string))
    : JsMap.t (list string) :=
  let mergedUsers := match JsMap.get id m with Some b => b | None => [] end in
  JsMap.set id (mergedUsers ++ [oldId]) m.

Definition userKeys : list string := ["email"; "phone"; "name"; "labels"; "prefs"].

Section Engine.
Context {item A : Type}.

(** The collaborators: [this.transformData], the schema
    [AuthUserCreateSchema.safeParse] ([None] when it does not succeed),
    the text [`${item[primaryKeyField]}`] of the primary key, and the
    removal of properties from an item. *)
Variable transformData : item -> A -> item.
Variable safeParse : item -> option authUser.
Variable primaryKeyText : item -> string -> string.
Variable deleteKeys : list string -> item -> item.

(** [prepareUserData(item, attributeMappings, primaryKeyField, newId)]. *)
Definition prepareUserData (it : item) (attributeMappings : A)
    (primaryKeyField newId : string) (r : registry item)
    : registry item * prepared item :=
  let transformedItem := transformData it attributeMappings in
  match safeParse transformedItem with
  | None => (r, InvalidUser transformedItem)
  | Some userData =>
      let existingId : option string := None in
      let '(emails, existingId) :=
        checkNaturalKey (email userData) newId (emailToUserIdMap r) existingId in
      let '(phones, existingId) :=
        checkNaturalKey (phone userData) newId (phoneToUserIdMap r) existingId in
      let existingId := if truthyId existingId then existingId else Some newId in
      let merged :=
        match existingId with
        | Some id =>
            if JsString.nonEmpty id
            then addToBucket id (primaryKeyText it primaryKeyField) (mergedUserMap r)
            else mergedUserMap r
        | None => mergedUserMap r
        end in
      let userDataToAdd :=
        {| rawData := it; finalData := userData;
           userId := if truthyId existingId then existingId else None |} in
      let transformedItem := deleteKeys userKeys transformedItem in
      ({| emailToUserIdMap := emails; phoneToUserIdMap := phones;
          mergedUserMap := merged;
          usersStage := usersStage r ++ [userDataToAdd] |},
       PreparedUser transformedItem
         (match existingId with Some id => id | None => newId end)
         userDataToAdd)
  end.

(** The engine: [prepareUserData] called for each record in turn, the
    i-th with the i-th new identifier. *)
Fixpoint processIdentities (attributeMappings : A) (primaryKeyField : string)
    (items : list item) (newIds : list string) (r : registry item)
    : registry item :=
  match items, newIds with
  | it :: items', newId :: newIds' =>
      processIdentities attributeMappings primaryKeyField items' newIds'
        (fst (prepareUserData it attributeMappings primaryKeyField newId r))
  | _, _ => r
  end.
End Engine.

(** The source identifiers unified into a canonical identifier. *)
Definition bucket (m : JsMap.t (list string)) (id : string) : list string :=
  match JsMap.get id m with Some b => b | None => [] end.

(** [getAllUsers], after the fetch: the registry it sets up from the
    accounts that exist already, each with its [$id]. *)
Definition getAllUsers {item} (users : list (string * authUser))
    : registry item :=
  fold_left
    (fun r u =>
       let id := fst u in
       {| emailToUserIdMap :=
            match email (snd u) with
            | Some e => if JsString.nonEmpty e
                        then JsMap.set e id (emailToUserIdMap r)
                        else emailToUserIdMap r
            | None => emailToUserIdMap r
            end;
          phoneToUserIdMap :=
            match phone (snd u) with
            | Some p => if JsString.nonEmpty p
                        then JsMap.set p id (phoneToUserIdMap r)
                        else phoneToUserIdMap r
            | None => phoneToUserIdMap r
            end;
          mergedUserMap := mergedUserMap r;
          usersStage := usersStage r |})
    users
    {| emailToUserIdMap := []; phoneToUserIdMap := [];
       mergedUserMap := []; usersStage := [] |}.

(** Every source identifier of the table, bucket after bucket. *)
Definition allSources (m : JsMap.t (list string)) : list string :=
concat (JsMap.values m).

(** No source identifier lies in the buckets of two canonical identifiers. *)
Definition bucketsDisjoint (m : JsMap.t (list string)) : Prop :=
forall id1 id2 s, id1 <> id2 -> s ∈ bucket m id1 -> s ∈ bucket m id2 -> False.

(** The buckets in the order they were opened, without their canonical
    identifiers. *)
Definition buckets (m : JsMap.t (list string)) : list (list string) :=
JsMap.values m.

(** The identifiers a registry mentions. *)
Definition idsOf {item} (r : registry item) : list string :=
JsMap.values (emailToUserIdMap r) ++ JsMap.values (phoneToUserIdMap r)
  ++ JsMap.keys (mergedUserMap r).

(** *** Two runs compared

    Two runs that draw different new identifiers are compared through a
    relation [R] between the identifiers of the first and of the second. *)
Section Renaming.
Variable R : string -> string -> Prop.

Record renaming : Prop := {
  ren_fun : forall x y y', R x y -> R x y' -> y = y';
  ren_inj : forall x x' y, R x y -> R x' y -> x = x';
  ren_empty : forall x y, R x y -> JsString.nonEmpty x = JsString.nonEmpty y;
}.

Definition sameId (a b : option string) : Prop :=
match a, b with
| Some x, Some y => R x y
| None, None => True
| _, _ => False
end.

(** The same natural keys in the same order, with related identifiers. *)
Definition sameIndex (i1 i2 : JsMap.t string) : Prop :=
Forall2 (fun a b => fst a = fst b /\ R (snd a) (snd b)) i1 i2.

(** The same buckets in the same order, under related identifiers. *)
Definition sameTable (m1 m2 : JsMap.t (list string)) : Prop :=
Forall2 (fun a b => R (fst a) (fst b) /\ snd a = snd b) m1 m2.

Definition sameRegistry {item} (r1 r2 : registry item) : Prop :=
sameIndex (emailToUserIdMap r1) (emailToUserIdMap r2) /\
sameIndex (phoneToUserIdMap r1) (phoneToUserIdMap r2) /\
sameTable (mergedUserMap r1) (mergedUserMap r2).
End Renaming.

End Identity.

(* ===================================================================== *)
(** * The control flow of [start] *)
(* ===================================================================== *)

Module Pipeline.
Import Config.

(** The fields of [AppwriteConfig] that [start] reads. *)
Record appwriteConfig (A : Type) := {
  databases : list configDatabase;
  collections : option (list (configCollection A));
  usersCollectionName : string;
}.
Arguments databases {A} _.
Arguments collections {A} _.
Arguments usersCollectionName {A} _.

Inductive passKind := Create | UserCreate | Update | UpdateSkipped.

(** What has happened, in order: a call that returned, or an update
    definition passed over because the import map has no stage. *)
Inductive event (A : Type) :=
| MapsSetUp
| UsersFetched
| Prepared (kind : passKind) (collectionName : string) (def : importDef A)
| MergedUsersRewritten
| ReferencesResolved.
Arguments MapsSetUp {A}.
Arguments UsersFetched {A}.
Arguments Prepared {A} _ _ _.
Arguments MergedUsersRewritten {A}.
Arguments ReferencesResolved {A}.

Definition isCreateDef {A} (def : importDef A) : bool :=
  match type def with
  | Some TypeCreate | None => true
  | Some TypeUpdate => false
  end.

Definition isUpdateDef {A} (def : importDef A) : bool :=
  match type def with
  | Some TypeUpdate => true
  | _ => false
  end.

Section Start.
Context {A S : Type}.

(** The passes, as transformers of the loader's state [S]; [None] is a
    thrown exception (every call is awaited, so it leaves [start]). *)
Variable setupMaps : string -> S -> option S.
Variable getAllUsers : S -> option S.
Variable prepareCreateData : configDatabase -> configCollection A -> importDef A -> S -> option S.
Variable prepareUserCollectionCreateData : configDatabase -> configCollection A -> importDef A -> S -> option S.
Variable prepareUpdateData : configDatabase -> configCollection A -> importDef A -> S -> option S.
Variable dealWithMergedUsers : S -> option S.
Variable updateOldReferencesForNew : S -> option S.
Variable importMapHas : S -> string -> bool.

(** An event, with the state of the loader when it is recorded: the state
    the awaited call has returned. *)
Definition entry := (event A * S)%type.

(** The events so far, and the state unless an exception has escaped. *)
Definition run := (list entry * option S)%type.

(** [await f(...)]: the event is recorded when the call returns. *)
Definition call (f : S -> option S) (e : event A) (r : run) : run :=
  match r with
  | (tr, Some s) =>
      match f s with
      | Some s' => (tr ++ [(e, s')], Some s')
      | None => (tr, None)
      end
  | (tr, None) => (tr, None)
  end.

Definition createStep (cfg : appwriteConfig A) (db : configDatabase)
    (collection : configCollection A) (r : run) (createDef : importDef A) : run :=
  let isUsersCollection :=
    String.eqb (getCollectionKey (usersCollectionName cfg))
               (getCollectionKey (name collection)) in
  if negb isUsersCollection
  then call (prepareCreateData db collection createDef)
            (Prepared Create (name collection) createDef) r
  else call (prepareUserCollectionCreateData db collection createDef)
            (Prepared UserCreate (name collection) createDef) r.

Definition updateStep (db : configDatabase) (collection : configCollection A)
    (r : run) (updateDef : importDef A) : run :=
  match r with
  | (tr, Some s) =>
      if negb (importMapHas s (getCollectionKey (name collection)))
      then (tr ++ [(Prepared UpdateSkipped (name collection) updateDef, s)], Some s)
      else call (prepareUpdateData db collection updateDef)
                (Prepared Update (name collection) updateDef) r
  | (tr, None) => (tr, None)
  end.

(** The body of [for (const collectionConfig of this.config.collections)]. *)
Definition processCollection (cfg : appwriteConfig A) (db : configDatabase)
    (r : run) (collection : configCollection A) : run :=
  let createDefs := filter isCreateDef (importDefs collection) in
  let updateDefs := filter isUpdateDef (importDefs collection) in
  let r := fold_left (createStep cfg db collection) createDefs r in
  fold_left (updateStep db collection) updateDefs r.

(** The body of [for (const db of this.config.databases)]. *)
Definition processDatabase (cfg : appwriteConfig A) (dbId : string)
    (r : run) (db : configDatabase) : run :=
  if negb (String.eqb (Config.dbId db) dbId) then r else
  match collections cfg with
  | None => r
  | Some cs =>
      let r := fold_left (processCollection cfg db) cs r in
      let r := call dealWithMergedUsers MergedUsersRewritten r in
      call updateOldReferencesForNew ReferencesResolved r
  end.

(** [start(dbId)], up to the optional writing of the maps to a file. *)
Definition start (cfg : appwriteConfig A) (dbId : string) (s : S) : run :=
  let r := call (setupMaps dbId) MapsSetUp ([], Some s) in
  let r := call getAllUsers UsersFetched r in
  fold_left (processDatabase cfg dbId) (databases cfg) r.

(** *** What a trace says

    The state in which the step after the events [pre] is taken: the one
    the last of them has left, or the state [s0] the run started in. *)
Definition stateAfter (s0 : S) (pre : list entry) : S :=
  match last pre with
  | Some e => snd e
  | None => s0
  end.

(** What a preparation event of the kind [kind] stands for, for the
    definition [def] of the collection [c], taken in the state [s] and
    recorded with the state [s']: the pass that was awaited and has
    returned [s'], or, for an update definition that was passed over, that
    the import map had no stage for the collection. *)
Definition completed (cfg : appwriteConfig A) (db : configDatabase)
    (c : configCollection A) (def : importDef A) (kind : passKind)
    (s s' : S) : Prop :=
  let isUsersCollection :=
    String.eqb (getCollectionKey (usersCollectionName cfg))
               (getCollectionKey (name c)) in
  match kind with
  | Create =>
      isUsersCollection = false /\ prepareCreateData db c def s = Some s'
  | UserCreate =>
      isUsersCollection = true /\ prepareUserCollectionCreateData db c def s = Some s'
  | Update =>
      importMapHas s (getCollectionKey (name c)) = true /\
      prepareUpdateData db c def s = Some s'
  | UpdateSkipped =>
      importMapHas s (getCollectionKey (name c)) = false /\ s' = s
  end.

Definition isCreateKind (kind : passKind) : bool :=
  match kind with
  | Create | UserCreate => true
  | Update | UpdateSkipped => false
  end.

(** The entry [e], recorded by a step taken in the state [s], is the
    completed create (update) preparation of the definition [def]. *)
Definition createEntry (cfg : appwriteConfig A) (db : configDatabase)
    (c : configCollection A) (def : importDef A) (s : S) (e : entry) : Prop :=
  exists kind, isCreateKind kind = true /\ fst e = Prepared kind (name c) def /\
               completed cfg db c def kind s (snd e).

Definition updateEntry (cfg : appwriteConfig A) (db : configDatabase)
    (c : configCollection A) (def : importDef A) (s : S) (e : entry) : Prop :=
  exists kind, isCreateKind kind = false /\ fst e = Prepared kind (name c) def /\
               completed cfg db c def kind s (snd e).

(** In the trace [tr] of a run from the state [s0], the definition [def]
    of the collection [c] has been prepared for a database of the
    identifier [dbId]: by a create pass if it is a create definition, by
    the update pass (or passed over, without a stage) if it is an update
    definition. *)
Definition prepared (cfg : appwriteConfig A) (dbId : string) (s0 : S)
    (tr : list entry) (c : configCollection A) (def : importDef A) : Prop :=
  exists pre post kind s' db,
    tr = pre ++ (Prepared kind (name c) def, s') :: post /\
    db ∈ databases cfg /\ Config.dbId db = dbId /\
    isCreateKind kind = isCreateDef def /\
    completed cfg db c def kind (stateAfter s0 pre) s'.

(** Every import definition of every configured collection has been
    prepared in [tr]. *)
Definition covered (cfg : appwriteConfig A) (dbId : string) (s0 : S)
    (tr : list entry) : Prop :=
  forall cs c def,
    collections cfg = Some cs -> c ∈ cs -> def ∈ importDefs c ->
    prepared cfg dbId s0 tr c def.
End Start.

(** A sequence of entries for the items [xs], each justified by [P] in the
    state the one before it has left; the first in the state [s]. *)
Fixpoint chain {X E St : Type} (P : X -> St -> E * St -> Prop) (s : St)
    (xs : list X) (es : list (E * St)) : Prop :=
  match xs, es with
  | [], [] => True
  | x :: xs', e :: es' => P x s e /\ chain P (snd e) xs' es'
  | _, _ => False
  end.

Definition isPreparation {A S} (e : event A * S) : Prop :=
exists kind c def, fst e = Prepared kind c def.

End Pipeline.

(* ===================================================================== *)
(** * Concrete configurations and records *)
(* ===================================================================== *)

Module Examples.
Import Store Config.

(** Collaborators that keep the item as it is and accept it. *)
Definition keepItem (item : value) (_ : unit) : M value := ret item.
Definition acceptItem (_ : value) (_ : unit) (_ : value) : M bool := ret true.
Definition noActions (am : unit) (_ _ : value) : M unit := ret am.

Definition mainDb : configDatabase := {| dbId := "db1"; dbName := "Main" |}.

Definition itemsDef : importDef unit :=
  {| type := Some TypeCreate; primaryKeyField := "id";
     idMappings := None; attributeMappings := tt |}.

Definition itemsCollection : configCollection unit :=
  {| collId := "c1"; name := "Items"; importDefs := [itemsDef] |}.

(** A loader with an empty stage for "Items" and no identifier table yet. *)
Definition freshLoader (supply : list string) : Ingest.loader unit :=
  {| Ingest.importMap := [("items", {| data := [] |})];
     Ingest.oldIdToNewIdPerCollectionMap := [];
     Ingest.collectionImportOperations := [("items", "op1")];
     Ingest.idSupply := supply;
     Ingest.errors := [] |}.

(** One source record whose primary key is the empty string. *)
Definition emptyKeyStore : heap :=
  [CObj [("id", VStr ""); ("title", VStr "first")]].

(** Two source records keyed 42, the first as a number, the second as a
    string. *)
Definition twiceFortyTwo : heap :=
  [CObj [("id", VNum 42); ("title", VStr "first")];
   CObj [("id", VStr "42"); ("title", VStr "second")]].

(** Source records that are flat objects with string fields, and
    collaborators that read the account from the fields [email] and [phone]
    without transforming the record. *)
Definition flatItem := list (string * string).
Definition flatTransform (it : flatItem) (_ : unit) : flatItem := it.
Definition flatParse (it : flatItem) : option Identity.authUser :=
Some {| Identity.email := JsMap.get "email" it; Identity.phone := JsMap.get "phone" it |}.
Definition flatKeyText (it : flatItem) (field : string) : string :=
match JsMap.get field it with Some s => s | None => "undefined" end.
Definition flatDelete (ks : list string) (it : flatItem) : flatItem :=
filter (fun kv => negb (existsb (String.eqb (fst kv)) ks)) it.

Definition flatEngine :=
Identity.processIdentities flatTransform flatParse flatKeyText flatDelete tt "id".

Definition noUsers : Identity.registry flatItem := Identity.getAllUsers [].

(** Two accounts with the same source identifier and different emails. *)
Definition sameKeyTwice : list flatItem :=
[ [("id", "1"); ("email", "a@x.com")]; [("id", "1"); ("email", "b@x.com")] ].

(** Two accounts with the same email and different phones. *)
Definition sameEmailTwice : list flatItem :=
[ [("id", "1"); ("email", "a@x.com"); ("phone", "+100")];
  [("id", "2"); ("email", "a@x.com"); ("phone", "+200")] ].

(** Three accounts with distinct source identifiers: the first and the
    third share an email, the second has its own. *)
Definition twoPeople : list flatItem :=
[ [("id", "1"); ("email", "a@x.com")];
  [("id", "2"); ("email", "b@x.com")];
  [("id", "3"); ("email", "a@x.com")] ].

(** Two existing accounts, and a record with the email of the first and the
    phone of the second. *)
Definition twoAccounts : Identity.registry flatItem :=
Identity.getAllUsers
  [("u1", {| Identity.email := Some "a@x.com"; Identity.phone := Some "+100" |});
   ("u2", {| Identity.email := Some "b@x.com"; Identity.phone := Some "+200" |})].

Definition straddler : flatItem :=
[("id", "7"); ("email", "a@x.com"); ("phone", "+200")].

(** The loader and the store after the create pass has taken the first of
    the two records keyed 42. *)
Definition afterFirstFortyTwo : outcome (Ingest.loader unit) :=
Ingest.prepareCreateData keepItem acceptItem noActions mainDb itemsCollection
  itemsDef [VRef 0] (freshLoader ["abc"; "def"]) twiceFortyTwo.

Definition loaderAfterFirst : Ingest.loader unit :=
match afterFirstFortyTwo with Ok st _ => st | _ => freshLoader [] end.

Definition storeAfterFirst : heap :=
match afterFirstFortyTwo with Ok _ h => h | _ => [] end.

(** An existing record (cell 0) and an update for it (cell 1), with their
    arrays (cells 2 and 3) and nested objects (cells 4 and 5). *)
Definition mergeStore : heap :=
[ CObj [("a", VNum 1); ("tags", VRef 2); ("n", VRef 4); ("z", VStr "keep")];
  CObj [("a", VNull); ("tags", VRef 3); ("n", VRef 5); ("b", VStr "x"); ("q", VNull)];
  CArr [VNum 1; VNum 2];
  CArr [VNum 2; VNum 3; VNum 3];
  CObj [("x", VNum 1)];
  CObj [("y", VNum 2); ("x", VNull)] ].

(** Owners and pets: a pet's context holds the source identifier of its
    owner in [ownerOrig]; the mapping looks it up among the owners' [origId]
    and sets the pet's [owner]. *)
Definition ownerMapping : idMapping :=
{| sourceField := "ownerOrig"; fieldToSet := Some "owner";
   targetCollection := "Owners"; targetField := "origId" |}.

Definition petsDef : importDef unit :=
{| type := Some TypeCreate; primaryKeyField := "id";
   idMappings := Some [ownerMapping]; attributeMappings := tt |}.

Definition ownersDef : importDef unit :=
{| type := Some TypeCreate; primaryKeyField := "origId";
   idMappings := None; attributeMappings := tt |}.

Definition ownersCollection : configCollection unit :=
{| collId := "c2"; name := "Owners"; importDefs := [ownersDef] |}.

Definition petsCollection : configCollection unit :=
{| collId := "c3"; name := "Pets"; importDefs := [petsDef] |}.

(** Cells 0 and 1: the context and the payload of the owner "Ann"; cells 2
    and 3: those of the pet "Rex"; cells 4 and 5: those of a second owner
    with the same source identifier. *)
Definition petStore : heap :=
[ CObj [("origId", VStr "7"); ("name", VStr "Ann"); ("docId", VStr "abc")];
  CObj [("name", VStr "Ann")];
  CObj [("id", VStr "r1"); ("ownerOrig", VStr "7"); ("docId", VStr "p1")];
  CObj [("name", VStr "Rex")];
  CObj [("origId", VStr "7"); ("name", VStr "Bob"); ("docId", VStr "abd")];
  CObj [("name", VStr "Bob")] ].

Definition ann : importRecord unit :=
{| rawData := VRef 0; context := VRef 0; finalData := VRef 1; recordDef := Some ownersDef |}.
Definition rex : importRecord unit :=
{| rawData := VRef 2; context := VRef 2; finalData := VRef 3; recordDef := Some petsDef |}.
Definition bob : importRecord unit :=
{| rawData := VRef 4; context := VRef 4; finalData := VRef 5; recordDef := Some ownersDef |}.

Definition oneOwner : importMap unit :=
[("owners", {| data := [ann] |}); ("pets", {| data := [rex] |})].

Definition twoOwners : importMap unit :=
[("owners", {| data := [ann; bob] |}); ("pets", {| data := [rex] |})].

(** One database with the collection "Items"; the accounts live in a
    collection "Members" that is not configured. *)
Definition itemsConfig : Pipeline.appwriteConfig unit :=
{| Pipeline.databases := [mainDb];
   Pipeline.collections := Some [itemsCollection];
   Pipeline.usersCollectionName := "Members" |}.

(** Passes that return without touching a state of no content. *)
Definition passReturns (_ : configDatabase) (_ : configCollection unit)
    (_ : importDef unit) (s : unit) : option unit := Some s.

(** The collection "Items" with a create and an update definition, and
    passes that count in the state: a create pass adds 1, the update
    pass 10, the rewrite 100, the lookup 1000. *)
Definition againDef : importDef unit :=
{| type := Some TypeUpdate; primaryKeyField := "id";
   idMappings := None; attributeMappings := tt |}.

Definition bothCollection : configCollection unit :=
{| collId := "c1"; name := "Items"; importDefs := [itemsDef; againDef] |}.

Definition bothConfig : Pipeline.appwriteConfig unit :=
{| Pipeline.databases := [mainDb];
   Pipeline.collections := Some [bothCollection];
   Pipeline.usersCollectionName := "Members" |}.

Definition countCreate (_ : configDatabase) (_ : configCollection unit)
    (_ : importDef unit) (s : nat) : option nat := Some (s + 1).
Definition countUpdate (_ : configDatabase) (_ : configCollection unit)
    (_ : importDef unit) (s : nat) : option nat := Some (s + 10).

Definition countingRun : Pipeline.run (A:=unit) (S:=nat) :=
Pipeline.start (fun _ s => Some s) Some countCreate countCreate countUpdate
  (fun s => Some (s + 100)) (fun s => Some (s + 1000)) (fun _ _ => true)
  bothConfig "db1" 0.

End Examples.

(* ===================================================================== *)
(** * Looking identifiers up *)
(* ===================================================================== *)

Module Related.
Import Store Config.
Local Open Scope store_scope.

(** [getMergedId(oldId, relatedCollectionName)]: the new identifier the
    related collection's table has for [oldId], or [oldId] itself. *)
Definition getMergedId (tbl : Ids.tables) (oldId relatedCollectionName : string)
    : string :=
  match JsMap.get (getCollectionKey relatedCollectionName) tbl with
  | Some oldToNewIdMap =>
      if JsMap.has oldId oldToNewIdMap then
        match JsMap.get oldId oldToNewIdMap with
        | Some newId => newId
        | None => oldId            (* not reached: the key is there *)
        end
      else oldId
  | None => oldId
  end.

(** [oldIds.includes(oldId)] on an array of strings: only a string is
    ever equal to one of them. *)
Definition includes (oldIds : list string) (oldId : value) : bool :=
  match oldId with
  | VStr s => existsb (String.eqb s) oldIds
  | _ => false
  end.

(** [for (const [newUserId, oldIds] of this.mergedUserMap.entries())
    if (oldIds.includes(oldId)) return newUserId]. *)
Fixpoint mergedIdOf (entries : list (string * list string)) (oldId : value)
    : option string :=
  match entries with
  | [] => None
  | (newUserId, oldIds) :: rest =>
      if includes oldIds oldId then Some newUserId else mergedIdOf rest oldId
  end.

(** [xs.find(p)] with a predicate that reads the store. *)
Fixpoint findM {X} (p : X -> M bool) (l : list X) : M (option X) :=
  match l with
  | [] => ret None
  | x :: r =>
      let* found := p x in
      if found then ret (Some x) else findM p r
  end.

Section Find.
Context {A : Type}.

(** [findNewIdForOldId(oldId, idMapping, importDef)]; [null] when no new
    identifier is found (the error it logs then is not represented). *)
Definition findNewIdForOldId (usersCollectionName : string)
    (mergedUserMap : JsMap.t (list string)) (im : importMap A)
    (oldId : value) (idMapping : idMapping) (importDef : importDef A) : M value :=
  let targetCollectionKey := getCollectionKey (targetCollection idMapping) in
  let isUsersCollection :=
    String.eqb targetCollectionKey (getCollectionKey usersCollectionName) in
  match (if isUsersCollection then mergedIdOf mergedUserMap oldId else None) with
  | Some newUserId => ret (VStr newUserId)
  | None =>
      match JsMap.get targetCollectionKey im with
      | Some targetCollectionData =>
          let* foundEntry :=
            findM (fun entry =>
                     let* v := getProp (context entry) (primaryKeyField importDef) in
                     ret (value_eqb v oldId))
                  (data targetCollectionData) in
          match foundEntry with
          | Some entry => getProp (context entry) "docId"
          | None => ret VNull
          end
      | None => ret VNull
      end
  end.
End Find.

End Related.

(* ===================================================================== *)
(** * The rewrite of references to merged accounts *)
(* ===================================================================== *)

Module MergedUsers.
Import Store Config.
Local Open Scope store_scope.

Section Rewrite.
Context {A : Type}.

(** [usersCollectionPrimaryKeyFields]: the primary key fields of the import
    definitions of the collections keyed as the users collection. *)
Definition usersPrimaryKeyFields (usersCollectionKey : string)
    (cs : list (configCollection A)) : list string :=
  concat
    (map (fun collection =>
            if String.eqb (getCollectionKey (name collection)) usersCollectionKey
            then map primaryKeyField
                   (filter (fun importDef => JsString.nonEmpty (primaryKeyField importDef))
                      (importDefs collection))
            else [])
         cs).

(** The body of [collectionData.data.forEach((item) => ...)].  The merge
    table is keyed by strings, so only a string finds an entry; an entry
    is an array, here the location of its cell, and is truthy. *)
Definition rewriteItem (mergedUserMap : JsMap.t loc) (idMapping : idMapping)
    (item : importRecord A) : M unit :=
  let* oldId := getProp (context item) (sourceField idMapping) in
  let newId :=
    match oldId with
    | VStr s => JsMap.get s mergedUserMap
    | _ => None
    end in
  match newId with
  | Some bucket =>
      setProp (context item)
        (orElse (fieldToSet idMapping) (targetField idMapping)) (VRef bucket)
  | None => ret tt
  end.

Definition rewriteMapping (usersCollectionKey : string) (pkFields : list string)
    (mergedUserMap : JsMap.t loc) (collectionData : stage A)
    (idMapping : idMapping) : M unit :=
  if String.eqb (getCollectionKey (targetCollection idMapping)) usersCollectionKey then
    if existsb (String.eqb (targetField idMapping)) pkFields then
      forEach (rewriteItem mergedUserMap idMapping) (data collectionData)
    else ret tt
  else ret tt.

Definition rewriteCollection (usersCollectionKey : string) (pkFields : list string)
    (mergedUserMap : JsMap.t loc) (im : importMap A)
    (collection : configCollection A) : M unit :=
  match JsMap.get (getCollectionKey (name collection)) im with
  | None => ret tt
  | Some collectionData =>
      forEach (fun importDef =>
                 match idMappings importDef with
                 | Some mappings =>
                     forEach (rewriteMapping usersCollectionKey pkFields
                                mergedUserMap collectionData) mappings
                 | None => ret tt
                 end)
              (importDefs collection)
  end.

(** [dealWithMergedUsers]. *)
Definition dealWithMergedUsers (usersCollectionName : string)
    (collections : option (list (configCollection A)))
    (mergedUserMap : JsMap.t loc) (im : importMap A) : M unit :=
  let usersCollectionKey := getCollectionKey usersCollectionName in
  match collections with
  | None => ret tt
  | Some cs =>
      let pkFields := usersPrimaryKeyFields usersCollectionKey cs in
      forEach (rewriteCollection usersCollectionKey pkFields mergedUserMap im) cs
  end.

(** The cells that are the context of a staged record of a configured
    collection. *)
Definition isContext (cs : list (configCollection A)) (im : importMap A)
    (l : loc) : Prop :=
  exists cc st it,
    cc ∈ cs /\ JsMap.get (getCollectionKey (name cc)) im = Some st /\
    it ∈ data st /\ context it = VRef l.
End Rewrite.

End MergedUsers.

(* ===================================================================== *)
(** * The update pass *)
(* ===================================================================== *)

Module Update.
Import Store Config.
Local Open Scope store_scope.

(** What [prepareUpdateData] logs. *)
Inductive updateLog :=
| NoDataForUpdate (collectionName : string)
| NoOldId (collectionName : string)
| NoNewId (collectionName : string)
| NoRecordToUpdate (collectionName : string)
| InvalidItem.

(** The index and the element of the first element that [p] accepts. *)
Fixpoint findIndexM {X} (p : X -> M bool) (l : list X) (i : nat)
    : M (option (nat * X)) :=
  match l with
  | [] => ret None
  | x :: r =>
      let* found := p x in
      if found then ret (Some (i, x)) else findIndexM p r (S i)
  end.

(** [for (const [key, value] of this.mergedUserMap.entries())
    if (value.includes(`${oldId}`)) { newId = key; break; }]. *)
Fixpoint scanMergedUsers (entries : list (string * list string)) (oldId : value)
    : M (option string) :=
  match entries with
  | [] => ret None
  | (key, value) :: rest =>
      let* text := toString oldId in
      if existsb (String.eqb text) value then ret (Some key)
      else scanMergedUsers rest oldId
  end.

(** The truth value of [newId : string | undefined]. *)
Definition truthyId (newId : option string) : bool :=
  match newId with
  | Some s => JsString.nonEmpty s
  | None => false
  end.

Section UpdatePass.
Context {A : Type}.

(** The collaborators, as in the create pass, and the depth to which
    [mergeObjects] may recurse. *)
Variable transformData : value -> A -> M value.
Variable validateItem : value -> A -> value -> M bool.
Variable getAttributeMappingsWithActions : A -> value -> value -> M A.
Variable fuel : nat.

(** What the pass reads of the loader and of the configuration:
    [config.usersCollectionName], [oldIdToNewIdPerCollectionMap],
    [mergedUserMap], and [importDef.updateMapping.originalIdField] when the
    definition has an update mapping. *)
Variable usersCollectionName : string.
Variable tables : Ids.tables.
Variable mergedUserMap : JsMap.t (list string).
Variable originalIdField : option string.

(** The staged record [r], which is at index [i], with a new payload,
    context and definition (the record object is updated in place). *)
Definition updateRecord (i : nat) (r : importRecord A) (finalData' context' : value)
    (importDef' : importDef A) (s : stage A) : stage A :=
  {| data :=
       <[i := {| rawData := rawData r; context := context';
                 finalData := finalData'; recordDef := Some importDef' |}]>
         (data s) |}.

(** The body of [for (const item of rawData)]. *)
Definition updateItem (db : configDatabase) (collection : configCollection A)
    (importDef : importDef A) (item : value)
    (acc : importMap A * list updateLog) : M (importMap A * list updateLog) :=
  let im := fst acc in
  let key := getCollectionKey (name collection) in
  let oldIdToNewIdMap := JsMap.get key tables in
  let* transformedData := transformData item (attributeMappings importDef) in
  let* oldId :=
    (if JsString.nonEmpty (primaryKeyField importDef)
     then getProp item (primaryKeyField importDef)
     else match originalIdField with
          | Some field => getProp item field
          | None => ret VUndef
          end) in
  if negb (truthy oldId) then ret (im, snd acc ++ [NoOldId (name collection)]) else
  let* newId :=
    (match oldIdToNewIdMap with
     | Some m => let* text := toString oldId in ret (JsMap.get text m)
     | None => ret None
     end) in
  let* newId :=
    (if negb (truthyId newId)
        && String.eqb (getCollectionKey usersCollectionName) key
     then let* merged := scanMergedUsers mergedUserMap oldId in
          ret (match merged with Some k => Some k | None => newId end)
     else ret newId) in
  match newId with
  | None => ret (im, snd acc ++ [NoNewId (name collection)])
  | Some newId =>
      if negb (JsString.nonEmpty newId)
      then ret (im, snd acc ++ [NoNewId (name collection)]) else
      let* itemDataToUpdate :=
        (match JsMap.get key im with
         | Some stage =>
             findIndexM (fun data =>
                           let* v := getProp (rawData data) (primaryKeyField importDef) in
                           ret (value_eqb v oldId))
                        (data stage) 0
         | None => ret None
         end) in
      match itemDataToUpdate, JsMap.get key im with
      | Some (i, record), Some currentData =>
          let* transformedData := mergeObjects fuel (finalData record) transformedData in
          let* context := Ingest.createContext db collection item newId in
          let* context := mergeObjects fuel context transformedData in
          let* isValid := validateItem item (attributeMappings importDef) context in
          if negb isValid then ret (im, snd acc ++ [InvalidItem]) else
          let* mappingsWithActions :=
            getAttributeMappingsWithActions (attributeMappings importDef)
              context transformedData in
          let newImportDef :=
            {| type := type importDef; primaryKeyField := primaryKeyField importDef;
               idMappings := idMappings importDef;
               attributeMappings := mappingsWithActions |} in
          let* finalData' := mergeObjects fuel (finalData record) transformedData in
          ret (JsMap.set key
                 (updateRecord i record finalData' context newImportDef currentData) im,
               snd acc)
      | _, _ => ret (im, snd acc ++ [NoRecordToUpdate (name collection)])
      end
  end.

(** [prepareUpdateData(db, collection, importDef)]; [rawData] is what
    [this.loadData(importDef)] read from the data file. *)
Definition prepareUpdateData (collectionImportOperations : JsMap.t string)
    (db : configDatabase) (collection : configCollection A)
    (importDef : importDef A) (rawData : list value)
    (acc : importMap A * list updateLog) : M (importMap A * list updateLog) :=
  let key := getCollectionKey (name collection) in
  let hasData :=
    match JsMap.get key (fst acc) with
    | Some currentData => negb (Nat.eqb (length (data currentData)) 0)
    | None => false
    end in
  if negb hasData && negb (JsMap.has key tables)
  then ret (fst acc, snd acc ++ [NoDataForUpdate (name collection)]) else
  match JsMap.get key collectionImportOperations with
  | None => throwError
  | Some operationId =>
      if negb (JsString.nonEmpty operationId) then throwError else
      forEachAcc (updateItem db collection importDef) rawData acc
  end.
End UpdatePass.

End Update.

(* ===================================================================== *)
(** * Setting up the maps *)
(* ===================================================================== *)

Module Setup.
Import Config.

Section SetupMaps.
Context {A W : Type}.

(** Outside the loader: the schema [CollectionCreateSchema.parse] ([None]
    when it throws), and the database, whose state is a [W]:
    [checkForCollection] answers with the [$id] of the collection it finds
    or with nothing, [findOrCreateOperation] with the [$id] of the
    operation; [None] is a rejected call. *)
Variable parse : configCollection A -> option (configCollection A).
Variable checkForCollection :
  string -> configCollection A -> W -> option (option string * W).
Variable findOrCreateOperation : string -> W -> option (string * W).

(** The fields [setupMaps] writes: [importMap], [collectionImportOperations],
    and the [$id] of the configured collections. *)
Record maps := {
  importMap : Config.importMap A;
  collectionImportOperations : JsMap.t string;
}.

Definition withId (id : string) (c : configCollection A) : configCollection A :=
  {| collId := id; name := name c; importDefs := importDefs c |}.

(** The body of [for (let index = 0; ...)]: the maps and the database
    after the turn, and the collection as [this.config.collections[index]]
    then has it. *)
Definition setupCollection (db : configDatabase) (collectionConfig : configCollection A)
    (m : maps) (w : W) : option (configCollection A * maps * W) :=
  match parse collectionConfig with
  | None => None
  | Some collection =>
      match checkForCollection (dbId db) collection w with
      | None => None
      | Some (None, w) => Some (collectionConfig, m, w)
      | Some (Some existingId, w) =>
          if negb (JsString.nonEmpty (name collection))
          then Some (collectionConfig, m, w)
          else
            match findOrCreateOperation existingId w with
            | None => None
            | Some (operationId, w) =>
                let key := getCollectionKey (name collection) in
                Some (withId existingId collectionConfig,
                      {| importMap := JsMap.set key {| data := [] |} (importMap m);
                         collectionImportOperations :=
                           JsMap.set key operationId (collectionImportOperations m) |},
                      w)
            end
      end
  end.

Fixpoint setupCollections (db : configDatabase) (cs : list (configCollection A))
    (m : maps) (w : W) : option (list (configCollection A) * maps * W) :=
  match cs with
  | [] => Some ([], m, w)
  | c :: rest =>
      match setupCollection db c m w with
      | None => None
      | Some (c', m, w) =>
          match setupCollections db rest m w with
          | None => None
          | Some (rest', m, w) => Some (c' :: rest', m, w)
          end
      end
  end.

(** The body of [for (const db of this.config.databases)]. *)
Definition setupDatabase (dbId : string) (db : configDatabase)
    (st : option (list (configCollection A)) * maps * W)
    : option (option (list (configCollection A)) * maps * W) :=
  let '(collections, m, w) := st in
  if negb (String.eqb (Config.dbId db) dbId) then Some st else
  match collections with
  | None => Some st
  | Some cs =>
      match setupCollections db cs m w with
      | None => None
      | Some (cs', m, w) => Some (Some cs', m, w)
      end
  end.

Fixpoint setupDatabases (dbId : string) (dbs : list configDatabase)
    (st : option (list (configCollection A)) * maps * W)
    : option (option (list (configCollection A)) * maps * W) :=
  match dbs with
  | [] => Some st
  | db :: rest =>
      match setupDatabase dbId db st with
      | None => None
      | Some st => setupDatabases dbId rest st
      end
  end.

(** [setupMaps(dbId)]: the collections of the configuration, the maps and
    the database afterwards; [None] when an exception escapes. *)
Definition setupMaps (databases : list configDatabase)
    (collections : option (list (configCollection A)))
    (dbId : string) (m : maps) (w : W)
    : option (option (list (configCollection A)) * maps * W) :=
  let m := {| importMap := JsMap.set (getCollectionKey "users") {| data := [] |}
                             (importMap m);
              collectionImportOperations := collectionImportOperations m |} in
  setupDatabases dbId databases (collections, m, w).
End SetupMaps.

Arguments maps : clear implicits.
Arguments importMap {A} _.
Arguments collectionImportOperations {A} _.

End Setup.

(* ===================================================================== *)
(** * More scenarios *)
(* ===================================================================== *)

Module MoreExamples.
Import Store Config.

(** A validation that rejects every item. *)
Definition rejectItem (_ : value) (_ : unit) (_ : value) : M bool := ret false.

(** The store after the create pass has taken the record keyed 42, with one
    more raw item, an update for that record. *)
Definition updateStore : heap :=
  Examples.storeAfterFirst ++ [CObj [("id", VNum 42); ("title", VStr "changed")]].

Definition itemsUpdateDef : importDef unit :=
  {| type := Some TypeUpdate; primaryKeyField := "id";
     idMappings := None; attributeMappings := tt |}.

(** The update pass over that item, from the loader the create pass left. *)
Definition afterUpdate : outcome (importMap unit * list Update.updateLog) :=
  Update.prepareUpdateData Examples.keepItem Examples.acceptItem Examples.noActions
    3 "Members" (Ingest.oldIdToNewIdPerCollectionMap Examples.loaderAfterFirst)
    [] None (Ingest.collectionImportOperations Examples.loaderAfterFirst)
    Examples.mainDb Examples.itemsCollection itemsUpdateDef
    [VRef (length Examples.storeAfterFirst)]
    (Ingest.importMap Examples.loaderAfterFirst, []) updateStore.

(** A database that has every collection it is asked for, and gives every
    operation the same identifier. *)
Definition findsAll (_ : string) (_ : configCollection unit) (w : unit)
    : option (option string * unit) := Some (Some "cid", w).
Definition newOperation (_ : string) (w : unit) : option (string * unit) :=
  Some ("op1", w).

Definition noMaps : Setup.maps unit :=
  {| Setup.importMap := [("items", {| data := [Examples.ann] |})];
     Setup.collectionImportOperations := [] |}.

(** The owners and the pet of [Examples.petStore], and a merge table whose
    one bucket (cell 6) holds the owner's source identifier "7" under the
    canonical identifier "u9". *)
Definition petStoreWithBucket : heap := Examples.petStore ++ [CArr [VStr "7"]].
Definition oneBucket : JsMap.t loc := [("u9", 6)].

End MoreExamples.

(* ===================================================================== *)
(** * Attribute mappings *)
(* ===================================================================== *)

Module Mappings.
Import Store.
Local Open Scope store_scope.

(** [mapping.fileData]. *)
Record fileData := { path : string; fileName : string }.

(** An entry of [postImportActions]: the name of the action and its
    parameters. *)
Record postImportAction := { action : string; params : list value }.

(** An attribute mapping: the fields the loader and the converters read;
    [others] stands for the rest (converters, validation actions), which a
    spread copies along. *)
Record attributeMapping (R : Type) := {
  oldKey : string;
  targetKey : string;
  mappingFileData : option fileData;
  postImportActions : option (list postImportAction);
  others : R;
}.
Arguments oldKey {R} _.
Arguments targetKey {R} _.
Arguments mappingFileData {R} _.
Arguments postImportActions {R} _.
Arguments others {R} _.

(** [s.startsWith(p)]. *)
Definition startsWith (p s : string) : bool := String.prefix p s.

(** [xs.map(f)] with a callback that reads the store. *)
Fixpoint mapM {X Y} (f : X -> M Y) (l : list X) : M (list Y) :=
  match l with
  | [] => ret []
  | x :: r =>
      let* y := f x in
      let* ys := mapM f r in
      ret (y :: ys)
  end.

Section Actions.
Context {R : Type}.

(** Outside the loader: [importDataActions.resolveTemplate] and
    [path.resolve]; of the loader, [appwriteFolderPath] and the text of
    [config.documentBucketId]. *)
Variable resolveTemplate : string -> value -> value -> M string.
Variable pathResolve : string -> string -> string.
Variable appwriteFolderPath : string.
Variable documentBucketId : string.

(** The callback of [attributeMappings.map(...)]. *)
Definition withFileAction (context item : value) (mapping : attributeMapping R)
    : M (attributeMapping R) :=
  match mappingFileData mapping with
  | Some fd =>
      let* mappingFilePath := resolveTemplate (path fd) context item in
      let mappingFilePath :=
        if negb (startsWith "http" (JsString.toLowerCase mappingFilePath))
        then pathResolve appwriteFolderPath mappingFilePath
        else mappingFilePath in
      let* dbName := getProp context "dbName" in
      match dbName with
      | VStr dbName =>
          let afterImportAction :=
            {| action := "createFileAndUpdateField";
               params :=
                 [VStr "{dbId}"; VStr "{collId}"; VStr "{docId}";
                  VStr (targetKey mapping);
                  VStr (String.append documentBucketId
                          (String.append "_"
                             (JsString.replace " "%char ""
                                (JsString.toLowerCase dbName))));
                  VStr mappingFilePath;
                  VStr (fileName fd)] |} in
          ret {| oldKey := oldKey mapping; targetKey := targetKey mapping;
                 mappingFileData := mappingFileData mapping;
                 postImportActions :=
                   Some (match postImportActions mapping with
                         | Some actions => actions ++ [afterImportAction]
                         | None => [afterImportAction]
                         end);
                 others := others mapping |}
      | _ => throwTypeError      (* [toLowerCase] of what is not a string *)
      end
  | None => ret mapping
  end.

(** [getAttributeMappingsWithActions(attributeMappings, context, item)]. *)
Definition getAttributeMappingsWithActions (attributeMappings : list (attributeMapping R))
    (context item : value) : M (list (attributeMapping R)) :=
  mapM (withFileAction context item) attributeMappings.
End Actions.

(** ** [convertObjectByAttributeMappings]

    From [converters.ts]. *)

(** [key in o].  On an object the operator finds the own properties and
    the names of [Object.prototype]; on an array, [length], the indices
    below it and the names of its prototypes.  A name that is found in a
    prototype only is outside the model (the value read under it is an
    inherited method), as is every key of a date.  On a primitive the
    operator throws. *)
Definition hasProperty (o : value) (key : string) : M bool :=
  match o with
  | VRef l =>
      let* c := readCell l in
      match c with
      | CObj ps =>
          if props_has key ps then ret true
          else if inherited key then fail
          else ret false
      | CArr es =>
          if String.eqb key "length" then ret true
          else match JsString.indexOfKey key with
               | Some i => ret (Nat.ltb i (length es))
               | None => fail
               end
      | CDate _ => fail
      end
  | _ => throwTypeError
  end.

Section Convert.
Context {R : Type}.

(** The body of [for (const mapping of attributeMappings)].  On the new
    object [result], which never gets an own property of the name,
    [result["__proto__"] = v] calls the accessor of [Object.prototype]:
    outside the model. *)
Definition convertKey (obj result : value) (mapping : attributeMapping R) : M unit :=
  let* present := hasProperty obj (oldKey mapping) in
  if present then
    let* v := getProp obj (oldKey mapping) in
    if String.eqb (targetKey mapping) "__proto__" then fail
    else setProp result (targetKey mapping) v
  else ret tt.

Definition convertObjectByAttributeMappings (obj : value)
    (attributeMappings : list (attributeMapping R)) : M value :=
  let* result := alloc (CObj []) in
  exec forEach (convertKey obj result) attributeMappings then
  ret result.
End Convert.

End Mappings.

(* ===================================================================== *)
(** * Converters *)
(* ===================================================================== *)

Module Converters.

(** [s.split(separator)] for a separator of one character: the segments
    between its occurrences, one more than there are occurrences. *)
Fixpoint split (separator : ascii) (s : string) : list string :=
  match s with
  | EmptyString => [EmptyString]
  | String c r =>
      if Ascii.eqb c separator then EmptyString :: split separator r
      else match split separator r with
           | segment :: segments => String c segment :: segments
           | [] => [String c EmptyString]     (* not reached *)
           end
  end.

(** [const separators = [",", ";", "|", ":", "/", "\\"]]. *)
Definition separators : list ascii :=
  [","%char; ";"%char; "|"%char; ":"%char; "/"%char; "\"%char].

Section TrySplit.
Context {F : Type}.

(** The uniformity score of a split is computed in floating point from the
    lengths of its segments (the sum of their distances to the average);
    here it is any function of the split, compared by [<], and [zero] is
    the score [0] of the initial best split. *)
Variable uniformityScore : list string -> F.
Variable lt : F -> F -> bool.
Variable zero : F.

(** The body of [for (const separator of separators)]; the loop variables
    are [bestSplit] and [highestUniformityScore]. *)
Definition consider (value : string) (best : list string * F) (separator : ascii)
    : list string * F :=
  let split := split separator value in
  if Nat.leb (length split) 1 then best else
  let score := uniformityScore split in
  if Nat.eqb (length (fst best)) 0 || lt score (snd best)
  then (split, score)
  else best.

(** [trySplitByDifferentSeparators(value)]. *)
Definition trySplitByDifferentSeparators (value : string) : list string :=
  let best := fold_left (consider value) separators ([], zero) in
  if Nat.eqb (length (fst best)) 0 then [value] else fst best.
End TrySplit.

End Converters.

(* ===================================================================== *)
(** * Scenarios for the mappings and the lookup *)
(* ===================================================================== *)

Module FurtherExamples.
Import Store Config.

(** The owner and the pet of [Examples.petStore], with numbers for the
    source identifiers. *)
Definition numericPetStore : heap :=
  [ CObj [("origId", VNum 7); ("name", VStr "Ann"); ("docId", VStr "abc")];
    CObj [("name", VStr "Ann")];
    CObj [("id", VStr "r1"); ("ownerOrig", VNum 7); ("docId", VStr "p1")];
    CObj [("name", VStr "Rex")] ].

(** A template resolution that gives the template back, and a path
    resolution that joins with a slash. *)
Definition plainTemplate (template : string) (_ _ : value) : M string := ret template.
Definition joinPath (folder file : string) : string :=
  String.append folder (String.append "/" file).

(** A mapping with a file and one without. *)
Definition avatarMapping : Mappings.attributeMapping unit :=
  {| Mappings.oldKey := "photo"; Mappings.targetKey := "avatar";
     Mappings.mappingFileData :=
       Some {| Mappings.path := "photos/ann.png"; Mappings.fileName := "ann.png" |};
     Mappings.postImportActions := None; Mappings.others := tt |}.

Definition nameMapping : Mappings.attributeMapping unit :=
  {| Mappings.oldKey := "name"; Mappings.targetKey := "name";
     Mappings.mappingFileData := None;
     Mappings.postImportActions := None; Mappings.others := tt |}.

(** A context of the database "Main". *)
Definition mainContext : heap := [CObj [("dbName", VStr "Main")]].

End FurtherExamples.

(* ===================================================================== *)
(** * Properties *)
(* ===================================================================== *)

(** ** Maps *)

Module JsMapFacts.
Import JsMap.
Section Facts.
Context {V : Type}.
Implicit Types (m : list (string * V)) (k : string) (v : V).

Lemma get_set_same k v m : get k (set k v m) = Some v.
Proof.
  induction m as [|[k' v'] m IH]; simpl.
  - now rewrite String.eqb_refl.
  - destruct (String.eqb k k') eqn:E; simpl.
    + now rewrite String.eqb_refl.
    + now rewrite E.
Qed.

Lemma get_set_other k k' v m : k <> k' -> get k' (set k v m) = get k' m.
Proof.
  intros Hne. induction m as [|[k0 v0] m IH]; simpl.
  - destruct (String.eqb_spec k' k); congruence.
  - destruct (String.eqb_spec k k0) as [->|Hk]; simpl.
    + destruct (String.eqb_spec k' k0); congruence.
    + now rewrite IH.
Qed.

Lemma get_In k v m : get k m = Some v -> (k, v) ∈ m.
Proof.
  induction m as [|[k' v'] m IH]; simpl; [discriminate|].
  destruct (String.eqb_spec k k') as [->|Hk].
  - intros [= ->]. left.
  - intros H. right. auto.
Qed.

Lemma In_get k v m : wf m -> (k, v) ∈ m -> get k m = Some v.
Proof.
  unfold wf, keys. induction m as [|[k' v'] m IH]; simpl.
  - intros _ H. inversion H.
  - intros Hnd Hin. apply NoDup_cons in Hnd as [Hnot Hnd].
    apply elem_of_cons in Hin as [Heq|Hin].
    + injection Heq as -> ->. now rewrite String.eqb_refl.
    + destruct (String.eqb_spec k k') as [->|Hk]; [|auto].
      exfalso. apply Hnot. apply (list_elem_of_fmap_2 fst) in Hin. exact Hin.
Qed.

Lemma get_None_keys k m : get k m = None <-> k ∉ keys m.
Proof.
  unfold keys. induction m as [|[k' v'] m IH]; simpl.
  - split; [intros _ H; inversion H|reflexivity].
  - rewrite not_elem_of_cons.
    destruct (String.eqb_spec k k') as [->|Hk].
    + split; [discriminate|]. intros [H _]. congruence.
    + rewrite IH. tauto.
Qed.

Lemma has_true k m : has k m = true <-> exists v, get k m = Some v.
Proof.
  unfold has. destruct (get k m); split; try discriminate; eauto.
  intros [v' H]. discriminate.
Qed.

Lemma has_false k m : has k m = false <-> get k m = None.
Proof. unfold has. destruct (get k m); split; congruence. Qed.

Lemma keys_set k v m :
  keys (set k v m) = if has k m then keys m else keys m ++ [k].
Proof.
  unfold keys, has. induction m as [|[k' v'] m IH]; simpl; [reflexivity|].
  destruct (String.eqb_spec k k') as [->|Hk]; simpl; [reflexivity|].
  rewrite IH. now destruct (get k m).
Qed.

Lemma wf_set k v m : wf m -> wf (set k v m).
Proof.
  unfold wf. rewrite keys_set. intros Hnd.
  destruct (has k m) eqn:E; [exact Hnd|].
  apply has_false, get_None_keys in E.
  apply NoDup_app. repeat split; auto.
  - intros x Hx Hin. apply list_elem_of_singleton in Hin as ->. tauto.
  - apply NoDup_singleton.
Qed.

Lemma set_id k v m : get k m = Some v -> set k v m = m.
Proof.
  induction m as [|[k' v'] m IH]; simpl; [discriminate|].
  destruct (String.eqb_spec k k') as [->|Hk].
  - now intros [= ->].
  - intros H. now rewrite IH.
Qed.
End Facts.
End JsMapFacts.

(** ** Collection keys *)

Module KeyFacts.
Import JsString.

Lemma replace_no_occurrence pat rep s :
  occurrences pat s = 0 -> replace pat rep s = s.
Proof.
  induction s as [|c r IH]; simpl; [reflexivity|].
  destruct (Ascii.eqb c pat); [discriminate|].
  intros H. now rewrite IH.
Qed.

Lemma stripAll_no_occurrence pat s :
  occurrences pat s = 0 -> stripAll pat s = s.
Proof.
  induction s as [|c r IH]; simpl; [reflexivity|].
  destruct (Ascii.eqb c pat); [discriminate|].
  intros H. now rewrite IH.
Qed.

(** With at most one occurrence, replacing the first is stripping all. *)
Lemma replace_strips_single pat s :
  occurrences pat s <= 1 -> replace pat "" s = stripAll pat s.
Proof.
  induction s as [|c r IH]; simpl; [reflexivity|].
  destruct (Ascii.eqb c pat); simpl.
  - intros H. symmetry. apply stripAll_no_occurrence. lia.
  - intros H. now rewrite IH.
Qed.

Lemma occurrences_toLowerCase_space s :
  occurrences " "%char (toLowerCase s) = occurrences " "%char s.
Proof.
  induction s as [|c r IH]; simpl; [reflexivity|].
  rewrite IH. f_equal.
  unfold lowerAscii.
  destruct (Nat.leb 65 (nat_of_ascii c) && Nat.leb (nat_of_ascii c) 90) eqn:E;
    [|reflexivity].
  apply andb_true_iff in E as [E1 E2].
  apply Nat.leb_le in E1, E2.
  destruct (Ascii.eqb_spec c " "%char) as [->|Hc].
  { change (nat_of_ascii " "%char) with 32 in E1. lia. }
  destruct (Ascii.eqb_spec (ascii_of_nat (nat_of_ascii c + 32)) " "%char) as [Heq|]; [|reflexivity].
  apply (f_equal nat_of_ascii) in Heq.
  rewrite nat_ascii_embedding in Heq by lia.
  change (nat_of_ascii " "%char) with 32 in Heq. lia.
Qed.

(** Names that differ only in letter case have the same key. *)
Lemma getCollectionKey_case a b :
  toLowerCase a = toLowerCase b -> getCollectionKey a = getCollectionKey b.
Proof. unfold getCollectionKey. now intros ->. Qed.

(** A name with at most one space gets a key without spaces. *)
Lemma getCollectionKey_single_space name :
  occurrences " "%char name <= 1 ->
  getCollectionKey name = stripAll " "%char (toLowerCase name).
Proof.
  intros H. unfold getCollectionKey. apply replace_strips_single.
  now rewrite occurrences_toLowerCase_space.
Qed.
End KeyFacts.

(** C8.  [getCollectionKey] lower-cases the name but removes only its first
    space: the display names "My Big Collection" and "MyBigCollection",
    which differ only in whitespace, get the keys "mybig collection" and
    "mybigcollection" and so resolve to different stages. *)
Theorem getCollectionKey_keeps_later_spaces :
  getCollectionKey "My Big Collection" = "mybig collection" /\
  getCollectionKey "MyBigCollection" = "mybigcollection" /\
  JsString.stripAll " "%char (JsString.toLowerCase "My Big Collection")
    = JsString.stripAll " "%char (JsString.toLowerCase "MyBigCollection") /\
  getCollectionKey "My Big Collection" <> getCollectionKey "MyBigCollection".
Proof. repeat split; try reflexivity. discriminate. Qed.

(** ** Unique identifiers *)

Module IdFacts.
Import Ids.

Lemma scanEntries_False newId entries :
  scanEntries newId entries = False_ -> newId ∉ JsMap.values entries.
Proof.
  unfold JsMap.values.
  induction entries as [|[k v] r IH]; simpl; intros H.
  - inversion 1.
  - destruct (String.eqb_spec v newId) as [->|Hv]; [discriminate|].
    apply not_elem_of_cons. split; [congruence|auto].
Qed.

Lemma scanEntries_Key newId entries key :
  scanEntries newId entries = Key key -> key ∈ JsMap.keys entries.
Proof.
  unfold JsMap.keys.
  induction entries as [|[k v] r IH]; simpl; [discriminate|].
  destruct (String.eqb v newId).
  - intros [= ->]. left.
  - intros H. right. auto.
Qed.

(** When no key of the collection's table is the empty string, the check
    is true exactly for the identifiers that are assigned. *)
Lemma check_false_not_assigned tbl newId collectionName :
  "" ∉ JsMap.keys (tableOf tbl collectionName) ->
  truthy (checkMapValuesForId tbl newId collectionName) = false ->
  newId ∉ assigned tbl collectionName.
Proof.
  unfold checkMapValuesForId, assigned.
  intros Hkeys Ht.
  destruct (scanEntries newId (tableOf tbl collectionName)) as [key|] eqn:E.
  - simpl in Ht. unfold JsString.nonEmpty in Ht.
    apply negb_false_iff in Ht.
    destruct (String.eqb_spec key ""); [subst|discriminate].
    apply scanEntries_Key in E. contradiction.
  - now apply scanEntries_False.
Qed.

(** Away from the empty key, [getTrueUniqueId] returns an identifier that
    is not assigned in the collection. *)
Lemma getTrueUniqueId_unassigned tbl collectionName supply newId rest :
  "" ∉ JsMap.keys (tableOf tbl collectionName) ->
  getTrueUniqueId tbl collectionName supply = Some (newId, rest) ->
  newId ∉ assigned tbl collectionName.
Proof.
  intros Hkeys. induction supply as [|c supply IH]; simpl; [discriminate|].
  destruct (truthy (checkMapValuesForId tbl c collectionName)) eqn:E; [exact IH|].
  intros [= <- <-]. now apply check_false_not_assigned.
Qed.

(** It returns as soon as [ID.unique()] yields an unassigned identifier. *)
Lemma getTrueUniqueId_returns tbl collectionName supply c :
  c ∈ supply -> c ∉ assigned tbl collectionName ->
  exists newId rest, getTrueUniqueId tbl collectionName supply = Some (newId, rest).
Proof.
  intros Hin Hc. induction supply as [|d supply IH]; [inversion Hin|].
  simpl. destruct (truthy (checkMapValuesForId tbl d collectionName)) eqn:E; [|eauto].
  apply IH. apply elem_of_cons in Hin as [->|Hin]; [|exact Hin].
  exfalso. apply Hc. unfold checkMapValuesForId, assigned in *.
  destruct (scanEntries d (tableOf tbl collectionName)) eqn:Es; [|discriminate].
  clear -Es. unfold JsMap.values.
  induction (tableOf tbl collectionName) as [|[k v] m IH]; simpl in *; [discriminate|].
  destruct (String.eqb_spec v d) as [->|]; [left|right; auto].
Qed.
End IdFacts.

(** C1.  A source record whose primary key is the empty string enters the
    table of its collection under the key "".  [checkMapValuesForId] answers
    a collision with the colliding KEY, the loop of [getTrueUniqueId] reads
    the empty key as "no collision", and the identifier "abc", already
    assigned in the collection, is returned again. *)
Theorem getTrueUniqueId_returns_assigned_id :
  let created :=
    Ingest.prepareCreateData Examples.keepItem Examples.acceptItem Examples.noActions
      Examples.mainDb Examples.itemsCollection Examples.itemsDef
      [Store.VRef 0] (Examples.freshLoader ["abc"]) Examples.emptyKeyStore in
  let tbl := [("items", [("", "abc")])] in
  (exists st h, created = Store.Ok st h /\ Ingest.oldIdToNewIdPerCollectionMap st = tbl) /\
  Ids.checkMapValuesForId tbl "abc" "items" = Ids.Key "" /\
  Ids.getTrueUniqueId tbl "items" ["abc"; "def"] = Some ("abc", ["def"]) /\
  "abc" ∈ Ids.assigned tbl "items".
Proof.
  cbv zeta. split; [|split; [reflexivity|split; [reflexivity|]]].
  - eexists _, _. split; [vm_compute; reflexivity|reflexivity].
  - vm_compute. left.
Qed.

(** ** Identity deduplication *)

Module IdentityFacts.
Import Identity JsMapFacts.

Section Engine.
Context {item A : Type}.
Variable transformData : item -> A -> item.
Variable safeParse : item -> option authUser.
Variable primaryKeyText : item -> string -> string.
Variable deleteKeys : list string -> item -> item.

Abbreviation prepareUserData :=
  (prepareUserData transformData safeParse primaryKeyText deleteKeys).
Abbreviation processIdentities :=
  (processIdentities transformData safeParse primaryKeyText deleteKeys).

(** A registered natural key yields its identifier and leaves the index
    as it is. *)
Lemma checkNaturalKey_registered k id newId index existingId :
  JsString.nonEmpty k = true -> JsMap.get k index = Some id ->
  checkNaturalKey (Some k) newId index existingId = (index, Some id).
Proof.
  intros Hk Hget. unfold checkNaturalKey. rewrite Hk.
  assert (JsMap.has k index = true) as -> by (apply has_true; eauto).
  now rewrite Hget.
Qed.

Lemma bucket_addToBucket_same id s m :
  bucket (addToBucket id s m) id = bucket m id ++ [s].
Proof. unfold bucket, addToBucket. now rewrite get_set_same. Qed.

Lemma bucket_addToBucket_other id id' s m :
  id <> id' -> bucket (addToBucket id s m) id' = bucket m id'.
Proof. intros H. unfold bucket, addToBucket. now rewrite get_set_other. Qed.

(** What one call does to the merge table: nothing, or one source
    identifier appended to one bucket. *)
Lemma prepareUserData_mergedUserMap it am pkf newId r :
  mergedUserMap (fst (prepareUserData it am pkf newId r)) = mergedUserMap r \/
  exists id, mergedUserMap (fst (prepareUserData it am pkf newId r))
             = addToBucket id (primaryKeyText it pkf) (mergedUserMap r).
Proof.
  unfold Identity.prepareUserData.
  destruct (safeParse (transformData it am)) as [u|]; [|now left].
  destruct (checkNaturalKey (email u) newId (emailToUserIdMap r) None) as [emails e1].
  destruct (checkNaturalKey (phone u) newId (phoneToUserIdMap r) e1) as [phones e2].
  simpl.
  destruct (if truthyId e2 then e2 else Some newId) as [id|]; [|now left].
  destruct (JsString.nonEmpty id); [right; eauto|now left].
Qed.

Lemma allSources_addToBucket id s m :
  allSources (addToBucket id s m) ≡ₚ s :: allSources m.
Proof.
  unfold allSources, addToBucket, JsMap.values.
  induction m as [|[k b] m IH]; simpl.
  - reflexivity.
  - destruct (String.eqb id k) eqn:E; simpl.
    + rewrite <- app_assoc. simpl.
      symmetry. apply Permutation_middle.
    + rewrite IH. symmetry. apply Permutation_middle.
Qed.

Lemma bucket_sources m id s : s ∈ bucket m id -> s ∈ allSources m.
Proof.
  unfold bucket, allSources, JsMap.values.
  induction m as [|[k b] m IH]; simpl; [inversion 1|].
  destruct (String.eqb id k); intros H; apply elem_of_app; auto.
Qed.

Lemma NoDup_sources_disjoint m : NoDup (allSources m) -> bucketsDisjoint m.
Proof.
  unfold bucketsDisjoint.
  induction m as [|[k b] m IH]; intros Hnd id1 id2 s Hne H1 H2.
  - inversion H1.
  - unfold allSources in Hnd. simpl in Hnd.
    apply NoDup_app in Hnd as (Hb & Hdis & Hm).
    unfold bucket in H1, H2. simpl in H1, H2.
    destruct (String.eqb_spec id1 k) as [->|N1];
      destruct (String.eqb_spec id2 k) as [->|N2].
    + congruence.
    + apply (Hdis s H1). now apply (bucket_sources m id2).
    + apply (Hdis s H2). now apply (bucket_sources m id1).
    + exact (IH Hm id1 id2 s Hne H1 H2).
Qed.

Lemma processIdentities_sources am pkf items : forall newIds r,
  NoDup (allSources (mergedUserMap r) ++ map (fun it => primaryKeyText it pkf) items) ->
  NoDup (allSources (mergedUserMap (processIdentities am pkf items newIds r))).
Proof.
  induction items as [|it items IH]; intros newIds r Hnd.
  - simpl in *. now rewrite app_nil_r in Hnd.
  - destruct newIds as [|newId newIds]; simpl.
    + now apply NoDup_app in Hnd as (? & _ & _).
    + apply IH.
      destruct (prepareUserData_mergedUserMap it am pkf newId r) as [->|[id ->]].
      * simpl in Hnd. revert Hnd. rewrite !NoDup_app, NoDup_cons.
        intros (H1 & H2 & H3 & H4). repeat split; auto.
        intros x Hx Hin. apply (H2 x Hx). now right.
      * rewrite allSources_addToBucket. simpl in Hnd.
        revert Hnd. apply NoDup_Permutation_proper.
        simpl. apply Permutation_middle.
Qed.

(** *** Two runs with different new identifiers *)

Section Renaming.
Variable R : string -> string -> Prop.

Lemma sameIndex_get k i1 i2 :
  sameIndex R i1 i2 -> sameId R (JsMap.get k i1) (JsMap.get k i2).
Proof.
  induction 1 as [|[k1 v1] [k2 v2] i1 i2 [Hk Hv] _ IH]; simpl in *; [exact I|].
  subst k2. destruct (String.eqb k k1); [exact Hv|exact IH].
Qed.

Lemma sameIndex_has k i1 i2 :
  sameIndex R i1 i2 -> JsMap.has k i1 = JsMap.has k i2.
Proof.
  intros H. apply (sameIndex_get k) in H. unfold JsMap.has.
  destruct (JsMap.get k i1), (JsMap.get k i2); simpl in H; tauto.
Qed.

Lemma sameIndex_set k v1 v2 i1 i2 :
  sameIndex R i1 i2 -> R v1 v2 ->
  sameIndex R (JsMap.set k v1 i1) (JsMap.set k v2 i2).
Proof.
  intros H Hv.
  induction H as [|[k1 w1] [k2 w2] i1 i2 [Hk Hw] Hrest IH]; simpl in *.
  - constructor; [split; auto|constructor].
  - subst k2. destruct (String.eqb k k1).
    + constructor; [split; auto|exact Hrest].
    + constructor; [split; auto|exact IH].
Qed.

Lemma checkNaturalKey_related k n1 n2 i1 i2 e1 e2 :
  sameIndex R i1 i2 -> R n1 n2 -> sameId R e1 e2 ->
  sameIndex R (fst (checkNaturalKey k n1 i1 e1)) (fst (checkNaturalKey k n2 i2 e2)) /\
  sameId R (snd (checkNaturalKey k n1 i1 e1)) (snd (checkNaturalKey k n2 i2 e2)).
Proof.
  intros Hi Hn He. unfold checkNaturalKey.
  destruct k as [key|]; [|now split].
  destruct (JsString.nonEmpty key); [|now split].
  rewrite (sameIndex_has key i1 i2 Hi).
  destruct (JsMap.has key i2); simpl.
  - split; [exact Hi|now apply sameIndex_get].
  - split; [now apply sameIndex_set|exact He].
Qed.

Hypothesis HR : renaming R.

Lemma sameId_truthy e1 e2 : sameId R e1 e2 -> truthyId e1 = truthyId e2.
Proof.
  destruct e1, e2; simpl; try tauto. apply (ren_empty R HR).
Qed.

Lemma sameTable_get x y m1 m2 :
  sameTable R m1 m2 -> R x y -> JsMap.get x m1 = JsMap.get y m2.
Proof.
  intros H Hxy.
  induction H as [|[k1 b1] [k2 b2] m1 m2 [Hk Hb] _ IH]; simpl in *; [reflexivity|].
  subst b2.
  destruct (String.eqb_spec x k1) as [->|N1]; destruct (String.eqb_spec y k2) as [->|N2].
  - reflexivity.
  - exfalso. apply N2. exact (ren_fun R HR _ _ _ Hxy Hk).
  - exfalso. apply N1. exact (ren_inj R HR _ _ _ Hxy Hk).
  - exact IH.
Qed.

Lemma sameTable_set x y b m1 m2 :
  sameTable R m1 m2 -> R x y ->
  sameTable R (JsMap.set x b m1) (JsMap.set y b m2).
Proof.
  intros H Hxy.
  induction H as [|[k1 b1] [k2 b2] m1 m2 [Hk Hb] Hrest IH]; simpl in *.
  - constructor; [split; auto|constructor].
  - subst b2.
    destruct (String.eqb_spec x k1) as [->|N1]; destruct (String.eqb_spec y k2) as [->|N2].
    + constructor; [split; auto|exact Hrest].
    + exfalso. apply N2. exact (ren_fun R HR _ _ _ Hxy Hk).
    + exfalso. apply N1. exact (ren_inj R HR _ _ _ Hxy Hk).
    + constructor; [split; auto|exact IH].
Qed.

Lemma addToBucket_related x y s m1 m2 :
  sameTable R m1 m2 -> R x y ->
  sameTable R (addToBucket x s m1) (addToBucket y s m2).
Proof.
  intros H Hxy. unfold addToBucket.
  rewrite (sameTable_get x y m1 m2 H Hxy). now apply sameTable_set.
Qed.

(** One call in each run, with related new identifiers, keeps the
    registries related. *)
Lemma prepareUserData_related it am pkf n1 n2 r1 r2 :
  sameRegistry R r1 r2 -> R n1 n2 ->
  sameRegistry R (fst (prepareUserData it am pkf n1 r1))
                 (fst (prepareUserData it am pkf n2 r2)).
Proof.
  intros (He & Hp & Hm) Hn. unfold Identity.prepareUserData.
  destruct (safeParse (transformData it am)) as [u|]; [|now repeat split].
  destruct (checkNaturalKey_related (email u) n1 n2 _ _ None None He Hn I) as [He' Hx].
  destruct (checkNaturalKey (email u) n1 (emailToUserIdMap r1) None) as [em1 x1].
  destruct (checkNaturalKey (email u) n2 (emailToUserIdMap r2) None) as [em2 x2].
  simpl in He', Hx.
  destruct (checkNaturalKey_related (phone u) n1 n2 _ _ x1 x2 Hp Hn Hx) as [Hp' Hy].
  destruct (checkNaturalKey (phone u) n1 (phoneToUserIdMap r1) x1) as [ph1 y1].
  destruct (checkNaturalKey (phone u) n2 (phoneToUserIdMap r2) x2) as [ph2 y2].
  simpl in Hp', Hy. simpl.
  repeat split; try assumption.
  rewrite (sameId_truthy y1 y2 Hy).
  assert (sameId R (if truthyId y2 then y1 else Some n1)
                   (if truthyId y2 then y2 else Some n2)) as Hw
    by (destruct (truthyId y2); assumption).
  destruct (if truthyId y2 then y1 else Some n1) as [w1|],
           (if truthyId y2 then y2 else Some n2) as [w2|];
    simpl in Hw; try tauto.
  rewrite (ren_empty R HR w1 w2 Hw).
  destruct (JsString.nonEmpty w2); [|exact Hm].
  now apply addToBucket_related.
Qed.

Lemma sameTable_buckets m1 m2 : sameTable R m1 m2 -> buckets m1 = buckets m2.
Proof.
  unfold buckets, JsMap.values.
  induction 1 as [|[k1 b1] [k2 b2] m1 m2 [_ Hb] _ IH]; simpl in *; congruence.
Qed.
End Renaming.

Lemma sameIndex_mono (R R' : string -> string -> Prop) i1 i2 :
  (forall x y, R x y -> R' x y) -> sameIndex R i1 i2 -> sameIndex R' i1 i2.
Proof.
  intros Hsub H. unfold sameIndex. eapply Forall2_impl; [exact H|].
  intros a b [? ?]. auto.
Qed.

Lemma sameTable_mono (R R' : string -> string -> Prop) m1 m2 :
  (forall x y, R x y -> R' x y) -> sameTable R m1 m2 -> sameTable R' m1 m2.
Proof.
  intros Hsub H. unfold sameTable. eapply Forall2_impl; [exact H|].
  intros a b [? ?]. auto.
Qed.

(** Extending a renaming by a pair of identifiers new to both sides. *)
Definition extend (R : string -> string -> Prop) (n1 n2 : string) : string -> string -> Prop :=
  fun x y => R x y \/ (x = n1 /\ y = n2).

Lemma extend_renaming R n1 n2 :
  renaming R ->
  (forall y, ~ R n1 y) -> (forall x, ~ R x n2) ->
  JsString.nonEmpty n1 = JsString.nonEmpty n2 ->
  renaming (extend R n1 n2).
Proof.
  intros HR H1 H2 Hne. unfold extend. split.
  - intros x y y' [H|[-> ->]] [H'|[Hx ->]]; subst;
      try reflexivity; try (exfalso; eapply H1; eassumption).
    exact (ren_fun R HR _ _ _ H H').
  - intros x x' y [H|[-> ->]] [H'|[-> Hy]]; subst;
      try reflexivity; try (exfalso; eapply H2; eassumption).
    exact (ren_inj R HR _ _ _ H H').
  - intros x y [H|[-> ->]]; [exact (ren_empty R HR _ _ H)|exact Hne].
Qed.

Lemma processIdentities_related am pkf items : forall newIds1 newIds2 R r1 r2,
  renaming R -> sameRegistry R r1 r2 ->
  length newIds1 = length newIds2 ->
  NoDup newIds1 -> NoDup newIds2 ->
  (forall x, x ∈ newIds1 -> JsString.nonEmpty x = true /\ forall y, ~ R x y) ->
  (forall y, y ∈ newIds2 -> JsString.nonEmpty y = true /\ forall x, ~ R x y) ->
  buckets (mergedUserMap (processIdentities am pkf items newIds1 r1))
  = buckets (mergedUserMap (processIdentities am pkf items newIds2 r2)).
Proof.
  induction items as [|it items IH]; intros ids1 ids2 R r1 r2 HR Hr Hlen Hd1 Hd2 Hf1 Hf2.
  - simpl. destruct Hr as (_ & _ & Hm). exact (sameTable_buckets R _ _ Hm).
  - destruct ids1 as [|n1 ids1], ids2 as [|n2 ids2]; try discriminate; simpl.
    + destruct Hr as (_ & _ & Hm). exact (sameTable_buckets R _ _ Hm).
    + apply NoDup_cons in Hd1 as [Hn1 Hd1]. apply NoDup_cons in Hd2 as [Hn2 Hd2].
      destruct (Hf1 n1) as [Hne1 Hfresh1]; [left|].
      destruct (Hf2 n2) as [Hne2 Hfresh2]; [left|].
      assert (renaming (extend R n1 n2)) as HR'
        by (apply extend_renaming; auto; congruence).
      apply (IH ids1 ids2 (extend R n1 n2)); auto.
      * apply prepareUserData_related; [exact HR'| |right; auto].
        destruct Hr as (He & Hp & Hm). repeat split.
        -- revert He. apply sameIndex_mono. now left.
        -- revert Hp. apply sameIndex_mono. now left.
        -- revert Hm. apply sameTable_mono. now left.
      * intros x Hx. destruct (Hf1 x) as [Hxe Hxf]; [now right|]. split; [assumption|].
        intros y [Hxy|[-> _]]; [exact (Hxf y Hxy)|contradiction].
      * intros y Hy. destruct (Hf2 y) as [Hye Hyf]; [now right|]. split; [assumption|].
        intros x [Hxy|[_ ->]]; [exact (Hyf x Hxy)|contradiction].
Qed.

(** Every identifier of a registry is related to itself by the identity on
    the identifiers it mentions. *)
Lemma sameRegistry_refl (r : registry item) :
  sameRegistry (fun x y => x = y /\ x ∈ idsOf r) r r.
Proof.
  unfold sameRegistry, sameIndex, sameTable, idsOf, JsMap.values, JsMap.keys.
  repeat split.
  - apply Forall2_same_length_lookup_2; [reflexivity|].
    intros i a b Ha Hb. rewrite Ha in Hb. injection Hb as <-.
    repeat split. apply elem_of_app. left.
    apply list_elem_of_fmap. exists a. split; [reflexivity|].
    now apply list_elem_of_lookup_2 in Ha.
  - apply Forall2_same_length_lookup_2; [reflexivity|].
    intros i a b Ha Hb. rewrite Ha in Hb. injection Hb as <-.
    repeat split. apply elem_of_app. right. apply elem_of_app. left.
    apply list_elem_of_fmap. exists a. split; [reflexivity|].
    now apply list_elem_of_lookup_2 in Ha.
  - apply Forall2_same_length_lookup_2; [reflexivity|].
    intros i a b Ha Hb. rewrite Ha in Hb. injection Hb as <-.
    repeat split. apply elem_of_app. right. apply elem_of_app. right.
    apply list_elem_of_fmap. exists a. split; [reflexivity|].
    now apply list_elem_of_lookup_2 in Ha.
Qed.
End Engine.
End IdentityFacts.

(** C6.  A record whose email is registered to one identity and whose
    phone is registered to another is recorded under the phone's identity:
    that is the [existingId] returned and written into the account, and the
    source identifier goes to its bucket, not to the email's. *)
Theorem phone_winner_is_recorded {item A : Type}
    (transformData : item -> A -> item)
    (safeParse : item -> option Identity.authUser)
    (primaryKeyText : item -> string -> string)
    (deleteKeys : list string -> item -> item)
    (it : item) (am : A) (pkf newId : string) (r : Identity.registry item)
    (u : Identity.authUser) (e p byEmail byPhone : string) :
  safeParse (transformData it am) = Some u ->
  Identity.email u = Some e -> JsString.nonEmpty e = true ->
  Identity.phone u = Some p -> JsString.nonEmpty p = true ->
  JsMap.get e (Identity.emailToUserIdMap r) = Some byEmail ->
  JsMap.get p (Identity.phoneToUserIdMap r) = Some byPhone ->
  byEmail <> byPhone ->
  JsString.nonEmpty byPhone = true ->
  exists r' transformed staged,
    Identity.prepareUserData transformData safeParse primaryKeyText deleteKeys
      it am pkf newId r = (r', Identity.PreparedUser transformed byPhone staged) /\
    Identity.userId staged = Some byPhone /\
    Identity.bucket (Identity.mergedUserMap r') byPhone
      = Identity.bucket (Identity.mergedUserMap r) byPhone ++ [primaryKeyText it pkf] /\
    Identity.bucket (Identity.mergedUserMap r') byEmail
      = Identity.bucket (Identity.mergedUserMap r) byEmail.
Proof.
  intros Hparse He Hen Hp Hpn Hge Hgp Hne Hid.
  unfold Identity.prepareUserData. rewrite Hparse, He, Hp.
  rewrite (IdentityFacts.checkNaturalKey_registered e byEmail) by assumption.
  rewrite (IdentityFacts.checkNaturalKey_registered p byPhone) by assumption.
  simpl. rewrite Hid. simpl.
  eexists _, _, _. split; [reflexivity|]. simpl. rewrite Hid.
  split; [reflexivity|]. split.
  - apply IdentityFacts.bucket_addToBucket_same.
  - apply IdentityFacts.bucket_addToBucket_other. congruence.
Qed.

Lemma phone_winner_is_recorded_witness :
  exists r' transformed staged,
    Identity.prepareUserData Examples.flatTransform Examples.flatParse
      Examples.flatKeyText Examples.flatDelete
      Examples.straddler tt "id" "n1" Examples.twoAccounts
      = (r', Identity.PreparedUser transformed "u2" staged) /\
    Identity.userId staged = Some "u2" /\
    Identity.bucket (Identity.mergedUserMap r') "u2"
      = Identity.bucket (Identity.mergedUserMap Examples.twoAccounts) "u2" ++ ["7"] /\
    Identity.bucket (Identity.mergedUserMap r') "u1"
      = Identity.bucket (Identity.mergedUserMap Examples.twoAccounts) "u1".
Proof.
  apply (phone_winner_is_recorded Examples.flatTransform Examples.flatParse
           Examples.flatKeyText Examples.flatDelete
           Examples.straddler tt "id" "n1" Examples.twoAccounts
           {| Identity.email := Some "a@x.com"; Identity.phone := Some "+200" |}
           "a@x.com" "+200" "u1" "u2");
    try reflexivity.
  discriminate.
Defined.

(** C7, as stated, fails: two records with the same source identifier "1"
    and different emails open two buckets, and "1" lies in both. *)
Lemma buckets_overlap_on_repeated_source_id :
  ~ Identity.bucketsDisjoint
      (Identity.mergedUserMap
         (Examples.flatEngine Examples.sameKeyTwice ["n1"; "n2"] Examples.noUsers)).
Proof.
  intros H. apply (H "n1" "n2" "1").
  - discriminate.
  - vm_compute. left.
  - vm_compute. left.
Qed.

(** C7, amended.  When the processed records have pairwise distinct source
    identifiers, none of them already in the merge table, and the table's
    buckets are disjoint to begin with, then after any sequence of records
    no source identifier lies in the buckets of two canonical
    identifiers. *)
Theorem buckets_disjoint_for_distinct_source_ids {item A : Type}
    (transformData : item -> A -> item)
    (safeParse : item -> option Identity.authUser)
    (primaryKeyText : item -> string -> string)
    (deleteKeys : list string -> item -> item)
    (am : A) (pkf : string) (items : list item) (newIds : list string)
    (r : Identity.registry item) :
  NoDup (Identity.allSources (Identity.mergedUserMap r)
         ++ map (fun it => primaryKeyText it pkf) items) ->
  Identity.bucketsDisjoint
    (Identity.mergedUserMap
       (Identity.processIdentities transformData safeParse primaryKeyText deleteKeys
          am pkf items newIds r)).
Proof.
  intros H. apply IdentityFacts.NoDup_sources_disjoint.
  now apply IdentityFacts.processIdentities_sources.
Qed.

Lemma buckets_disjoint_for_distinct_source_ids_witness :
  Identity.mergedUserMap
    (Examples.flatEngine Examples.twoPeople ["n1"; "n2"; "n3"] Examples.noUsers)
  = [("n1", ["1"; "3"]); ("n2", ["2"])] /\
  Identity.bucketsDisjoint
    (Identity.mergedUserMap
       (Examples.flatEngine Examples.twoPeople ["n1"; "n2"; "n3"] Examples.noUsers)).
Proof.
  split; [reflexivity|].
  apply (buckets_disjoint_for_distinct_source_ids Examples.flatTransform
           Examples.flatParse Examples.flatKeyText Examples.flatDelete
           tt "id" Examples.twoPeople ["n1"; "n2"; "n3"] Examples.noUsers).
  vm_compute.
  repeat (apply NoDup_cons_2;
    [intros H; repeat (apply elem_of_cons in H as [H|H]; [discriminate|]);
     inversion H|]).
  apply NoDup_nil_2.
Defined.

(** C5, as stated, fails: the canonical identifiers are drawn from
    [ID.unique()], so two runs of the engine on the same records, from the
    same empty registry, build merge tables with different keys. *)
Lemma merge_table_depends_on_generated_ids :
  Identity.mergedUserMap
    (Examples.flatEngine Examples.sameEmailTwice ["n1"; "n2"] Examples.noUsers)
  <> Identity.mergedUserMap
       (Examples.flatEngine Examples.sameEmailTwice ["m1"; "m2"] Examples.noUsers).
Proof. vm_compute. discriminate. Qed.

(** C5, amended.  Two runs of the engine on the same ordered records, from
    the same registry, build the same buckets in the same order, whatever
    new identifiers each run draws, as long as the identifiers a run draws
    are non-empty, distinct from one another and from the identifiers the
    registry already mentions.  (The keys of the two merge tables are the
    drawn identifiers, and differ with them.) *)
Theorem same_buckets_for_fresh_ids {item A : Type}
    (transformData : item -> A -> item)
    (safeParse : item -> option Identity.authUser)
    (primaryKeyText : item -> string -> string)
    (deleteKeys : list string -> item -> item)
    (am : A) (pkf : string) (items : list item)
    (newIds1 newIds2 : list string) (r : Identity.registry item) :
  length newIds1 = length newIds2 ->
  NoDup newIds1 -> NoDup newIds2 ->
  (forall x, x ∈ newIds1 -> JsString.nonEmpty x = true /\ x ∉ Identity.idsOf r) ->
  (forall x, x ∈ newIds2 -> JsString.nonEmpty x = true /\ x ∉ Identity.idsOf r) ->
  Identity.buckets
    (Identity.mergedUserMap
       (Identity.processIdentities transformData safeParse primaryKeyText deleteKeys
          am pkf items newIds1 r))
  = Identity.buckets
      (Identity.mergedUserMap
         (Identity.processIdentities transformData safeParse primaryKeyText deleteKeys
            am pkf items newIds2 r)).
Proof.
  intros Hlen Hd1 Hd2 Hf1 Hf2.
  apply (IdentityFacts.processIdentities_related transformData safeParse
           primaryKeyText deleteKeys am pkf items newIds1 newIds2
           (fun x y => x = y /\ x ∈ Identity.idsOf r)); auto.
  - split.
    + intros x y y' [-> _] [-> _]. reflexivity.
    + intros x x' y [-> _] [-> _]. reflexivity.
    + intros x y [-> _]. reflexivity.
  - apply IdentityFacts.sameRegistry_refl.
  - intros x Hx. destruct (Hf1 x Hx) as [Hne Hnot]. split; [exact Hne|].
    intros y [_ Hin]. contradiction.
  - intros y Hy. destruct (Hf2 y Hy) as [Hne Hnot]. split; [exact Hne|].
    intros x [-> Hin]. contradiction.
Qed.

Lemma same_buckets_for_fresh_ids_witness :
  Identity.buckets
    (Identity.mergedUserMap
       (Examples.flatEngine Examples.sameEmailTwice ["n1"; "n2"] Examples.noUsers))
  = Identity.buckets
      (Identity.mergedUserMap
         (Examples.flatEngine Examples.sameEmailTwice ["m1"; "m2"] Examples.noUsers)).
Proof.
  apply (same_buckets_for_fresh_ids Examples.flatTransform Examples.flatParse
           Examples.flatKeyText Examples.flatDelete tt "id"
           Examples.sameEmailTwice ["n1"; "n2"] ["m1"; "m2"] Examples.noUsers).
  - reflexivity.
  - apply NoDup_cons. split; [|apply NoDup_singleton].
    intros H. apply list_elem_of_singleton in H. discriminate.
  - apply NoDup_cons. split; [|apply NoDup_singleton].
    intros H. apply list_elem_of_singleton in H. discriminate.
  - intros x Hx. split.
    + apply elem_of_cons in Hx as [->|Hx]; [reflexivity|].
      apply list_elem_of_singleton in Hx as ->. reflexivity.
    + vm_compute. inversion 1.
  - intros x Hx. split.
    + apply elem_of_cons in Hx as [->|Hx]; [reflexivity|].
      apply list_elem_of_singleton in Hx as ->. reflexivity.
    + vm_compute. inversion 1.
Defined.

(** ** The order of the passes *)

Module PipelineFacts.
Import Config Pipeline.

Lemma split_app {X} (l1 l2 pre post : list X) (x : X) :
  l1 ++ l2 = pre ++ x :: post ->
  (exists post1, l1 = pre ++ x :: post1 /\ post = post1 ++ l2) \/
  (exists pre2, pre = l1 ++ pre2 /\ l2 = pre2 ++ x :: post).
Proof.
  revert pre. induction l1 as [|a l1 IH]; intros pre H; simpl in H.
  - right. exists pre. auto.
  - destruct pre as [|b pre]; simpl in H.
    + injection H as -> <-. left. exists l1. auto.
    + injection H as -> H. destruct (IH pre H) as [(p1 & -> & ->)|(p2 & -> & ->)].
      * left. exists p1. auto.
      * right. exists p2. auto.
Qed.

Lemma split_one {X} (pre post : list X) (x a : X) :
  pre ++ x :: post = [a] -> pre = [] /\ x = a /\ post = [].
Proof.
  destruct pre as [|p pre]; simpl.
  - intros [= -> ->]. auto.
  - intros [= _ H]. destruct pre; discriminate.
Qed.

Lemma split_two {X} (pre post : list X) (x a b : X) :
  pre ++ x :: post = [a; b] ->
  (pre = [] /\ x = a /\ post = [b]) \/ (pre = [a] /\ x = b /\ post = []).
Proof.
  destruct pre as [|p pre]; simpl.
  - intros [= -> ->]. auto.
  - intros [= -> H]. apply split_one in H as (-> & -> & ->). auto.
Qed.

Section Start.
Context {A S : Type}.
Variable setupMaps : string -> S -> option S.
Variable getAllUsers : S -> option S.
Variable prepareCreateData : configDatabase -> configCollection A -> importDef A -> S -> option S.
Variable prepareUserCollectionCreateData : configDatabase -> configCollection A -> importDef A -> S -> option S.
Variable prepareUpdateData : configDatabase -> configCollection A -> importDef A -> S -> option S.
Variable dealWithMergedUsers : S -> option S.
Variable updateOldReferencesForNew : S -> option S.
Variable importMapHas : S -> string -> bool.

(** The configuration, the requested database and the state the run
    starts in. *)
Variable cfg : appwriteConfig A.
Variable dbId : string.
Variable s0 : S.

Abbreviation createStep := (createStep (S:=S) prepareCreateData prepareUserCollectionCreateData).
Abbreviation updateStep := (updateStep (S:=S) prepareUpdateData importMapHas).
Abbreviation processCollection :=
  (processCollection (S:=S) prepareCreateData prepareUserCollectionCreateData
     prepareUpdateData importMapHas).
Abbreviation processDatabase :=
  (processDatabase (S:=S) prepareCreateData prepareUserCollectionCreateData
     prepareUpdateData dealWithMergedUsers updateOldReferencesForNew importMapHas).
Abbreviation start :=
  (start (S:=S) setupMaps getAllUsers prepareCreateData prepareUserCollectionCreateData
     prepareUpdateData dealWithMergedUsers updateOldReferencesForNew importMapHas).
Abbreviation completed :=
  (completed (S:=S) prepareCreateData prepareUserCollectionCreateData
     prepareUpdateData importMapHas cfg).
Abbreviation prepared :=
  (prepared (S:=S) prepareCreateData prepareUserCollectionCreateData
     prepareUpdateData importMapHas cfg dbId s0).
Abbreviation covered :=
  (covered (S:=S) prepareCreateData prepareUserCollectionCreateData
     prepareUpdateData importMapHas cfg dbId s0).

Implicit Types (r : run (A:=A) (S:=S)) (tr ev : list (entry (A:=A) (S:=S))).

(** The state of a run that goes on is the one its last event left. *)
Definition wf r : Prop := forall s, snd r = Some s -> stateAfter s0 (fst r) = s.

(** A part of the run that records preparations only; after an exception
    nothing goes on. *)
Definition grows r r' : Prop :=
  exists ev, fst r' = fst r ++ ev /\ Forall isPreparation ev /\
             (snd r = None -> snd r' = None).

Lemma stateAfter_snoc tr (e : event A) (s : S) : stateAfter s0 (tr ++ [(e, s)]) = s.
Proof. unfold stateAfter. now rewrite last_snoc. Qed.

Lemma wf_stopped tr : wf (tr, None).
Proof. intros s H. discriminate. Qed.

Lemma wf_snoc tr (e : event A) (s : S) : wf (tr ++ [(e, s)], Some s).
Proof. intros s' [= <-]. apply stateAfter_snoc. Qed.

Lemma grows_refl r : grows r r.
Proof. exists []. rewrite app_nil_r. repeat split; auto. Qed.

Lemma grows_trans r1 r2 r3 : grows r1 r2 -> grows r2 r3 -> grows r1 r3.
Proof.
  intros (ev1 & E1 & P1 & N1) (ev2 & E2 & P2 & N2).
  exists (ev1 ++ ev2). rewrite E2, E1, app_assoc.
  split; [reflexivity|]. split; [now apply Forall_app|auto].
Qed.

Lemma grows_stopped r : grows r (fst r, None).
Proof. exists []. simpl. rewrite app_nil_r. repeat split; auto. Qed.

Lemma grows_snoc r (e : event A) (s : S) :
  snd r <> None -> isPreparation (e, s) -> grows r (fst r ++ [(e, s)], Some s).
Proof.
  intros Hr He. exists [(e, s)]. simpl. split; [reflexivity|].
  split; [now repeat constructor|]. intros Hn. contradiction.
Qed.

Lemma prepared_app tr ev c def : prepared tr c def -> prepared (tr ++ ev) c def.
Proof.
  intros (pre & post & kind & s' & db & -> & H).
  exists pre, (post ++ ev), kind, s', db. split; [|exact H].
  now rewrite <- app_assoc.
Qed.

Lemma covered_app tr ev : covered tr -> covered (tr ++ ev).
Proof. intros H cs c def Hcs Hc Hd. apply prepared_app. eauto. Qed.

(** An awaited call returns, and its event is recorded with the state it
    returned, or an exception escapes. *)
Lemma call_cases f (e : event A) r :
  wf r ->
  (exists s', snd r <> None /\ f (stateAfter s0 (fst r)) = Some s' /\
              call f e r = (fst r ++ [(e, s')], Some s')) \/
  call f e r = (fst r, None).
Proof.
  destruct r as [tr [s|]]; simpl; intros Hwf; [|now right].
  pose proof (Hwf s eq_refl) as Hs. simpl in Hs. rewrite Hs.
  destruct (f s) as [s'|]; [left|now right].
  exists s'. split; [discriminate|auto].
Qed.

(** The step for a create definition. *)
Lemma createStep_covers db c def r :
  db ∈ databases cfg -> Config.dbId db = dbId -> isCreateDef def = true ->
  wf r ->
  wf (createStep cfg db c r def) /\ grows r (createStep cfg db c r def) /\
  (snd (createStep cfg db c r def) <> None ->
   prepared (fst (createStep cfg db c r def)) c def).
Proof.
  intros Hdb Hid Hdef Hwf. unfold Pipeline.createStep.
  destruct (String.eqb (getCollectionKey (usersCollectionName cfg))
                       (getCollectionKey (name c))) eqn:Hu; simpl;
    match goal with |- context [call ?f ?e r] =>
      destruct (call_cases f e r Hwf) as [(s' & Hr & Hf & ->)| ->] end;
    simpl.
  all: try (split; [apply wf_stopped|split; [apply grows_stopped|congruence]]).
  all: split; [apply wf_snoc|].
  all: split; [apply grows_snoc; [exact Hr|unfold isPreparation; simpl; eauto]|].
  all: intros _; eexists (fst r), [], _, s', db;
       split; [reflexivity|]; split; [exact Hdb|]; split; [exact Hid|];
       split; [now rewrite Hdef|]; unfold Pipeline.completed; rewrite Hu; auto.
Qed.

(** The step for an update definition. *)
Lemma updateStep_covers db c def r :
  db ∈ databases cfg -> Config.dbId db = dbId -> isUpdateDef def = true ->
  wf r ->
  wf (updateStep db c r def) /\ grows r (updateStep db c r def) /\
  (snd (updateStep db c r def) <> None ->
   prepared (fst (updateStep db c r def)) c def).
Proof.
  intros Hdb Hid Hdef Hwf.
  assert (isCreateDef def = false) as Hnc.
  { unfold isUpdateDef in Hdef. unfold isCreateDef.
    destruct (type def) as [[|]|]; congruence. }
  unfold Pipeline.updateStep. destruct r as [tr [s|]].
  - pose proof (Hwf s eq_refl) as Hs. simpl in Hs.
    destruct (importMapHas s (getCollectionKey (name c))) eqn:Hhas; simpl.
    + destruct (prepareUpdateData db c def s) as [s'|] eqn:Hf.
      * split; [apply wf_snoc|].
        split; [apply (grows_snoc (tr, Some s)); [discriminate|]; unfold isPreparation;
                simpl; eauto|].
        intros _. exists tr, [], Update, s', db.
        split; [reflexivity|]. split; [exact Hdb|]. split; [exact Hid|].
        split; [now rewrite Hnc|]. simpl. rewrite Hs. auto.
      * split; [apply wf_stopped|]. split; [apply (grows_stopped (tr, Some s))|].
        simpl. congruence.
    + split; [apply wf_snoc|].
      split; [apply (grows_snoc (tr, Some s)); [discriminate|]; unfold isPreparation;
              simpl; eauto|].
      intros _. exists tr, [], UpdateSkipped, s, db.
      split; [reflexivity|]. split; [exact Hdb|]. split; [exact Hid|].
      split; [now rewrite Hnc|]. simpl. rewrite Hs. auto.
  - split; [apply wf_stopped|]. split; [apply grows_refl|]. simpl. congruence.
Qed.

(** A loop of steps that each establish [Q] of their item, a property
    that later events do not undo, unless an exception escapes. *)
Lemma fold_covers {X} (step : run -> X -> run) (Q : X -> list entry -> Prop)
    (xs : list X) :
  (forall x tr ev, Q x tr -> Q x (tr ++ ev)) ->
  (forall r x, x ∈ xs -> wf r ->
     wf (step r x) /\ grows r (step r x) /\
     (snd (step r x) <> None -> Q x (fst (step r x)))) ->
  forall r, wf r ->
    wf (fold_left step xs r) /\ grows r (fold_left step xs r) /\
    (snd (fold_left step xs r) <> None ->
     forall x, x ∈ xs -> Q x (fst (fold_left step xs r))).
Proof.
  intros Hmono. induction xs as [|x xs IH]; intros Hstep r Hwf; simpl.
  - split; [exact Hwf|]. split; [apply grows_refl|].
    intros _ x Hx. inversion Hx.
  - destruct (Hstep r x ltac:(left) Hwf) as (Hwf1 & Hg1 & Hq1).
    destruct (IH (fun r y Hy => Hstep r y ltac:(now right)) (step r x) Hwf1)
      as (Hwf2 & Hg2 & Hq2).
    split; [exact Hwf2|]. split; [eapply grows_trans; eauto|].
    intros Hsome y Hy. apply elem_of_cons in Hy as [->|Hy]; [|now apply Hq2].
    destruct Hg2 as (ev & -> & _ & Hn). apply Hmono, Hq1.
    intros Hnone. apply Hsome, Hn, Hnone.
Qed.

Lemma def_create_or_update (def : importDef A) :
  isCreateDef def = true \/ isUpdateDef def = true.
Proof. unfold isCreateDef, isUpdateDef. destruct (type def) as [[|]|]; auto. Qed.

Lemma processCollection_covers db c r :
  db ∈ databases cfg -> Config.dbId db = dbId -> wf r ->
  wf (processCollection cfg db r c) /\ grows r (processCollection cfg db r c) /\
  (snd (processCollection cfg db r c) <> None ->
   forall def, def ∈ importDefs c -> prepared (fst (processCollection cfg db r c)) c def).
Proof.
  intros Hdb Hid Hwf. unfold Pipeline.processCollection.
  destruct (fold_covers (createStep cfg db c) (fun def tr => prepared tr c def)
              (filter isCreateDef (importDefs c))
              (fun def tr ev => prepared_app tr ev c def)) with (r := r)
    as (Hwf1 & Hg1 & Hq1); [|exact Hwf|].
  { intros r0 def Hdef. apply list_elem_of_filter in Hdef as [Hdef _].
    apply createStep_covers; auto. now destruct (isCreateDef def). }
  set (r1 := fold_left (createStep cfg db c) (filter isCreateDef (importDefs c)) r) in *.
  destruct (fold_covers (updateStep db c) (fun def tr => prepared tr c def)
              (filter isUpdateDef (importDefs c))
              (fun def tr ev => prepared_app tr ev c def)) with (r := r1)
    as (Hwf2 & Hg2 & Hq2); [|exact Hwf1|].
  { intros r0 def Hdef. apply list_elem_of_filter in Hdef as [Hdef _].
    apply updateStep_covers; auto. now destruct (isUpdateDef def). }
  split; [exact Hwf2|]. split; [eapply grows_trans; eauto|].
  intros Hsome def Hin.
  destruct (def_create_or_update def) as [Hc|Hu].
  - destruct Hg2 as (ev & E2 & _ & Hn). rewrite E2. apply prepared_app.
    apply Hq1; [intros Hnone; apply Hsome, Hn, Hnone|].
    apply list_elem_of_filter. split; [now rewrite Hc|exact Hin].
  - apply Hq2; [exact Hsome|].
    apply list_elem_of_filter. split; [now rewrite Hu|exact Hin].
Qed.

Lemma collections_cover db cs r :
  db ∈ databases cfg -> Config.dbId db = dbId -> wf r ->
  wf (fold_left (processCollection cfg db) cs r) /\
  grows r (fold_left (processCollection cfg db) cs r) /\
  (snd (fold_left (processCollection cfg db) cs r) <> None ->
   forall c, c ∈ cs -> forall def, def ∈ importDefs c ->
     prepared (fst (fold_left (processCollection cfg db) cs r)) c def).
Proof.
  intros Hdb Hid Hwf.
  apply (fold_covers (processCollection cfg db)
           (fun c tr => forall def, def ∈ importDefs c -> prepared tr c def) cs).
  - intros c tr ev H def Hdef. apply prepared_app. auto.
  - intros r0 c _ Hwf0. now apply processCollection_covers.
  - exact Hwf.
Qed.

(** The orderings, on a trace. *)
Definition ordered tr : Prop :=
  (forall pre post sL, tr = pre ++ (ReferencesResolved, sL) :: post ->
     exists pre' sM,
       pre = pre' ++ [(MergedUsersRewritten, sM)] /\ covered pre' /\
       dealWithMergedUsers (stateAfter s0 pre') = Some sM /\
       updateOldReferencesForNew sM = Some sL) /\
  (forall pre post sM, tr = pre ++ (MergedUsersRewritten, sM) :: post ->
     covered pre /\ dealWithMergedUsers (stateAfter s0 pre) = Some sM).

(** What the rewrite and the lookup add to the trace. *)
Definition tailOf tr (tail : list (entry (A:=A) (S:=S))) : Prop :=
  tail = [] \/
  (covered tr /\
   exists sM, dealWithMergedUsers (stateAfter s0 tr) = Some sM /\
     (tail = [(MergedUsersRewritten, sM)] \/
      exists sL, updateOldReferencesForNew sM = Some sL /\
                 tail = [(MergedUsersRewritten, sM); (ReferencesResolved, sL)])).

Lemma not_preparation_in ev (e : entry (A:=A) (S:=S)) pre post :
  Forall isPreparation ev -> ~ isPreparation e -> ev <> pre ++ e :: post.
Proof.
  intros Hall Hne ->. apply Forall_app in Hall as [_ Hall].
  apply Forall_cons in Hall as [He _]. contradiction.
Qed.

(** What one database adds to the trace. *)
Lemma processDatabase_adds db r :
  db ∈ databases cfg -> wf r ->
  wf (processDatabase cfg dbId r db) /\
  exists ev tail,
    fst (processDatabase cfg dbId r db) = fst r ++ ev ++ tail /\
    Forall isPreparation ev /\ tailOf (fst r ++ ev) tail.
Proof.
  intros Hdb Hwf. unfold Pipeline.processDatabase.
  destruct (String.eqb_spec (Config.dbId db) dbId) as [Hid|Hid]; simpl.
  2:{ split; [exact Hwf|]. exists [], []. rewrite !app_nil_r.
      split; [reflexivity|]. split; [constructor|now left]. }
  destruct (collections cfg) as [cs|] eqn:Hcs.
  2:{ split; [exact Hwf|]. exists [], []. rewrite !app_nil_r.
      split; [reflexivity|]. split; [constructor|now left]. }
  destruct (collections_cover db cs r Hdb Hid Hwf) as (Hwf1 & (ev & E1 & Hp & Hn1) & Hq).
  set (r1 := fold_left (processCollection cfg db) cs r) in *.
  destruct (call_cases dealWithMergedUsers MergedUsersRewritten r1 Hwf1)
    as [(sM & Hr1 & HM & ->)| ->].
  - assert (covered (fst r ++ ev)) as Hcov.
    { rewrite <- E1. intros cs' c def Hcs' Hc Hd. rewrite Hcs in Hcs'.
      injection Hcs' as <-. now apply Hq. }
    rewrite E1 in HM.
    destruct (call_cases updateOldReferencesForNew ReferencesResolved
                (fst r1 ++ [(MergedUsersRewritten, sM)], Some sM) (wf_snoc _ _ _))
      as [(sL & _ & HL & ->)| ->]; simpl in *.
    + rewrite stateAfter_snoc in HL.
      split; [apply wf_snoc|].
      exists ev, [(MergedUsersRewritten, sM); (ReferencesResolved, sL)].
      split; [rewrite E1, <- !app_assoc; reflexivity|]. split; [exact Hp|].
      right. split; [exact Hcov|]. exists sM. split; [exact HM|]. right. eauto.
    + split; [apply wf_stopped|].
      exists ev, [(MergedUsersRewritten, sM)].
      split; [rewrite E1, <- !app_assoc; reflexivity|]. split; [exact Hp|].
      right. split; [exact Hcov|]. exists sM. split; [exact HM|]. now left.
  - simpl. split; [apply wf_stopped|]. exists ev, []. rewrite app_nil_r.
    split; [exact E1|]. split; [exact Hp|now left].
Qed.

Lemma ordered_extend tr ev tail :
  ordered tr -> Forall isPreparation ev -> tailOf (tr ++ ev) tail ->
  ordered (tr ++ ev ++ tail).
Proof.
  intros [HL HM] Hp Htail.
  assert (forall s : S, ~ isPreparation (ReferencesResolved (A:=A), s)) as NL
    by (intros s (k & c & d & H); discriminate).
  assert (forall s : S, ~ isPreparation (MergedUsersRewritten (A:=A), s)) as NM
    by (intros s (k & c & d & H); discriminate).
  split.
  - intros pre post sL E.
    apply split_app in E as [(p1 & E & _)|(pre2 & -> & E)].
    { exact (HL _ _ _ E). }
    apply split_app in E as [(p1 & E & _)|(pre3 & -> & E)].
    { exfalso. exact (not_preparation_in _ _ _ _ Hp (NL sL) E). }
    symmetry in E. destruct Htail as [->|(Hc & sM & HsM & [->|(sL' & HsL & ->)])].
    + destruct pre3; discriminate.
    + apply split_one in E as (_ & ? & _). discriminate.
    + apply split_two in E as [(_ & ? & _)|(-> & Heq & _)]; [discriminate|].
      injection Heq as ->.
      exists (tr ++ ev), sM. split; [now rewrite <- app_assoc|auto].
  - intros pre post sM' E.
    apply split_app in E as [(p1 & E & _)|(pre2 & -> & E)].
    { exact (HM _ _ _ E). }
    apply split_app in E as [(p1 & E & _)|(pre3 & -> & E)].
    { exfalso. exact (not_preparation_in _ _ _ _ Hp (NM sM') E). }
    symmetry in E. destruct Htail as [->|(Hc & sM & HsM & [->|(sL' & HsL & ->)])].
    + destruct pre3; discriminate.
    + apply split_one in E as (-> & Heq & _). injection Heq as ->.
      rewrite app_nil_r. auto.
    + apply split_two in E as [(-> & Heq & _)|(_ & ? & _)]; [|discriminate].
      injection Heq as ->. rewrite app_nil_r. auto.
Qed.

Lemma databases_ordered : forall dbs r,
  (forall db, db ∈ dbs -> db ∈ databases cfg) ->
  wf r -> ordered (fst r) ->
  ordered (fst (fold_left (processDatabase cfg dbId) dbs r)).
Proof.
  induction dbs as [|db dbs IH]; intros r Hsub Hwf Hr; simpl; [exact Hr|].
  destruct (processDatabase_adds db r (Hsub db ltac:(left)) Hwf)
    as (Hwf1 & ev & tail & E & Hp & Ht).
  apply IH; [intros d Hd; apply Hsub; now right|exact Hwf1|].
  rewrite E. now apply ordered_extend.
Qed.

Lemma start_ordered : ordered (fst (start cfg dbId s0)).
Proof.
  unfold Pipeline.start.
  assert (wf ([], Some s0)) as Hwf0 by (intros s [= <-]; reflexivity).
  assert (forall r, wf r -> (forall e, e ∈ fst r -> fst e = MapsSetUp \/ fst e = UsersFetched) ->
            ordered (fst r)) as Hearly.
  { intros r _ Hev. split; intros pre post s E;
      match type of E with _ = _ ++ ?x :: _ =>
        destruct (Hev x) as [H|H];
          [rewrite E; apply elem_of_app; right; left|discriminate..]
      end. }
  assert (forall f (e : event A) r,
            wf r -> (e = MapsSetUp \/ e = UsersFetched) ->
            (forall x, x ∈ fst r -> fst x = MapsSetUp \/ fst x = UsersFetched) ->
            wf (call f e r) /\
            (forall x, x ∈ fst (call f e r) -> fst x = MapsSetUp \/ fst x = UsersFetched))
    as Hcall.
  { intros f e r Hwf He Hev.
    destruct (call_cases f e r Hwf) as [(s' & _ & _ & ->)| ->]; simpl.
    - split; [apply wf_snoc|]. intros x Hx. apply elem_of_app in Hx as [Hx|Hx]; [auto|].
      apply list_elem_of_singleton in Hx as ->. exact He.
    - split; [apply wf_stopped|exact Hev]. }
  destruct (Hcall (setupMaps dbId) MapsSetUp ([], Some s0) Hwf0 ltac:(now left))
    as (Hwf1 & Hev1); [intros x Hx; inversion Hx|].
  destruct (Hcall getAllUsers UsersFetched _ Hwf1 ltac:(now right) Hev1) as (Hwf2 & Hev2).
  apply databases_ordered; auto.
Qed.
End Start.
End PipelineFacts.

(** C9.  In the trace of [start], whatever the passes do: the general
    lookup ([updateOldReferencesForNew]) returns only directly after the
    identity-merge rewrite ([dealWithMergedUsers]) has returned, and runs in
    the state the rewrite has left; and the rewrite returns only after, for
    every import definition of every configured collection, the preparation
    has returned: for a create definition [prepareCreateData] (or, for the
    users collection, [prepareUserCollectionCreateData]), for an update
    definition [prepareUpdateData], each called in the state the step
    before it has left.  An update definition is passed over only when the
    import map has no stage for its collection at that moment. *)
Theorem merge_rewrite_then_lookup_after_all_passes {A S : Type}
    (setupMaps : string -> S -> option S)
    (getAllUsers : S -> option S)
    (prepareCreateData prepareUserCollectionCreateData prepareUpdateData :
       Config.configDatabase -> Config.configCollection A -> Config.importDef A ->
       S -> option S)
    (dealWithMergedUsers updateOldReferencesForNew : S -> option S)
    (importMapHas : S -> string -> bool)
    (cfg : Pipeline.appwriteConfig A) (dbId : string) (s : S) :
  let tr := fst (Pipeline.start setupMaps getAllUsers prepareCreateData
                   prepareUserCollectionCreateData prepareUpdateData
                   dealWithMergedUsers updateOldReferencesForNew importMapHas
                   cfg dbId s) in
  let covered := Pipeline.covered prepareCreateData prepareUserCollectionCreateData
                   prepareUpdateData importMapHas cfg dbId s in
  (forall pre post sL, tr = pre ++ (Pipeline.ReferencesResolved, sL) :: post ->
     exists pre' sM,
       pre = pre' ++ [(Pipeline.MergedUsersRewritten, sM)] /\ covered pre' /\
       dealWithMergedUsers (Pipeline.stateAfter s pre') = Some sM /\
       updateOldReferencesForNew sM = Some sL) /\
  (forall pre post sM, tr = pre ++ (Pipeline.MergedUsersRewritten, sM) :: post ->
     covered pre /\ dealWithMergedUsers (Pipeline.stateAfter s pre) = Some sM).
Proof. apply PipelineFacts.start_ordered. Qed.

Lemma merge_rewrite_then_lookup_after_all_passes_witness :
  fst Examples.countingRun
    = [(Pipeline.MapsSetUp, 0); (Pipeline.UsersFetched, 0);
       (Pipeline.Prepared Pipeline.Create "Items" Examples.itemsDef, 1);
       (Pipeline.Prepared Pipeline.Update "Items" Examples.againDef, 11);
       (Pipeline.MergedUsersRewritten, 111);
       (Pipeline.ReferencesResolved, 1111)] /\
  Pipeline.prepared Examples.countCreate Examples.countCreate Examples.countUpdate
    (fun _ _ => true) Examples.bothConfig "db1" 0
    [(Pipeline.MapsSetUp, 0); (Pipeline.UsersFetched, 0);
     (Pipeline.Prepared Pipeline.Create "Items" Examples.itemsDef, 1);
     (Pipeline.Prepared Pipeline.Update "Items" Examples.againDef, 11)]
    Examples.bothCollection Examples.againDef.
Proof.
  split; [reflexivity|].
  destruct (merge_rewrite_then_lookup_after_all_passes
              (fun _ s => Some s) Some Examples.countCreate Examples.countCreate
              Examples.countUpdate (fun s => Some (s + 100)) (fun s => Some (s + 1000))
              (fun _ _ => true) Examples.bothConfig "db1" 0) as [_ HM].
  destruct (HM [(Pipeline.MapsSetUp, 0); (Pipeline.UsersFetched, 0);
                (Pipeline.Prepared Pipeline.Create "Items" Examples.itemsDef, 1);
                (Pipeline.Prepared Pipeline.Update "Items" Examples.againDef, 11)]
              [(Pipeline.ReferencesResolved, 1111)] 111 eq_refl) as [Hcov _].
  apply (Hcov [Examples.bothCollection]); [reflexivity|left|right; left].
Defined.

(** ** The object store *)

Module StoreFacts.
Import Store.
Local Open Scope store_scope.

Lemma value_eqb_spec a b : reflect (a = b) (value_eqb a b).
Proof.
  destruct a, b; simpl; try (constructor; congruence).
  - destruct (Bool.eqb_spec b0 b); constructor; congruence.
  - destruct (Z.eqb_spec n n0); constructor; congruence.
  - destruct (String.eqb_spec s s0); constructor; congruence.
  - destruct (Nat.eqb_spec l l0); constructor; congruence.
Qed.

(** *** Own properties *)

Lemma props_get_set_same key v ps : props_get key (props_set key v ps) = v.
Proof.
  induction ps as [|[k w] ps IH]; simpl.
  - now rewrite String.eqb_refl.
  - destruct (String.eqb key k) eqn:E; simpl; now rewrite E.
Qed.

Lemma props_get_set_other key key' v ps :
  key <> key' -> props_get key' (props_set key v ps) = props_get key' ps.
Proof.
  intros Hne. induction ps as [|[k w] ps IH]; simpl.
  - destruct (String.eqb_spec key' key); congruence.
  - destruct (String.eqb_spec key k) as [->|Hk]; simpl.
    + destruct (String.eqb_spec key' k); congruence.
    + now rewrite IH.
Qed.

Lemma props_get_absent key ps : key ∉ map fst ps -> props_get key ps = VUndef.
Proof.
  induction ps as [|[k w] ps IH]; simpl; [reflexivity|].
  intros H. apply not_elem_of_cons in H as [Hk H].
  destruct (String.eqb_spec key k); [contradiction|auto].
Qed.

(** *** [Set] keeps the first occurrence of each value *)

Lemma uniqFrom_elem seen vs x :
  x ∈ uniqFrom seen vs <-> x ∈ vs /\ x ∉ seen.
Proof.
  revert seen. induction vs as [|v vs IH]; intros seen; simpl.
  - split; [inversion 1|intros [H _]; inversion H].
  - destruct (existsb (value_eqb v) seen) eqn:E.
    + rewrite IH. apply existsb_exists in E as (w & Hw & Hvw).
      destruct (value_eqb_spec v w); [subst w|discriminate].
      apply list_elem_of_In in Hw.
      split; [intros [? ?]; split; [now right|assumption]|].
      intros [Hx Hn]. split; [|exact Hn].
      apply elem_of_cons in Hx as [->|Hx]; [contradiction|exact Hx].
    + rewrite elem_of_cons, IH, not_elem_of_cons, elem_of_cons.
      assert (v ∉ seen) as Hv.
      { intros Hin. apply list_elem_of_In in Hin.
        assert (existsb (value_eqb v) seen = true) as E'.
        { apply existsb_exists. exists v. split; [exact Hin|].
          now destruct (value_eqb_spec v v). }
        congruence. }
      split.
      * intros [->|[Hx [Hne Hn]]]; auto.
      * intros [[->|Hx] Hn]; auto.
        destruct (value_eqb_spec x v) as [->|Hne]; auto.
Qed.

Lemma uniqFrom_NoDup seen vs : NoDup (uniqFrom seen vs).
Proof.
  revert seen. induction vs as [|v vs IH]; intros seen; simpl; [constructor|].
  destruct (existsb (value_eqb v) seen); [apply IH|].
  apply NoDup_cons. split; [|apply IH].
  rewrite uniqFrom_elem. intros [_ H]. apply H. left.
Qed.

(** The array built from a [Set] has every value of the list, once. *)
Lemma uniq_spec vs : NoDup (uniq vs) /\ forall x, x ∈ uniq vs <-> x ∈ vs.
Proof.
  split; [apply uniqFrom_NoDup|].
  intros x. unfold uniq. rewrite uniqFrom_elem. split; [tauto|].
  intros H. split; [exact H|inversion 1].
Qed.

(** *** Running a computation step by step *)

Lemma bind_Ok {A B} (m : M A) (f : A -> M B) h b h' :
  bind m f h = Ok b h' -> exists a h1, m h = Ok a h1 /\ f a h1 = Ok b h'.
Proof. unfold bind. destruct (m h) as [a h1| |]; [eauto|discriminate|discriminate]. Qed.

Lemma bind_Throw {A B} (m : M A) (f : A -> M B) h h' :
  bind m f h = Throw h' ->
  m h = Throw h' \/ exists a h1, m h = Ok a h1 /\ f a h1 = Throw h'.
Proof.
  unfold bind. destruct (m h) as [a h1|h1|]; [eauto| |discriminate].
  intros [= ->]. now left.
Qed.

(** A computation that only reads hands back the store it was given. *)
Definition readOnly {A} (m : M A) : Prop :=
  forall h, match m h with
            | Ok _ h' | Throw h' => h' = h
            | Fail => True
            end.

Lemma readOnly_ret {A} (a : A) : readOnly (ret a).
Proof. intros h. reflexivity. Qed.

Lemma readOnly_throw {A} : readOnly (@throwTypeError A).
Proof. intros h. reflexivity. Qed.

Lemma readOnly_fail {A} : readOnly (@fail A).
Proof. intros h. exact I. Qed.

Lemma readOnly_readCell l : readOnly (readCell l).
Proof. intros h. unfold readCell. now destruct (h !! l). Qed.

Lemma readOnly_bind {A B} (m : M A) (f : A -> M B) :
  readOnly m -> (forall a, readOnly (f a)) -> readOnly (bind m f).
Proof.
  intros Hm Hf h. unfold bind. specialize (Hm h).
  destruct (m h) as [a h1|h1|]; [subst h1; apply Hf|exact Hm|exact I].
Qed.

Ltac read_only :=
  repeat first
    [ apply readOnly_ret | apply readOnly_throw | apply readOnly_fail
    | apply readOnly_readCell
    | apply readOnly_bind; [|intros ?]
    | match goal with
      | |- readOnly (match ?x with _ => _ end) => destruct x
      | |- readOnly (if ?x then _ else _) => destruct x
      end ].

Lemma readOnly_getProp o key : readOnly (getProp o key).
Proof. unfold getProp. read_only. Qed.

Lemma readOnly_ownProps o : readOnly (ownProps o).
Proof. unfold ownProps. read_only. Qed.

Lemma readOnly_objectKeys o : readOnly (objectKeys o).
Proof.
  unfold objectKeys. destruct o; try apply readOnly_throw;
    (apply readOnly_bind; [apply readOnly_ownProps|intros ?; apply readOnly_ret]).
Qed.

Lemma readOnly_isArray v : readOnly (isArray v).
Proof. unfold isArray. read_only. Qed.

Lemma readOnly_isNonDateObject v : readOnly (isNonDateObject v).
Proof. unfold isNonDateObject. read_only. Qed.

Lemma readOnly_elements v : readOnly (elements v).
Proof. unfold elements. read_only. Qed.

Lemma readOnly_isEmpty v : readOnly (isEmpty v).
Proof. unfold isEmpty. read_only. Qed.

Lemma readOnly_toString v : readOnly (toString v).
Proof. intros h. unfold toString. now destruct (toStringFuel (length h) h v). Qed.

Lemma readOnly_filterM {A} (p : A -> M bool) l :
  (forall x, readOnly (p x)) -> readOnly (filterM p l).
Proof.
  intros Hp. induction l as [|x l IH]; simpl; [apply readOnly_ret|].
  apply readOnly_bind; [auto|]. intros keep.
  apply readOnly_bind; [auto|]. intros rest. apply readOnly_ret.
Qed.

Lemma readOnly_Ok {A} (m : M A) h a h' : readOnly m -> m h = Ok a h' -> h' = h.
Proof. intros Hm E. specialize (Hm h). now rewrite E in Hm. Qed.

Lemma readOnly_Throw {A} (m : M A) h h' : readOnly m -> m h = Throw h' -> h' = h.
Proof. intros Hm E. specialize (Hm h). now rewrite E in Hm. Qed.

(** *** What a computation leaves untouched *)

(** A cell keeps its shape: an object stays an object, whatever its
    properties become; an array or a date stays as it is. *)
Definition sameShape (c c' : cell) : Prop :=
  match c, c' with
  | CObj _, CObj _ => True
  | _, _ => c = c'
  end.

(** [h'] has every cell of [h], with its shape, and unchanged outside the
    locations in [P]. *)
Definition agreeExcept (P : loc -> Prop) (h h' : heap) : Prop :=
  length h <= length h' /\
  (forall l c, h !! l = Some c -> ~ P l -> h' !! l = Some c) /\
  (forall l c, h !! l = Some c -> exists c', h' !! l = Some c' /\ sameShape c c').

(** The computation changes no existing cell outside [P]. *)
Definition frameExcept (P : loc -> Prop) {A} (m : M A) : Prop :=
  forall h, match m h with
            | Ok _ h' | Throw h' => agreeExcept P h h'
            | Fail => True
            end.

Definition none : loc -> Prop := fun _ => False.

Lemma sameShape_refl c : sameShape c c.
Proof. now destruct c. Qed.

Lemma sameShape_trans c1 c2 c3 : sameShape c1 c2 -> sameShape c2 c3 -> sameShape c1 c3.
Proof. destruct c1, c2, c3; simpl; congruence. Qed.

Lemma agree_refl P h : agreeExcept P h h.
Proof. repeat split; auto. intros l c H. eauto using sameShape_refl. Qed.

Lemma agree_trans P h1 h2 h3 :
  agreeExcept P h1 h2 -> agreeExcept P h2 h3 -> agreeExcept P h1 h3.
Proof.
  intros (L1 & A1 & S1) (L2 & A2 & S2). split; [lia|]. split.
  - intros l c Hl Hp. auto.
  - intros l c Hl. destruct (S1 l c Hl) as (c2 & H2 & Hs2).
    destruct (S2 l c2 H2) as (c3 & H3 & Hs3). eauto using sameShape_trans.
Qed.

Lemma agree_weaken (P Q : loc -> Prop) h h' :
  (forall l, P l -> Q l) -> agreeExcept P h h' -> agreeExcept Q h h'.
Proof. intros HPQ (L & Ag & Sh). repeat split; auto. Qed.

Lemma agree_none_lookup h h' l c :
  agreeExcept none h h' -> h !! l = Some c -> h' !! l = Some c.
Proof. intros (_ & Ag & _) Hl. apply Ag; [exact Hl|unfold none; tauto]. Qed.

Lemma agree_readOnly P {A} (m : M A) : readOnly m -> frameExcept P m.
Proof.
  intros Hm h. specialize (Hm h).
  destruct (m h); subst; auto using agree_refl.
Qed.

Lemma frame_weaken (P Q : loc -> Prop) {A} (m : M A) :
  (forall l, P l -> Q l) -> frameExcept P m -> frameExcept Q m.
Proof.
  intros HPQ Hm h. specialize (Hm h).
  destruct (m h); eauto using agree_weaken.
Qed.

Lemma frame_ret P {A} (a : A) : frameExcept P (ret a).
Proof. intros h. apply agree_refl. Qed.

Lemma frame_bind P {A B} (m : M A) (f : A -> M B) :
  frameExcept P m -> (forall a, frameExcept P (f a)) -> frameExcept P (bind m f).
Proof.
  intros Hm Hf h. unfold bind. specialize (Hm h).
  destruct (m h) as [a h1|h1|]; [|exact Hm|exact I].
  specialize (Hf a h1). destruct (f a h1); eauto using agree_trans.
Qed.

Lemma frame_alloc P c : frameExcept P (alloc c).
Proof.
  intros h. unfold alloc. split; [rewrite length_app; lia|]. split.
  - intros l c' Hl _. rewrite lookup_app_l; [exact Hl|]. now apply lookup_lt_Some in Hl.
  - intros l c' Hl. exists c'. split; [|apply sameShape_refl].
    rewrite lookup_app_l; [exact Hl|]. now apply lookup_lt_Some in Hl.
Qed.

Lemma frame_setProp l key v : frameExcept (eq l) (setProp (VRef l) key v).
Proof.
  intros h. unfold setProp. destruct (h !! l) as [[ps| |]|] eqn:E; try exact I.
  split; [now rewrite length_insert|]. split.
  - intros l' c Hl Hne. rewrite list_lookup_insert_ne; auto.
  - intros l' c Hl. destruct (decide (l = l')) as [<-|Hne].
    + rewrite list_lookup_insert_eq by (now apply lookup_lt_Some in E).
      rewrite E in Hl. injection Hl as <-. eexists. split; [reflexivity|exact I].
    + rewrite list_lookup_insert_ne by auto. eauto using sameShape_refl.
Qed.

Lemma frame_forEach P {A} (f : A -> M unit) l :
  (forall x, frameExcept P (f x)) -> frameExcept P (forEach f l).
Proof.
  intros Hf. induction l as [|x l IH]; simpl; [apply frame_ret|].
  apply frame_bind; auto.
Qed.

Lemma frame_forEachAcc P {A S} (f : A -> S -> M S) l : forall acc,
  (forall x s, frameExcept P (f x s)) -> frameExcept P (forEachAcc f l acc).
Proof.
  induction l as [|x l IH]; intros acc Hf; simpl; [apply frame_ret|].
  apply frame_bind; auto.
Qed.

(** One turn of the loop of [mergeObjects] writes to the result only. *)
Lemma mergeKey_frame self source update r key :
  (forall a b, frameExcept none (self a b)) ->
  frameExcept (eq r) (mergeKey self source update (VRef r) key).
Proof.
  intros Hself. unfold mergeKey.
  apply frame_bind; [apply agree_readOnly, readOnly_getProp|intros sourceValue].
  apply frame_bind; [apply agree_readOnly, readOnly_getProp|intros updateValue].
  apply frame_bind; [apply agree_readOnly, readOnly_isArray|intros [|]].
  - apply frame_bind; [apply agree_readOnly, readOnly_isArray|intros srcIsArray].
    apply frame_bind.
    { apply agree_readOnly.
      destruct srcIsArray; [apply readOnly_elements|apply readOnly_ret]. }
    intros sourceArray.
    apply frame_bind; [apply agree_readOnly, readOnly_elements|intros updateArray].
    apply frame_bind; [apply frame_alloc|intros merged].
    apply frame_setProp.
  - apply frame_bind; [apply agree_readOnly, readOnly_isNonDateObject|intros [|]].
    + apply frame_bind; [|intros merged; apply frame_setProp].
      eapply frame_weaken; [|apply Hself]. unfold none. tauto.
    + destruct (negb (isNullish updateValue)); [apply frame_setProp|].
      destruct (value_eqb sourceValue VUndef); [apply frame_setProp|apply frame_ret].
Qed.

(** The rest of [mergeObjects] once the result object [r] exists. *)
Lemma mergeLoop_frame self source update r :
  (forall a b, frameExcept none (self a b)) ->
  frameExcept (eq r)
    (let* keys := objectKeys update in
     exec forEach (mergeKey self source update (VRef r)) keys then ret (VRef r)).
Proof.
  intros Hself.
  apply frame_bind; [apply agree_readOnly, readOnly_objectKeys|intros keys].
  apply frame_bind; [|intros ?; apply frame_ret].
  apply frame_forEach. intros key. now apply mergeKey_frame.
Qed.

Lemma mergeLoop_result self source update r h v h' :
  (let* keys := objectKeys update in
   exec forEach (mergeKey self source update (VRef r)) keys then ret (VRef r)) h
  = Ok v h' -> v = VRef r.
Proof.
  intros E. apply bind_Ok in E as (keys & h1 & _ & E).
  apply bind_Ok in E as (u & h2 & _ & E). now injection E as <- _.
Qed.

(** A store grown by one cell, then changed at that cell only, agrees with
    the store before the growth. *)
Lemma agree_after_alloc h c h' :
  agreeExcept (eq (length h)) (h ++ [c]) h' -> agreeExcept none h h'.
Proof.
  intros (L & Ag & Sh). rewrite length_app in L. simpl in L.
  assert (forall l c0, h !! l = Some c0 -> h' !! l = Some c0) as Hold.
  { intros l c0 Hl. pose proof (lookup_lt_Some _ _ _ Hl) as Hlt.
    apply Ag; [|lia]. now rewrite lookup_app_l. }
  split; [lia|]. split; [auto|].
  intros l c0 Hl. eauto using sameShape_refl.
Qed.

(** [mergeObjects] changes no cell that exists when it is called, also
    when it throws, and its result is a new object. *)
Lemma mergeObjects_frame fuel : forall source update h,
  match mergeObjects fuel source update h with
  | Ok result h' =>
      agreeExcept none h h' /\ result = VRef (length h) /\
      exists ps, h' !! length h = Some (CObj ps)
  | Throw h' => agreeExcept none h h'
  | Fail => True
  end.
Proof.
  induction fuel as [|fuel IH]; intros source update h; [exact I|].
  assert (forall a b, frameExcept none (mergeObjects fuel a b)) as Hself.
  { intros a b h0. specialize (IH a b h0).
    destruct (mergeObjects fuel a b h0); tauto. }
  simpl. unfold bind at 1.
  pose proof (readOnly_ownProps source h) as Hp.
  destruct (ownProps source h) as [props h1|h1|]; [subst h1|subst h1; apply agree_refl|exact I].
  unfold bind at 1. unfold alloc at 1.
  pose proof (mergeLoop_frame (mergeObjects fuel) source update (length h) Hself
                (h ++ [CObj props])) as Hrest.
  pose proof (mergeLoop_result (mergeObjects fuel) source update (length h)
                (h ++ [CObj props])) as Hres.
  cbv zeta in Hrest, Hres.
  destruct (bind (objectKeys update) _ (h ++ [CObj props])) as [v h'|h'|].
  - split; [now apply agree_after_alloc in Hrest|]. split; [now apply (Hres v h')|].
    destruct Hrest as (_ & _ & Sh).
    destruct (Sh (length h) (CObj props)) as (c' & Hc' & Hshape).
    { now rewrite list_lookup_middle. }
    destruct c'; simpl in Hshape; try discriminate. eauto.
  - now apply agree_after_alloc in Hrest.
  - exact I.
Qed.

(** *** The fields of a merged object *)

(** Runs the first computation of a sequence that returned, given the
    equation [lem] that says what it returns. *)
Ltac bind_step E lem :=
  let x := fresh "x" in
  let hx := fresh "hx" in
  let Ex := fresh "Ex" in
  apply bind_Ok in E as (x & hx & Ex & E);
  rewrite lem in Ex; injection Ex as <- <-.

(** The same, for a computation that evaluates by itself. *)
Ltac bind_eval E :=
  let x := fresh "x" in
  let hx := fresh "hx" in
  let Ex := fresh "Ex" in
  apply bind_Ok in E as (x & hx & Ex & E);
  cbv in Ex; injection Ex as <- <-.

Lemma getProp_obj l ps key h :
  h !! l = Some (CObj ps) -> getProp (VRef l) key h = Ok (props_get key ps) h.
Proof. intros E. unfold getProp, bind, readCell. now rewrite E. Qed.

Lemma isArray_ref l c h :
  h !! l = Some c ->
  isArray (VRef l) h = Ok (match c with CArr _ => true | _ => false end) h.
Proof. intros E. unfold isArray, bind, readCell. now rewrite E. Qed.

Lemma isArray_prim v h : (forall l, v <> VRef l) -> isArray v h = Ok false h.
Proof. destruct v; try reflexivity. intros H. now destruct (H l). Qed.

Lemma isNonDateObject_ref l c h :
  h !! l = Some c ->
  isNonDateObject (VRef l) h = Ok (match c with CDate _ => false | _ => true end) h.
Proof. intros E. unfold isNonDateObject, bind, readCell. now rewrite E. Qed.

Lemma elements_arr l es h :
  h !! l = Some (CArr es) -> elements (VRef l) h = Ok es h.
Proof. intros E. unfold elements, bind, readCell. now rewrite E. Qed.

Lemma setProp_obj l ps key v h :
  h !! l = Some (CObj ps) ->
  setProp (VRef l) key v h = Ok tt (<[l := CObj (props_set key v ps)]> h).
Proof. intros E. unfold setProp. now rewrite E. Qed.

(** A value held by a cell of a closed store points into the store. *)
Lemma closed_prop h l ps key :
  closed h -> h !! l = Some (CObj ps) -> validValue h (props_get key ps).
Proof.
  intros Hc E. specialize (Hc l _ E). simpl in Hc. clear E.
  induction ps as [|[k v] ps IH]; simpl; [exact I|].
  apply Forall_cons in Hc as [Hv Hps].
  destruct (String.eqb key k); auto.
Qed.

(** The stores a call runs in: the cells of the base store [h] are there,
    unchanged. *)
Definition extendsBase (h hk : heap) : Prop :=
  forall l c, h !! l = Some c -> hk !! l = Some c.

(** A merge stays one when the store changes at or below [lo] only, and
    for a smaller bound. *)
Lemma fieldMerged_mono h h1 h2 lo lo' deeper deeper' a b v :
  (forall pa pb pr, deeper pa pb pr -> deeper' pa pb pr) ->
  lo' <= lo ->
  (forall l c, lo < l -> h1 !! l = Some c -> h2 !! l = Some c) ->
  fieldMerged h h1 lo deeper a b v -> fieldMerged h h2 lo' deeper' a b v.
Proof.
  intros Hd Hlo Hpres (F1 & F2 & F3 & F4 & F5 & F6).
  repeat split; auto.
  - intros lb eb Hb Hlb.
    destruct (F5 lb eb Hb Hlb) as (lr & es & -> & Hlt & Hlr & Hes & Hnd & Hin).
    exists lr, es. repeat split; auto; try lia; apply Hin.
  - intros lb pb Hb Hlb. destruct (F6 lb pb Hb Hlb) as (lr & pr & -> & Hlt & Hlr & Hdeep).
    exists lr, pr. repeat split; auto; try lia. intros la pa Ha Hla. eauto.
Qed.

Lemma merged_mono h n : forall h1 h2 lo lo' sp up rp,
  lo' <= lo ->
  (forall l c, lo < l -> h1 !! l = Some c -> h2 !! l = Some c) ->
  merged h h1 lo n sp up rp -> merged h h2 lo' n sp up rp.
Proof.
  induction n as [|n IH]; intros h1 h2 lo lo' sp up rp Hlo Hpres H; [exact I|].
  simpl in *. intros key Hkey.
  eapply fieldMerged_mono; [| | |exact (H key Hkey)]; eauto.
Qed.

Section MergeLoop.
Variable fuel : nat.
Variable h : heap.
Hypothesis Hclosed : closed h.

(** The nested calls return merges. *)
Hypothesis Hdeeper : forall la lb pa pb hk res hk',
  extendsBase h hk ->
  h !! la = Some (CObj pa) -> h !! lb = Some (CObj pb) ->
  mergeObjects fuel (VRef la) (VRef lb) hk = Ok res hk' ->
  exists pr, res = VRef (length hk) /\ hk' !! length hk = Some (CObj pr) /\
             merged h hk' (length hk) fuel pa pb pr.

Variables (ls lu : loc) (sp up : list (string * value)).
Hypothesis Hsource : h !! ls = Some (CObj sp).
Hypothesis Hupdate : h !! lu = Some (CObj up).

(** The result object, made after the cells of [h]. *)
Variable r : loc.
Hypothesis Hr0 : length h <= r.

Lemma extendsBase_agree hk hk' :
  extendsBase h hk -> agreeExcept (eq r) hk hk' -> extendsBase h hk'.
Proof.
  intros Hb (_ & Ag & _) l c Hl. apply Ag; [auto|].
  apply lookup_lt_Some in Hl. lia.
Qed.

(** One turn of the loop. *)
Lemma mergeKey_spec key hk hk' rp :
  extendsBase h hk -> hk !! r = Some (CObj rp) ->
  props_get key rp = props_get key sp ->
  mergeKey (mergeObjects fuel) (VRef ls) (VRef lu) (VRef r) key hk = Ok tt hk' ->
  exists rp', hk' !! r = Some (CObj rp') /\
    (forall key', key' <> key -> props_get key' rp' = props_get key' rp) /\
    fieldMerged h hk' r (merged h hk' r fuel)
      (props_get key sp) (props_get key up) (props_get key rp').
Proof.
  intros Hb Hr Hsame E. unfold mergeKey in E.
  bind_step E (getProp_obj ls sp key hk (Hb _ _ Hsource)).
  bind_step E (getProp_obj lu up key hk (Hb _ _ Hupdate)).
  set (a := props_get key sp) in *. set (b := props_get key up) in *.
  pose proof (closed_prop h lu up key Hclosed Hupdate) as Hvb. fold b in Hvb.
  pose proof (closed_prop h ls sp key Hclosed Hsource) as Hva. fold a in Hva.
  assert (r < length hk) as Hrlt by (now apply lookup_lt_Some in Hr).
  assert (forall v, setProp (VRef r) key v hk = Ok tt hk' ->
            exists rp', hk' !! r = Some (CObj rp') /\
              (forall key', key' <> key -> props_get key' rp' = props_get key' rp) /\
              props_get key rp' = v) as Hset.
  { intros v Ev. rewrite (setProp_obj r rp key v hk Hr) in Ev. injection Ev as <-.
    eexists. split; [now apply list_lookup_insert_eq|].
    split; [intros; now apply props_get_set_other|apply props_get_set_same]. }
  destruct b as [| | | | |lb] eqn:Eb.
  - (* undefined *)
    bind_step E (isArray_prim VUndef hk ltac:(discriminate)).
    bind_eval E.
    simpl in E. destruct (value_eqb_spec a VUndef) as [Ha|Ha].
    + destruct (Hset _ E) as (rp' & ? & ? & Hv). exists rp'. rewrite Hv.
      repeat split; auto; try discriminate; congruence.
    + injection E as <-. exists rp. rewrite Hsame.
      repeat split; auto; try discriminate; congruence.
  - (* null *)
    bind_step E (isArray_prim VNull hk ltac:(discriminate)).
    bind_eval E.
    simpl in E. destruct (value_eqb_spec a VUndef) as [Ha|Ha].
    + destruct (Hset _ E) as (rp' & ? & ? & Hv). exists rp'. rewrite Hv.
      repeat split; auto; try discriminate; congruence.
    + injection E as <-. exists rp. rewrite Hsame.
      repeat split; auto; try discriminate; congruence.
  - bind_step E (isArray_prim (VBool b0) hk ltac:(discriminate)).
    bind_eval E.
    simpl in E. destruct (Hset _ E) as (rp' & ? & ? & Hv). exists rp'. rewrite Hv.
    repeat split; auto; try discriminate; congruence.
  - bind_step E (isArray_prim (VNum n) hk ltac:(discriminate)).
    bind_eval E.
    simpl in E. destruct (Hset _ E) as (rp' & ? & ? & Hv). exists rp'. rewrite Hv.
    repeat split; auto; try discriminate; congruence.
  - bind_step E (isArray_prim (VStr s) hk ltac:(discriminate)).
    bind_eval E.
    simpl in E. destruct (Hset _ E) as (rp' & ? & ? & Hv). exists rp'. rewrite Hv.
    repeat split; auto; try discriminate; congruence.
  - (* a reference: an array, an object or a date of the base store *)
    simpl in Hvb. destruct (lookup_lt_is_Some_2 h lb Hvb) as [cb Hcb].
    pose proof (Hb _ _ Hcb) as Hcb'.
    bind_step E (isArray_ref lb cb hk Hcb').
    destruct cb as [pb|eb|d].
    + (* object: merged recursively *)
      bind_step E (isNonDateObject_ref lb _ hk Hcb').
      apply bind_Ok in E as (merged' & hk1 & Erec & E).
      pose proof (mergeObjects_frame fuel a (VRef lb) hk) as Hrec.
      rewrite Erec in Hrec. destruct Hrec as (Hag & -> & pr & Hpr).
      assert (hk1 !! r = Some (CObj rp)) as Hr1 by (eapply agree_none_lookup; eauto).
      rewrite (setProp_obj r rp key _ hk1 Hr1) in E. injection E as <-.
      eexists. split; [apply list_lookup_insert_eq; now apply lookup_lt_Some in Hr1|].
      split; [intros; now apply props_get_set_other|].
      rewrite props_get_set_same.
      repeat split; try discriminate.
      * intros lb' d [= <-] Hd. congruence.
      * intros lb' eb [= <-] Hd. congruence.
      * intros lb' pb' [= <-] Hpb'. rewrite Hcb in Hpb'. injection Hpb' as <-.
        exists (length hk), pr.
        split; [reflexivity|]. split; [lia|].
        split; [rewrite list_lookup_insert_ne by lia; exact Hpr|].
        intros la pa Ha Hla. rewrite Ha in Erec.
        destruct (Hdeeper la lb pa pb hk _ hk1 Hb Hla Hcb Erec) as (pr' & _ & Hpr' & Hm).
        rewrite Hpr in Hpr'. injection Hpr' as <-.
        eapply merged_mono; [| |exact Hm]; [lia|].
        intros l c Hl Hc. rewrite list_lookup_insert_ne by lia. exact Hc.
    + (* array: concatenated with the source's, duplicates removed *)
      apply bind_Ok in E as (srcIsArray & hx & Eia & E).
      pose proof (readOnly_Ok _ _ _ _ (readOnly_isArray a) Eia) as ->.
      apply bind_Ok in E as (sa & hx & Esa & E).
      assert (hx = hk /\ sa = arrayElements h a) as [-> ->].
      { destruct a as [| | | | |la] eqn:Ea;
          try (injection Eia as <-; injection Esa as <- <-; split; reflexivity).
        simpl in Hva. destruct (lookup_lt_is_Some_2 h la Hva) as [ca Hca].
        pose proof (Hb _ _ Hca) as Hca'.
        rewrite (isArray_ref la ca hk Hca') in Eia. injection Eia as <-.
        unfold arrayElements. rewrite Hca.
        destruct ca; try (injection Esa as <- <-; split; reflexivity).
        rewrite (elements_arr la _ hk Hca') in Esa. injection Esa as <- <-. auto. }
      bind_step E (elements_arr lb eb hk Hcb').
      apply bind_Ok in E as (merged' & hk1 & Eal & E).
      unfold alloc in Eal. injection Eal as <- <-.
      assert ((hk ++ [CArr (uniq (arrayElements h a ++ eb))]) !! r = Some (CObj rp)) as Hr1
        by (now rewrite lookup_app_l).
      rewrite (setProp_obj r rp key _ _ Hr1) in E. injection E as <-.
      eexists. split; [apply list_lookup_insert_eq; now apply lookup_lt_Some in Hr1|].
      split; [intros; now apply props_get_set_other|].
      rewrite props_get_set_same.
      repeat split; try discriminate.
      * intros lb' d [= <-] Hd. congruence.
      * intros lb' eb' [= <-] Hd. rewrite Hcb in Hd. injection Hd as <-.
        exists (length hk), (uniq (arrayElements h a ++ eb)).
        split; [reflexivity|]. split; [lia|].
        split; [rewrite list_lookup_insert_ne by lia; now rewrite list_lookup_middle|].
        split; [reflexivity|]. apply uniq_spec.
      * intros lb' pb' [= <-] Hd. congruence.
    + (* date: copied as it is *)
      bind_step E (isNonDateObject_ref lb _ hk Hcb').
      simpl in E. destruct (Hset _ E) as (rp' & ? & ? & Hv). exists rp'. rewrite Hv.
      repeat split; auto; try discriminate; try congruence.
Qed.

(** The whole loop, over keys that are pairwise distinct. *)
Lemma mergeLoop_spec : forall keys hk h' rp,
  NoDup keys ->
  extendsBase h hk -> hk !! r = Some (CObj rp) ->
  (forall key, key ∈ keys -> props_get key rp = props_get key sp) ->
  forEach (mergeKey (mergeObjects fuel) (VRef ls) (VRef lu) (VRef r)) keys hk = Ok tt h' ->
  exists rp', h' !! r = Some (CObj rp') /\
    (forall key, key ∉ keys -> props_get key rp' = props_get key rp) /\
    (forall key, key ∈ keys ->
       fieldMerged h h' r (merged h h' r fuel)
         (props_get key sp) (props_get key up) (props_get key rp')).
Proof.
  induction keys as [|k keys IH]; intros hk h' rp Hnd Hb Hr Hsame E; simpl in E.
  - injection E as <-. exists rp. split; [exact Hr|]. split; [auto|].
    intros key0 Hin. inversion Hin.
  - apply NoDup_cons in Hnd as [Hk Hnd].
    apply bind_Ok in E as ([] & hk1 & E1 & E).
    assert (forall a b, frameExcept none (mergeObjects fuel a b)) as Hself.
    { intros a b h0. pose proof (mergeObjects_frame fuel a b h0) as H0.
      destruct (mergeObjects fuel a b h0); tauto. }
    pose proof (mergeKey_frame _ (VRef ls) (VRef lu) r k Hself hk) as Hf1.
    rewrite E1 in Hf1.
    destruct (mergeKey_spec k hk hk1 rp Hb Hr) as (rp1 & Hr1 & Hother & Hfield); auto.
    { apply Hsame. left. }
    pose proof (frame_forEach (eq r) _ keys
                  (fun key => mergeKey_frame _ (VRef ls) (VRef lu) r key Hself) hk1) as Hf2.
    rewrite E in Hf2.
    destruct (IH hk1 h' rp1 Hnd) as (rp' & Hr' & Hout & Hin); auto.
    { eapply extendsBase_agree; eauto. }
    { intros key Hkey. rewrite Hother; [apply Hsame; now right|].
      intros ->. contradiction. }
    exists rp'. split; [exact Hr'|]. split.
    + intros key Hkey. apply not_elem_of_cons in Hkey as [Hne Hkey].
      rewrite Hout by exact Hkey. now apply Hother.
    + intros key Hkey. apply elem_of_cons in Hkey as [->|Hkey]; [|now apply Hin].
      rewrite Hout by exact Hk.
      assert (forall l c, r < l -> hk1 !! l = Some c -> h' !! l = Some c) as Hpres.
      { intros l c Hl Hc. destruct Hf2 as (_ & Ag & _). apply Ag; [exact Hc|lia]. }
      eapply fieldMerged_mono; [| | |exact Hfield]; auto.
      intros pa pb pr Hm. eapply merged_mono; [| |exact Hm]; auto.
Qed.
End MergeLoop.

(** *** The merge, to every depth *)

Section DeepMerge.
Variable h : heap.
Hypothesis Hclosed : closed h.
Hypothesis Hkeys : uniqueKeys h.

Lemma mergeObjects_merged : forall fuel ls lu sp up hk result hk',
  extendsBase h hk ->
  h !! ls = Some (CObj sp) -> h !! lu = Some (CObj up) ->
  mergeObjects fuel (VRef ls) (VRef lu) hk = Ok result hk' ->
  exists rp, result = VRef (length hk) /\ hk' !! length hk = Some (CObj rp) /\
             merged h hk' (length hk) fuel sp up rp.
Proof.
  induction fuel as [|fuel IH]; intros ls lu sp up hk result hk' Hb Hs Hu E;
    [discriminate|].
  simpl in E.
  apply bind_Ok in E as (props & h1 & Ep & E).
  unfold ownProps, bind, readCell in Ep. rewrite (Hb _ _ Hs) in Ep.
  injection Ep as <- <-.
  apply bind_Ok in E as (res & h1 & Ea & E).
  unfold alloc in Ea. injection Ea as <- <-.
  apply bind_Ok in E as (keys & h1 & Ek & E).
  assert (extendsBase h (hk ++ [CObj sp])) as Hb1.
  { intros l c Hl. specialize (Hb l c Hl).
    rewrite lookup_app_l; [exact Hb|]. now apply lookup_lt_Some in Hb. }
  unfold objectKeys, ownProps, bind, readCell in Ek.
  rewrite (Hb1 _ _ Hu) in Ek. injection Ek as <- <-.
  apply bind_Ok in E as ([] & h2 & El & E). injection E as <- <-.
  assert (length h <= length hk) as Hle.
  { destruct (le_lt_dec (length h) (length hk)) as [H|H]; [exact H|].
    assert (length hk < length h) as Hlt by lia.
    apply lookup_lt_is_Some_2 in Hlt as [c Hc].
    apply Hb, lookup_lt_Some in Hc. lia. }
  destruct (mergeLoop_spec fuel h Hclosed IH ls lu sp up Hs Hu (length hk) Hle
              (map fst up) (hk ++ [CObj sp]) h2 sp) as (rp & Hr & Hout & Hin); auto.
  - exact (Hkeys lu up Hu).
  - now rewrite list_lookup_middle.
  - exists rp. split; [reflexivity|]. split; [exact Hr|].
    simpl. intros key _.
    destruct (@list_elem_of_dec _ String.string_dec key (map fst up)) as [Hkey|Hkey];
      [now apply Hin|].
    rewrite (props_get_absent key up Hkey), (Hout key Hkey).
    repeat split; try discriminate; congruence.
Qed.
End DeepMerge.

(** *** Enough fuel

    [Fail] marks what is outside the model.  On a closed store, with a
    [source] that points into the store and an [update] whose objects and
    arrays nest at most [n] deep, [mergeObjects] with fuel [S n] stays
    inside it: the call returns or throws. *)

Lemma defined_bind {A B} (m : M A) (f : A -> M B) h :
  m h <> Fail -> (forall a h1, m h = Ok a h1 -> f a h1 <> Fail) ->
  bind m f h <> Fail.
Proof.
  unfold bind. intros Hm Hf.
  destruct (m h) as [a h1|h1|]; [now apply Hf|discriminate|contradiction].
Qed.

Lemma chars_prim s v : v ∈ chars s -> forall l, v <> VRef l.
Proof.
  induction s as [|c s IH]; simpl; [inversion 1|].
  intros H. apply elem_of_cons in H as [->|H]; [discriminate|auto].
Qed.

Lemma seq_prop_cases es key :
  (forall l, seq_prop es key <> VRef l) \/ seq_prop es key ∈ es.
Proof.
  unfold seq_prop. destruct (String.eqb key "length"); [left; discriminate|].
  destruct (JsString.indexOfKey key) as [i|]; [|left; discriminate].
  destruct (es !! i) as [v|] eqn:E; [|left; discriminate].
  right. eapply list_elem_of_lookup_2; eauto.
Qed.

Lemma props_get_cases key ps :
  props_get key ps = VUndef \/ props_get key ps ∈ map snd ps.
Proof.
  induction ps as [|[k v] ps IH]; simpl; [now left|].
  destruct (String.eqb key k); [right; left|].
  destruct IH as [IH|IH]; [now left|right; now right].
Qed.

Lemma indexed_values i vs v : v ∈ map snd (indexed i vs) -> v ∈ vs.
Proof.
  revert i. induction vs as [|w vs IH]; intros i; simpl; [inversion 1|].
  intros H. apply elem_of_cons in H as [->|H]; [left|right; eauto].
Qed.

Lemma valid_prim h v : (forall l, v <> VRef l) -> validValue h v.
Proof. destruct v; simpl; auto. intros H. now destruct (H l). Qed.

Lemma depthLe_prim h n v : (forall l, v <> VRef l) -> depthLe h n v.
Proof. apply depth_prim. Qed.

Section EnoughFuel.
Variable h0 : heap.
Hypothesis Hclosed : closed h0.

Lemma closed_value l c v :
  h0 !! l = Some c -> v ∈ refsOf c -> validValue h0 v.
Proof.
  intros Hl Hv. specialize (Hclosed l c Hl).
  rewrite Forall_forall in Hclosed. auto.
Qed.

Lemma valid_lookup hk l :
  extendsBase h0 hk -> validValue h0 (VRef l) ->
  exists c, h0 !! l = Some c /\ hk !! l = Some c.
Proof.
  intros Hb Hv. simpl in Hv. apply lookup_lt_is_Some_2 in Hv as [c Hc]. eauto.
Qed.

(** Reading a field of a value that points into the base store. *)
Lemma getProp_valid hk v key :
  extendsBase h0 hk -> validValue h0 v ->
  getProp v key hk = Throw hk \/
  exists w, getProp v key hk = Ok w hk /\ validValue h0 w.
Proof.
  intros Hb Hv. destruct v as [| | | |s|l]; simpl; try (now left);
    try (right; eexists; split; [reflexivity|exact I]).
  - right. eexists. split; [reflexivity|].
    destruct (seq_prop_cases (chars s) key) as [H|H]; [now apply valid_prim|].
    apply valid_prim. eapply chars_prim; eauto.
  - destruct (valid_lookup hk l Hb Hv) as (c & Hc0 & Hc). right.
    unfold bind, readCell. rewrite Hc. destruct c as [ps|es|d].
    + eexists. split; [reflexivity|].
      destruct (props_get_cases key ps) as [->|H]; [exact I|].
      eapply closed_value; eauto.
    + eexists. split; [reflexivity|].
      destruct (seq_prop_cases es key) as [H|H]; [now apply valid_prim|].
      eapply closed_value; eauto.
    + eexists. split; [reflexivity|exact I].
Qed.

(** Reading a field of a value that nests at most [n] deep. *)
Lemma getProp_depth hk n v key :
  extendsBase h0 hk -> depthLe h0 n v ->
  getProp v key hk = Throw hk \/
  exists w, getProp v key hk = Ok w hk /\ depthLe h0 (pred n) w.
Proof.
  intros Hb Hd. destruct Hd as [n v Hp|n l d Hl|n l es Hl Hes|n l ps Hl Hps].
  - destruct v as [| | | |s|l]; simpl; try (now left);
      try (right; eexists; split; [reflexivity|now apply depth_prim]).
    + right. eexists. split; [reflexivity|]. apply depth_prim.
      destruct (seq_prop_cases (chars s) key) as [H|H]; [exact H|].
      eapply chars_prim; eauto.
    + now destruct (Hp l).
  - right. unfold getProp, bind, readCell. rewrite (Hb _ _ Hl).
    eexists. split; [reflexivity|now apply depth_prim].
  - right. unfold getProp, bind, readCell. rewrite (Hb _ _ Hl).
    eexists. split; [reflexivity|]. simpl.
    destruct (seq_prop_cases es key) as [H|H]; [now apply depth_prim|auto].
  - right. unfold getProp, bind, readCell. rewrite (Hb _ _ Hl).
    eexists. split; [reflexivity|]. simpl.
    destruct (props_get_cases key ps) as [->|H]; [now apply depth_prim|auto].
Qed.

Lemma ownProps_valid hk v :
  extendsBase h0 hk -> validValue h0 v ->
  exists ps, ownProps v hk = Ok ps hk.
Proof.
  intros Hb Hv. destruct v as [| | | |s|l]; simpl; eauto.
  destruct (valid_lookup hk l Hb Hv) as (c & _ & Hc).
  unfold bind, readCell. rewrite Hc. destruct c; eauto.
Qed.

Lemma depthLe_valid n v : depthLe h0 n v -> validValue h0 v.
Proof.
  intros [? ? Hp|? l d Hl|? l es Hl _|? l ps Hl _]; simpl;
    try (eapply lookup_lt_Some; eauto).
  now apply valid_prim.
Qed.

Lemma isArray_valid hk v :
  extendsBase h0 hk -> validValue h0 v ->
  (isArray v hk = Ok false hk) \/
  exists l es, v = VRef l /\ hk !! l = Some (CArr es) /\ isArray v hk = Ok true hk.
Proof.
  intros Hb Hv. destruct v as [| | | | |l]; try (now left).
  destruct (valid_lookup hk l Hb Hv) as (c & _ & Hc).
  rewrite (isArray_ref l c hk Hc).
  destruct c as [ps|es|d]; [now left|right; eauto|now left].
Qed.

Lemma setProp_defined hk r rp key v :
  hk !! r = Some (CObj rp) -> setProp (VRef r) key v hk <> Fail.
Proof. intros Hr. now rewrite (setProp_obj r rp key v hk Hr). Qed.

(** One turn of the loop stays inside the model when the recursive call
    does, on the nested objects of [update]. *)
Lemma mergeKey_defined self n source update r key hk rp :
  (forall a b l ps h, extendsBase h0 h -> validValue h0 a ->
     depthLe h0 (pred n) b -> b = VRef l -> h0 !! l = Some (CObj ps) ->
     self a b h <> Fail) ->
  (forall a b, frameExcept none (self a b)) ->
  extendsBase h0 hk -> hk !! r = Some (CObj rp) ->
  validValue h0 source -> depthLe h0 n update ->
  mergeKey self source update (VRef r) key hk <> Fail.
Proof.
  intros Hself Hframe Hb Hr Hs Hu. unfold mergeKey.
  destruct (getProp_valid hk source key Hb Hs) as [Ea|(a & Ea & Ha)];
    [unfold bind at 1; now rewrite Ea|].
  unfold bind at 1. rewrite Ea.
  destruct (getProp_depth hk n update key Hb Hu) as [Eb|(b & Eb & Hd)];
    [unfold bind at 1; now rewrite Eb|].
  unfold bind at 1. rewrite Eb.
  assert (forall v, setProp (VRef r) key v hk <> Fail) as Hset.
  { intros v. eapply setProp_defined; eauto. }
  inversion Hd as [m v Hp|m l d Hl|m l es Hl Hes|m l ps Hl Hps]; subst.
  - unfold bind at 1. rewrite (isArray_prim b hk Hp).
    unfold bind at 1.
    assert (isNonDateObject b hk = Ok false hk) as ->.
    { destruct b; try reflexivity. now destruct (Hp l). }
    destruct (negb (isNullish b)); [apply Hset|].
    destruct (value_eqb a VUndef); [apply Hset|discriminate].
  - unfold bind at 1. rewrite (isArray_ref l _ hk (Hb _ _ Hl)).
    unfold bind at 1. rewrite (isNonDateObject_ref l _ hk (Hb _ _ Hl)).
    simpl. apply Hset.
  - unfold bind at 1. rewrite (isArray_ref l _ hk (Hb _ _ Hl)).
    destruct (isArray_valid hk a Hb Ha) as [E|(la & ea & -> & Hla & E)];
      unfold bind at 1; rewrite E.
    + unfold bind at 1. unfold ret at 1.
      unfold bind at 1. rewrite (elements_arr l es hk (Hb _ _ Hl)).
      unfold bind at 1, alloc at 1.
      apply (setProp_defined _ r rp).
      rewrite lookup_app_l; [exact Hr|]. now apply lookup_lt_Some in Hr.
    + unfold bind at 1. rewrite (elements_arr la ea hk Hla).
      unfold bind at 1. rewrite (elements_arr l es hk (Hb _ _ Hl)).
      unfold bind at 1, alloc at 1.
      apply (setProp_defined _ r rp).
      rewrite lookup_app_l; [exact Hr|]. now apply lookup_lt_Some in Hr.
  - unfold bind at 1. rewrite (isArray_ref l _ hk (Hb _ _ Hl)).
    unfold bind at 1. rewrite (isNonDateObject_ref l _ hk (Hb _ _ Hl)).
    apply defined_bind.
    + eapply Hself; eauto.
    + intros merged h1 E. specialize (Hframe a (VRef l) hk). rewrite E in Hframe.
      destruct Hframe as (_ & _ & Sh).
      destruct (Sh r _ Hr) as (c' & Hc' & Hshape).
      destruct c'; simpl in Hshape; try discriminate.
      eapply setProp_defined; eauto.
Qed.

(** The loop over the keys of [update]. *)
Lemma mergeLoop_defined self n source update r keys : forall hk rp,
  (forall a b l ps h, extendsBase h0 h -> validValue h0 a ->
     depthLe h0 (pred n) b -> b = VRef l -> h0 !! l = Some (CObj ps) ->
     self a b h <> Fail) ->
  (forall a b, frameExcept none (self a b)) ->
  length h0 <= r ->
  extendsBase h0 hk -> hk !! r = Some (CObj rp) ->
  validValue h0 source -> depthLe h0 n update ->
  forEach (mergeKey self source update (VRef r)) keys hk <> Fail.
Proof.
  induction keys as [|k keys IH]; intros hk rp Hself Hframe Hle Hb Hr Hs Hu; simpl;
    [discriminate|].
  apply defined_bind; [eapply mergeKey_defined; eauto|].
  intros [] h1 E.
  pose proof (mergeKey_frame self source update r k Hframe hk) as Hf.
  rewrite E in Hf. destruct Hf as (_ & Ag & Sh).
  destruct (Sh r _ Hr) as (c' & Hc' & Hshape).
  destruct c' as [rp'| |]; simpl in Hshape; try discriminate.
  apply (IH h1 rp'); auto.
  intros l c Hl. apply Ag; [auto|]. apply lookup_lt_Some in Hl. lia.
Qed.

Lemma objectKeys_valid hk v :
  extendsBase h0 hk -> validValue h0 v ->
  objectKeys v hk = Throw hk \/ exists keys, objectKeys v hk = Ok keys hk.
Proof.
  intros Hb Hv. destruct (ownProps_valid hk v Hb Hv) as (ps & E).
  destruct v; try (now left); right; unfold objectKeys, bind; rewrite E; eauto.
Qed.

Lemma extendsBase_length hk : extendsBase h0 hk -> length h0 <= length hk.
Proof.
  intros Hb. destruct (le_lt_dec (length h0) (length hk)) as [H|H]; [exact H|].
  assert (length hk < length h0) as Hlt by lia.
  apply lookup_lt_is_Some_2 in Hlt as [c Hc].
  apply Hb, lookup_lt_Some in Hc. lia.
Qed.

(** The body of [mergeObjects], over a recursive call that stays inside
    the model. *)
Lemma mergeBody_defined self n source update h :
  (forall a b l ps h, extendsBase h0 h -> validValue h0 a ->
     depthLe h0 (pred n) b -> b = VRef l -> h0 !! l = Some (CObj ps) ->
     self a b h <> Fail) ->
  (forall a b, frameExcept none (self a b)) ->
  extendsBase h0 h -> validValue h0 source -> depthLe h0 n update ->
  (let* props := ownProps source in
   let* result := alloc (CObj props) in
   let* keys := objectKeys update in
   exec forEach (mergeKey self source update result) keys then
   ret result) h <> Fail.
Proof.
  intros Hself Hframe Hb Hs Hu.
  destruct (ownProps_valid h source Hb Hs) as (props & Ep).
  unfold bind at 1. rewrite Ep. unfold bind at 1, alloc at 1.
  assert (extendsBase h0 (h ++ [CObj props])) as Hb1.
  { intros l c Hl. specialize (Hb l c Hl).
    rewrite lookup_app_l; [exact Hb|]. now apply lookup_lt_Some in Hb. }
  destruct (objectKeys_valid _ update Hb1 (depthLe_valid n update Hu)) as [Ek|(keys & Ek)];
    unfold bind at 1; rewrite Ek; [discriminate|].
  apply defined_bind; [|discriminate].
  eapply (mergeLoop_defined self n source update (length h) keys _ props); eauto.
  - now apply extendsBase_length.
  - now rewrite list_lookup_middle.
Qed.

(** With fuel [S n], [mergeObjects] returns or throws on every update that
    nests at most [n] deep. *)
Lemma mergeObjects_enough_fuel : forall n source update h,
  extendsBase h0 h -> validValue h0 source -> depthLe h0 n update ->
  mergeObjects (S n) source update h <> Fail.
Proof.
  assert (forall fuel a b, frameExcept none (mergeObjects fuel a b)) as Hframe.
  { intros fuel a b h. pose proof (mergeObjects_frame fuel a b h) as H.
    destruct (mergeObjects fuel a b h); tauto. }
  induction n as [|n IH]; intros source update h Hb Hs Hu.
  - apply (mergeBody_defined (mergeObjects 0) 0); auto.
    intros a b l ps h1 _ _ Hd -> Hl.
    inversion Hd as [? ? Hp|? ? d Hl'| |]; subst; [now destruct (Hp l)|congruence].
  - apply (mergeBody_defined (mergeObjects (S n)) (S n)); auto.
Qed.

(** *** When the merge throws

    Between two objects of the store, the only step of [mergeObjects] that
    can throw is the recursive call, made for a field of [update] that
    holds a nested object. *)

Lemma mergeKey_throws self ls sp lu up r key hk hk' rp :
  h0 !! ls = Some (CObj sp) -> h0 !! lu = Some (CObj up) ->
  extendsBase h0 hk -> hk !! r = Some (CObj rp) ->
  mergeKey self (VRef ls) (VRef lu) (VRef r) key hk = Throw hk' ->
  exists lb pb, props_get key up = VRef lb /\ h0 !! lb = Some (CObj pb).
Proof.
  intros Hs Hu Hb Hr. unfold mergeKey.
  unfold bind at 1. rewrite (getProp_obj ls sp key hk (Hb _ _ Hs)).
  unfold bind at 1. rewrite (getProp_obj lu up key hk (Hb _ _ Hu)).
  pose proof (closed_prop h0 ls sp key Hclosed Hs) as Hva.
  pose proof (closed_prop h0 lu up key Hclosed Hu) as Hvb.
  set (a := props_get key sp) in *.
  assert (forall v h1, h1 !! r = Some (CObj rp) -> setProp (VRef r) key v h1 <> Throw hk')
    as Hset.
  { intros v h1 H1. now rewrite (setProp_obj r rp key v h1 H1). }
  destruct (props_get key up) as [| | | | |lb] eqn:Eb;
    try (intros E; exfalso; revert E; cbv [bind isArray isNonDateObject ret isNullish negb];
         try (destruct (value_eqb a VUndef); [|discriminate]); now apply Hset).
  destruct (valid_lookup hk lb Hb Hvb) as (cb & Hcb & Hcb').
  destruct cb as [pb|eb|d]; [eauto| |].
  - intros E. exfalso. revert E.
    unfold bind at 1. rewrite (isArray_ref lb _ hk Hcb').
    assert ((hk ++ [CArr (uniq (arrayElements hk a ++ eb))]) !! r = Some (CObj rp)) as Hr1.
    { rewrite lookup_app_l; [exact Hr|]. now apply lookup_lt_Some in Hr. }
    destruct (isArray_valid hk a Hb Hva) as [E|(la & ea & Ea & Hla & E)];
      unfold bind at 1; rewrite E.
    + unfold bind at 1. unfold ret at 1.
      unfold bind at 1. rewrite (elements_arr lb eb hk Hcb').
      unfold bind at 1, alloc at 1. apply Hset.
      rewrite lookup_app_l; [exact Hr|]. now apply lookup_lt_Some in Hr.
    + rewrite Ea. unfold bind at 1. rewrite (elements_arr la ea hk Hla).
      unfold bind at 1. rewrite (elements_arr lb eb hk Hcb').
      unfold bind at 1, alloc at 1. apply Hset.
      rewrite lookup_app_l; [exact Hr|]. now apply lookup_lt_Some in Hr.
  - intros E. exfalso. revert E.
    unfold bind at 1. rewrite (isArray_ref lb _ hk Hcb').
    unfold bind at 1. rewrite (isNonDateObject_ref lb _ hk Hcb').
    simpl. now apply Hset.
Qed.

Lemma mergeLoop_throws self ls sp lu up r keys : forall hk hk' rp,
  (forall a b, frameExcept none (self a b)) ->
  h0 !! ls = Some (CObj sp) -> h0 !! lu = Some (CObj up) ->
  length h0 <= r ->
  extendsBase h0 hk -> hk !! r = Some (CObj rp) ->
  forEach (mergeKey self (VRef ls) (VRef lu) (VRef r)) keys hk = Throw hk' ->
  exists key lb pb,
    key ∈ keys /\ props_get key up = VRef lb /\ h0 !! lb = Some (CObj pb).
Proof.
  induction keys as [|k keys IH]; intros hk hk' rp Hframe Hs Hu Hle Hb Hr E; simpl in E;
    [discriminate|].
  apply bind_Throw in E as [E|([] & h1 & E1 & E)].
  - destruct (mergeKey_throws _ _ _ _ _ _ _ _ _ _ Hs Hu Hb Hr E) as (lb & pb & ? & ?).
    exists k, lb, pb. split; [left|auto].
  - pose proof (mergeKey_frame self (VRef ls) (VRef lu) r k Hframe hk) as Hf.
    rewrite E1 in Hf. destruct Hf as (_ & Ag & Sh).
    destruct (Sh r _ Hr) as (c' & Hc' & Hshape).
    destruct c' as [rp'| |]; simpl in Hshape; try discriminate.
    destruct (IH h1 hk' rp') as (key & lb & pb & Hin & ?); auto.
    { intros l c Hl. apply Ag; [auto|]. apply lookup_lt_Some in Hl. lia. }
    exists key, lb, pb. split; [now right|auto].
Qed.

Lemma mergeObjects_throws fuel ls sp lu up h' :
  h0 !! ls = Some (CObj sp) -> h0 !! lu = Some (CObj up) ->
  mergeObjects fuel (VRef ls) (VRef lu) h0 = Throw h' ->
  exists key lb pb, props_get key up = VRef lb /\ h0 !! lb = Some (CObj pb).
Proof.
  intros Hs Hu E. destruct fuel as [|fuel]; [discriminate|]. simpl in E.
  assert (extendsBase h0 (h0 ++ [CObj sp])) as Hb1.
  { intros l c Hl. rewrite lookup_app_l; [exact Hl|]. now apply lookup_lt_Some in Hl. }
  apply bind_Throw in E as [E|(props & h1 & Ep & E)];
    [unfold ownProps, bind, readCell in E; rewrite Hs in E; discriminate|].
  unfold ownProps, bind, readCell in Ep. rewrite Hs in Ep. injection Ep as <- <-.
  apply bind_Throw in E as [E|(res & h1 & Ea & E)]; [discriminate|].
  unfold alloc in Ea. injection Ea as <- <-.
  apply bind_Throw in E as [E|(keys & h1 & Ek & E)];
    [unfold objectKeys, ownProps, bind, readCell in E; rewrite (Hb1 _ _ Hu) in E;
     discriminate|].
  unfold objectKeys, ownProps, bind, readCell in Ek. rewrite (Hb1 _ _ Hu) in Ek.
  injection Ek as <- <-.
  apply bind_Throw in E as [E|(u & h2 & _ & E)]; [|discriminate].
  destruct (mergeLoop_throws (mergeObjects fuel) ls sp lu up (length h0)
              (map fst up) (h0 ++ [CObj sp]) h' sp) as (key & lb & pb & _ & ? & ?); eauto.
  - intros a b h. pose proof (mergeObjects_frame fuel a b h) as H.
    destruct (mergeObjects fuel a b h); tauto.
  - now rewrite list_lookup_middle.
Qed.

End EnoughFuel.

End StoreFacts.

(** C10.  [mergeObjects(source, update)] changes no cell of the store that
    exists when it is called: [source], [update] and everything they refer
    to are afterwards as they were, also when the call throws; and the
    object it returns is a new cell, at a location that did not exist
    before.  (A call whose result is dropped therefore has no effect on the
    objects that existed.) *)
Theorem mergeObjects_leaves_arguments_unchanged
    (fuel : nat) (source update : Store.value) (h : list Store.cell) :
  match Store.mergeObjects fuel source update h with
  | Store.Ok result h' =>
      (forall l c, h !! l = Some c -> h' !! l = Some c) /\
      result = Store.VRef (length h) /\ h !! length h = None /\
      exists ps, h' !! length h = Some (Store.CObj ps)
  | Store.Throw h' => forall l c, h !! l = Some c -> h' !! l = Some c
  | Store.Fail => True
  end.
Proof.
  pose proof (StoreFacts.mergeObjects_frame fuel source update h) as H.
  destruct (Store.mergeObjects fuel source update h) as [result h'|h'|]; [| |exact I].
  - destruct H as (Hag & Hres & Hobj). split; [|split; [exact Hres|split; [|exact Hobj]]].
    + intros l c Hl. eapply StoreFacts.agree_none_lookup; eauto.
    + apply lookup_ge_None. lia.
  - intros l c Hl. eapply StoreFacts.agree_none_lookup; eauto.
Qed.



(** ** The create pass *)

Module IngestFacts.
Import Store Config Ingest StoreFacts JsMapFacts.
Local Open Scope store_scope.

Section CreatePass.
Context {A : Type}.
Variable transformData : value -> A -> M value.
Variable validateItem : value -> A -> value -> M bool.
Variable getAttributeMappingsWithActions : A -> value -> value -> M A.

Abbreviation stageItem :=
  (stageItem validateItem getAttributeMappingsWithActions).
Abbreviation createItem :=
  (createItem transformData validateItem getAttributeMappingsWithActions).
Abbreviation prepareCreateData :=
  (prepareCreateData transformData validateItem getAttributeMappingsWithActions).

(** The entries of every table that [t] has are entries of [t'], with the
    same new identifier. *)
Definition keepsEntries (t t' : Ids.tables) : Prop :=
  forall key oldId newId,
    JsMap.get oldId (Ids.tableOf t key) = Some newId ->
    JsMap.get oldId (Ids.tableOf t' key) = Some newId.

Lemma keepsEntries_refl t : keepsEntries t t.
Proof. intros key oldId newId H. exact H. Qed.

Lemma keepsEntries_trans t1 t2 t3 :
  keepsEntries t1 t2 -> keepsEntries t2 t3 -> keepsEntries t1 t3.
Proof. intros H1 H2 key oldId newId H. auto. Qed.

Lemma tableOf_set_same key m (t : Ids.tables) :
  Ids.tableOf (JsMap.set key m t) key = m.
Proof. unfold Ids.tableOf. now rewrite get_set_same. Qed.

Lemma tableOf_set_other key key' m (t : Ids.tables) :
  key <> key' -> Ids.tableOf (JsMap.set key m t) key' = Ids.tableOf t key'.
Proof. intros H. unfold Ids.tableOf. now rewrite get_set_other. Qed.

(** Putting a table back under its key changes no entry. *)
Lemma keepsEntries_put_back key (t : Ids.tables) :
  keepsEntries t (JsMap.set key (Ids.tableOf t key) t).
Proof.
  intros key' oldId newId H.
  destruct (String.eqb_spec key key') as [->|Hne].
  - now rewrite tableOf_set_same.
  - now rewrite tableOf_set_other.
Qed.

(** Entering a primary key that the table does not have changes no entry. *)
Lemma keepsEntries_new_key key oldIdText itemIdNew (t : Ids.tables) :
  JsMap.has oldIdText (Ids.tableOf t key) = false ->
  keepsEntries t (JsMap.set key (JsMap.set oldIdText itemIdNew (Ids.tableOf t key)) t).
Proof.
  intros Hnew key' oldId newId H.
  destruct (String.eqb_spec key key') as [->|Hne].
  - rewrite tableOf_set_same. rewrite get_set_other; [exact H|].
    intros ->. apply has_false in Hnew. congruence.
  - now rewrite tableOf_set_other.
Qed.

Lemma stageItem_keepsEntries collection importDef currentData item context td st h st' h' :
  stageItem collection importDef currentData item context td st h = Ok st' h' ->
  keepsEntries (oldIdToNewIdPerCollectionMap st) (oldIdToNewIdPerCollectionMap st').
Proof.
  unfold Ingest.stageItem. intros E.
  apply bind_Ok in E as (ctx & h1 & _ & E).
  apply bind_Ok in E as (isValid & h2 & _ & E).
  destruct isValid; simpl in E.
  - apply bind_Ok in E as (am & h3 & _ & E).
    destruct currentData; injection E as <- _; simpl.
    + apply keepsEntries_put_back.
    + apply keepsEntries_refl.
  - injection E as <- _. apply keepsEntries_refl.
Qed.

(** One record of the pass overwrites no entry of any table. *)
Lemma createItem_keepsEntries db collection importDef item st h st' h' :
  createItem db collection importDef item st h = Ok st' h' ->
  keepsEntries (oldIdToNewIdPerCollectionMap st) (oldIdToNewIdPerCollectionMap st').
Proof.
  unfold Ingest.createItem. intros E.
  destruct (Ids.getTrueUniqueId _ _ _) as [[itemIdNew supply']|]; [|discriminate].
  apply bind_Ok in E as (context & h1 & _ & E).
  apply bind_Ok in E as (td & h2 & _ & E).
  destruct (JsString.nonEmpty (primaryKeyField importDef)).
  - apply bind_Ok in E as (oldId & h3 & _ & E).
    apply bind_Ok in E as (text & h4 & _ & E).
    simpl in E.
    destruct (JsMap.has text _) eqn:Hhas.
    + injection E as <- _. apply keepsEntries_refl.
    + apply stageItem_keepsEntries in E. simpl in E.
      eapply keepsEntries_trans; [|exact E].
      now apply keepsEntries_new_key.
  - apply stageItem_keepsEntries in E. exact E.
Qed.

(** The whole pass overwrites no entry: a primary key keeps the new
    identifier it was first given. *)
Lemma prepareCreateData_keepsEntries db collection importDef rawData st h st' h' :
  prepareCreateData db collection importDef rawData st h = Ok st' h' ->
  keepsEntries (oldIdToNewIdPerCollectionMap st) (oldIdToNewIdPerCollectionMap st').
Proof.
  unfold Ingest.prepareCreateData.
  destruct (JsMap.get _ (collectionImportOperations st)) as [op|]; [|discriminate].
  destruct (negb (JsString.nonEmpty op)); [discriminate|].
  set (st0 := match JsMap.get _ (oldIdToNewIdPerCollectionMap st) with
              | Some _ => st | None => _ end).
  assert (keepsEntries (oldIdToNewIdPerCollectionMap st)
                       (oldIdToNewIdPerCollectionMap st0)) as H0.
  { unfold st0.
    destruct (JsMap.get (getCollectionKey (name collection))
                (oldIdToNewIdPerCollectionMap st)) eqn:Eg.
    - apply keepsEntries_refl.
    - simpl. intros key oldId newId H.
      destruct (String.eqb_spec (getCollectionKey (name collection)) key) as [<-|Hne].
      + unfold Ids.tableOf in H. rewrite Eg in H. discriminate.
      + now rewrite tableOf_set_other. }
  clearbody st0. revert st0 h H0.
  induction rawData as [|item rawData IH]; intros st0 h0 H0 E; simpl in E.
  - injection E as <- _. exact H0.
  - apply bind_Ok in E as (st1 & h1 & E1 & E).
    apply (IH st1 h1); [|exact E].
    eapply keepsEntries_trans; [exact H0|].
    eapply createItem_keepsEntries; eauto.
Qed.
End CreatePass.
End IngestFacts.

(** C4.  In the create pass of an ordinary collection, a record whose
    primary key is already in the collection's table is rejected: the loop
    body logs the duplicate and goes on to the next record; the stage is as
    it was (the record is not staged), and so are the tables (the key still
    maps to the identifier it was given first, and to nothing else).  Only
    the identifier drawn for the record is used up. *)
Theorem duplicate_primary_key_rejected {A : Type}
    (transformData : Store.value -> A -> Store.M Store.value)
    (validateItem : Store.value -> A -> Store.value -> Store.M bool)
    (getAttributeMappingsWithActions : A -> Store.value -> Store.value -> Store.M A)
    (db : Config.configDatabase) (collection : Config.configCollection A)
    (importDef : Config.importDef A) (item : Store.value)
    (st : Ingest.loader A) (h h1 h2 : list Store.cell)
    (itemIdNew : string) (supply' : list string)
    (context transformedData : Store.value) (oldIdText : string) :
  let key := getCollectionKey (Config.name collection) in
  JsString.nonEmpty (Config.primaryKeyField importDef) = true ->
  Ids.getTrueUniqueId (Ingest.oldIdToNewIdPerCollectionMap st) key (Ingest.idSupply st)
    = Some (itemIdNew, supply') ->
  Ingest.createContext db collection item itemIdNew h = Store.Ok context h1 ->
  transformData item (Config.attributeMappings importDef) h1
    = Store.Ok transformedData h2 ->
  Ingest.primaryKeyText h2 item (Config.primaryKeyField importDef) = Some oldIdText ->
  JsMap.has oldIdText (Ids.tableOf (Ingest.oldIdToNewIdPerCollectionMap st) key) = true ->
  exists st',
    Ingest.createItem transformData validateItem getAttributeMappingsWithActions
      db collection importDef item st h = Store.Ok st' h2 /\
    Ingest.importMap st' = Ingest.importMap st /\
    Ingest.oldIdToNewIdPerCollectionMap st' = Ingest.oldIdToNewIdPerCollectionMap st /\
    Ingest.errors st'
      = Ingest.errors st ++ [Ingest.DuplicatePrimaryKey (Config.name collection) oldIdText] /\
    Ingest.idSupply st' = supply'.
Proof.
  intros key Hpk Hid Hctx Htd Htext Hhas.
  unfold Ingest.primaryKeyText in Htext.
  destruct (Store.getProp item (Config.primaryKeyField importDef) h2)
    as [oldId hx| |] eqn:Eget; try discriminate.
  pose proof (StoreFacts.readOnly_Ok _ _ _ _ (StoreFacts.readOnly_getProp _ _) Eget) as ->.
  destruct (Store.toString oldId h2) as [text hx| |] eqn:Estr; try discriminate.
  pose proof (StoreFacts.readOnly_Ok _ _ _ _ (StoreFacts.readOnly_toString _) Estr) as ->.
  injection Htext as ->.
  exists (Ingest.logError
            (Ingest.DuplicatePrimaryKey (Config.name collection) oldIdText)
            (Ingest.withSupply supply' st)).
  split; [|repeat split].
  unfold Ingest.createItem. fold key. rewrite Hid.
  unfold Store.bind at 1. rewrite Hctx.
  unfold Store.bind at 1. rewrite Htd.
  rewrite Hpk.
  unfold Store.bind at 1. rewrite Eget.
  unfold Store.bind at 1. rewrite Estr.
  simpl. rewrite Hhas. reflexivity.
Qed.

Lemma duplicate_primary_key_rejected_witness :
  Ids.tableOf (Ingest.oldIdToNewIdPerCollectionMap Examples.loaderAfterFirst) "items"
    = [("42", "abc")] /\
  exists st' h',
    Ingest.createItem Examples.keepItem Examples.acceptItem Examples.noActions
      Examples.mainDb Examples.itemsCollection Examples.itemsDef
      (Store.VRef 1) Examples.loaderAfterFirst Examples.storeAfterFirst
      = Store.Ok st' h' /\
    Ingest.importMap st' = Ingest.importMap Examples.loaderAfterFirst /\
    Ingest.oldIdToNewIdPerCollectionMap st'
      = Ingest.oldIdToNewIdPerCollectionMap Examples.loaderAfterFirst /\
    Ingest.errors st'
      = Ingest.errors Examples.loaderAfterFirst
        ++ [Ingest.DuplicatePrimaryKey "Items" "42"].
Proof.
  split; [reflexivity|].
  edestruct (duplicate_primary_key_rejected Examples.keepItem Examples.acceptItem
               Examples.noActions Examples.mainDb Examples.itemsCollection
               Examples.itemsDef (Store.VRef 1) Examples.loaderAfterFirst
               Examples.storeAfterFirst)
    as (st' & Hrun & Him & Htb & Herr & _).
  - reflexivity.
  - vm_compute. reflexivity.
  - vm_compute. reflexivity.
  - reflexivity.
  - vm_compute. reflexivity.
  - vm_compute. reflexivity.
  - exists st'. eexists. split; [exact Hrun|]. split; [exact Him|].
    split; [exact Htb|exact Herr].
Defined.

(** ** The general lookup *)

Module ResolverFacts.
Import Store Config Resolver StoreFacts JsMapFacts.
Local Open Scope store_scope.

(** *** Printing is stable *)

Lemma mapOpt_ext_in {X Y} (f g : X -> option Y) l ys :
  (forall x y, x ∈ l -> f x = Some y -> g x = Some y) ->
  mapOpt f l = Some ys -> mapOpt g l = Some ys.
Proof.
  revert ys. induction l as [|x l IH]; intros ys Hfg; simpl; [auto|].
  destruct (f x) as [y|] eqn:Ef; [|discriminate].
  destruct (mapOpt f l) as [ys'|] eqn:Em; [|discriminate].
  intros [= <-]. rewrite (Hfg x y); [|left|exact Ef].
  rewrite (IH ys'); auto. intros x' y' Hin. apply Hfg. now right.
Qed.

(** More fuel, and a store whose cells have kept their shape, print the
    same text. *)
Lemma toStringFuel_stable n : forall n' (h h' : heap) v s,
  n <= n' ->
  (forall l c, h !! l = Some c -> exists c', h' !! l = Some c' /\ sameShape c c') ->
  toStringFuel n h v = Some s -> toStringFuel n' h' v = Some s.
Proof.
  induction n as [|n IH]; intros n' h h' v s Hn Hsh E.
  - destruct v; simpl in *; try (destruct n'; exact E).
    destruct (h !! l) as [c|] eqn:El; [|discriminate].
    destruct (Hsh l c El) as (c' & El' & Hc).
    destruct n'; simpl; rewrite El';
      destruct c as [ps|es|d], c' as [ps'|es'|d']; simpl in Hc;
      try discriminate; try exact E; try (injection Hc as <-; exact E).
  - destruct v; simpl in *; try (destruct n'; exact E).
    destruct (h !! l) as [c|] eqn:El; [|discriminate].
    destruct (Hsh l c El) as (c' & El' & Hc).
    destruct n' as [|n']; [lia|]. simpl. rewrite El'.
    destruct c as [ps|es|d], c' as [ps'|es'|d']; simpl in Hc;
      try discriminate; try exact E; try (injection Hc as <-; exact E).
    injection Hc as <-.
    destruct (mapOpt _ es) as [parts|] eqn:Em; [|discriminate].
    rewrite (mapOpt_ext_in
               (fun e => if isNullish e then Some "" else toStringFuel n h e)
               (fun e => if isNullish e then Some "" else toStringFuel n' h' e)
               es parts); [exact E| |exact Em].
    intros x y _ Hx. destruct (isNullish x); [exact Hx|].
    apply (IH n' h h'); auto. lia.
Qed.

Lemma textOf_stable P (h h' : heap) v s :
  agreeExcept P h h' -> textOf h v = Some s -> textOf h' v = Some s.
Proof.
  intros (L & _ & Sh). unfold textOf. now apply toStringFuel_stable.
Qed.

Lemma textOf_str (h : heap) s : textOf h (VStr s) = Some s.
Proof. unfold textOf. now destruct (length h). Qed.

Lemma toString_textOf h v s : textOf h v = Some s -> toString v h = Ok s h.
Proof. unfold textOf, toString. now intros ->. Qed.

(** *** Loops with an invariant *)

(** A loop whose turns keep [R] of the loop variables and [I] of the store,
    and never undo [Q], keeps and never undoes them as a whole. *)
Lemma forEachAcc_keeps {X S} (f : X -> S -> M S) (R : S -> Prop)
    (I : heap -> Prop) (Q : S -> heap -> Prop) (l : list X) :
  (forall x s hk s' hk', x ∈ l -> R s -> I hk -> f x s hk = Ok s' hk' ->
     R s' /\ I hk' /\ (Q s hk -> Q s' hk')) ->
  forall s hk s' hk', R s -> I hk -> forEachAcc f l s hk = Ok s' hk' ->
     R s' /\ I hk' /\ (Q s hk -> Q s' hk').
Proof.
  induction l as [|x l IH]; intros Hstep s hk s' hk' HR HI E; simpl in E.
  - injection E as <- <-. auto.
  - apply bind_Ok in E as (s1 & h1 & E1 & E).
    destruct (Hstep x s hk s1 h1) as (HR1 & HI1 & HQ1); auto; [left|].
    assert (forall y t a t' a', y ∈ l -> R t -> I a -> f y t a = Ok t' a' ->
              R t' /\ I a' /\ (Q t a -> Q t' a')) as Hstep'.
    { intros y t a t' a' Hy. apply Hstep. now right. }
    destruct (IH Hstep' s1 h1 s' hk' HR1 HI1 E) as (HR' & HI' & HQ').
    auto.
Qed.

(** If moreover the turn for [x0] establishes [Q], it holds at the end. *)
Lemma forEachAcc_reaches {X S} (f : X -> S -> M S) (R : S -> Prop)
    (I : heap -> Prop) (Q : S -> heap -> Prop) (l : list X) (x0 : X) :
  x0 ∈ l ->
  (forall x s hk s' hk', x ∈ l -> R s -> I hk -> f x s hk = Ok s' hk' ->
     R s' /\ I hk' /\ (Q s hk -> Q s' hk')) ->
  (forall s hk s' hk', R s -> I hk -> f x0 s hk = Ok s' hk' -> Q s' hk') ->
  forall s hk s' hk', R s -> I hk -> forEachAcc f l s hk = Ok s' hk' -> Q s' hk'.
Proof.
  induction l as [|x l IH]; intros Hin Hstep Hx0 s hk s' hk' HR HI E; [inversion Hin|].
  simpl in E. apply bind_Ok in E as (s1 & h1 & E1 & E).
  destruct (Hstep x s hk s1 h1) as (HR1 & HI1 & HQ1); auto; [left|].
  assert (forall y t a t' a', y ∈ l -> R t -> I a -> f y t a = Ok t' a' ->
            R t' /\ I a' /\ (Q t a -> Q t' a')) as Hstep'.
  { intros y t a t' a' Hy. apply Hstep. now right. }
  apply elem_of_cons in Hin as [->|Hin].
  - destruct (forEachAcc_keeps f R I Q l Hstep' s1 h1 s' hk' HR1 HI1 E) as (_ & _ & HQ).
    apply HQ. exact (Hx0 s hk s1 h1 HR HI E1).
  - exact (IH Hin Hstep' Hx0 s1 h1 s' hk' HR1 HI1 E).
Qed.

(** *** What a store that agrees shows *)

Lemma getProp_agree P (h hk : heap) l ps key :
  agreeExcept P h hk -> h !! l = Some (CObj ps) -> ~ P l ->
  getProp (VRef l) key hk = Ok (props_get key ps) hk.
Proof. intros (_ & Ag & _) Hl Hp. apply getProp_obj. auto. Qed.

Lemma isArray_agree P (h hk : heap) v b :
  agreeExcept P h hk -> isArray v h = Ok b h -> isArray v hk = Ok b hk.
Proof.
  intros (_ & _ & Sh) E. destruct v; try (injection E as <-; reflexivity).
  unfold isArray, bind, readCell in *.
  destruct (h !! l) as [c|] eqn:El; [|discriminate].
  destruct (Sh l c El) as (c' & -> & Hc). injection E as <-.
  destruct c, c'; simpl in Hc; try discriminate; reflexivity.
Qed.

(** Runs the first computation of the goal's sequence with the equation
    [H] that says what it returns. *)
Ltac run_with H := unfold bind at 1; rewrite H; cbv beta iota.

Section Lookup.
Context {A : Type}.
Implicit Types (im : importMap A) (item d : importRecord A) (m : idMapping).

(** *** One mapping, one record *)

(** The records of a stage that can be compared: the field of their
    context can be read and printed. *)
Definition comparable (h : heap) m (ds : list (importRecord A)) : Prop :=
  forall d, d ∈ ds ->
    exists tv t, getProp (context d) (targetField m) h = Ok tv h /\ textOf h tv = Some t.

Lemma isMatch_matchesIn h m v s d :
  textOf h v = Some s ->
  (exists tv t, getProp (context d) (targetField m) h = Ok tv h /\ textOf h tv = Some t) ->
  isMatch m v d h = Ok (matchesIn h m v d) h.
Proof.
  intros Hv (tv & t & Hg & Ht). unfold isMatch, matchesIn, bind.
  rewrite Hg, (toString_textOf h tv t Ht), (toString_textOf h v s Hv), Ht, Hv.
  reflexivity.
Qed.

Lemma filterM_isMatch h m v s ds :
  textOf h v = Some s -> comparable h m ds ->
  filterM (isMatch m v) ds h = Ok (filter (matchesIn h m v) ds) h.
Proof.
  intros Hv. induction ds as [|d ds IH]; intros Hc; simpl; [reflexivity|].
  unfold bind at 1. rewrite (isMatch_matchesIn h m v s d Hv) by (apply Hc; left).
  unfold bind at 1. rewrite IH by (intros d' Hd'; apply Hc; now right).
  rewrite filter_cons. unfold ret.
  destruct (matchesIn h m v d); reflexivity.
Qed.

(** The store after the mapping has set the field. *)
Definition afterLookup (h : heap) (lf : loc) (ps : list (string * value)) (key : string)
    (currentIsArray : bool) (found : list (importRecord A)) : heap :=
  if currentIsArray
  then <[lf := CObj (props_set key (VRef (length h)) ps)]>
         (h ++ [CArr (map finalData found)])
  else <[lf := CObj (props_set key
                       (match found with first :: _ => finalData first | [] => VUndef end)
                       ps)]> h.

(** A value that passes the guard, a stage for the target collection and at
    least one match: the field is set. *)
Lemma resolveIdMapping_found im item m acc h v s tgt first rest lf ps currentIsArray :
  getProp (context item) (sourceField m) h = Ok v h ->
  truthy v = true -> isEmpty v h = Ok false h -> textOf h v = Some s ->
  JsMap.get (getCollectionKey (targetCollection m)) im = Some tgt ->
  comparable h m (data tgt) ->
  filter (matchesIn h m v) (data tgt) = first :: rest ->
  finalData item = VRef lf -> h !! lf = Some (CObj ps) ->
  isArray (props_get (fieldToSetKey m) ps) h = Ok currentIsArray h ->
  resolveIdMapping im item m acc h
  = Ok (true, snd acc)
       (afterLookup h lf ps (fieldToSetKey m) currentIsArray (first :: rest)).
Proof.
  intros Hv Ht He Hs Hg Hc Hf Hfd Hlf Harr. unfold resolveIdMapping.
  run_with Hv. rewrite Ht. cbn [negb].
  run_with He. rewrite Hg.
  run_with (filterM_isMatch h m v s (data tgt) Hs Hc). rewrite Hf, Hfd.
  run_with (getProp_obj lf ps (orElse (fieldToSet m) (sourceField m)) h Hlf).
  fold (fieldToSetKey m). run_with Harr.
  unfold afterLookup. destruct currentIsArray.
  - unfold bind at 1. unfold alloc at 1. cbv beta iota.
    unfold bind at 1. rewrite (setProp_obj lf ps).
    + reflexivity.
    + rewrite lookup_app_l; [exact Hlf|]. now apply lookup_lt_Some in Hlf.
  - unfold bind at 1. now rewrite (setProp_obj lf ps _ _ h Hlf).
Qed.

(** No match: the store is left as it is, and the failure is logged. *)
Lemma resolveIdMapping_not_found im item m acc h v s tgt :
  getProp (context item) (sourceField m) h = Ok v h ->
  truthy v = true -> isEmpty v h = Ok false h -> textOf h v = Some s ->
  JsMap.get (getCollectionKey (targetCollection m)) im = Some tgt ->
  comparable h m (data tgt) ->
  filter (matchesIn h m v) (data tgt) = [] ->
  resolveIdMapping im item m acc h
  = Ok (fst acc,
        snd acc ++ [NoDataFound (getCollectionKey (targetCollection m)) s (fieldToSetKey m)])
       h.
Proof.
  intros Hv Ht He Hs Hg Hc Hf. unfold resolveIdMapping.
  run_with Hv. rewrite Ht. cbn [negb].
  run_with He. rewrite Hg.
  run_with (filterM_isMatch h m v s (data tgt) Hs Hc). rewrite Hf.
  run_with (toString_textOf h v s Hs). reflexivity.
Qed.

(** No stage for the target collection: nothing happens. *)
Lemma resolveIdMapping_no_stage im item m acc h v :
  getProp (context item) (sourceField m) h = Ok v h ->
  JsMap.get (getCollectionKey (targetCollection m)) im = None ->
  (exists b, isEmpty v h = Ok b h) ->
  resolveIdMapping im item m acc h = Ok acc h.
Proof.
  intros Hv Hg [b He]. unfold resolveIdMapping.
  run_with Hv. destruct (truthy v); [|reflexivity]. cbn [negb].
  run_with He. destruct b; [reflexivity|]. now rewrite Hg.
Qed.
(** *** What one step of the lookup can do *)

Lemma frame_setProp_any o key v :
  frameExcept (fun l => o = VRef l) (setProp o key v).
Proof.
  destruct o; try (intros h; apply agree_refl).
  eapply frame_weaken; [|apply frame_setProp]. intros l' <-. reflexivity.
Qed.

Lemma resolveIdMapping_frame im item m acc :
  frameExcept (fun l => finalData item = VRef l) (resolveIdMapping im item m acc).
Proof.
  unfold resolveIdMapping.
  apply frame_bind; [apply agree_readOnly, readOnly_getProp|intros v].
  destruct (negb (truthy v)); [apply frame_ret|].
  apply frame_bind; [apply agree_readOnly, readOnly_isEmpty|intros [|]]; [apply frame_ret|].
  destruct (JsMap.get _ im) as [tgt|]; [|apply frame_ret].
  apply frame_bind.
  { apply agree_readOnly, readOnly_filterM. intros d. unfold isMatch.
    apply readOnly_bind; [apply readOnly_getProp|intros tv].
    apply readOnly_bind; [apply readOnly_toString|intros t].
    apply readOnly_bind; [apply readOnly_toString|intros t']. apply readOnly_ret. }
  intros [|first rest].
  - apply frame_bind; [apply agree_readOnly, readOnly_toString|intros ?; apply frame_ret].
  - apply frame_bind; [apply agree_readOnly, readOnly_getProp|intros cur].
    apply frame_bind; [apply agree_readOnly, readOnly_isArray|intros [|]].
    + apply frame_bind; [apply frame_alloc|intros all].
      apply frame_bind; [apply frame_setProp_any|intros ?; apply frame_ret].
    + apply frame_bind; [apply frame_setProp_any|intros ?; apply frame_ret].
Qed.

(** The three ways a step returns: nothing done, a failure logged, or the
    field set. *)
Lemma resolveIdMapping_inv im item m acc hk acc' hk' :
  resolveIdMapping im item m acc hk = Ok acc' hk' ->
  (hk' = hk /\ acc' = acc) \/
  (hk' = hk /\ exists shown,
     acc' = (fst acc, snd acc ++ [NoDataFound (getCollectionKey (targetCollection m))
                                    shown (fieldToSetKey m)])) \/
  (exists l psk isArr found,
     finalData item = VRef l /\ hk !! l = Some (CObj psk) /\ found <> [] /\
     hk' = afterLookup hk l psk (fieldToSetKey m) isArr found /\
     acc' = (true, snd acc)).
Proof.
  unfold resolveIdMapping. intros E.
  apply bind_Ok in E as (v & hx & Ev & E).
  pose proof (readOnly_Ok _ _ _ _ (readOnly_getProp _ _) Ev) as ->.
  destruct (negb (truthy v)); [injection E as <- <-; now left|].
  apply bind_Ok in E as (empty & hx & Ee & E).
  pose proof (readOnly_Ok _ _ _ _ (readOnly_isEmpty _) Ee) as ->.
  destruct empty; [injection E as <- <-; now left|].
  destruct (JsMap.get _ im) as [tgt|]; [|injection E as <- <-; now left].
  apply bind_Ok in E as (found & hx & Ef & E).
  assert (hx = hk) as ->.
  { eapply readOnly_Ok; [|exact Ef]. apply readOnly_filterM. intros d. unfold isMatch.
    apply readOnly_bind; [apply readOnly_getProp|intros tv].
    apply readOnly_bind; [apply readOnly_toString|intros t].
    apply readOnly_bind; [apply readOnly_toString|intros t']. apply readOnly_ret. }
  destruct found as [|first rest].
  - apply bind_Ok in E as (shown & hx & Es & E).
    pose proof (readOnly_Ok _ _ _ _ (readOnly_toString _) Es) as ->.
    injection E as <- <-. right. left. eauto.
  - right. right.
    apply bind_Ok in E as (cur & hx & Ec & E).
    pose proof (readOnly_Ok _ _ _ _ (readOnly_getProp _ _) Ec) as ->.
    apply bind_Ok in E as (isArr & hx & Ea & E).
    pose proof (readOnly_Ok _ _ _ _ (readOnly_isArray _) Ea) as ->.
    destruct (finalData item) as [| | | | |l] eqn:Efd.
    1-5: exfalso; clear Ec; destruct isArr;
      [apply bind_Ok in E as (? & ? & _ & E)|];
      apply bind_Ok in E as (? & ? & Eset & _); cbv in Eset; discriminate Eset.
    unfold getProp, bind, readCell in Ec.
    destruct (hk !! l) as [c|] eqn:El; [|discriminate].
    exists l.
    destruct isArr.
    + apply bind_Ok in E as (all & hx & Eal & E).
      unfold alloc in Eal. injection Eal as <- <-.
      apply bind_Ok in E as ([] & hx & Eset & E). injection E as <- <-.
      unfold setProp in Eset.
      rewrite lookup_app_l in Eset by (now apply lookup_lt_Some in El).
      rewrite El in Eset. destruct c as [psk| |]; try discriminate.
      injection Eset as <-.
      exists psk, true, (first :: rest). repeat split; try discriminate; auto.
    + apply bind_Ok in E as ([] & hx & Eset & E). injection E as <- <-.
      unfold setProp in Eset. rewrite El in Eset.
      destruct c as [psk| |]; try discriminate. injection Eset as <-.
      exists psk, false, (first :: rest). repeat split; try discriminate; auto.
Qed.

Lemma afterLookup_other (hk : heap) l psk key isArr (found : list (importRecord A)) l' c :
  hk !! l' = Some c -> l' <> l ->
  afterLookup hk l psk key isArr found !! l' = Some c.
Proof.
  intros Hl Hne. unfold afterLookup. destruct isArr.
  - rewrite list_lookup_insert_ne by auto.
    rewrite lookup_app_l; [exact Hl|]. now apply lookup_lt_Some in Hl.
  - now rewrite list_lookup_insert_ne by auto.
Qed.

Lemma afterLookup_same (hk : heap) l psk key isArr (found : list (importRecord A)) :
  hk !! l = Some (CObj psk) ->
  exists v, afterLookup hk l psk key isArr found !! l = Some (CObj (props_set key v psk)).
Proof.
  intros Hl. pose proof (lookup_lt_Some _ _ _ Hl) as Hlt.
  unfold afterLookup. destruct isArr; eexists.
  - apply list_lookup_insert_eq. rewrite length_app. lia.
  - now apply list_lookup_insert_eq.
Qed.
End Lookup.
Lemma filter_bool_ext {X} (p q : X -> bool) (l : list X) :
  (forall x, x ∈ l -> p x = q x) -> filter p l = filter q l.
Proof.
  induction l as [|x l IH]; intros Hext; [reflexivity|].
  rewrite !filter_cons. rewrite (Hext x) by left.
  rewrite IH by (intros y Hy; apply Hext; now right). reflexivity.
Qed.

(** *** The whole pass, seen from one record and one mapping *)

Section Pass.
Context {A : Type}.
Variables (cs : list (configCollection A)) (im : importMap A) (h : heap).
Variables (c : configCollection A) (stage : Config.stage A)
          (item : importRecord A) (def : importDef A)
          (ms : list idMapping) (m : idMapping).
Variables (lc : loc) (cps : list (string * value)) (s : string)
          (tgt : Config.stage A) (lf : loc) (ps : list (string * value))
          (isArr0 : bool).

(** The record and the mapping are among those the pass walks. *)
Hypothesis Hc : c ∈ cs.
Hypothesis Hstage : JsMap.get (getCollectionKey (name c)) im = Some stage.
Hypothesis Hitem : item ∈ data stage.
Hypothesis Hdef : def ∈ importDefs c.
Hypothesis Hms : idMappings def = Some ms.
Hypothesis Hm : m ∈ ms.

(** The record's context is an object that is nobody's payload; its source
    field holds the non-empty string [s]. *)
Hypothesis Hcontext : context item = VRef lc.
Hypothesis Hlc : h !! lc = Some (CObj cps).
Hypothesis Hprivate : ~ isPayload cs im lc.
Hypothesis Hvalue : props_get (sourceField m) cps = VStr s.
Hypothesis Hs : JsString.nonEmpty s = true.

(** The target collection is staged; the contexts of its records are
    objects that are nobody's payload, with a target field that prints;
    their payloads are objects. *)
Hypothesis Htgt : JsMap.get (getCollectionKey (targetCollection m)) im = Some tgt.
Hypothesis Htargets : forall d, d ∈ data tgt ->
  exists ld dps t l1 p1,
    context d = VRef ld /\ h !! ld = Some (CObj dps) /\ ~ isPayload cs im ld /\
    textOf h (props_get (targetField m) dps) = Some t /\
    finalData d = VRef l1 /\ h !! l1 = Some (CObj p1).

(** The record's payload is an object that is this record's only, and no
    other mapping of its collection sets the same field. *)
Hypothesis Hpayload : finalData item = VRef lf.
Hypothesis Hlf : h !! lf = Some (CObj ps).
Hypothesis Hcurrent : isArray (props_get (fieldToSetKey m) ps) h = Ok isArr0 h.
Hypothesis Howner : forall cc st it,
  cc ∈ cs -> JsMap.get (getCollectionKey (name cc)) im = Some st ->
  it ∈ data st -> finalData it = VRef lf -> it = item.
Hypothesis Hunique : forall cc st def' ms' m',
  cc ∈ cs -> JsMap.get (getCollectionKey (name cc)) im = Some st ->
  item ∈ data st -> def' ∈ importDefs cc -> idMappings def' = Some ms' ->
  m' ∈ ms' -> fieldToSetKey m' = fieldToSetKey m -> m' = m.

Let key := fieldToSetKey m.
Let found := filter (matchesIn h m (VStr s)) (data tgt).
Let failure := NoDataFound (getCollectionKey (targetCollection m)) s key.

(** The field as the pass found it. *)
Definition fieldAsBefore (hk : heap) : Prop :=
  exists psk, hk !! lf = Some (CObj psk) /\ props_get key psk = props_get key ps.

(** The field as the lookup of [m] for [item] leaves it. *)
Definition fieldResolved (hk : heap) : Prop :=
  exists psk, hk !! lf = Some (CObj psk) /\
    match found with
    | [] => props_get key psk = props_get key ps
    | first :: _ =>
        if isArr0
        then exists la, props_get key psk = VRef la /\
                        hk !! la = Some (CArr (map finalData found))
        else props_get key psk = finalData first
    end.

Definition passInv (hk : heap) : Prop :=
  agreeExcept (isPayload cs im) h hk /\ (fieldAsBefore hk \/ fieldResolved hk).

Definition logged (log : list diagnostic) : Prop := found = [] -> failure ∈ log.

Definition resolved {T} (acc : T * list diagnostic) (hk : heap) : Prop :=
  fieldResolved hk /\ logged (snd acc).

(** What the store shows of the record and of the targets does not change
    during the pass. *)
Lemma context_read hk :
  passInv hk -> getProp (context item) (sourceField m) hk = Ok (VStr s) hk.
Proof.
  intros [Hag _]. rewrite Hcontext, <- Hvalue.
  eapply getProp_agree; eauto.
Qed.

Lemma targets_comparable hk : passInv hk -> comparable hk m (data tgt).
Proof.
  intros [Hag _] d Hd.
  destruct (Htargets d Hd) as (ld & dps & t & _ & _ & Hcd & Hld & Hpr & Ht & _).
  exists (props_get (targetField m) dps), t. split.
  - rewrite Hcd. eapply getProp_agree; eauto.
  - eapply textOf_stable; eauto.
Qed.

Lemma matches_stable hk d :
  passInv hk -> d ∈ data tgt -> matchesIn hk m (VStr s) d = matchesIn h m (VStr s) d.
Proof.
  intros [Hag _] Hd.
  destruct (Htargets d Hd) as (ld & dps & t & _ & _ & Hcd & Hld & Hpr & Ht & _).
  unfold matchesIn. rewrite Hcd.
  rewrite (getProp_agree _ h hk ld dps _ Hag Hld Hpr).
  rewrite (getProp_obj ld dps _ h Hld).
  rewrite (textOf_stable _ h hk _ t Hag Ht), Ht.
  now rewrite !textOf_str.
Qed.

Lemma found_stable hk :
  passInv hk -> filter (matchesIn hk m (VStr s)) (data tgt) = found.
Proof.
  intros Hinv. unfold found. apply filter_bool_ext.
  intros d Hd. now apply matches_stable.
Qed.

Lemma found_payload first rest :
  found = first :: rest -> exists l1 p1, finalData first = VRef l1 /\ h !! l1 = Some (CObj p1).
Proof.
  intros Hf. assert (first ∈ data tgt) as Hin.
  { assert (first ∈ found) as H by (rewrite Hf; left).
    unfold found in H. now apply list_elem_of_filter in H as [_ H]. }
  destruct (Htargets first Hin) as (_ & _ & _ & l1 & p1 & _ & _ & _ & _ & H1 & H2).
  eauto.
Qed.

(** The step of [m] for [item], wherever in the pass it runs, leaves the
    field resolved. *)
Lemma step_ours acc hk (acc' : bool * list diagnostic) hk' :
  passInv hk ->
  resolveIdMapping im item m acc hk = Ok acc' hk' ->
  fieldResolved hk' /\ (logged (snd acc) -> logged (snd acc')) /\
  (found = [] -> failure ∈ snd acc').
Proof.
  intros Hinv E.
  pose proof (context_read hk Hinv) as Hv.
  pose proof (targets_comparable hk Hinv) as Hcmp.
  pose proof (found_stable hk Hinv) as Hfound.
  assert (isEmpty (VStr s) hk = Ok false hk) as Hemp.
  { unfold isEmpty, ret. unfold JsString.nonEmpty in Hs.
    apply negb_true_iff in Hs. now rewrite Hs. }
  pose proof (textOf_str hk s) as Htext.
  destruct Hinv as [Hag Hfield].
  assert (exists psk, hk !! lf = Some (CObj psk)) as [psk Hpsk]
    by (destruct Hfield as [(psk & ? & _)|(psk & ? & _)]; eauto).
  destruct found as [|first rest] eqn:Ef.
  - rewrite (resolveIdMapping_not_found im item m acc hk (VStr s) s tgt) in E;
      auto.
    injection E as <- <-. split; [|split].
    + unfold fieldResolved. rewrite Ef.
      destruct Hfield as [Hb|Hr]; [exact Hb|].
      unfold fieldResolved in Hr. now rewrite Ef in Hr.
    + intros _ _. simpl. apply elem_of_app. right. left.
    + intros _. simpl. apply elem_of_app. right. left.
  - assert (isArray (props_get key psk) hk = Ok isArr0 hk) as Harr.
    { destruct Hfield as [(psk' & Hpsk' & Hsame)|(psk' & Hpsk' & Hres)];
        rewrite Hpsk in Hpsk'; injection Hpsk' as <-.
      - rewrite Hsame. eapply isArray_agree; eauto.
      - rewrite Ef in Hres. destruct isArr0.
        + destruct Hres as (la & -> & Hla). now rewrite (isArray_ref la _ hk Hla).
        + rewrite Hres.
          destruct (found_payload first rest Ef) as (l1 & p1 & -> & Hl1).
          destruct Hag as (_ & _ & Sh). destruct (Sh l1 _ Hl1) as (c' & Hc' & Hshape).
          rewrite (isArray_ref l1 c' hk Hc').
          destruct c'; simpl in Hshape; try discriminate; reflexivity. }
    rewrite (resolveIdMapping_found im item m acc hk (VStr s) s tgt first rest lf psk isArr0)
      in E; auto.
    injection E as <- <-. split; [|split].
    + unfold fieldResolved. rewrite Ef. unfold afterLookup. fold key.
      pose proof (lookup_lt_Some _ _ _ Hpsk) as Hlt.
      destruct isArr0.
      * eexists. split; [apply list_lookup_insert_eq; rewrite length_app; lia|].
        rewrite props_get_set_same. exists (length hk). split; [reflexivity|].
        rewrite list_lookup_insert_ne by lia. now rewrite list_lookup_middle.
      * eexists. split; [now apply list_lookup_insert_eq|].
        now rewrite props_get_set_same.
    + intros _ Hnil. congruence.
    + intros Hnil. discriminate.
Qed.
(** A step for another record, or for another field, leaves the field as
    it is. *)
Lemma step_other it' m' acc hk acc' hk' :
  resolveIdMapping im it' m' acc hk = Ok acc' hk' ->
  finalData it' <> VRef lf \/ fieldToSetKey m' <> key ->
  (fieldAsBefore hk -> fieldAsBefore hk') /\ (fieldResolved hk -> fieldResolved hk').
Proof.
  intros E Hother.
  destruct (resolveIdMapping_inv im it' m' acc hk acc' hk' E)
    as [[-> _]|[[-> _]|(l & psk & isArr & fnd & Hfd & Hl & _ & -> & _)]]; auto.
  assert (forall psk0, hk !! lf = Some (CObj psk0) ->
            exists psk1, afterLookup hk l psk (fieldToSetKey m') isArr fnd !! lf
                         = Some (CObj psk1) /\
                         props_get key psk1 = props_get key psk0) as Hsame.
  { intros psk0 Hpsk0. destruct (decide (lf = l)) as [->|Hne].
    - rewrite Hl in Hpsk0. injection Hpsk0 as <-.
      destruct (afterLookup_same hk l psk (fieldToSetKey m') isArr fnd Hl) as [v Hv].
      eexists. split; [exact Hv|]. apply props_get_set_other.
      destruct Hother as [H|H]; [congruence|exact H].
    - exists psk0. split; [|reflexivity]. now apply afterLookup_other. }
  split.
  - intros (psk0 & Hpsk0 & Heq). destruct (Hsame psk0 Hpsk0) as (psk1 & H1 & H2).
    exists psk1. split; [exact H1|congruence].
  - intros (psk0 & Hpsk0 & Hres). destruct (Hsame psk0 Hpsk0) as (psk1 & H1 & H2).
    exists psk1. split; [exact H1|]. rewrite H2.
    destruct found as [|first rest]; [exact Hres|].
    destruct isArr0; [|exact Hres].
    destruct Hres as (la & Hla & Harr). exists la. split; [exact Hla|].
    apply afterLookup_other; [exact Harr|]. intros ->. congruence.
Qed.

Lemma log_grows it' m' acc hk acc' hk' :
  resolveIdMapping im it' m' acc hk = Ok acc' hk' ->
  logged (snd acc) -> logged (snd acc').
Proof.
  intros E Hlog Hnil. specialize (Hlog Hnil).
  destruct (resolveIdMapping_inv im it' m' acc hk acc' hk' E)
    as [[_ ->]|[[_ [shown ->]]|(_ & _ & _ & _ & _ & _ & _ & _ & ->)]]; simpl; auto.
  apply elem_of_app. now left.
Qed.

(** Every step of the pass keeps the invariant and what has been reached. *)
Lemma step_keeps cc st it' def' ms' m' acc hk acc' hk' :
  cc ∈ cs -> JsMap.get (getCollectionKey (name cc)) im = Some st ->
  it' ∈ data st -> def' ∈ importDefs cc -> idMappings def' = Some ms' -> m' ∈ ms' ->
  True -> passInv hk ->
  resolveIdMapping im it' m' acc hk = Ok acc' hk' ->
  True /\ passInv hk' /\ (resolved acc hk -> resolved acc' hk').
Proof.
  intros Hcc Hst Hit Hd' Hms' Hm' _ Hinv E.
  assert (agreeExcept (isPayload cs im) h hk') as Hag'.
  { destruct Hinv as [Hag _]. eapply agree_trans; [exact Hag|].
    pose proof (resolveIdMapping_frame im it' m' acc hk) as Hf. rewrite E in Hf.
    eapply agree_weaken; [|exact Hf].
    intros l Hl. exists cc, st, it'. auto. }
  destruct (value_eqb_spec (finalData it') (VRef lf)) as [Hsame|Hdiff].
  - destruct (String.eqb_spec (fieldToSetKey m') key) as [Hk|Hk].
    + (* the step of [m] for [item] *)
      assert (it' = item) as -> by (eapply Howner; eauto).
      assert (m' = m) as -> by (eapply Hunique; eauto).
      destruct (step_ours acc hk acc' hk' Hinv E) as (Hres & Hlog & _).
      split; [exact I|]. split; [split; [exact Hag'|now right]|].
      intros [_ Hl]. split; auto.
    + destruct (step_other it' m' acc hk acc' hk' E (or_intror Hk)) as [Hb Hr].
      split; [exact I|]. split.
      * split; [exact Hag'|]. destruct Hinv as [_ [H|H]]; auto.
      * intros [H Hl]. split; [auto|]. eapply log_grows; eauto.
  - destruct (step_other it' m' acc hk acc' hk' E (or_introl Hdiff)) as [Hb Hr].
    split; [exact I|]. split.
    + split; [exact Hag'|]. destruct Hinv as [_ [H|H]]; auto.
    + intros [H Hl]. split; [auto|]. eapply log_grows; eauto.
Qed.

Lemma def_keeps cc st it' def' acc hk acc' hk' :
  cc ∈ cs -> JsMap.get (getCollectionKey (name cc)) im = Some st ->
  it' ∈ data st -> def' ∈ importDefs cc ->
  True -> passInv hk ->
  resolveImportDef im it' def' acc hk = Ok acc' hk' ->
  True /\ passInv hk' /\ (resolved acc hk -> resolved acc' hk').
Proof.
  intros Hcc Hst Hit Hd' _ Hinv E. unfold resolveImportDef in E.
  destruct (idMappings def') as [ms'|] eqn:Hms'.
  - eapply (forEachAcc_keeps (resolveIdMapping im it') (fun _ => True) passInv resolved ms');
      eauto.
    intros m' a hx a' hx' Hm'. eapply step_keeps; eauto.
  - injection E as <- <-. auto.
Qed.

Lemma item_keeps cc st it' acc hk acc' hk' :
  cc ∈ cs -> JsMap.get (getCollectionKey (name cc)) im = Some st ->
  it' ∈ data st ->
  True -> passInv hk ->
  resolveItem im (importDefs cc) it' acc hk = Ok acc' hk' ->
  True /\ passInv hk' /\ (resolved acc hk -> resolved acc' hk').
Proof.
  intros Hcc Hst Hit _ Hinv E. unfold resolveItem in E.
  eapply (forEachAcc_keeps (resolveImportDef im it') (fun _ => True) passInv resolved
            (importDefs cc)); eauto.
  intros def' a hx a' hx' Hd'. eapply def_keeps; eauto.
Qed.

(** The step of [m] is reached in the walk over [item]. *)
Lemma item_ours acc hk acc' hk' :
  passInv hk ->
  resolveItem im (importDefs c) item acc hk = Ok acc' hk' ->
  resolved acc' hk'.
Proof.
  intros Hinv E. unfold resolveItem in E.
  eapply (forEachAcc_reaches (resolveImportDef im item) (fun _ => True) passInv resolved
            (importDefs c) def Hdef); eauto.
  - intros def' a hx a' hx' Hd'. eapply def_keeps; eauto.
  - intros a hx a' hx' _ Hinv' E'. unfold resolveImportDef in E'. rewrite Hms in E'.
    eapply (forEachAcc_reaches (resolveIdMapping im item) (fun _ => True) passInv resolved
              ms m Hm); eauto.
    + intros m' b hy b' hy' Hm'. eapply step_keeps; eauto.
    + intros b hy b' hy' _ Hinv'' E''.
      destruct (step_ours b hy b' hy' Hinv'' E'') as (Hres & _ & Hlog).
      split; [exact Hres|exact Hlog].
Qed.

Lemma collection_keeps cc (acc : importMap A * list diagnostic) hk acc' hk' :
  cc ∈ cs -> fst acc = im -> passInv hk ->
  resolveCollection cc acc hk = Ok acc' hk' ->
  fst acc' = im /\ passInv hk' /\ (resolved acc hk -> resolved acc' hk').
Proof.
  intros Hcc Him Hinv E. unfold resolveCollection in E. rewrite Him in E.
  destruct (JsMap.get (getCollectionKey (name cc)) im) as [st|] eqn:Hst.
  - apply bind_Ok in E as (r & hx & Eloop & E). injection E as <- <-.
    destruct (forEachAcc_keeps (resolveItem im (importDefs cc)) (fun _ => True)
                passInv resolved (data st)
                (fun it' a hy a' hy' Hit => item_keeps cc st it' a hy a' hy' Hcc Hst Hit)
                (false, snd acc) hk r hx I Hinv Eloop) as (_ & Hinv' & Hres).
    split; [|split; [exact Hinv'|]].
    + simpl. destruct (fst r); [now apply set_id|reflexivity].
    + intros [H Hl]. apply Hres. split; auto.
  - injection E as <- <-. auto.
Qed.

Lemma collection_ours (acc : importMap A * list diagnostic) hk acc' hk' :
  fst acc = im -> passInv hk ->
  resolveCollection c acc hk = Ok acc' hk' ->
  resolved acc' hk'.
Proof.
  intros Him Hinv E. unfold resolveCollection in E. rewrite Him, Hstage in E.
  apply bind_Ok in E as (r & hx & Eloop & E). injection E as <- <-.
  assert (resolved r hx) as [H Hl]; [|split; auto].
  eapply (forEachAcc_reaches (resolveItem im (importDefs c)) (fun _ => True)
            passInv resolved (data stage) item Hitem); eauto.
  - intros it' a hy a' hy' Hit. eapply item_keeps; eauto.
  - intros a hy a' hy' _. apply item_ours.
Qed.

(** The pass leaves the field resolved, the import map as it was, and
    every cell that is not a payload unchanged. *)
Lemma pass_resolves im' log h' :
  updateOldReferencesForNew (Some cs) im h = Ok (im', log) h' ->
  fieldResolved h' /\ logged log /\ im' = im /\ agreeExcept (isPayload cs im) h h'.
Proof.
  unfold updateOldReferencesForNew. intros E.
  assert (passInv h) as Hinv0.
  { split; [apply agree_refl|]. left. exists ps. auto. }
  destruct (forEachAcc_keeps resolveCollection (fun acc => fst acc = im) passInv resolved cs
              (fun cc a hy a' hy' Hcc => collection_keeps cc a hy a' hy' Hcc)
              (im, []) h (im', log) h' eq_refl Hinv0 E) as (Him & [Hag _] & _).
  destruct (forEachAcc_reaches resolveCollection (fun acc => fst acc = im) passInv resolved
              cs c Hc
              (fun cc a hy a' hy' Hcc => collection_keeps cc a hy a' hy' Hcc)
              collection_ours
              (im, []) h (im', log) h' eq_refl Hinv0 E) as [Hres Hlog].
  auto.
Qed.
End Pass.
End ResolverFacts.

(** C2, as stated, fails: with two staged owners whose [origId] both print
    as the pet's [ownerOrig], the lookup sets the pet's [owner] to the
    payload of the first; the second owner matches as well, yet the pet's
    payload holds neither its payload nor an array of both. *)
Lemma lookup_ignores_second_match :
  exists im' log h' ps',
    Resolver.updateOldReferencesForNew
      (Some [Examples.ownersCollection; Examples.petsCollection])
      Examples.twoOwners Examples.petStore = Store.Ok (im', log) h' /\
    JsMap.get "owners" Examples.twoOwners
      = Some {| Config.data := [Examples.ann; Examples.bob] |} /\
    Resolver.matchesIn Examples.petStore Examples.ownerMapping (Store.VStr "7")
      Examples.bob = true /\
    h' !! 3 = Some (Store.CObj ps') /\
    Store.props_get "owner" ps' = Config.finalData Examples.ann /\
    Store.props_get "owner" ps' <> Config.finalData Examples.bob.
Proof.
  eexists _, _, _, _. split; [vm_compute; reflexivity|].
  split; [reflexivity|]. split; [reflexivity|]. split; [reflexivity|].
  split; [reflexivity|discriminate].
Qed.

(** C2, amended.  Let a record [item] of a configured collection and a
    mapping [m] of one of its import definitions be such that the source
    field of the record's context holds a non-empty string [s], the target
    collection is staged, and the pass returns.  Provided the contexts read
    are objects that are nobody's payload, the target values print, the
    payloads are objects, the record's payload is its own and no other
    mapping of the collection sets the same field: after
    [updateOldReferencesForNew], the field [fieldToSet || sourceField] of
    the record's payload is
    - the payload of the FIRST staged target record whose
      [context[targetField]] prints as [s]; or, when the payload held an
      array at that field before the pass, a new array of the payloads of
      all such records, in staging order;
    - what it was before the pass when no target record matches, and the
      failure is in the log. *)
Theorem lookup_sets_first_match {A : Type}
    (cs : list (Config.configCollection A)) (im : Config.importMap A)
    (h : list Store.cell)
    (c : Config.configCollection A) (stage : Config.stage A)
    (item : Config.importRecord A) (def : Config.importDef A)
    (ms : list Config.idMapping) (m : Config.idMapping)
    (lc : nat) (cps : list (string * Store.value)) (s : string)
    (tgt : Config.stage A) (lf : nat) (ps : list (string * Store.value))
    (currentIsArray : bool)
    (im' : Config.importMap A) (log : list Resolver.diagnostic)
    (h' : list Store.cell) :
  c ∈ cs ->
  JsMap.get (getCollectionKey (Config.name c)) im = Some stage ->
  item ∈ Config.data stage ->
  def ∈ Config.importDefs c ->
  Config.idMappings def = Some ms ->
  m ∈ ms ->
  Config.context item = Store.VRef lc ->
  h !! lc = Some (Store.CObj cps) ->
  ~ Resolver.isPayload cs im lc ->
  Store.props_get (Config.sourceField m) cps = Store.VStr s ->
  JsString.nonEmpty s = true ->
  JsMap.get (getCollectionKey (Config.targetCollection m)) im = Some tgt ->
  (forall d, d ∈ Config.data tgt ->
     exists ld dps t l1 p1,
       Config.context d = Store.VRef ld /\ h !! ld = Some (Store.CObj dps) /\
       ~ Resolver.isPayload cs im ld /\
       Resolver.textOf h (Store.props_get (Config.targetField m) dps) = Some t /\
       Config.finalData d = Store.VRef l1 /\ h !! l1 = Some (Store.CObj p1)) ->
  Config.finalData item = Store.VRef lf ->
  h !! lf = Some (Store.CObj ps) ->
  Store.isArray (Store.props_get (Resolver.fieldToSetKey m) ps) h
    = Store.Ok currentIsArray h ->
  (forall cc st it,
     cc ∈ cs -> JsMap.get (getCollectionKey (Config.name cc)) im = Some st ->
     it ∈ Config.data st -> Config.finalData it = Store.VRef lf -> it = item) ->
  (forall cc st def' ms' m',
     cc ∈ cs -> JsMap.get (getCollectionKey (Config.name cc)) im = Some st ->
     item ∈ Config.data st -> def' ∈ Config.importDefs cc ->
     Config.idMappings def' = Some ms' -> m' ∈ ms' ->
     Resolver.fieldToSetKey m' = Resolver.fieldToSetKey m -> m' = m) ->
  Resolver.updateOldReferencesForNew (Some cs) im h = Store.Ok (im', log) h' ->
  let key := Resolver.fieldToSetKey m in
  let found := filter (Resolver.matchesIn h m (Store.VStr s)) (Config.data tgt) in
  exists ps',
    h' !! lf = Some (Store.CObj ps') /\
    match found with
    | [] =>
        Store.props_get key ps' = Store.props_get key ps /\
        Resolver.NoDataFound (getCollectionKey (Config.targetCollection m)) s key ∈ log
    | first :: _ =>
        if currentIsArray
        then exists la, Store.props_get key ps' = Store.VRef la /\
                        h' !! la = Some (Store.CArr (map Config.finalData found))
        else Store.props_get key ps' = Config.finalData first
    end.
Proof.
  intros Hc Hstage Hitem Hdef Hms Hm Hcontext Hlc Hprivate Hvalue Hs Htgt Htargets
         Hpayload Hlf Hcurrent Howner Hunique E key found.
  destruct (ResolverFacts.pass_resolves cs im h c stage item def ms m lc cps s tgt lf ps
              currentIsArray Hc Hstage Hitem Hdef Hms Hm Hcontext Hlc Hprivate Hvalue Hs
              Htgt Htargets Hpayload Hlf Hcurrent Howner Hunique im' log h' E)
    as ((ps' & Hps' & Hres) & Hlog & _ & _).
  exists ps'. split; [exact Hps'|].
  fold key in Hres. fold found in Hres. unfold ResolverFacts.logged in Hlog.
  fold key in Hlog. fold found in Hlog.
  destruct found; [split; auto|exact Hres].
Qed.

(** The spec's scenario 3: one owner with [origId = "7"], one pet whose
    [ownerOrig] is "7"; after the pass the pet's [owner] is the owner's
    payload, a single object. *)
Lemma lookup_sets_first_match_witness :
  exists im' log h' ps',
    Resolver.updateOldReferencesForNew
      (Some [Examples.ownersCollection; Examples.petsCollection])
      Examples.oneOwner Examples.petStore = Store.Ok (im', log) h' /\
    h' !! 3 = Some (Store.CObj ps') /\
    Store.props_get "owner" ps' = Config.finalData Examples.ann.
Proof.
  destruct (Resolver.updateOldReferencesForNew
              (Some [Examples.ownersCollection; Examples.petsCollection])
              Examples.oneOwner Examples.petStore) as [[im' log] h'|h'|] eqn:E;
    [|vm_compute in E; discriminate..].
  assert (forall l, Resolver.isPayload
                      [Examples.ownersCollection; Examples.petsCollection]
                      Examples.oneOwner l -> l = 1 \/ l = 3) as Hpay.
  { intros l (cc & st & it & Hcc & Hst & Hit & Hfd).
    apply elem_of_cons in Hcc as [->|Hcc];
      [|apply list_elem_of_singleton in Hcc as ->];
      vm_compute in Hst; injection Hst as <-;
      apply list_elem_of_singleton in Hit as ->;
      injection Hfd as <-; auto. }
  destruct (lookup_sets_first_match
              [Examples.ownersCollection; Examples.petsCollection]
              Examples.oneOwner Examples.petStore
              Examples.petsCollection {| Config.data := [Examples.rex] |}
              Examples.rex Examples.petsDef [Examples.ownerMapping]
              Examples.ownerMapping
              2 [("id", Store.VStr "r1"); ("ownerOrig", Store.VStr "7");
                 ("docId", Store.VStr "p1")]
              "7" {| Config.data := [Examples.ann] |}
              3 [("name", Store.VStr "Rex")] false im' log h')
    as (ps' & Hps' & Hfield); try reflexivity.
  - right. left.
  - left.
  - left.
  - left.
  - intros H. destruct (Hpay 2 H); discriminate.
  - intros d Hd. apply list_elem_of_singleton in Hd as ->.
    exists 0, [("origId", Store.VStr "7"); ("name", Store.VStr "Ann");
               ("docId", Store.VStr "abc")], "7", 1, [("name", Store.VStr "Ann")].
    repeat split; try reflexivity.
    intros H. destruct (Hpay 0 H); discriminate.
  - intros cc st it Hcc Hst Hit Hfd.
    apply elem_of_cons in Hcc as [->|Hcc];
      [|apply list_elem_of_singleton in Hcc as ->];
      vm_compute in Hst; injection Hst as <-;
      apply list_elem_of_singleton in Hit as ->;
      [discriminate|reflexivity].
  - intros cc st def' ms' m' Hcc Hst Hit Hd' Hms' Hm' _.
    apply elem_of_cons in Hcc as [->|Hcc];
      [|apply list_elem_of_singleton in Hcc as ->];
      vm_compute in Hst; injection Hst as <-;
      apply list_elem_of_singleton in Hit;
      [discriminate|].
    apply list_elem_of_singleton in Hd' as ->.
    injection Hms' as <-. now apply list_elem_of_singleton in Hm'.
  - exact E.
  - exists im', log, h', ps'. split; [reflexivity|]. split; [exact Hps'|exact Hfield].
Defined.

(* ===================================================================== *)
(** * Further properties of the loader *)
(* ===================================================================== *)

(** ** Identifiers and keys *)

(** [getTrueUniqueId] on a table without the empty key: the identifier it
    returns is the first candidate of [ID.unique()] that is not assigned in
    the collection; every candidate before it was assigned. *)
Theorem getTrueUniqueId_takes_first_unassigned
    (tbl : Ids.tables) (collectionName : string) (supply : list string)
    (newId : string) (rest : list string) :
  "" ∉ JsMap.keys (Ids.tableOf tbl collectionName) ->
  Ids.getTrueUniqueId tbl collectionName supply = Some (newId, rest) ->
  (newId ∉ Ids.assigned tbl collectionName) /\
  exists skipped,
    supply = skipped ++ newId :: rest /\
    forall c, c ∈ skipped -> c ∈ Ids.assigned tbl collectionName.
Proof.
  intros Hkeys E. split; [eapply IdFacts.getTrueUniqueId_unassigned; eauto|].
  clear Hkeys. revert E. induction supply as [|c supply IH]; simpl; [discriminate|].
  destruct (Ids.truthy (Ids.checkMapValuesForId tbl c collectionName)) eqn:Ec.
  - intros E. destruct (IH E) as (skipped & -> & Hs).
    exists (c :: skipped). split; [reflexivity|].
    intros d Hd. apply elem_of_cons in Hd as [->|Hd]; [|auto].
    unfold Ids.checkMapValuesForId in Ec. unfold Ids.assigned.
    destruct (Ids.scanEntries c (Ids.tableOf tbl collectionName)) as [key|] eqn:Es;
      [|discriminate].
    clear -Es. unfold JsMap.values.
    induction (Ids.tableOf tbl collectionName) as [|[k v] m IHm]; simpl in *;
      [discriminate|].
    destruct (String.eqb_spec v c) as [->|]; [left|right; auto].
  - intros [= <- <-]. exists []. split; [reflexivity|]. intros c' Hc'. inversion Hc'.
Qed.

Lemma getTrueUniqueId_takes_first_unassigned_witness :
  "def" ∉ Ids.assigned [("items", [("1", "abc")])] "items".
Proof.
  apply (getTrueUniqueId_takes_first_unassigned
           [("items", [("1", "abc")])] "items" ["abc"; "def"; "ghi"] "def" ["ghi"]).
  - intros H. vm_compute in H. apply list_elem_of_singleton in H. discriminate.
  - reflexivity.
Defined.

(** Two display names with at most one space each, which differ only in
    letter case and in that space, have the same collection key. *)
Theorem getCollectionKey_insensitive_up_to_one_space (a b : string) :
  JsString.occurrences " "%char a <= 1 ->
  JsString.occurrences " "%char b <= 1 ->
  JsString.stripAll " "%char (JsString.toLowerCase a)
    = JsString.stripAll " "%char (JsString.toLowerCase b) ->
  getCollectionKey a = getCollectionKey b.
Proof.
  intros Ha Hb H.
  rewrite (KeyFacts.getCollectionKey_single_space a Ha).
  rewrite (KeyFacts.getCollectionKey_single_space b Hb). exact H.
Qed.

Lemma getCollectionKey_insensitive_up_to_one_space_witness :
  getCollectionKey "User Profiles" = getCollectionKey "userprofiles".
Proof.
  apply getCollectionKey_insensitive_up_to_one_space;
    [vm_compute; lia|vm_compute; lia|reflexivity].
Defined.

Module AccountFacts.
Import Identity JsMapFacts.

(** Whether an account has the email (the phone) [k]. *)
Definition hasEmail (k : string) (u : string * authUser) : bool :=
  match email (snd u) with Some x => String.eqb x k | None => false end.

Definition hasPhone (k : string) (u : string * authUser) : bool :=
  match phone (snd u) with Some x => String.eqb x k | None => false end.

(** One turn of the loop of [getAllUsers]. *)
Definition register {item} (r : registry item) (u : string * authUser) : registry item :=
  fold_left
    (fun r u =>
       let id := fst u in
       {| emailToUserIdMap :=
            match email (snd u) with
            | Some e => if JsString.nonEmpty e
                        then JsMap.set e id (emailToUserIdMap r)
                        else emailToUserIdMap r
            | None => emailToUserIdMap r
            end;
          phoneToUserIdMap :=
            match phone (snd u) with
            | Some p => if JsString.nonEmpty p
                        then JsMap.set p id (phoneToUserIdMap r)
                        else phoneToUserIdMap r
            | None => phoneToUserIdMap r
            end;
          mergedUserMap := mergedUserMap r;
          usersStage := usersStage r |}) [u] r.

Lemma nonEmpty_true k : JsString.nonEmpty k = true <-> k <> "".
Proof.
  unfold JsString.nonEmpty. destruct (String.eqb_spec k ""); simpl; split; congruence.
Qed.

Lemma register_email {item} (r : registry item) u k :
  JsString.nonEmpty k = true ->
  JsMap.get k (emailToUserIdMap (register r u))
  = if hasEmail k u then Some (fst u) else JsMap.get k (emailToUserIdMap r).
Proof.
  intros Hk. unfold register, hasEmail. simpl.
  destruct (email (snd u)) as [e|]; [|reflexivity].
  destruct (String.eqb_spec e k) as [->|Hne].
  - rewrite Hk. apply get_set_same.
  - destruct (JsString.nonEmpty e); [now apply get_set_other|reflexivity].
Qed.

Lemma register_phone {item} (r : registry item) u k :
  JsString.nonEmpty k = true ->
  JsMap.get k (phoneToUserIdMap (register r u))
  = if hasPhone k u then Some (fst u) else JsMap.get k (phoneToUserIdMap r).
Proof.
  intros Hk. unfold register, hasPhone. simpl.
  destruct (phone (snd u)) as [e|]; [|reflexivity].
  destruct (String.eqb_spec e k) as [->|Hne].
  - rewrite Hk. apply get_set_same.
  - destruct (JsString.nonEmpty e); [now apply get_set_other|reflexivity].
Qed.

Lemma getAllUsers_snoc {item} users u :
  getAllUsers (item:=item) (users ++ [u]) = register (getAllUsers users) u.
Proof. unfold getAllUsers, register. now rewrite fold_left_app. Qed.

Lemma find_snoc {X} (p : X -> bool) l x :
  find p (rev (l ++ [x])) = if p x then Some x else find p (rev l).
Proof. rewrite rev_app_distr. reflexivity. Qed.
End AccountFacts.

(** [getAllUsers]: after the fetch, a non-empty email (phone) is registered
    to the [$id] of the LAST fetched account that has it, and to nothing
    when no account has it. *)
Theorem getAllUsers_registers_last_account {item : Type}
    (users : list (string * Identity.authUser)) (k : string) :
  JsString.nonEmpty k = true ->
  let r := Identity.getAllUsers (item:=item) users in
  JsMap.get k (Identity.emailToUserIdMap r)
    = option_map fst (find (AccountFacts.hasEmail k) (rev users)) /\
  JsMap.get k (Identity.phoneToUserIdMap r)
    = option_map fst (find (AccountFacts.hasPhone k) (rev users)).
Proof.
  intros Hk. cbv zeta.
  induction users as [|u users IH] using rev_ind; [split; reflexivity|].
  destruct IH as [IHe IHp].
  rewrite AccountFacts.getAllUsers_snoc, !AccountFacts.find_snoc.
  rewrite AccountFacts.register_email, AccountFacts.register_phone by exact Hk.
  split.
  - destruct (AccountFacts.hasEmail k u); [reflexivity|exact IHe].
  - destruct (AccountFacts.hasPhone k u); [reflexivity|exact IHp].
Qed.

Lemma getAllUsers_registers_last_account_witness :
  JsMap.get "a@x.com"
    (Identity.emailToUserIdMap
       (Identity.getAllUsers (item:=unit)
          [("u1", {| Identity.email := Some "a@x.com"; Identity.phone := None |});
           ("u2", {| Identity.email := Some "a@x.com"; Identity.phone := Some "+1" |})]))
  = Some "u2".
Proof.
  apply (getAllUsers_registers_last_account (item:=unit)
           [("u1", {| Identity.email := Some "a@x.com"; Identity.phone := None |});
            ("u2", {| Identity.email := Some "a@x.com"; Identity.phone := Some "+1" |})]
           "a@x.com" eq_refl).
Defined.

(** ** The context of a record *)

Module ContextFacts.
Import Store Config Ingest StoreFacts.

(** The properties [createContext] writes after the spread of the item. *)
Definition contextKeys : list string :=
  ["dbId"; "dbName"; "collId"; "collName"; "docId"; "createdDoc"].

Lemma props_get_set key key' v ps :
  props_get key' (props_set key v ps)
  = if String.eqb key' key then v else props_get key' ps.
Proof.
  destruct (String.eqb_spec key' key) as [->|Hne].
  - apply props_get_set_same.
  - apply props_get_set_other. congruence.
Qed.

(** After [{ ...base, k1: v1, ... }], a key that is none of the [ki] has
    the value it has in [base]. *)
Lemma assignProps_other key base extra :
  key ∉ map fst extra -> props_get key (assignProps base extra) = props_get key base.
Proof.
  unfold assignProps. revert base.
  induction extra as [|[k v] extra IH]; intros base Hkey; simpl; [reflexivity|].
  simpl in Hkey. apply not_elem_of_cons in Hkey as [Hne Hkey].
  rewrite IH by exact Hkey. apply props_get_set_other. congruence.
Qed.
End ContextFacts.

(** [createContext(db, collection, item, docId)] on an item that is an
    object: the context is a new object that has the item's own properties,
    except that [dbId], [dbName], [collId], [collName] and [docId] are the
    given ones and [createdDoc] is a new empty object, whatever the item
    holds under these names; the item itself is not changed. *)
Theorem createContext_overrides_item_fields {A : Type}
    (db : Config.configDatabase) (collection : Config.configCollection A)
    (l : nat) (ps : list (string * Store.value)) (docId : string)
    (h : list Store.cell) :
  h !! l = Some (Store.CObj ps) ->
  exists ctx,
    Ingest.createContext db collection (Store.VRef l) docId h
      = Store.Ok (Store.VRef (S (length h)))
          (h ++ [Store.CObj []; Store.CObj ctx]) /\
    Store.props_get "dbId" ctx = Store.VStr (Config.dbId db) /\
    Store.props_get "dbName" ctx = Store.VStr (Config.dbName db) /\
    Store.props_get "collId" ctx = Store.VStr (Config.collId collection) /\
    Store.props_get "collName" ctx = Store.VStr (Config.name collection) /\
    Store.props_get "docId" ctx = Store.VStr docId /\
    Store.props_get "createdDoc" ctx = Store.VRef (length h) /\
    forall key, key ∉ ContextFacts.contextKeys ->
      Store.props_get key ctx = Store.props_get key ps.
Proof.
  intros Hl. eexists. split.
  - unfold Ingest.createContext, Store.ownProps.
    unfold Store.bind at 1. unfold Store.bind at 1, Store.readCell at 1. rewrite Hl.
    unfold Store.ret at 1. unfold Store.bind at 1, Store.alloc at 1.
    unfold Store.alloc. rewrite length_app. simpl length.
    rewrite <- app_assoc. simpl. rewrite Nat.add_1_r. reflexivity.
  - unfold Ingest.assignProps. simpl fold_left.
    repeat split;
      try (repeat (rewrite ContextFacts.props_get_set; simpl String.eqb; cbv iota);
           reflexivity).
    intros key Hkey.
    apply (ContextFacts.assignProps_other key ps
             [("dbId", Store.VStr (Config.dbId db));
              ("dbName", Store.VStr (Config.dbName db));
              ("collId", Store.VStr (Config.collId collection));
              ("collName", Store.VStr (Config.name collection));
              ("docId", Store.VStr docId);
              ("createdDoc", Store.VRef (length h))]).
    exact Hkey.
Qed.

Lemma createContext_overrides_item_fields_witness :
  exists ctx h',
    Ingest.createContext Examples.mainDb Examples.itemsCollection
      (Store.VRef 0) "new1" [Store.CObj [("docId", Store.VStr "old"); ("title", Store.VStr "t")]]
      = Store.Ok (Store.VRef 2) h' /\
    h' !! 2 = Some (Store.CObj ctx) /\
    Store.props_get "docId" ctx = Store.VStr "new1" /\
    Store.props_get "title" ctx = Store.VStr "t".
Proof.
  destruct (createContext_overrides_item_fields Examples.mainDb Examples.itemsCollection
              0 [("docId", Store.VStr "old"); ("title", Store.VStr "t")] "new1"
              [Store.CObj [("docId", Store.VStr "old"); ("title", Store.VStr "t")]]
              eq_refl)
    as (ctx & Hrun & _ & _ & _ & _ & Hdoc & _ & Hother).
  exists ctx. eexists. split; [exact Hrun|]. split; [reflexivity|].
  split; [exact Hdoc|]. rewrite Hother; [reflexivity|].
  intros H. unfold ContextFacts.contextKeys in H.
  repeat (apply elem_of_cons in H as [H|H]; [discriminate|]). inversion H.
Defined.

(** ** What the create pass keeps *)

Module CreateFacts.
Import Store Config Ingest StoreFacts JsMapFacts.
Local Open Scope store_scope.

Section CreatePass.
Context {A : Type}.
Variable transformData : value -> A -> M value.
Variable validateItem : value -> A -> value -> M bool.
Variable getAttributeMappingsWithActions : A -> value -> value -> M A.

(** The import map [im'] has the stages of [im], each with the records it
    had, in their order; only the stage under [key] may have more, at its
    end, taken from [items] in their order. *)
Definition growsBy (key : string) (items : list value) (im im' : Config.importMap A) : Prop :=
  (forall k, JsMap.get k im = None -> JsMap.get k im' = None) /\
  forall k stage, JsMap.get k im = Some stage ->
    exists added,
      JsMap.get k im' = Some {| data := data stage ++ added |} /\
      (k <> key -> added = []) /\
      sublist (map rawData added) items.

Lemma stage_eta (s : stage A) : {| data := data s |} = s.
Proof. now destruct s. Qed.

Lemma growsBy_refl key items im : growsBy key items im im.
Proof.
  split; [auto|]. intros k stage Hk. exists []. rewrite app_nil_r, stage_eta.
  split; [exact Hk|]. split; [auto|apply sublist_nil_l].
Qed.

Lemma growsBy_trans key items1 items2 im1 im2 im3 :
  growsBy key items1 im1 im2 -> growsBy key items2 im2 im3 ->
  growsBy key (items1 ++ items2) im1 im3.
Proof.
  intros [N1 G1] [N2 G2]. split; [auto|].
  intros k stage Hk.
  destruct (G1 k stage Hk) as (a1 & H1 & E1 & S1).
  destruct (G2 k _ H1) as (a2 & H2 & E2 & S2). simpl in H2.
  exists (a1 ++ a2). rewrite app_assoc. split; [exact H2|]. split.
  - intros Hne. now rewrite E1, E2.
  - rewrite map_app. now apply sublist_app.
Qed.

Lemma growsBy_push key item (im : Config.importMap A) cd rec :
  JsMap.get key im = Some cd -> rawData rec = item ->
  growsBy key [item] im (JsMap.set key {| data := data cd ++ [rec] |} im).
Proof.
  intros Hcd Hraw. split.
  - intros k Hk. rewrite get_set_other; [exact Hk|]. congruence.
  - intros k stage Hk. destruct (String.eqb_spec key k) as [<-|Hne].
    + rewrite get_set_same. rewrite Hcd in Hk. injection Hk as <-.
      exists [rec]. split; [reflexivity|]. split; [congruence|].
      simpl. now rewrite Hraw.
    + rewrite get_set_other by exact Hne. exists [].
      rewrite app_nil_r, stage_eta. split; [exact Hk|]. split; [auto|apply sublist_nil_l].
Qed.

Lemma stageItem_grows collection importDef currentData item context td st h st' h' :
  currentData = JsMap.get (getCollectionKey (name collection)) (importMap st) ->
  Ingest.stageItem validateItem getAttributeMappingsWithActions collection importDef
    currentData item context td st h = Ok st' h' ->
  growsBy (getCollectionKey (name collection)) [item] (importMap st) (importMap st').
Proof.
  unfold Ingest.stageItem. intros -> E.
  apply bind_Ok in E as (ctx & h1 & _ & E).
  apply bind_Ok in E as (isValid & h2 & _ & E).
  destruct isValid; simpl in E.
  - apply bind_Ok in E as (am & h3 & _ & E).
    destruct (JsMap.get _ (importMap st)) as [cd|] eqn:Ecd; injection E as <- _; simpl.
    + now apply growsBy_push.
    + apply growsBy_refl.
  - injection E as <- _. apply growsBy_refl.
Qed.

Lemma createItem_grows db collection importDef item st h st' h' :
  Ingest.createItem transformData validateItem getAttributeMappingsWithActions
    db collection importDef item st h = Ok st' h' ->
  growsBy (getCollectionKey (name collection)) [item] (importMap st) (importMap st').
Proof.
  unfold Ingest.createItem. intros E.
  destruct (Ids.getTrueUniqueId _ _ _) as [[itemIdNew supply']|]; [|discriminate].
  apply bind_Ok in E as (context & h1 & _ & E).
  apply bind_Ok in E as (td & h2 & _ & E).
  destruct (JsString.nonEmpty (primaryKeyField importDef)).
  - apply bind_Ok in E as (oldId & h3 & _ & E).
    apply bind_Ok in E as (text & h4 & _ & E).
    simpl in E.
    destruct (JsMap.has text _) eqn:Hhas.
    + injection E as <- _. apply growsBy_refl.
    + apply stageItem_grows in E; [exact E|reflexivity].
  - apply stageItem_grows in E; [exact E|reflexivity].
Qed.

Lemma createLoop_grows db collection importDef : forall items st h st' h',
  forEachAcc (Ingest.createItem transformData validateItem getAttributeMappingsWithActions
                db collection importDef) items st h = Ok st' h' ->
  growsBy (getCollectionKey (name collection)) items (importMap st) (importMap st').
Proof.
  induction items as [|item items IH]; intros st h st' h' E; simpl in E.
  - injection E as <- _. apply growsBy_refl.
  - apply bind_Ok in E as (st1 & h1 & E1 & E).
    change (item :: items) with ([item] ++ items).
    eapply growsBy_trans; [eapply createItem_grows; eauto|eapply IH; eauto].
Qed.
End CreatePass.
End CreateFacts.

(** The create pass only appends: when [prepareCreateData] returns, every
    stage of the import map has the records it had before, in their order;
    the stage of the collection has in addition, at its end, at most one
    record for each source item, in the order of the items; no other stage
    has changed and no stage has been created. *)
Theorem prepareCreateData_only_appends {A : Type}
    (transformData : Store.value -> A -> Store.M Store.value)
    (validateItem : Store.value -> A -> Store.value -> Store.M bool)
    (getAttributeMappingsWithActions : A -> Store.value -> Store.value -> Store.M A)
    (db : Config.configDatabase) (collection : Config.configCollection A)
    (importDef : Config.importDef A) (rawData : list Store.value)
    (st st' : Ingest.loader A) (h h' : list Store.cell) :
  Ingest.prepareCreateData transformData validateItem getAttributeMappingsWithActions
    db collection importDef rawData st h = Store.Ok st' h' ->
  (forall k, JsMap.get k (Ingest.importMap st) = None ->
             JsMap.get k (Ingest.importMap st') = None) /\
  forall k stage, JsMap.get k (Ingest.importMap st) = Some stage ->
    exists added,
      JsMap.get k (Ingest.importMap st')
        = Some {| Config.data := Config.data stage ++ added |} /\
      (k <> getCollectionKey (Config.name collection) -> added = []) /\
      sublist (map Config.rawData added) rawData.
Proof.
  unfold Ingest.prepareCreateData. intros E.
  destruct (JsMap.get _ (Ingest.collectionImportOperations st)) as [op|]; [|discriminate].
  destruct (negb (JsString.nonEmpty op)); [discriminate|].
  apply CreateFacts.createLoop_grows in E.
  destruct (JsMap.get (getCollectionKey (Config.name collection))
              (Ingest.oldIdToNewIdPerCollectionMap st)); exact E.
Qed.

Lemma prepareCreateData_only_appends_witness :
  exists st' h' added,
    Ingest.prepareCreateData Examples.keepItem Examples.acceptItem Examples.noActions
      Examples.mainDb Examples.itemsCollection Examples.itemsDef
      [Store.VRef 0; Store.VRef 1] (Examples.freshLoader ["abc"; "def"])
      Examples.twiceFortyTwo = Store.Ok st' h' /\
    JsMap.get "items" (Ingest.importMap st') = Some {| Config.data := added |} /\
    sublist (map Config.rawData added) [Store.VRef 0; Store.VRef 1].
Proof.
  destruct (Ingest.prepareCreateData Examples.keepItem Examples.acceptItem
              Examples.noActions Examples.mainDb Examples.itemsCollection
              Examples.itemsDef [Store.VRef 0; Store.VRef 1]
              (Examples.freshLoader ["abc"; "def"]) Examples.twiceFortyTwo)
    as [st' h'|h'|] eqn:E; [|vm_compute in E; discriminate..].
  destruct (prepareCreateData_only_appends _ _ _ _ _ _ _ _ _ _ _ E) as [_ H].
  destruct (H "items" {| Config.data := [] |} eq_refl) as (added & Hget & _ & Hsub).
  exists st', h', added. split; [reflexivity|]. split; [exact Hget|exact Hsub].
Defined.

(** A record that [validateItem] rejects is dropped without a word, but its
    primary key has been entered in the collection's table by then, with
    the identifier drawn for it. *)
Theorem rejected_item_keeps_its_key {A : Type}
    (transformData : Store.value -> A -> Store.M Store.value)
    (validateItem : Store.value -> A -> Store.value -> Store.M bool)
    (getAttributeMappingsWithActions : A -> Store.value -> Store.value -> Store.M A)
    (db : Config.configDatabase) (collection : Config.configCollection A)
    (importDef : Config.importDef A) (item : Store.value)
    (st : Ingest.loader A) (h h1 h2 h3 h4 : list Store.cell)
    (itemIdNew : string) (supply' : list string)
    (context transformedData merged : Store.value) (oldIdText : string) :
  let key := getCollectionKey (Config.name collection) in
  JsString.nonEmpty (Config.primaryKeyField importDef) = true ->
  Ids.getTrueUniqueId (Ingest.oldIdToNewIdPerCollectionMap st) key (Ingest.idSupply st)
    = Some (itemIdNew, supply') ->
  Ingest.createContext db collection item itemIdNew h = Store.Ok context h1 ->
  transformData item (Config.attributeMappings importDef) h1
    = Store.Ok transformedData h2 ->
  Ingest.primaryKeyText h2 item (Config.primaryKeyField importDef) = Some oldIdText ->
  JsMap.has oldIdText (Ids.tableOf (Ingest.oldIdToNewIdPerCollectionMap st) key) = false ->
  Ingest.spread2 context transformedData h2 = Store.Ok merged h3 ->
  validateItem transformedData (Config.attributeMappings importDef) merged h3
    = Store.Ok false h4 ->
  exists st',
    Ingest.createItem transformData validateItem getAttributeMappingsWithActions
      db collection importDef item st h = Store.Ok st' h4 /\
    Ingest.importMap st' = Ingest.importMap st /\
    Ingest.errors st' = Ingest.errors st /\
    JsMap.get oldIdText (Ids.tableOf (Ingest.oldIdToNewIdPerCollectionMap st') key)
      = Some itemIdNew.
Proof.
  intros key Hpk Hid Hctx Htd Htext Hhas Hspread Hvalid.
  unfold Ingest.primaryKeyText in Htext.
  destruct (Store.getProp item (Config.primaryKeyField importDef) h2)
    as [oldId hx| |] eqn:Eget; try discriminate.
  pose proof (StoreFacts.readOnly_Ok _ _ _ _ (StoreFacts.readOnly_getProp _ _) Eget) as ->.
  destruct (Store.toString oldId h2) as [text hx| |] eqn:Estr; try discriminate.
  pose proof (StoreFacts.readOnly_Ok _ _ _ _ (StoreFacts.readOnly_toString _) Estr) as ->.
  injection Htext as ->.
  eexists. split; [|split; [|split]].
  - unfold Ingest.createItem. fold key. rewrite Hid.
    unfold Store.bind at 1. rewrite Hctx.
    unfold Store.bind at 1. rewrite Htd.
    rewrite Hpk.
    unfold Store.bind at 1. rewrite Eget.
    unfold Store.bind at 1. rewrite Estr.
    simpl. fold key. rewrite Hhas.
    unfold Ingest.stageItem.
    unfold Store.bind at 1. rewrite Hspread.
    unfold Store.bind at 1. rewrite Hvalid.
    simpl. reflexivity.
  - reflexivity.
  - reflexivity.
  - simpl. unfold Ids.tableOf at 1. rewrite JsMapFacts.get_set_same.
    apply JsMapFacts.get_set_same.
Qed.

Lemma rejected_item_keeps_its_key_witness :
  exists st' h',
    Ingest.createItem Examples.keepItem MoreExamples.rejectItem Examples.noActions
      Examples.mainDb Examples.itemsCollection Examples.itemsDef
      (Store.VRef 0) (Examples.freshLoader ["abc"]) Examples.twiceFortyTwo
      = Store.Ok st' h' /\
    Ingest.importMap st' = Ingest.importMap (Examples.freshLoader ["abc"]) /\
    JsMap.get "42" (Ids.tableOf (Ingest.oldIdToNewIdPerCollectionMap st') "items")
      = Some "abc".
Proof.
  edestruct (rejected_item_keeps_its_key Examples.keepItem MoreExamples.rejectItem
               Examples.noActions Examples.mainDb Examples.itemsCollection
               Examples.itemsDef (Store.VRef 0) (Examples.freshLoader ["abc"])
               Examples.twiceFortyTwo)
    as (st' & Hrun & Him & _ & Htb).
  - reflexivity.
  - vm_compute. reflexivity.
  - vm_compute. reflexivity.
  - reflexivity.
  - vm_compute. reflexivity.
  - vm_compute. reflexivity.
  - vm_compute. reflexivity.
  - reflexivity.
  - exists st'. eexists. split; [exact Hrun|]. split; [exact Him|exact Htb].
Defined.

(** ** The order of the passes within a collection *)

Module OrderFacts.
Import Config Pipeline.

Section Steps.
Context {A St X : Type}.
Variable P : X -> St -> event A * St -> Prop.
Variable step : run (A:=A) (S:=St) -> X -> run (A:=A) (S:=St).

(** A step taken in the state [s] records one entry for its item, which
    [P] justifies in [s], and goes on in the state of the entry; or it lets
    an exception escape; after an exception nothing happens. *)
Hypothesis step_some : forall tr s x,
  (exists e, P x s e /\ step (tr, Some s) x = (tr ++ [e], Some (snd e))) \/
  step (tr, Some s) x = (tr, None).
Hypothesis step_none : forall tr x, step (tr, None) x = (tr, None).

Lemma fold_none xs tr : fold_left step xs (tr, None) = (tr, None).
Proof. induction xs as [|x xs IH]; simpl; [reflexivity|]. now rewrite step_none. Qed.

Lemma stateAfter_cons s (e : event A * St) ev :
  stateAfter s (e :: ev) = stateAfter (snd e) ev.
Proof.
  unfold stateAfter. rewrite last_cons.
  now destruct (@last (entry (A:=A) (S:=St)) ev).
Qed.

(** A loop of such steps records the entries of a prefix of its items, in
    their order, each justified in the state the one before has left, and
    of all of them unless an exception escapes. *)
Lemma fold_prefix : forall xs tr s,
  exists n ev,
    fst (fold_left step xs (tr, Some s)) = tr ++ ev /\
    chain P s (take n xs) ev /\
    (snd (fold_left step xs (tr, Some s)) <> None ->
     n = length xs /\
     snd (fold_left step xs (tr, Some s)) = Some (stateAfter s ev)).
Proof.
  induction xs as [|x xs IH]; intros tr s; simpl.
  - exists 0, []. rewrite app_nil_r. repeat split.
  - destruct (step_some tr s x) as [(e & He & ->)| ->].
    + destruct (IH (tr ++ [e]) (snd e)) as (n & ev & Hfst & Hev & Hall).
      exists (S n), (e :: ev). rewrite Hfst, <- app_assoc. simpl.
      split; [reflexivity|]. split; [auto|].
      intros Hn. destruct (Hall Hn) as [-> Hs]. split; [reflexivity|].
      now rewrite stateAfter_cons.
    + rewrite fold_none. exists 0, []. rewrite app_nil_r. simpl.
      split; [reflexivity|]. split; [exact I|congruence].
Qed.
End Steps.

Section Start.
Context {A S : Type}.
Variable prepareCreateData : configDatabase -> configCollection A -> importDef A -> S -> option S.
Variable prepareUserCollectionCreateData : configDatabase -> configCollection A -> importDef A -> S -> option S.
Variable prepareUpdateData : configDatabase -> configCollection A -> importDef A -> S -> option S.
Variable importMapHas : S -> string -> bool.

Abbreviation createEntry :=
  (createEntry (S:=S) prepareCreateData prepareUserCollectionCreateData
     prepareUpdateData importMapHas).
Abbreviation updateEntry :=
  (updateEntry (S:=S) prepareCreateData prepareUserCollectionCreateData
     prepareUpdateData importMapHas).

Lemma createStep_some cfg db c tr s def :
  (exists e, createEntry cfg db c def s e /\
     createStep prepareCreateData prepareUserCollectionCreateData cfg db c (tr, Some s) def
     = (tr ++ [e], Some (snd e))) \/
  createStep prepareCreateData prepareUserCollectionCreateData cfg db c (tr, Some s) def
  = (tr, None).
Proof.
  unfold createStep, Pipeline.createEntry, call.
  destruct (String.eqb _ _) eqn:Hu; simpl.
  - destruct (prepareUserCollectionCreateData db c def s) as [s'|] eqn:E; [left|now right].
    eexists (_, s'). split; [|reflexivity].
    exists UserCreate. simpl. rewrite Hu. auto.
  - destruct (prepareCreateData db c def s) as [s'|] eqn:E; [left|now right].
    eexists (_, s'). split; [|reflexivity].
    exists Create. simpl. rewrite Hu. auto.
Qed.

Lemma createStep_none cfg db c tr def :
  createStep prepareCreateData prepareUserCollectionCreateData cfg db c (tr, None) def
  = (tr, None).
Proof. unfold createStep, call. now destruct (negb _). Qed.

Lemma updateStep_some cfg db c tr s def :
  (exists e, updateEntry cfg db c def s e /\
     updateStep prepareUpdateData importMapHas db c (tr, Some s) def
     = (tr ++ [e], Some (snd e))) \/
  updateStep prepareUpdateData importMapHas db c (tr, Some s) def = (tr, None).
Proof.
  unfold updateStep, Pipeline.updateEntry, call.
  destruct (importMapHas s (getCollectionKey (name c))) eqn:Hhas; simpl.
  - destruct (prepareUpdateData db c def s) as [s'|] eqn:E; [left|now right].
    eexists (_, s'). split; [|reflexivity].
    exists Update. simpl. auto.
  - left. eexists (_, s). split; [|reflexivity].
    exists UpdateSkipped. simpl. auto.
Qed.
End Start.
End OrderFacts.

(** Within one collection, [start] prepares the create definitions in the
    order of the configuration, each once, and only then the update
    definitions, in their order, each once; an exception cuts the sequence
    short.  Each entry of the trace stands for a pass that was called in
    the state the entry before it has left and has returned the state
    recorded: [prepareCreateData] (for the users collection,
    [prepareUserCollectionCreateData]) for a create definition,
    [prepareUpdateData] for an update definition; an update definition is
    passed over, the state unchanged, exactly when the import map has no
    stage for the collection at that moment. *)
Theorem collection_creates_then_updates {A S : Type}
    (prepareCreateData prepareUserCollectionCreateData prepareUpdateData :
       Config.configDatabase -> Config.configCollection A -> Config.importDef A ->
       S -> option S)
    (importMapHas : S -> string -> bool)
    (cfg : Pipeline.appwriteConfig A) (db : Config.configDatabase)
    (c : Config.configCollection A) (tr : list (Pipeline.entry (A:=A) (S:=S)))
    (s : S) :
  let r' := Pipeline.processCollection prepareCreateData prepareUserCollectionCreateData
              prepareUpdateData importMapHas cfg db (tr, Some s) c in
  let createDefs := filter Pipeline.isCreateDef (Config.importDefs c) in
  let updateDefs := filter Pipeline.isUpdateDef (Config.importDefs c) in
  exists n m created updated,
    fst r' = tr ++ created ++ updated /\
    Pipeline.chain
      (Pipeline.createEntry prepareCreateData prepareUserCollectionCreateData
         prepareUpdateData importMapHas cfg db c)
      s (take n createDefs) created /\
    Pipeline.chain
      (Pipeline.updateEntry prepareCreateData prepareUserCollectionCreateData
         prepareUpdateData importMapHas cfg db c)
      (Pipeline.stateAfter s created) (take m updateDefs) updated /\
    (updated <> [] -> n = length createDefs) /\
    (snd r' <> None ->
     n = length createDefs /\ m = length updateDefs /\
     snd r' = Some (Pipeline.stateAfter s (created ++ updated))).
Proof.
  cbv zeta. unfold Pipeline.processCollection.
  destruct (OrderFacts.fold_prefix
              (Pipeline.createEntry prepareCreateData prepareUserCollectionCreateData
                 prepareUpdateData importMapHas cfg db c)
              (Pipeline.createStep prepareCreateData prepareUserCollectionCreateData cfg db c)
              (fun tr s x => OrderFacts.createStep_some _ _ _ _ cfg db c tr s x)
              (fun tr x => OrderFacts.createStep_none _ _ cfg db c tr x)
              (filter Pipeline.isCreateDef (Config.importDefs c)) tr s)
    as (n & created & Hfst & Hcreated & Hall).
  match type of Hfst with fst ?r = _ => destruct r as [tr1 [s1|]] end;
    simpl in Hfst; subst tr1.
  - destruct (Hall ltac:(discriminate)) as [Hn Hs1]. simpl in Hs1. injection Hs1 as ->.
    destruct (OrderFacts.fold_prefix
                (Pipeline.updateEntry prepareCreateData prepareUserCollectionCreateData
                   prepareUpdateData importMapHas cfg db c)
                (Pipeline.updateStep prepareUpdateData importMapHas db c)
                (fun tr s x => OrderFacts.updateStep_some _ _ _ _ cfg db c tr s x)
                (fun tr x => eq_refl)
                (filter Pipeline.isUpdateDef (Config.importDefs c)) (tr ++ created)
                (Pipeline.stateAfter s created))
      as (m & updated & Hfst2 & Hupdated & Hall2).
    exists n, m, created, updated. rewrite Hfst2, <- app_assoc.
    split; [reflexivity|]. split; [exact Hcreated|]. split; [exact Hupdated|].
    split; [auto|].
    intros Hsome. destruct (Hall2 Hsome) as [Hm Hs2].
    split; [exact Hn|]. split; [exact Hm|]. rewrite Hs2. f_equal.
    unfold Pipeline.stateAfter. rewrite last_app.
    now destruct (@last (Pipeline.entry (A:=A) (S:=S)) updated).
  - rewrite (OrderFacts.fold_none _ (fun tr x => eq_refl)).
    exists n, 0, created, []. rewrite app_nil_r.
    split; [reflexivity|]. split; [exact Hcreated|]. split; [exact I|].
    split; [congruence|]. simpl. congruence.
Qed.

Lemma collection_creates_then_updates_witness :
  Pipeline.processCollection Examples.countCreate Examples.countCreate
    Examples.countUpdate (fun _ _ => true) Examples.bothConfig Examples.mainDb
    ([], Some 0) Examples.bothCollection
  = ([(Pipeline.Prepared Pipeline.Create "Items" Examples.itemsDef, 1);
      (Pipeline.Prepared Pipeline.Update "Items" Examples.againDef, 11)], Some 11) /\
  exists created updated,
    [(Pipeline.Prepared Pipeline.Create "Items" Examples.itemsDef, 1);
     (Pipeline.Prepared Pipeline.Update "Items" Examples.againDef, 11)]
    = created ++ updated /\
    Pipeline.chain
      (Pipeline.updateEntry Examples.countCreate Examples.countCreate
         Examples.countUpdate (fun _ _ => true) Examples.bothConfig Examples.mainDb
         Examples.bothCollection)
      (Pipeline.stateAfter 0 created) [Examples.againDef] updated.
Proof.
  split; [reflexivity|].
  destruct (collection_creates_then_updates Examples.countCreate Examples.countCreate
              Examples.countUpdate (fun _ _ => true) Examples.bothConfig Examples.mainDb
              Examples.bothCollection [] 0)
    as (n & m & created & updated & Hfst & _ & Hupd & _ & Hall).
  destruct (Hall ltac:(discriminate)) as (_ & -> & _).
  exists created, updated. split; [exact Hfst|exact Hupd].
Defined.

(** When no configured database has the identifier [dbId], [start] sets up
    the maps, fetches the accounts, and prepares nothing. *)
Theorem start_without_matching_database {A S : Type}
    (setupMaps : string -> S -> option S) (getAllUsers : S -> option S)
    (prepareCreateData prepareUserCollectionCreateData prepareUpdateData :
       Config.configDatabase -> Config.configCollection A -> Config.importDef A ->
       S -> option S)
    (dealWithMergedUsers updateOldReferencesForNew : S -> option S)
    (importMapHas : S -> string -> bool)
    (cfg : Pipeline.appwriteConfig A) (dbId : string) (s : S) :
  (forall db, db ∈ Pipeline.databases cfg -> Config.dbId db <> dbId) ->
  Pipeline.start setupMaps getAllUsers prepareCreateData prepareUserCollectionCreateData
    prepareUpdateData dealWithMergedUsers updateOldReferencesForNew importMapHas
    cfg dbId s
  = Pipeline.call getAllUsers Pipeline.UsersFetched
      (Pipeline.call (setupMaps dbId) Pipeline.MapsSetUp ([], Some s)).
Proof.
  intros Hno. unfold Pipeline.start.
  generalize (Pipeline.call (A:=A) getAllUsers Pipeline.UsersFetched
                (Pipeline.call (setupMaps dbId) Pipeline.MapsSetUp ([], Some s))).
  induction (Pipeline.databases cfg) as [|db dbs IH]; intros r; simpl; [reflexivity|].
  rewrite IH by (intros d Hd; apply Hno; now right).
  unfold Pipeline.processDatabase.
  destruct (String.eqb_spec (Config.dbId db) dbId) as [Heq|Hne]; [|reflexivity].
  exfalso. apply (Hno db); [left|exact Heq].
Qed.

Lemma start_without_matching_database_witness :
  Pipeline.start (fun _ s => Some s) Some Examples.passReturns Examples.passReturns
    Examples.passReturns Some Some (fun _ _ => true) Examples.itemsConfig "db9" tt
  = ([(Pipeline.MapsSetUp, tt); (Pipeline.UsersFetched, tt)], Some tt).
Proof.
  rewrite start_without_matching_database; [reflexivity|].
  intros db Hdb. apply list_elem_of_singleton in Hdb as ->. discriminate.
Defined.

(** ** Looking up what the passes have entered *)

Module RelatedFacts.
Import Store Config Identity Related JsMapFacts IdentityFacts.

Lemma includes_app oldIds s x :
  includes (oldIds ++ [x]) (VStr s) = includes oldIds (VStr s) || String.eqb s x.
Proof. simpl. rewrite existsb_app. simpl. now rewrite orb_false_r. Qed.

Lemma includes_false oldIds s : s ∉ oldIds -> includes oldIds (VStr s) = false.
Proof.
  simpl. induction oldIds as [|o oldIds IH]; simpl; [reflexivity|].
  intros H. apply not_elem_of_cons in H as [Hne H].
  destruct (String.eqb_spec s o); [contradiction|auto].
Qed.

(** A source identifier that no bucket holds is found, once added to the
    bucket of [id], under [id]. *)
Lemma mergedIdOf_added id s m :
  s ∉ allSources m -> mergedIdOf (addToBucket id s m) (VStr s) = Some id.
Proof.
  unfold addToBucket, allSources, JsMap.values.
  induction m as [|[k b] m IH]; intros Hs.
  - simpl. now rewrite String.eqb_refl.
  - simpl in Hs. apply not_elem_of_app in Hs as [Hb Hm].
    cbn [JsMap.get JsMap.set]. destruct (String.eqb_spec id k) as [->|Hne].
    + cbn [mergedIdOf]. rewrite includes_app, String.eqb_refl, orb_true_r. reflexivity.
    + cbn [mergedIdOf]. rewrite (includes_false b s Hb). apply IH. exact Hm.
Qed.

(** Adding another source identifier changes no answer. *)
Lemma mergedIdOf_other id s s' m :
  s <> s' -> mergedIdOf (addToBucket id s' m) (VStr s) = mergedIdOf m (VStr s).
Proof.
  intros Hne. unfold addToBucket.
  induction m as [|[k b] m IH].
  - simpl. destruct (String.eqb_spec s s'); [contradiction|reflexivity].
  - cbn [JsMap.get JsMap.set]. destruct (String.eqb_spec id k) as [->|Hk].
    + cbn [mergedIdOf]. rewrite includes_app.
      destruct (String.eqb_spec s s'); [contradiction|]. now rewrite orb_false_r.
    + cbn [mergedIdOf]. destruct (includes b (VStr s)); [reflexivity|exact IH].
Qed.

Section Engine.
Context {item A : Type}.
Variable transformData : item -> A -> item.
Variable safeParse : item -> option authUser.
Variable primaryKeyText : item -> string -> string.
Variable deleteKeys : list string -> item -> item.

Abbreviation prepareUserData :=
  (Identity.prepareUserData transformData safeParse primaryKeyText deleteKeys).
Abbreviation processIdentities :=
  (Identity.processIdentities transformData safeParse primaryKeyText deleteKeys).

(** A call that is given a non-empty new identifier puts the record's
    source identifier into the bucket of the identifier it returns. *)
Lemma prepareUserData_bucket it am pkf newId r r' t existingId u :
  prepareUserData it am pkf newId r = (r', PreparedUser t existingId u) ->
  JsString.nonEmpty newId = true ->
  mergedUserMap r' = addToBucket existingId (primaryKeyText it pkf) (mergedUserMap r).
Proof.
  unfold Identity.prepareUserData. intros E Hnew.
  destruct (safeParse (transformData it am)) as [ud|]; [|discriminate].
  destruct (checkNaturalKey (email ud) newId (emailToUserIdMap r) None) as [emails e1].
  destruct (checkNaturalKey (phone ud) newId (phoneToUserIdMap r) e1) as [phones e2].
  destruct (truthyId e2) eqn:Et.
  - destruct e2 as [id|]; [|discriminate]. simpl in Et.
    injection E as <- _ <- _. simpl. now rewrite Et.
  - injection E as <- _ <- _. simpl. now rewrite Hnew.
Qed.

(** The records processed afterwards, with other source identifiers, do
    not change under which identifier [s] is found. *)
Lemma processIdentities_mergedIdOf am pkf s : forall items newIds r,
  s ∉ map (fun it => primaryKeyText it pkf) items ->
  mergedIdOf (mergedUserMap (processIdentities am pkf items newIds r)) (VStr s)
  = mergedIdOf (mergedUserMap r) (VStr s).
Proof.
  induction items as [|it items IH]; intros newIds r Hs; [reflexivity|].
  destruct newIds as [|newId newIds]; [reflexivity|]. simpl.
  simpl in Hs. apply not_elem_of_cons in Hs as [Hne Hs].
  rewrite IH by exact Hs.
  destruct (IdentityFacts.prepareUserData_mergedUserMap transformData safeParse
              primaryKeyText deleteKeys it am pkf newId r) as [->|[id ->]];
    [reflexivity|now apply mergedIdOf_other].
Qed.
End Engine.

Lemma getMergedId_get tbl oldId related newId :
  JsMap.get oldId (Ids.tableOf tbl (getCollectionKey related)) = Some newId ->
  getMergedId tbl oldId related = newId.
Proof.
  unfold getMergedId, Ids.tableOf, JsMap.has.
  destruct (JsMap.get (getCollectionKey related) tbl) as [m|]; [|discriminate].
  now intros ->.
Qed.
End RelatedFacts.

(** What [prepareUserData] enters, [findNewIdForOldId] finds: for a record
    whose source identifier is new to the merge table, and whatever records
    with other source identifiers are processed after it, a mapping that
    targets the users collection resolves the record's source identifier to
    the canonical identifier that the call returned for it. *)
Theorem findNewIdForOldId_finds_merged_account {item A B : Type}
    (transformData : item -> A -> item)
    (safeParse : item -> option Identity.authUser)
    (primaryKeyText : item -> string -> string)
    (deleteKeys : list string -> item -> item)
    (it : item) (am : A) (pkf newId : string)
    (r r' : Identity.registry item) (t : item) (existingId : string)
    (u : Identity.stagedUser item)
    (later : list item) (newIds : list string)
    (usersCollectionName : string) (im : Config.importMap B)
    (idMapping : Config.idMapping) (importDef : Config.importDef B)
    (h : list Store.cell) :
  Identity.prepareUserData transformData safeParse primaryKeyText deleteKeys
    it am pkf newId r = (r', Identity.PreparedUser t existingId u) ->
  JsString.nonEmpty newId = true ->
  primaryKeyText it pkf ∉ Identity.allSources (Identity.mergedUserMap r) ->
  primaryKeyText it pkf ∉ map (fun x => primaryKeyText x pkf) later ->
  getCollectionKey (Config.targetCollection idMapping)
    = getCollectionKey usersCollectionName ->
  Related.findNewIdForOldId usersCollectionName
    (Identity.mergedUserMap
       (Identity.processIdentities transformData safeParse primaryKeyText deleteKeys
          am pkf later newIds r'))
    im (Store.VStr (primaryKeyText it pkf)) idMapping importDef h
  = Store.Ok (Store.VStr existingId) h.
Proof.
  intros E Hnew Hfresh Hlater Husers.
  unfold Related.findNewIdForOldId. rewrite Husers, String.eqb_refl.
  rewrite RelatedFacts.processIdentities_mergedIdOf by exact Hlater.
  rewrite (RelatedFacts.prepareUserData_bucket _ _ _ _ _ _ _ _ _ _ _ _ _ E Hnew).
  now rewrite RelatedFacts.mergedIdOf_added.
Qed.

(** The create pass changes no answer of [getMergedId]: an old identifier
    that a table resolves before the pass is resolved to the same new
    identifier after it. *)
Theorem getMergedId_unchanged_by_create_pass {A : Type}
    (transformData : Store.value -> A -> Store.M Store.value)
    (validateItem : Store.value -> A -> Store.value -> Store.M bool)
    (getAttributeMappingsWithActions : A -> Store.value -> Store.value -> Store.M A)
    (db : Config.configDatabase) (collection : Config.configCollection A)
    (importDef : Config.importDef A) (rawData : list Store.value)
    (st st' : Ingest.loader A) (h h' : list Store.cell)
    (oldId related : string) :
  Ingest.prepareCreateData transformData validateItem getAttributeMappingsWithActions
    db collection importDef rawData st h = Store.Ok st' h' ->
  JsMap.has oldId
    (Ids.tableOf (Ingest.oldIdToNewIdPerCollectionMap st) (getCollectionKey related))
    = true ->
  Related.getMergedId (Ingest.oldIdToNewIdPerCollectionMap st') oldId related
  = Related.getMergedId (Ingest.oldIdToNewIdPerCollectionMap st) oldId related.
Proof.
  intros E Hhas. apply JsMapFacts.has_true in Hhas as [newId Hget].
  rewrite (RelatedFacts.getMergedId_get _ _ _ _ Hget).
  apply RelatedFacts.getMergedId_get.
  eapply IngestFacts.prepareCreateData_keepsEntries; eauto.
Qed.

Lemma findNewIdForOldId_finds_merged_account_witness :
  Related.findNewIdForOldId (A:=unit) "Members"
    (Identity.mergedUserMap (Examples.flatEngine Examples.sameEmailTwice ["n1"; "n2"]
                               Examples.noUsers))
    [] (Store.VStr "1")
    {| Config.sourceField := "author"; Config.fieldToSet := None;
       Config.targetCollection := "members"; Config.targetField := "id" |}
    Examples.itemsDef []
  = Store.Ok (Store.VStr "n1") [].
Proof.
  change (Examples.flatEngine Examples.sameEmailTwice ["n1"; "n2"] Examples.noUsers)
    with (Identity.processIdentities Examples.flatTransform Examples.flatParse
            Examples.flatKeyText Examples.flatDelete tt "id"
            [[("id", "2"); ("email", "a@x.com"); ("phone", "+200")]] ["n2"]
            (fst (Identity.prepareUserData Examples.flatTransform Examples.flatParse
                    Examples.flatKeyText Examples.flatDelete
                    [("id", "1"); ("email", "a@x.com"); ("phone", "+100")]
                    tt "id" "n1" Examples.noUsers))).
  eapply (findNewIdForOldId_finds_merged_account
            Examples.flatTransform Examples.flatParse Examples.flatKeyText
            Examples.flatDelete
            [("id", "1"); ("email", "a@x.com"); ("phone", "+100")] tt "id" "n1"
            Examples.noUsers).
  - reflexivity.
  - reflexivity.
  - intros H. inversion H.
  - intros H. apply list_elem_of_singleton in H. discriminate.
  - reflexivity.
Defined.

Lemma getMergedId_unchanged_by_create_pass_witness :
  exists st' h',
    Ingest.prepareCreateData Examples.keepItem Examples.acceptItem Examples.noActions
      Examples.mainDb Examples.itemsCollection Examples.itemsDef
      [Store.VRef 1] Examples.loaderAfterFirst Examples.storeAfterFirst
      = Store.Ok st' h' /\
    Related.getMergedId (Ingest.oldIdToNewIdPerCollectionMap st') "42" "Items" = "abc".
Proof.
  destruct (Ingest.prepareCreateData Examples.keepItem Examples.acceptItem
              Examples.noActions Examples.mainDb Examples.itemsCollection
              Examples.itemsDef [Store.VRef 1] Examples.loaderAfterFirst
              Examples.storeAfterFirst) as [st' h'|h'|] eqn:E;
    [|vm_compute in E; discriminate..].
  exists st', h'. split; [reflexivity|].
  rewrite (getMergedId_unchanged_by_create_pass _ _ _ _ _ _ _ _ _ _ _ "42" "Items" E);
    reflexivity.
Defined.

(** ** The rewrite of references to merged accounts *)

Module MergedUsersFacts.
Import Store Config MergedUsers StoreFacts.
Local Open Scope store_scope.

(** A computation that hands back the store [h] when run on it. *)
Definition leaves {X} (h : heap) (o : outcome X) : Prop :=
  match o with
  | Ok _ h' | Throw h' => h' = h
  | Fail => True
  end.

Lemma forEach_leaves {X} (f : X -> M unit) (l : list X) h :
  (forall x, x ∈ l -> leaves h (f x h)) -> leaves h (forEach f l h).
Proof.
  induction l as [|x l IH]; intros Hf; simpl; [reflexivity|].
  unfold bind. pose proof (Hf x ltac:(left)) as Hx.
  destruct (f x h) as [[] h1|h1|]; simpl in Hx; subst; [|reflexivity|exact I].
  apply IH. intros y Hy. apply Hf. now right.
Qed.

Section Rewrite.
Context {A : Type}.
Variables (cs : list (configCollection A)) (im : importMap A).
Variable mergedUserMap : JsMap.t loc.

Lemma rewriteItem_frame idMapping (item : importRecord A) l :
  context item = VRef l ->
  frameExcept (eq l) (rewriteItem mergedUserMap idMapping item).
Proof.
  intros Hctx. unfold rewriteItem. rewrite Hctx.
  apply frame_bind; [apply agree_readOnly, readOnly_getProp|intros oldId].
  destruct (match oldId with VStr s => JsMap.get s mergedUserMap | _ => None end);
    [apply frame_setProp|apply frame_ret].
Qed.

(** Whatever the context is, the rewrite of one record writes to nothing
    that is not the context of a staged record. *)
Lemma rewriteItem_contexts idMapping cc st (item : importRecord A) :
  cc ∈ cs -> JsMap.get (getCollectionKey (name cc)) im = Some st ->
  item ∈ data st ->
  frameExcept (isContext cs im) (rewriteItem mergedUserMap idMapping item).
Proof.
  intros Hcc Hst Hit.
  destruct (context item) as [| | | | |l] eqn:Hctx.
  1-5: apply agree_readOnly; unfold rewriteItem; rewrite Hctx;
       apply readOnly_bind; [apply readOnly_getProp|intros oldId];
       destruct (match oldId with VStr s => JsMap.get s mergedUserMap | _ => None end);
       [apply readOnly_throw|apply readOnly_ret].
  eapply frame_weaken; [|apply rewriteItem_frame; exact Hctx].
  intros l' <-. exists cc, st, item. auto.
Qed.

Lemma rewriteCollection_contexts key pkFields cc :
  cc ∈ cs ->
  frameExcept (isContext cs im) (rewriteCollection key pkFields mergedUserMap im cc).
Proof.
  intros Hcc. unfold rewriteCollection.
  destruct (JsMap.get (getCollectionKey (name cc)) im) as [st|] eqn:Hst;
    [|apply frame_ret].
  apply frame_forEach. intros def.
  destruct (idMappings def) as [ms|]; [|apply frame_ret].
  apply frame_forEach. intros m. unfold rewriteMapping.
  destruct (String.eqb _ key); [|apply frame_ret].
  destruct (existsb _ pkFields); [|apply frame_ret].
  clear -Hcc Hst. 
  assert (forall items, (forall it, it ∈ items -> it ∈ data st) ->
            frameExcept (isContext cs im) (forEach (rewriteItem mergedUserMap m) items))
    as H.
  { induction items as [|it items IH]; intros Hin; simpl; [apply frame_ret|].
    apply frame_bind.
    - eapply rewriteItem_contexts; eauto. apply Hin. left.
    - intros _. apply IH. intros x Hx. apply Hin. now right. }
  apply H. auto.
Qed.

(** A record none of whose mappings reads a key of the merge table is left
    as it is. *)
Lemma rewriteItem_leaves idMapping (item : importRecord A) h :
  (forall s, getProp (context item) (sourceField idMapping) h = Ok (VStr s) h ->
             JsMap.get s mergedUserMap = None) ->
  leaves h (rewriteItem mergedUserMap idMapping item h).
Proof.
  intros Hkey. unfold rewriteItem, bind.
  pose proof (readOnly_getProp (context item) (sourceField idMapping) h) as Hro.
  destruct (getProp (context item) (sourceField idMapping) h) as [oldId h1|h1|];
    simpl in *; [subst h1|exact Hro|exact I].
  destruct oldId as [| | | |s|]; try reflexivity.
  rewrite (Hkey s eq_refl). reflexivity.
Qed.
End Rewrite.
End MergedUsersFacts.

(** [dealWithMergedUsers] writes to the contexts of staged records only:
    every cell of the store that is not the context of a staged record of a
    configured collection (a final payload, a raw item, a bucket of the
    merge table) is after the pass as it was before, also when the pass
    throws. *)
Theorem dealWithMergedUsers_writes_contexts_only {A : Type}
    (usersCollectionName : string)
    (collections : option (list (Config.configCollection A)))
    (mergedUserMap : JsMap.t nat) (im : Config.importMap A)
    (h : list Store.cell) :
  match MergedUsers.dealWithMergedUsers usersCollectionName collections
          mergedUserMap im h with
  | Store.Ok _ h' | Store.Throw h' =>
      forall l c, h !! l = Some c ->
        (forall cs, collections = Some cs -> ~ MergedUsers.isContext cs im l) ->
        h' !! l = Some c
  | Store.Fail => True
  end.
Proof.
  unfold MergedUsers.dealWithMergedUsers.
  destruct collections as [cs|]; [|intros l c Hl _; exact Hl].
  assert (forall cs', (forall cc, cc ∈ cs' -> cc ∈ cs) -> forall key pk,
            StoreFacts.frameExcept (MergedUsers.isContext cs im)
              (Store.forEach (MergedUsers.rewriteCollection key pk mergedUserMap im) cs'))
    as Hloop.
  { induction cs' as [|cc cs' IH]; intros Hin key pk; simpl;
      [apply StoreFacts.frame_ret|].
    apply StoreFacts.frame_bind.
    - apply MergedUsersFacts.rewriteCollection_contexts. apply Hin. left.
    - intros _. apply IH. intros x Hx. apply Hin. now right. }
  specialize (Hloop cs (fun _ H => H) (getCollectionKey usersCollectionName)
                (MergedUsers.usersPrimaryKeyFields
                   (getCollectionKey usersCollectionName) cs) h).
  destruct (Store.forEach _ cs h) as [u h'|h'|]; [| |exact I];
    destruct Hloop as (_ & Ag & _); intros l c Hl Hnot; apply Ag; auto.
Qed.

(** [dealWithMergedUsers] looks the value of a record's source field up
    among the KEYS of the merge table, which are canonical identifiers: when
    no staged record holds a key of the table in the source field of one of
    its mappings, the pass changes nothing. *)
Theorem dealWithMergedUsers_needs_canonical_id {A : Type}
    (usersCollectionName : string) (cs : list (Config.configCollection A))
    (mergedUserMap : JsMap.t nat) (im : Config.importMap A)
    (h : list Store.cell) :
  (forall cc st it def ms m s,
     cc ∈ cs -> JsMap.get (getCollectionKey (Config.name cc)) im = Some st ->
     it ∈ Config.data st -> def ∈ Config.importDefs cc ->
     Config.idMappings def = Some ms -> m ∈ ms ->
     Store.getProp (Config.context it) (Config.sourceField m) h
       = Store.Ok (Store.VStr s) h ->
     JsMap.get s mergedUserMap = None) ->
  match MergedUsers.dealWithMergedUsers usersCollectionName (Some cs)
          mergedUserMap im h with
  | Store.Ok _ h' | Store.Throw h' => h' = h
  | Store.Fail => True
  end.
Proof.
  intros Hkeys. unfold MergedUsers.dealWithMergedUsers.
  apply (MergedUsersFacts.forEach_leaves
           (MergedUsers.rewriteCollection _ _ mergedUserMap im) cs h).
  intros cc Hcc. unfold MergedUsers.rewriteCollection.
  destruct (JsMap.get (getCollectionKey (Config.name cc)) im) as [st|] eqn:Hst;
    [|reflexivity].
  apply MergedUsersFacts.forEach_leaves. intros def Hdef.
  destruct (Config.idMappings def) as [ms|] eqn:Hms; [|reflexivity].
  apply MergedUsersFacts.forEach_leaves. intros m Hm.
  unfold MergedUsers.rewriteMapping.
  destruct (String.eqb _ _); [|reflexivity].
  destruct (existsb _ _); [|reflexivity].
  apply MergedUsersFacts.forEach_leaves. intros it Hit.
  apply MergedUsersFacts.rewriteItem_leaves. intros s Hs. eauto.
Qed.

Lemma dealWithMergedUsers_needs_canonical_id_witness :
  Identity.bucket [("u9", ["7"])] "u9" = ["7"] /\
  MergedUsers.dealWithMergedUsers "Owners"
    (Some [Examples.ownersCollection; Examples.petsCollection])
    MoreExamples.oneBucket Examples.oneOwner MoreExamples.petStoreWithBucket
  = Store.Ok tt MoreExamples.petStoreWithBucket.
Proof.
  split; [reflexivity|].
  pose proof (dealWithMergedUsers_needs_canonical_id "Owners"
                [Examples.ownersCollection; Examples.petsCollection]
                MoreExamples.oneBucket Examples.oneOwner
                MoreExamples.petStoreWithBucket) as H.
  destruct (MergedUsers.dealWithMergedUsers "Owners"
              (Some [Examples.ownersCollection; Examples.petsCollection])
              MoreExamples.oneBucket Examples.oneOwner MoreExamples.petStoreWithBucket)
    as [[] h'|h'|] eqn:E; [|vm_compute in E; discriminate..].
  rewrite H; [reflexivity|].
  intros cc st it def ms m s Hcc Hst Hit Hdef Hms Hm Hget.
  apply elem_of_cons in Hcc as [->|Hcc];
    [|apply list_elem_of_singleton in Hcc as ->];
    vm_compute in Hst; injection Hst as <-;
    apply list_elem_of_singleton in Hit as ->;
    apply list_elem_of_singleton in Hdef as ->;
    [discriminate|].
  injection Hms as <-. apply list_elem_of_singleton in Hm as ->.
  vm_compute in Hget. injection Hget as <-. reflexivity.
Defined.

(** ** What the update pass keeps *)

Module UpdateFacts.
Import Store Config Update StoreFacts JsMapFacts.
Local Open Scope store_scope.

(** [find] answers with an element of the list and its index. *)
Lemma findIndexM_lookup {X} (p : X -> M bool) : forall l i0 h i x h',
  findIndexM p l i0 h = Ok (Some (i, x)) h' ->
  exists j, i = i0 + j /\ l !! j = Some x.
Proof.
  induction l as [|y l IH]; intros i0 h i x h' E; simpl in E; [discriminate|].
  apply bind_Ok in E as (found & h1 & _ & E).
  destruct found.
  - injection E as <- <- _. exists 0. split; [lia|reflexivity].
  - destruct (IH _ _ _ _ _ E) as (j & -> & Hj). exists (S j). split; [lia|exact Hj].
Qed.

Lemma readOnly_findIndexM {X} (p : X -> M bool) l :
  (forall x, readOnly (p x)) -> forall i, readOnly (findIndexM p l i).
Proof.
  intros Hp. induction l as [|x l IH]; intros i; simpl; [apply readOnly_ret|].
  apply readOnly_bind; [apply Hp|intros [|]]; [apply readOnly_ret|apply IH].
Qed.

Lemma readOnly_scanMergedUsers entries oldId : readOnly (scanMergedUsers entries oldId).
Proof.
  induction entries as [|[k b] entries IH]; simpl; [apply readOnly_ret|].
  apply readOnly_bind; [apply readOnly_toString|intros text].
  destruct (existsb _ b); [apply readOnly_ret|exact IH].
Qed.

Section UpdatePass.
Context {A : Type}.
Variable transformData : value -> A -> M value.
Variable validateItem : value -> A -> value -> M bool.
Variable getAttributeMappingsWithActions : A -> value -> value -> M A.
Variable fuel : nat.
Variable usersCollectionName : string.
Variable tables : Ids.tables.
Variable mergedUserMap : JsMap.t (list string).
Variable originalIdField : option string.

Abbreviation updateItem :=
  (updateItem transformData validateItem getAttributeMappingsWithActions fuel
     usersCollectionName tables mergedUserMap originalIdField).

(** The import map [im'] has the stages of [im] with the same records
    from the same raw items, in the same order; only the stage under [key]
    may differ, in what its records hold beside the raw item. *)
Definition sameRecords (key : string) (im im' : Config.importMap A) : Prop :=
  (forall k, JsMap.get k im = None -> JsMap.get k im' = None) /\
  forall k s, JsMap.get k im = Some s ->
    exists s', JsMap.get k im' = Some s' /\
      map rawData (data s') = map rawData (data s) /\
      (k <> key -> s' = s).

Lemma sameRecords_refl key im : sameRecords key im im.
Proof. split; [auto|]. intros k s Hk. exists s. auto. Qed.

Lemma sameRecords_trans key im1 im2 im3 :
  sameRecords key im1 im2 -> sameRecords key im2 im3 -> sameRecords key im1 im3.
Proof.
  intros [N1 S1] [N2 S2]. split; [auto|].
  intros k s Hk. destruct (S1 k s Hk) as (s1 & H1 & R1 & E1).
  destruct (S2 k s1 H1) as (s2 & H2 & R2 & E2).
  exists s2. split; [exact H2|]. split; [congruence|].
  intros Hne. rewrite E2, E1; auto.
Qed.

Lemma sameRecords_update key (im : Config.importMap A) cd i r fd ctx def :
  JsMap.get key im = Some cd -> data cd !! i = Some r ->
  sameRecords key im (JsMap.set key (updateRecord i r fd ctx def cd) im).
Proof.
  intros Hcd Hi. split.
  - intros k Hk. rewrite get_set_other; [exact Hk|congruence].
  - intros k s Hk. destruct (String.eqb_spec key k) as [<-|Hne].
    + rewrite get_set_same. eexists. split; [reflexivity|].
      rewrite Hcd in Hk. injection Hk as <-. split; [|congruence].
      unfold updateRecord. simpl. rewrite list_fmap_insert. simpl.
      apply list_insert_id. rewrite list_lookup_fmap, Hi. reflexivity.
    + rewrite get_set_other by exact Hne. exists s. auto.
Qed.

Lemma updateItem_sameRecords db collection importDef item acc h acc' h' :
  updateItem db collection importDef item acc h = Ok acc' h' ->
  sameRecords (getCollectionKey (name collection)) (fst acc) (fst acc').
Proof.
  unfold Update.updateItem. intros E.
  apply bind_Ok in E as (td & h1 & _ & E).
  apply bind_Ok in E as (oldId & h2 & _ & E).
  destruct (negb (truthy oldId)); [injection E as <- _; apply sameRecords_refl|].
  apply bind_Ok in E as (newId0 & h3 & _ & E).
  apply bind_Ok in E as (newId1 & h4 & _ & E).
  destruct newId1 as [newId|]; [|injection E as <- _; apply sameRecords_refl].
  destruct (negb (JsString.nonEmpty newId));
    [injection E as <- _; apply sameRecords_refl|].
  apply bind_Ok in E as (found & h5 & Efind & E).
  destruct found as [[i record]|]; [|injection E as <- _; apply sameRecords_refl].
  destruct (JsMap.get (getCollectionKey (name collection)) (fst acc)) as [cd|] eqn:Hcd;
    [|injection E as <- _; apply sameRecords_refl].
  apply findIndexM_lookup in Efind as (j & -> & Hj). simpl in *.
  apply bind_Ok in E as (td' & h6 & _ & E).
  apply bind_Ok in E as (ctx & h7 & _ & E).
  apply bind_Ok in E as (ctx' & h8 & _ & E).
  apply bind_Ok in E as (isValid & h9 & _ & E).
  destruct (negb isValid); [injection E as <- _; apply sameRecords_refl|].
  apply bind_Ok in E as (am & h10 & _ & E).
  apply bind_Ok in E as (fd & h11 & _ & E).
  injection E as <- _. simpl. now apply sameRecords_update.
Qed.

Lemma updateLoop_sameRecords db collection importDef : forall items acc h acc' h',
  forEachAcc (updateItem db collection importDef) items acc h = Ok acc' h' ->
  sameRecords (getCollectionKey (name collection)) (fst acc) (fst acc').
Proof.
  induction items as [|item items IH]; intros acc h acc' h' E; simpl in E.
  - injection E as <- _. apply sameRecords_refl.
  - apply bind_Ok in E as (acc1 & h1 & E1 & E).
    eapply sameRecords_trans; [eapply updateItem_sameRecords; eauto|eapply IH; eauto].
Qed.

(** *** The pass changes no object of the store *)

Hypothesis transformData_frame : forall item am, frameExcept none (transformData item am).
Hypothesis validateItem_frame : forall item am ctx, frameExcept none (validateItem item am ctx).
Hypothesis actions_frame :
  forall am ctx td, frameExcept none (getAttributeMappingsWithActions am ctx td).

Lemma mergeObjects_frameExcept a b : frameExcept none (mergeObjects fuel a b).
Proof.
  intros h. pose proof (mergeObjects_frame fuel a b h) as H.
  destruct (mergeObjects fuel a b h); tauto.
Qed.

Lemma createContext_frame db (collection : configCollection A) item docId :
  frameExcept none (Ingest.createContext db collection item docId).
Proof.
  unfold Ingest.createContext.
  apply frame_bind; [apply agree_readOnly, readOnly_ownProps|intros ps].
  apply frame_bind; [apply frame_alloc|intros doc]. apply frame_alloc.
Qed.

Lemma updateItem_frame db collection importDef item acc :
  frameExcept none (updateItem db collection importDef item acc).
Proof.
  unfold Update.updateItem.
  apply frame_bind; [apply transformData_frame|intros td].
  apply frame_bind.
  { apply agree_readOnly. destruct (JsString.nonEmpty _); [apply readOnly_getProp|].
    destruct originalIdField; [apply readOnly_getProp|apply readOnly_ret]. }
  intros oldId. destruct (negb (truthy oldId)); [apply frame_ret|].
  apply frame_bind.
  { apply agree_readOnly. destruct (JsMap.get _ tables); [|apply readOnly_ret].
    apply readOnly_bind; [apply readOnly_toString|intros; apply readOnly_ret]. }
  intros newId0. apply frame_bind.
  { apply agree_readOnly. destruct (_ && _); [|apply readOnly_ret].
    apply readOnly_bind; [apply readOnly_scanMergedUsers|intros; apply readOnly_ret]. }
  intros [newId|]; [|apply frame_ret].
  destruct (negb (JsString.nonEmpty newId)); [apply frame_ret|].
  apply frame_bind.
  { apply agree_readOnly. destruct (JsMap.get _ (fst acc)); [|apply readOnly_ret].
    apply readOnly_findIndexM. intros x.
    apply readOnly_bind; [apply readOnly_getProp|intros; apply readOnly_ret]. }
  intros [[i record]|]; [|apply frame_ret].
  destruct (JsMap.get _ (fst acc)); [|apply frame_ret].
  apply frame_bind; [apply mergeObjects_frameExcept|intros td'].
  apply frame_bind; [apply createContext_frame|intros ctx].
  apply frame_bind; [apply mergeObjects_frameExcept|intros ctx'].
  apply frame_bind; [apply validateItem_frame|intros isValid].
  destruct (negb isValid); [apply frame_ret|].
  apply frame_bind; [apply actions_frame|intros am].
  apply frame_bind; [apply mergeObjects_frameExcept|intros fd]. apply frame_ret.
Qed.
End UpdatePass.
End UpdateFacts.

(** The update pass stages nothing and drops nothing: when
    [prepareUpdateData] returns, the import map has the stages it had, each
    with records for the same raw items in the same order; the stages of
    the other collections are as they were. *)
Theorem prepareUpdateData_keeps_the_records {A : Type}
    (transformData : Store.value -> A -> Store.M Store.value)
    (validateItem : Store.value -> A -> Store.value -> Store.M bool)
    (getAttributeMappingsWithActions : A -> Store.value -> Store.value -> Store.M A)
    (fuel : nat) (usersCollectionName : string) (tables : Ids.tables)
    (mergedUserMap : JsMap.t (list string)) (originalIdField : option string)
    (operations : JsMap.t string)
    (db : Config.configDatabase) (collection : Config.configCollection A)
    (importDef : Config.importDef A) (rawData : list Store.value)
    (im im' : Config.importMap A) (log log' : list Update.updateLog)
    (h h' : list Store.cell) :
  Update.prepareUpdateData transformData validateItem getAttributeMappingsWithActions
    fuel usersCollectionName tables mergedUserMap originalIdField operations
    db collection importDef rawData (im, log) h = Store.Ok (im', log') h' ->
  (forall k, JsMap.get k im = None -> JsMap.get k im' = None) /\
  forall k s, JsMap.get k im = Some s ->
    exists s', JsMap.get k im' = Some s' /\
      map Config.rawData (Config.data s') = map Config.rawData (Config.data s) /\
      (k <> getCollectionKey (Config.name collection) -> s' = s).
Proof.
  unfold Update.prepareUpdateData. intros E.
  destruct (_ && _).
  - injection E as <- _ _. apply UpdateFacts.sameRecords_refl.
  - destruct (JsMap.get _ operations) as [op|]; [|discriminate].
    destruct (negb (JsString.nonEmpty op)); [discriminate|].
    apply UpdateFacts.updateLoop_sameRecords in E. exact E.
Qed.

(** The update pass writes to no data object: over collaborators that
    change no existing object, every object of the store (the source items,
    the payloads, the contexts) is after [prepareUpdateData] as it was
    before, also when the pass throws.  The staged record is updated by
    giving it a new payload object and a new context object. *)
Theorem prepareUpdateData_changes_no_object {A : Type}
    (transformData : Store.value -> A -> Store.M Store.value)
    (validateItem : Store.value -> A -> Store.value -> Store.M bool)
    (getAttributeMappingsWithActions : A -> Store.value -> Store.value -> Store.M A)
    (fuel : nat) (usersCollectionName : string) (tables : Ids.tables)
    (mergedUserMap : JsMap.t (list string)) (originalIdField : option string)
    (operations : JsMap.t string)
    (db : Config.configDatabase) (collection : Config.configCollection A)
    (importDef : Config.importDef A) (rawData : list Store.value)
    (acc : Config.importMap A * list Update.updateLog) (h : list Store.cell) :
  (forall item am, StoreFacts.frameExcept StoreFacts.none (transformData item am)) ->
  (forall item am ctx, StoreFacts.frameExcept StoreFacts.none (validateItem item am ctx)) ->
  (forall am ctx td,
     StoreFacts.frameExcept StoreFacts.none (getAttributeMappingsWithActions am ctx td)) ->
  match Update.prepareUpdateData transformData validateItem
          getAttributeMappingsWithActions fuel usersCollectionName tables
          mergedUserMap originalIdField operations db collection importDef rawData acc h
  with
  | Store.Ok _ h' | Store.Throw h' => forall l c, h !! l = Some c -> h' !! l = Some c
  | Store.Fail => True
  end.
Proof.
  intros Ht Hv Ha.
  assert (StoreFacts.frameExcept StoreFacts.none
            (Update.prepareUpdateData transformData validateItem
               getAttributeMappingsWithActions fuel usersCollectionName tables
               mergedUserMap originalIdField operations db collection importDef
               rawData acc)) as Hframe.
  { unfold Update.prepareUpdateData.
    destruct (_ && _); [apply StoreFacts.frame_ret|].
    destruct (JsMap.get _ operations) as [op|];
      [|apply StoreFacts.agree_readOnly, StoreFacts.readOnly_throw].
    destruct (negb (JsString.nonEmpty op));
      [apply StoreFacts.agree_readOnly, StoreFacts.readOnly_throw|].
    apply StoreFacts.frame_forEachAcc. intros item s.
    now apply UpdateFacts.updateItem_frame. }
  specialize (Hframe h).
  destruct (Update.prepareUpdateData _ _ _ _ _ _ _ _ _ _ _ _ _ _ h) as [r h'|h'|];
    [| |exact I]; intros l c Hl; eapply StoreFacts.agree_none_lookup; eauto.
Qed.

Lemma prepareUpdateData_keeps_the_records_witness :
  exists im' log' h' s',
    MoreExamples.afterUpdate = Store.Ok (im', log') h' /\
    JsMap.get "items" im' = Some s' /\
    map Config.rawData (Config.data s') = [Store.VRef 0].
Proof.
  destruct MoreExamples.afterUpdate as [[im' log'] h'|h'|] eqn:E;
    [|vm_compute in E; discriminate..].
  destruct (prepareUpdateData_keeps_the_records _ _ _ _ _ _ _ _ _ _ _ _ _ _ _ _ _ _ _ E)
    as [_ H].
  destruct (H "items" _ eq_refl) as (s' & Hget & Hraw & _).
  exists im', log', h', s'. split; [reflexivity|]. split; [exact Hget|exact Hraw].
Defined.

Lemma prepareUpdateData_changes_no_object_witness :
  exists r h',
    MoreExamples.afterUpdate = Store.Ok r h' /\
    h' !! 0 = Some (Store.CObj [("id", Store.VNum 42); ("title", Store.VStr "first")]).
Proof.
  pose proof (prepareUpdateData_changes_no_object
                Examples.keepItem Examples.acceptItem Examples.noActions
                3 "Members"
                (Ingest.oldIdToNewIdPerCollectionMap Examples.loaderAfterFirst)
                [] None (Ingest.collectionImportOperations Examples.loaderAfterFirst)
                Examples.mainDb Examples.itemsCollection MoreExamples.itemsUpdateDef
                [Store.VRef (length Examples.storeAfterFirst)]
                (Ingest.importMap Examples.loaderAfterFirst, [])
                MoreExamples.updateStore) as H.
  fold MoreExamples.afterUpdate in H.
  destruct MoreExamples.afterUpdate as [r h'|h'|] eqn:E;
    [|vm_compute in E; discriminate..].
  exists r, h'. split; [reflexivity|]. apply H; try reflexivity.
  - intros item am. apply StoreFacts.frame_ret.
  - intros item am ctx. apply StoreFacts.frame_ret.
  - intros am ctx td. apply StoreFacts.frame_ret.
Defined.

(** ** Setting up the maps *)

Module SetupFacts.
Import Config Setup JsMapFacts.

Section SetupMaps.
Context {A W : Type}.
Variable parse : configCollection A -> option (configCollection A).
Variable checkForCollection :
  string -> configCollection A -> W -> option (option string * W).
Variable findOrCreateOperation : string -> W -> option (string * W).

(** Each stage of [m'] is the stage [m] has under the key, or an empty
    one; each operation of [m'] is the one [m] has, or belongs to a key
    whose stage is empty. *)
Definition resets (m m' : maps A) : Prop :=
  (forall k, JsMap.get k (importMap m') = JsMap.get k (importMap m) \/
             JsMap.get k (importMap m') = Some {| data := [] |}) /\
  (forall k, JsMap.get k (collectionImportOperations m')
             = JsMap.get k (collectionImportOperations m) \/
             (JsMap.get k (importMap m') = Some {| data := [] |} /\
              exists op, JsMap.get k (collectionImportOperations m') = Some op)).

Lemma resets_refl m : resets m m.
Proof. split; intros k; now left. Qed.

Lemma resets_trans m1 m2 m3 : resets m1 m2 -> resets m2 m3 -> resets m1 m3.
Proof.
  intros [S1 O1] [S2 O2]. split; intros k.
  - destruct (S2 k) as [->|H]; [apply S1|now right].
  - destruct (O2 k) as [->|H]; [|now right].
    destruct (O1 k) as [H|[He Hop]]; [now left|right]. split; [|exact Hop].
    destruct (S2 k) as [->|H']; [exact He|exact H'].
Qed.

Lemma get_set (V : Type) k k' (v : V) m :
  JsMap.get k' (JsMap.set k v m) = if String.eqb k k' then Some v else JsMap.get k' m.
Proof.
  destruct (String.eqb_spec k k') as [->|Hne];
    [apply get_set_same|now apply get_set_other].
Qed.

(** The collections of the configuration keep their names and import
    definitions; only their [$id] is brought up to date. *)
Definition sameCollections (cs cs' : list (configCollection A)) : Prop :=
  Forall2 (fun c c' => name c' = name c /\ importDefs c' = importDefs c) cs cs'.

Lemma setupCollection_resets db c m w c' m' w' :
  setupCollection parse checkForCollection findOrCreateOperation db c m w
    = Some (c', m', w') ->
  resets m m' /\ name c' = name c /\ importDefs c' = importDefs c.
Proof.
  unfold setupCollection.
  destruct (parse c) as [collection|]; [|discriminate].
  destruct (checkForCollection (dbId db) collection w) as [[[id|] w1]|]; [| |discriminate].
  - destruct (negb (JsString.nonEmpty (name collection))).
    + intros [= <- <- _]. split; [apply resets_refl|auto].
    + destruct (findOrCreateOperation id w1) as [[op w2]|]; [|discriminate].
      intros [= <- <- _]. split; [|auto]. split; intros k; simpl; rewrite !get_set.
      * destruct (String.eqb _ k); auto.
      * destruct (String.eqb _ k); eauto.
  - intros [= <- <- _]. split; [apply resets_refl|auto].
Qed.

Lemma setupCollections_resets db : forall cs m w cs' m' w',
  setupCollections parse checkForCollection findOrCreateOperation db cs m w
    = Some (cs', m', w') ->
  resets m m' /\ sameCollections cs cs'.
Proof.
  induction cs as [|c cs IH]; intros m w cs' m' w'; simpl.
  - intros [= <- <- _]. split; [apply resets_refl|constructor].
  - destruct (setupCollection _ _ _ db c m w) as [[[c1 m1] w1]|] eqn:E1; [|discriminate].
    destruct (setupCollections _ _ _ db cs m1 w1) as [[[cs2 m2] w2]|] eqn:E2;
      [|discriminate].
    intros [= <- <- _].
    destruct (setupCollection_resets _ _ _ _ _ _ _ E1) as (R1 & Hn & Hd).
    destruct (IH _ _ _ _ _ E2) as (R2 & Hs).
    split; [eapply resets_trans; eauto|now constructor].
Qed.

Definition sameConfig (cs cs' : option (list (configCollection A))) : Prop :=
  match cs, cs' with
  | Some l, Some l' => sameCollections l l'
  | None, None => True
  | _, _ => False
  end.

Lemma sameCollections_refl cs : sameCollections cs cs.
Proof. induction cs; constructor; auto. Qed.

Lemma sameCollections_trans cs1 cs2 cs3 :
  sameCollections cs1 cs2 -> sameCollections cs2 cs3 -> sameCollections cs1 cs3.
Proof.
  intros H12. revert cs3. induction H12 as [|c1 c2 l1 l2 [Hn Hd] _ IH]; intros cs3 H23.
  - inversion H23. constructor.
  - inversion H23 as [|? c3 ? l3 [Hn' Hd'] Hrest]; subst.
    constructor; [split; congruence|]. apply IH. exact Hrest.
Qed.

Lemma setupDatabases_resets dbId : forall dbs cs m w cs' m' w',
  setupDatabases parse checkForCollection findOrCreateOperation dbId dbs (cs, m, w)
    = Some (cs', m', w') ->
  resets m m' /\ sameConfig cs cs'.
Proof.
  induction dbs as [|db dbs IH]; intros cs m w cs' m' w'; simpl.
  - intros [= <- <- _]. split; [apply resets_refl|].
    destruct cs; simpl; [apply sameCollections_refl|exact I].
  - destruct (negb (String.eqb (Config.dbId db) dbId)); [apply IH|].
    destruct cs as [l|]; [|apply IH].
    destruct (setupCollections _ _ _ db l m w) as [[[l1 m1] w1]|] eqn:E1; [|discriminate].
    intros E. destruct (setupCollections_resets _ _ _ _ _ _ _ E1) as (R1 & S1).
    destruct (IH _ _ _ _ _ _ E) as (R2 & S2).
    split; [eapply resets_trans; eauto|].
    destruct cs' as [l'|]; simpl in *; [|contradiction].
    eapply sameCollections_trans; eauto.
Qed.
End SetupMaps.
End SetupFacts.

(** [setupMaps] starts every stage it touches afresh: when it returns, the
    stage of "users" is empty; every other stage is the one the import map
    had, or empty; and every operation identifier is the one the loader
    had, or belongs to a collection whose stage is now empty.  Of the
    configuration, only the [$id] of collections changes. *)
Theorem setupMaps_resets_stages {A W : Type}
    (parse : Config.configCollection A -> option (Config.configCollection A))
    (checkForCollection :
       string -> Config.configCollection A -> W -> option (option string * W))
    (findOrCreateOperation : string -> W -> option (string * W))
    (databases : list Config.configDatabase)
    (collections collections' : option (list (Config.configCollection A)))
    (dbId : string) (m m' : Setup.maps A) (w w' : W) :
  Setup.setupMaps parse checkForCollection findOrCreateOperation
    databases collections dbId m w = Some (collections', m', w') ->
  JsMap.get "users" (Setup.importMap m') = Some {| Config.data := [] |} /\
  (forall k, JsMap.get k (Setup.importMap m') = JsMap.get k (Setup.importMap m) \/
             JsMap.get k (Setup.importMap m') = Some {| Config.data := [] |}) /\
  (forall k, JsMap.get k (Setup.collectionImportOperations m')
             = JsMap.get k (Setup.collectionImportOperations m) \/
             (JsMap.get k (Setup.importMap m') = Some {| Config.data := [] |} /\
              exists op, JsMap.get k (Setup.collectionImportOperations m') = Some op)) /\
  match collections, collections' with
  | Some cs, Some cs' =>
      Forall2 (fun c c' => Config.name c' = Config.name c /\
                           Config.importDefs c' = Config.importDefs c) cs cs'
  | None, None => True
  | _, _ => False
  end.
Proof.
  unfold Setup.setupMaps. intros E.
  apply SetupFacts.setupDatabases_resets in E as ([HS HO] & Hcfg). simpl in *.
  change (getCollectionKey "users") with "users" in *.
  split; [|split; [|split; [exact HO|exact Hcfg]]].
  - destruct (HS "users") as [->|H]; [apply JsMapFacts.get_set_same|exact H].
  - intros k. destruct (HS k) as [->|H]; [|now right].
    rewrite SetupFacts.get_set. destruct (String.eqb "users" k); auto.
Qed.

Lemma setupMaps_resets_stages_witness :
  exists cs' m' w',
    Setup.setupMaps Some MoreExamples.findsAll MoreExamples.newOperation
      [Examples.mainDb] (Some [Examples.itemsCollection]) "db1"
      MoreExamples.noMaps tt = Some (cs', m', w') /\
    JsMap.get "users" (Setup.importMap m') = Some {| Config.data := [] |}.
Proof.
  destruct (Setup.setupMaps Some MoreExamples.findsAll MoreExamples.newOperation
              [Examples.mainDb] (Some [Examples.itemsCollection]) "db1"
              MoreExamples.noMaps tt) as [[[cs' m'] w']|] eqn:E;
    [|vm_compute in E; discriminate].
  exists cs', m', w'. split; [reflexivity|].
  eapply setupMaps_resets_stages. exact E.
Defined.

(** ** What the lookup leaves alone *)

Module LookupFacts.
Import Store Config Resolver StoreFacts JsMapFacts ResolverFacts.
Local Open Scope store_scope.

(** A loop whose turns all hand back the loop variables and the store
    does so as a whole. *)
Lemma forEachAcc_idle {X S} (f : X -> S -> M S) (l : list X) (s : S) (h : heap) :
  (forall x, x ∈ l -> f x s h = Ok s h) -> forEachAcc f l s h = Ok s h.
Proof.
  induction l as [|x l IH]; intros Hf; simpl; [reflexivity|].
  unfold bind. rewrite (Hf x) by left. apply IH. intros y Hy. apply Hf. now right.
Qed.

(** The values that the guard [!valueToMatch || _.isEmpty(valueToMatch)]
    stops, among those that are not objects: the falsy ones, and every
    number and boolean. *)
Definition guardStops (v : value) : bool :=
  match v with
  | VUndef | VNull | VBool _ | VNum _ => true
  | VStr s => String.eqb s ""
  | VRef _ => false
  end.

Section Lookup.
Context {A : Type}.
Variables (cs : list (configCollection A)) (im : importMap A).

Lemma resolveIdMapping_stopped (item : importRecord A) m acc h v :
  getProp (context item) (sourceField m) h = Ok v h -> guardStops v = true ->
  resolveIdMapping im item m acc h = Ok acc h.
Proof.
  intros Hv Hg. unfold resolveIdMapping. run_with Hv.
  destruct v as [| |b|n|s|l]; try discriminate; try reflexivity.
  - destruct b; reflexivity.
  - simpl. destruct (negb (n =? 0)%Z); reflexivity.
  - simpl in Hg. unfold truthy, JsString.nonEmpty. now rewrite Hg.
Qed.

Lemma resolveItem_payloads defs cc st (item : importRecord A) acc :
  cc ∈ cs -> JsMap.get (getCollectionKey (name cc)) im = Some st -> item ∈ data st ->
  frameExcept (isPayload cs im) (resolveItem im defs item acc).
Proof.
  intros Hcc Hst Hit. unfold resolveItem.
  apply frame_forEachAcc. intros def acc1. unfold resolveImportDef.
  destruct (idMappings def) as [ms|]; [|apply frame_ret].
  apply frame_forEachAcc. intros m acc2.
  eapply frame_weaken; [|apply resolveIdMapping_frame].
  intros l Hl. exists cc, st, item. auto.
Qed.

Lemma resolveItems_payloads defs cc st : forall items acc,
  cc ∈ cs -> JsMap.get (getCollectionKey (name cc)) im = Some st ->
  (forall it, it ∈ items -> it ∈ data st) ->
  frameExcept (isPayload cs im) (forEachAcc (resolveItem im defs) items acc).
Proof.
  induction items as [|it items IH]; intros acc Hcc Hst Hin; simpl; [apply frame_ret|].
  apply frame_bind.
  - eapply resolveItem_payloads; eauto. apply Hin. left.
  - intros acc1. apply IH; auto. intros x Hx. apply Hin. now right.
Qed.

(** One collection: the import map is handed back as it is, and only
    payloads of staged records have been written to. *)
Lemma resolveCollection_payloads cc log h :
  cc ∈ cs ->
  match resolveCollection cc (im, log) h with
  | Ok acc h' => fst acc = im /\ agreeExcept (isPayload cs im) h h'
  | Throw h' => agreeExcept (isPayload cs im) h h'
  | Fail => True
  end.
Proof.
  intros Hcc. unfold resolveCollection. cbn [fst snd].
  destruct (JsMap.get (getCollectionKey (name cc)) im) as [st|] eqn:Hst;
    [|unfold ret; cbv beta iota zeta; split; [reflexivity|apply agree_refl]].
  unfold bind.
  pose proof (resolveItems_payloads (importDefs cc) cc st (data st) (false, log)
                Hcc Hst (fun _ H => H) h) as Hf.
  destruct (forEachAcc _ (data st) (false, log) h) as [r h'|h'|]; [|exact Hf|exact I].
  simpl. split; [|exact Hf].
  destruct (fst r); [now apply set_id|reflexivity].
Qed.

Lemma resolveCollections_payloads : forall cs' log h,
  (forall cc, cc ∈ cs' -> cc ∈ cs) ->
  match forEachAcc resolveCollection cs' (im, log) h with
  | Ok acc h' => fst acc = im /\ agreeExcept (isPayload cs im) h h'
  | Throw h' => agreeExcept (isPayload cs im) h h'
  | Fail => True
  end.
Proof.
  induction cs' as [|cc cs' IH]; intros log h Hin; simpl.
  - unfold ret. cbv beta iota. split; [reflexivity|apply agree_refl].
  - unfold bind.
    pose proof (resolveCollection_payloads cc log h (Hin cc ltac:(left))) as H1.
    destruct (resolveCollection cc (im, log) h) as [[im1 log1] h1|h1|];
      [|exact H1|exact I].
    destruct H1 as [Him H1]. simpl in Him. subst im1.
    specialize (IH log1 h1 (fun c Hc => Hin c ltac:(now right))).
    destruct (forEachAcc resolveCollection cs' (im, log1) h1) as [acc h'|h'|];
      [|eapply agree_trans; eauto|exact I].
    destruct IH as [Hacc H2]. split; [exact Hacc|eapply agree_trans; eauto].
Qed.
End Lookup.
End LookupFacts.

(** [updateOldReferencesForNew] writes to final payloads only, and hands
    the import map back as it was: every cell of the store that is not the
    final payload of a staged record of a configured collection (a context,
    a raw item) is after the pass as it was before, also when the pass
    throws; the staged records are the same records. *)
Theorem updateOldReferencesForNew_writes_payloads_only {A : Type}
    (collections : option (list (Config.configCollection A)))
    (im : Config.importMap A) (h : list Store.cell) :
  match Resolver.updateOldReferencesForNew collections im h with
  | Store.Ok (im', _) h' =>
      im' = im /\
      forall l c, h !! l = Some c ->
        (forall cs, collections = Some cs -> ~ Resolver.isPayload cs im l) ->
        h' !! l = Some c
  | Store.Throw h' =>
      forall l c, h !! l = Some c ->
        (forall cs, collections = Some cs -> ~ Resolver.isPayload cs im l) ->
        h' !! l = Some c
  | Store.Fail => True
  end.
Proof.
  unfold Resolver.updateOldReferencesForNew.
  destruct collections as [cs|]; [|split; [reflexivity|auto]].
  pose proof (LookupFacts.resolveCollections_payloads cs im cs [] h (fun _ H => H)) as H.
  destruct (Store.forEachAcc Resolver.resolveCollection cs (im, []) h)
    as [[im' log] h'|h'|]; [| |exact I].
  - destruct H as [Him (_ & Ag & _)]. split; [exact Him|].
    intros l c Hl Hnot. apply Ag; auto.
  - destruct H as (_ & Ag & _). intros l c Hl Hnot. apply Ag; auto.
Qed.

(** The guard of the lookup, [!valueToMatch || _.isEmpty(valueToMatch)],
    stops every source value that is a number or a boolean, as it stops
    [null], [undefined] and the empty string: when the source fields of
    all staged records hold such values, the pass resolves nothing, logs
    nothing and changes nothing. *)
Theorem updateOldReferencesForNew_skips_numbers {A : Type}
    (cs : list (Config.configCollection A))
    (im : Config.importMap A) (h : list Store.cell) :
  (forall cc st it def ms m,
     cc ∈ cs -> JsMap.get (getCollectionKey (Config.name cc)) im = Some st ->
     it ∈ Config.data st -> def ∈ Config.importDefs cc ->
     Config.idMappings def = Some ms -> m ∈ ms ->
     exists v,
       Store.getProp (Config.context it) (Config.sourceField m) h = Store.Ok v h /\
       LookupFacts.guardStops v = true) ->
  Resolver.updateOldReferencesForNew (Some cs) im h = Store.Ok (im, []) h.
Proof.
  intros Hstop. unfold Resolver.updateOldReferencesForNew.
  apply LookupFacts.forEachAcc_idle. intros cc Hcc.
  unfold Resolver.resolveCollection. cbn [fst snd].
  destruct (JsMap.get (getCollectionKey (Config.name cc)) im) as [st|] eqn:Hst;
    [|reflexivity].
  unfold Store.bind.
  rewrite (LookupFacts.forEachAcc_idle _ (Config.data st) (false, []) h); [reflexivity|].
  intros it Hit. unfold Resolver.resolveItem.
  apply LookupFacts.forEachAcc_idle. intros def Hdef.
  unfold Resolver.resolveImportDef.
  destruct (Config.idMappings def) as [ms|] eqn:Hms; [|reflexivity].
  apply LookupFacts.forEachAcc_idle. intros m Hm.
  destruct (Hstop cc st it def ms m Hcc Hst Hit Hdef Hms Hm) as (v & Hv & Hg).
  eapply LookupFacts.resolveIdMapping_stopped; eauto.
Qed.

Lemma updateOldReferencesForNew_skips_numbers_witness :
  Resolver.matchesIn FurtherExamples.numericPetStore Examples.ownerMapping
    (Store.VNum 7) Examples.ann = true /\
  Resolver.updateOldReferencesForNew
    (Some [Examples.ownersCollection; Examples.petsCollection])
    Examples.oneOwner FurtherExamples.numericPetStore
  = Store.Ok (Examples.oneOwner, []) FurtherExamples.numericPetStore.
Proof.
  split; [reflexivity|].
  apply updateOldReferencesForNew_skips_numbers.
  intros cc st it def ms m Hcc Hst Hit Hdef Hms Hm.
  apply elem_of_cons in Hcc as [->|Hcc];
    [|apply list_elem_of_singleton in Hcc as ->];
    vm_compute in Hst; injection Hst as <-;
    apply list_elem_of_singleton in Hit as ->;
    apply list_elem_of_singleton in Hdef as ->;
    [discriminate|].
  injection Hms as <-. apply list_elem_of_singleton in Hm as ->.
  exists (Store.VNum 7). split; reflexivity.
Defined.

(** ** What the engine keeps *)

Module EngineFacts.
Import Identity JsMapFacts.

Lemma checkNaturalKey_keeps k newId index existingId e id :
  JsMap.get e index = Some id ->
  JsMap.get e (fst (checkNaturalKey k newId index existingId)) = Some id.
Proof.
  intros He. unfold checkNaturalKey.
  destruct k as [key|]; [|exact He].
  destruct (JsString.nonEmpty key); [|exact He].
  destruct (JsMap.has key index) eqn:Hhas; [exact He|]. simpl.
  rewrite get_set_other; [exact He|].
  intros ->. apply has_false in Hhas. congruence.
Qed.

(** After the check, a non-empty key is registered. *)
Lemma checkNaturalKey_registers key newId index existingId :
  JsString.nonEmpty key = true ->
  exists id, JsMap.get key (fst (checkNaturalKey (Some key) newId index existingId))
             = Some id.
Proof.
  intros Hne. unfold checkNaturalKey. rewrite Hne.
  destruct (JsMap.has key index) eqn:Hhas; simpl.
  - now apply has_true in Hhas.
  - exists newId. apply get_set_same.
Qed.

Section Engine.
Context {item A : Type}.
Variable transformData : item -> A -> item.
Variable safeParse : item -> option authUser.
Variable primaryKeyText : item -> string -> string.
Variable deleteKeys : list string -> item -> item.

Lemma prepareUserData_keeps it am pkf newId (r : registry item) :
  let r' := fst (prepareUserData transformData safeParse primaryKeyText deleteKeys
                   it am pkf newId r) in
  (forall e id, JsMap.get e (emailToUserIdMap r) = Some id ->
                JsMap.get e (emailToUserIdMap r') = Some id) /\
  (forall p id, JsMap.get p (phoneToUserIdMap r) = Some id ->
                JsMap.get p (phoneToUserIdMap r') = Some id).
Proof.
  unfold prepareUserData.
  destruct (safeParse (transformData it am)) as [u|]; [|simpl; auto].
  pose proof (fun e id => checkNaturalKey_keeps (email u) newId (emailToUserIdMap r)
                            None e id) as He.
  destruct (checkNaturalKey (email u) newId (emailToUserIdMap r) None) as [emails e1].
  pose proof (fun p id => checkNaturalKey_keeps (phone u) newId (phoneToUserIdMap r)
                            e1 p id) as Hp.
  destruct (checkNaturalKey (phone u) newId (phoneToUserIdMap r) e1) as [phones e2].
  simpl in *. auto.
Qed.

Lemma prepareUserData_registers it am pkf newId (r : registry item) u :
  safeParse (transformData it am) = Some u ->
  let r' := fst (prepareUserData transformData safeParse primaryKeyText deleteKeys
                   it am pkf newId r) in
  (forall e, email u = Some e -> JsString.nonEmpty e = true ->
             exists id, JsMap.get e (emailToUserIdMap r') = Some id) /\
  (forall p, phone u = Some p -> JsString.nonEmpty p = true ->
             exists id, JsMap.get p (phoneToUserIdMap r') = Some id).
Proof.
  intros Hu. unfold prepareUserData. rewrite Hu.
  pose proof (fun e => checkNaturalKey_registers e newId (emailToUserIdMap r) None) as He.
  destruct (email u) as [e0|];
    destruct (checkNaturalKey _ newId (emailToUserIdMap r) None) as [emails e1] eqn:E1.
  all: pose proof (fun p => checkNaturalKey_registers p newId (phoneToUserIdMap r) e1) as Hp.
  all: destruct (phone u) as [p0|];
    destruct (checkNaturalKey _ newId (phoneToUserIdMap r) e1) as [phones e2] eqn:E2.
  all: simpl; split; [intros e [= <-] Hne|intros p [= <-] Hne].
  all: try (specialize (He _ Hne); rewrite E1 in He; exact He).
  all: specialize (Hp _ Hne); rewrite E2 in Hp; exact Hp.
Qed.
End Engine.
End EngineFacts.

(** The engine registers a natural key once and for all.  Through every
    later call of [prepareUserData], an email (a phone) keeps the
    identifier it is registered to; and after the calls for a sequence of
    records, the non-empty email (phone) of every record whose account
    parses is registered. *)
Theorem engine_registers_once {item A : Type}
    (transformData : item -> A -> item)
    (safeParse : item -> option Identity.authUser)
    (primaryKeyText : item -> string -> string)
    (deleteKeys : list string -> item -> item)
    (am : A) (pkf : string) (items : list item) (newIds : list string)
    (r : Identity.registry item) :
  length items <= length newIds ->
  let r' := Identity.processIdentities transformData safeParse primaryKeyText
              deleteKeys am pkf items newIds r in
  (forall e id, JsMap.get e (Identity.emailToUserIdMap r) = Some id ->
                JsMap.get e (Identity.emailToUserIdMap r') = Some id) /\
  (forall p id, JsMap.get p (Identity.phoneToUserIdMap r) = Some id ->
                JsMap.get p (Identity.phoneToUserIdMap r') = Some id) /\
  (forall it u e, it ∈ items -> safeParse (transformData it am) = Some u ->
     Identity.email u = Some e -> JsString.nonEmpty e = true ->
     exists id, JsMap.get e (Identity.emailToUserIdMap r') = Some id) /\
  (forall it u p, it ∈ items -> safeParse (transformData it am) = Some u ->
     Identity.phone u = Some p -> JsString.nonEmpty p = true ->
     exists id, JsMap.get p (Identity.phoneToUserIdMap r') = Some id).
Proof.
  cbv zeta. revert newIds r.
  induction items as [|it items IH]; intros newIds r Hlen.
  - simpl. repeat split; auto; intros ? ? ? Hin; inversion Hin.
  - destruct newIds as [|newId newIds]; [simpl in Hlen; lia|]. simpl.
    destruct (EngineFacts.prepareUserData_keeps transformData safeParse primaryKeyText
                deleteKeys it am pkf newId r) as (He & Hp).
    destruct (IH newIds
                (fst (Identity.prepareUserData transformData safeParse primaryKeyText
                        deleteKeys it am pkf newId r))) as (He' & Hp' & Hre & Hrp).
    { simpl in Hlen. lia. }
    split; [auto|]. split; [auto|]. split.
    + intros it' u e Hin Hu Hemail Hne.
      apply elem_of_cons in Hin as [->|Hin]; [|eauto].
      destruct (EngineFacts.prepareUserData_registers transformData safeParse
                  primaryKeyText deleteKeys it am pkf newId r u Hu) as [Hreg _].
      destruct (Hreg e Hemail Hne) as [id Hid]. eauto.
    + intros it' u p Hin Hu Hphone Hne.
      apply elem_of_cons in Hin as [->|Hin]; [|eauto].
      destruct (EngineFacts.prepareUserData_registers transformData safeParse
                  primaryKeyText deleteKeys it am pkf newId r u Hu) as [_ Hreg].
      destruct (Hreg p Hphone Hne) as [id Hid]. eauto.
Qed.

Lemma engine_registers_once_witness :
  JsMap.get "a@x.com"
    (Identity.emailToUserIdMap
       (Examples.flatEngine [Examples.straddler] ["n1"] Examples.twoAccounts))
  = Some "u1" /\
  exists id,
    JsMap.get "a@x.com"
      (Identity.emailToUserIdMap
         (Examples.flatEngine Examples.twoPeople ["n1"; "n2"; "n3"] Examples.noUsers))
    = Some id.
Proof.
  split.
  - apply (engine_registers_once Examples.flatTransform Examples.flatParse
             Examples.flatKeyText Examples.flatDelete tt "id"
             [Examples.straddler] ["n1"] Examples.twoAccounts).
    + simpl. lia.
    + reflexivity.
  - destruct (engine_registers_once Examples.flatTransform Examples.flatParse
                Examples.flatKeyText Examples.flatDelete tt "id"
                Examples.twoPeople ["n1"; "n2"; "n3"] Examples.noUsers)
      as (_ & _ & Hreg & _); [simpl; lia|].
    eapply (Hreg [("id", "3"); ("email", "a@x.com")]).
    + right. right. left.
    + reflexivity.
    + reflexivity.
    + reflexivity.
Defined.

(** ** Attribute mappings *)

Module MappingFacts.
Import Store Mappings StoreFacts.
Local Open Scope store_scope.

Lemma mapM_Forall2 {X Y} (f : X -> M Y) (P : X -> Y -> Prop) :
  (forall x h y h', f x h = Ok y h' -> P x y) ->
  forall l h ys h', mapM f l h = Ok ys h' -> Forall2 P l ys.
Proof.
  intros Hf. induction l as [|x l IH]; intros h ys h' E; simpl in E.
  - injection E as <- _. constructor.
  - apply bind_Ok in E as (y & h1 & Ey & E).
    apply bind_Ok in E as (ys' & h2 & Eys & E).
    injection E as <- _. constructor; eauto.
Qed.

Lemma props_has_set key key' v ps :
  props_has key' (props_set key v ps) = String.eqb key' key || props_has key' ps.
Proof.
  induction ps as [|[k w] ps IH]; simpl.
  - now destruct (String.eqb key' key).
  - destruct (String.eqb_spec key k) as [->|Hk]; simpl.
    + destruct (String.eqb key' k); reflexivity.
    + rewrite IH. destruct (String.eqb key' k), (String.eqb key' key); reflexivity.
Qed.

Section Convert.
Context {R : Type}.
Variable ps : list (string * value).

(** What one mapping does to the properties of the result. *)
Definition convertStep (rp : list (string * value)) (m : attributeMapping R)
    : list (string * value) :=
  if props_has (oldKey m) ps
  then props_set (targetKey m) (props_get (oldKey m) ps) rp
  else rp.

(** The mapping applies to the target key [t]. *)
Definition applies (t : string) (m : attributeMapping R) : bool :=
  String.eqb (targetKey m) t && props_has (oldKey m) ps.

(** The mappings the model covers: the old key is no name of
    [Object.prototype] and the target key is not [__proto__]. *)
Definition covers (m : attributeMapping R) : Prop :=
  inherited (oldKey m) = false /\ targetKey m <> "__proto__".

Lemma convertLoop h l : forall ams rp,
  h !! l = Some (CObj ps) -> Forall covers ams ->
  forEach (convertKey (VRef l) (VRef (length h))) ams (h ++ [CObj rp])
  = Ok tt (h ++ [CObj (fold_left convertStep ams rp)]).
Proof.
  intros ams rp Hl. revert rp.
  assert (forall rp, (h ++ [CObj rp]) !! l = Some (CObj ps)) as Hobj.
  { intros rp. rewrite lookup_app_l; [exact Hl|]. now apply lookup_lt_Some in Hl. }
  induction ams as [|m ams IH]; intros rp Hcov; simpl; [reflexivity|].
  apply Forall_cons in Hcov as [[Hold Htarget] Hcov].
  unfold bind at 1. unfold convertKey at 1, hasProperty.
  unfold bind at 1. unfold bind at 1, readCell at 1. rewrite Hobj.
  unfold convertStep at 2. rewrite Hold.
  destruct (props_has (oldKey m) ps); unfold ret at 1.
  - unfold bind at 1. rewrite (getProp_obj l ps _ _ (Hobj rp)).
    destruct (String.eqb_spec (targetKey m) "__proto__") as [Heq|_]; [contradiction|].
    rewrite (setProp_obj (length h) rp) by (now rewrite list_lookup_middle).
    replace (<[length h := _]> (h ++ [CObj rp]))
      with (h ++ [CObj (props_set (targetKey m) (props_get (oldKey m) ps) rp)]).
    + now apply IH.
    + rewrite insert_app_r_alt by lia. now rewrite Nat.sub_diag.
  - now apply IH.
Qed.

Lemma fold_convert_get t : forall ams rp,
  props_get t (fold_left convertStep ams rp)
  = match find (applies t) (rev ams) with
    | Some m => props_get (oldKey m) ps
    | None => props_get t rp
    end.
Proof.
  induction ams as [|m ams IH] using rev_ind; intros rp; [reflexivity|].
  rewrite fold_left_app, rev_app_distr. simpl.
  unfold convertStep at 1, applies at 1.
  destruct (props_has (oldKey m) ps).
  - rewrite ContextFacts.props_get_set, String.eqb_sym.
    destruct (String.eqb (targetKey m) t); [reflexivity|apply IH].
  - rewrite andb_false_r. apply IH.
Qed.

Lemma fold_convert_has t : forall ams rp,
  props_has t (fold_left convertStep ams rp)
  = existsb (applies t) ams || props_has t rp.
Proof.
  induction ams as [|m ams IH]; intros rp; [reflexivity|]. simpl.
  rewrite IH. unfold convertStep, applies.
  destruct (props_has (oldKey m) ps).
  - rewrite props_has_set, String.eqb_sym, andb_true_r.
    destruct (String.eqb (targetKey m) t), (existsb _ ams); reflexivity.
  - rewrite andb_false_r. reflexivity.
Qed.
End Convert.
End MappingFacts.

(** [getAttributeMappingsWithActions] keeps the mappings, their order and
    their post-import actions: a mapping without [fileData] is returned as
    it is; one with [fileData] has, after the actions it had, one more, the
    action [createFileAndUpdateField] on its target key and file name. *)
Theorem getAttributeMappingsWithActions_appends_one_action {R : Type}
    (resolveTemplate : string -> Store.value -> Store.value -> Store.M string)
    (pathResolve : string -> string -> string)
    (appwriteFolderPath documentBucketId : string)
    (attributeMappings result : list (Mappings.attributeMapping R))
    (context item : Store.value) (h h' : list Store.cell) :
  Mappings.getAttributeMappingsWithActions resolveTemplate pathResolve
    appwriteFolderPath documentBucketId attributeMappings context item h
    = Store.Ok result h' ->
  Forall2
    (fun m m' =>
       match Mappings.mappingFileData m with
       | None => m' = m
       | Some fd =>
           Mappings.oldKey m' = Mappings.oldKey m /\
           Mappings.targetKey m' = Mappings.targetKey m /\
           Mappings.mappingFileData m' = Mappings.mappingFileData m /\
           Mappings.others m' = Mappings.others m /\
           exists a,
             Mappings.postImportActions m'
               = Some (match Mappings.postImportActions m with
                       | Some actions => actions
                       | None => []
                       end ++ [a]) /\
             Mappings.action a = "createFileAndUpdateField" /\
             length (Mappings.params a) = 7 /\
             Mappings.params a !! 3 = Some (Store.VStr (Mappings.targetKey m)) /\
             Mappings.params a !! 6 = Some (Store.VStr (Mappings.fileName fd))
       end)
    attributeMappings result.
Proof.
  unfold Mappings.getAttributeMappingsWithActions.
  apply MappingFacts.mapM_Forall2. intros m hk m' hk' E.
  unfold Mappings.withFileAction in E.
  destruct (Mappings.mappingFileData m) as [fd|] eqn:Hfd; [|now injection E as <- _].
  apply StoreFacts.bind_Ok in E as (p & h1 & _ & E).
  apply StoreFacts.bind_Ok in E as (dbName & h2 & _ & E).
  destruct dbName; try discriminate. injection E as <- _. simpl.
  do 4 (split; [reflexivity|]).
  eexists. split; [destruct (Mappings.postImportActions m); reflexivity|].
  repeat split.
Qed.

(** [convertObjectByAttributeMappings] on an object, over mappings whose
    old keys are no names of [Object.prototype] (which [in] finds in every
    object) and whose target keys are not [__proto__]: the result is a new
    object, and the object is not changed; a key of the result is the
    target key of a mapping whose old key the object has, and holds the
    object's value under the old key of the LAST such mapping.  (A field of
    the object that no mapping names is not in the result.) *)
Theorem convertObjectByAttributeMappings_last_mapping_wins {R : Type}
    (l : nat) (ps : list (string * Store.value))
    (attributeMappings : list (Mappings.attributeMapping R))
    (h : list Store.cell) :
  h !! l = Some (Store.CObj ps) ->
  Forall (fun m => Store.inherited (Mappings.oldKey m) = false /\
                   Mappings.targetKey m <> "__proto__") attributeMappings ->
  exists rp,
    Mappings.convertObjectByAttributeMappings (Store.VRef l) attributeMappings h
      = Store.Ok (Store.VRef (length h)) (h ++ [Store.CObj rp]) /\
    (forall t, Store.props_has t rp
               = existsb (MappingFacts.applies ps t) attributeMappings) /\
    (forall t, Store.props_get t rp
               = match find (MappingFacts.applies ps t) (rev attributeMappings) with
                 | Some m => Store.props_get (Mappings.oldKey m) ps
                 | None => Store.VUndef
                 end).
Proof.
  intros Hl Hcov. exists (fold_left (MappingFacts.convertStep ps) attributeMappings []).
  split; [|split].
  - unfold Mappings.convertObjectByAttributeMappings.
    unfold Store.bind at 1, Store.alloc at 1.
    unfold Store.bind at 1. now rewrite (MappingFacts.convertLoop ps h l _ _ Hl Hcov).
  - intros t. rewrite MappingFacts.fold_convert_has. now rewrite orb_false_r.
  - intros t. apply MappingFacts.fold_convert_get.
Qed.

Lemma convertObjectByAttributeMappings_last_mapping_wins_witness :
  exists rp,
    Mappings.convertObjectByAttributeMappings (Store.VRef 0)
      [{| Mappings.oldKey := "title"; Mappings.targetKey := "name";
          Mappings.mappingFileData := None; Mappings.postImportActions := None;
          Mappings.others := tt |};
       {| Mappings.oldKey := "id"; Mappings.targetKey := "name";
          Mappings.mappingFileData := None; Mappings.postImportActions := None;
          Mappings.others := tt |}]
      Examples.emptyKeyStore
    = Store.Ok (Store.VRef 1) (Examples.emptyKeyStore ++ [Store.CObj rp]) /\
    Store.props_get "name" rp = Store.VStr "" /\
    Store.props_has "title" rp = false.
Proof.
  destruct (convertObjectByAttributeMappings_last_mapping_wins (R:=unit) 0
              [("id", Store.VStr ""); ("title", Store.VStr "first")]
              [{| Mappings.oldKey := "title"; Mappings.targetKey := "name";
                  Mappings.mappingFileData := None; Mappings.postImportActions := None;
                  Mappings.others := tt |};
               {| Mappings.oldKey := "id"; Mappings.targetKey := "name";
                  Mappings.mappingFileData := None; Mappings.postImportActions := None;
                  Mappings.others := tt |}]
              Examples.emptyKeyStore eq_refl) as (rp & Hrun & Hhas & Hget).
  { repeat constructor; discriminate. }
  exists rp. split; [exact Hrun|]. split.
  - rewrite Hget. reflexivity.
  - rewrite Hhas. reflexivity.
Defined.

Lemma getAttributeMappingsWithActions_appends_one_action_witness :
  exists result,
    Mappings.getAttributeMappingsWithActions FurtherExamples.plainTemplate
      FurtherExamples.joinPath "/data" "files"
      [FurtherExamples.nameMapping; FurtherExamples.avatarMapping]
      (Store.VRef 0) Store.VNull FurtherExamples.mainContext
    = Store.Ok result FurtherExamples.mainContext /\
    length result = 2.
Proof.
  destruct (Mappings.getAttributeMappingsWithActions FurtherExamples.plainTemplate
              FurtherExamples.joinPath "/data" "files"
              [FurtherExamples.nameMapping; FurtherExamples.avatarMapping]
              (Store.VRef 0) Store.VNull FurtherExamples.mainContext)
    as [result h'|h'|] eqn:E; [|vm_compute in E; discriminate..].
  pose proof (getAttributeMappingsWithActions_appends_one_action _ _ _ _ _ _ _ _ _ _ E)
    as H.
  apply Forall2_length in H.
  pose proof E as E2. vm_compute in E2. injection E2 as _ <-.
  exists result. split; [reflexivity|]. simpl in H. congruence.
Defined.

(** ** The keys of a merged object *)

Module MergeFacts.
Import Store StoreFacts.
Local Open Scope store_scope.

(** A key of the update that the source lacks. *)
Definition isNew (sp : list (string * value)) (key : string) : bool :=
  negb (props_has key sp).

Lemma props_has_elem key ps : props_has key ps = true <-> key ∈ map fst ps.
Proof.
  induction ps as [|[k v] ps IH]; simpl.
  - split; [discriminate|inversion 1].
  - rewrite elem_of_cons. destruct (String.eqb_spec key k) as [->|Hne].
    + split; auto.
    + rewrite IH. split; [auto|]. intros [H|H]; [contradiction|exact H].
Qed.

Lemma props_get_has key ps : props_get key ps <> VUndef -> props_has key ps = true.
Proof.
  intros H. destruct (props_has key ps) eqn:E; [reflexivity|].
  exfalso. apply H. apply props_get_absent. rewrite <- props_has_elem. congruence.
Qed.

Lemma keys_props_set key v ps :
  map fst (props_set key v ps)
  = if props_has key ps then map fst ps else map fst ps ++ [key].
Proof.
  induction ps as [|[k w] ps IH]; simpl; [reflexivity|].
  destruct (String.eqb_spec key k) as [->|Hne]; simpl; [reflexivity|].
  rewrite IH. now destruct (props_has key ps).
Qed.

(** One turn of the loop of [mergeObjects] sets the field [key] of the
    result, or leaves the result as it is, and then the source has the
    field. *)
Lemma mergeKey_sets self source update r key hk hk' rp :
  (forall a b, frameExcept none (self a b)) ->
  hk !! r = Some (CObj rp) ->
  mergeKey self source update (VRef r) key hk = Ok tt hk' ->
  exists a, getProp source key hk = Ok a hk /\
    ((hk' !! r = Some (CObj rp) /\ a <> VUndef) \/
     exists v, hk' !! r = Some (CObj (props_set key v rp))).
Proof.
  intros Hself Hr E. unfold mergeKey in E.
  assert (r < length hk) as Hlt by (now apply lookup_lt_Some in Hr).
  assert (forall v h1, h1 !! r = Some (CObj rp) -> setProp (VRef r) key v h1 = Ok tt hk' ->
            exists v, hk' !! r = Some (CObj (props_set key v rp))) as Hset.
  { intros v h1 H1 Ev. rewrite (setProp_obj r rp key v h1 H1) in Ev. injection Ev as <-.
    exists v. apply list_lookup_insert_eq. now apply lookup_lt_Some in H1. }
  apply bind_Ok in E as (a & h1 & Ea & E).
  pose proof (readOnly_Ok _ _ _ _ (readOnly_getProp _ _) Ea) as ->.
  exists a. split; [exact Ea|].
  apply bind_Ok in E as (b & h1 & Eb & E).
  pose proof (readOnly_Ok _ _ _ _ (readOnly_getProp _ _) Eb) as ->.
  apply bind_Ok in E as (updIsArray & h1 & Eia & E).
  pose proof (readOnly_Ok _ _ _ _ (readOnly_isArray _) Eia) as ->.
  destruct updIsArray.
  - apply bind_Ok in E as (srcIsArray & h1 & Esa & E).
    pose proof (readOnly_Ok _ _ _ _ (readOnly_isArray _) Esa) as ->.
    apply bind_Ok in E as (sourceArray & h1 & Ese & E).
    assert (h1 = hk) as ->.
    { destruct srcIsArray; [|now injection Ese as _ <-].
      exact (readOnly_Ok _ _ _ _ (readOnly_elements _) Ese). }
    apply bind_Ok in E as (updateArray & h1 & Eue & E).
    pose proof (readOnly_Ok _ _ _ _ (readOnly_elements _) Eue) as ->.
    apply bind_Ok in E as (merged & h1 & Eal & E).
    unfold alloc in Eal. injection Eal as <- <-.
    right. eapply Hset; [|exact E]. now rewrite lookup_app_l.
  - apply bind_Ok in E as (updIsObject & h1 & Eio & E).
    pose proof (readOnly_Ok _ _ _ _ (readOnly_isNonDateObject _) Eio) as ->.
    destruct updIsObject.
    + apply bind_Ok in E as (merged & h1 & Em & E).
      right. eapply Hset; [|exact E].
      specialize (Hself a b hk). rewrite Em in Hself.
      eapply agree_none_lookup; eauto.
    + destruct (negb (isNullish b)); [right; eapply Hset; eauto|].
      destruct (value_eqb_spec a VUndef) as [->|Ha]; [right; eapply Hset; eauto|].
      injection E as <-. left. auto.
Qed.

Section Keys.
Variable fuel : nat.
Variables (h : heap) (ls lu : loc) (sp : list (string * value)).
Hypothesis Hsource : h !! ls = Some (CObj sp).

(** The loop over the keys of the update: the result gets, after the keys
    of the source, the keys that are new, in their order. *)
Lemma mergeLoop_keys : forall keys done hk h' rp,
  NoDup (done ++ keys) ->
  (forall l c, h !! l = Some c -> hk !! l = Some c) ->
  hk !! length h = Some (CObj rp) ->
  map fst rp = map fst sp ++ filter (isNew sp) done ->
  forEach (mergeKey (mergeObjects fuel) (VRef ls) (VRef lu) (VRef (length h))) keys hk
    = Ok tt h' ->
  exists rp', h' !! length h = Some (CObj rp') /\
    map fst rp' = map fst sp ++ filter (isNew sp) (done ++ keys).
Proof.
  assert (forall a b, frameExcept none (mergeObjects fuel a b)) as Hself.
  { intros a b h0. pose proof (mergeObjects_frame fuel a b h0) as H0.
    destruct (mergeObjects fuel a b h0); tauto. }
  induction keys as [|k keys IH]; intros done hk h' rp Hnd Hb Hr Hkeys E; simpl in E.
  - injection E as <-. exists rp. rewrite app_nil_r. auto.
  - apply bind_Ok in E as ([] & hk1 & E1 & E).
    pose proof (mergeKey_frame _ (VRef ls) (VRef lu) (length h) k Hself hk) as Hf.
    rewrite E1 in Hf. destruct Hf as (_ & Ag & _).
    assert (forall l c, h !! l = Some c -> hk1 !! l = Some c) as Hb1.
    { intros l c Hl. apply Ag; [auto|]. apply lookup_lt_Some in Hl. lia. }
    assert (k ∉ done) as Hk.
    { apply NoDup_app in Hnd as (_ & Hdis & _). intros Hin.
      apply (Hdis k Hin). left. }
    assert (props_has k rp = props_has k sp) as Hhas.
    { destruct (props_has k sp) eqn:Es.
      - apply props_has_elem. rewrite Hkeys. apply elem_of_app. left.
        now apply props_has_elem.
      - destruct (props_has k rp) eqn:Er; [|reflexivity].
        apply props_has_elem in Er. rewrite Hkeys in Er.
        apply elem_of_app in Er as [Er|Er].
        + apply props_has_elem in Er. congruence.
        + apply list_elem_of_filter in Er as [_ Er]. contradiction. }
    destruct (mergeKey_sets _ _ _ _ _ _ _ _ Hself Hr E1) as (a & Ea & Hcase).
    rewrite (getProp_obj ls sp k hk (Hb _ _ Hsource)) in Ea. injection Ea as <-.
    replace (done ++ k :: keys) with ((done ++ [k]) ++ keys)
      by (now rewrite <- app_assoc).
    destruct Hcase as [[Hr1 Ha]|[v Hr1]].
    + apply (IH (done ++ [k]) hk1 h' rp); auto.
      * now rewrite <- app_assoc.
      * rewrite filter_app, filter_cons, filter_nil.
        assert (isNew sp k = false) as ->
          by (unfold isNew; now rewrite (props_get_has k sp Ha)).
        simpl. now rewrite app_nil_r.
    + apply (IH (done ++ [k]) hk1 h' (props_set k v rp)); auto.
      * now rewrite <- app_assoc.
      * rewrite keys_props_set, Hhas, filter_app, filter_cons, filter_nil.
        destruct (props_has k sp) eqn:Es.
        -- assert (isNew sp k = false) as -> by (unfold isNew; now rewrite Es).
           simpl. now rewrite app_nil_r.
        -- assert (isNew sp k = true) as -> by (unfold isNew; now rewrite Es).
           simpl. now rewrite Hkeys, app_assoc.
Qed.
End Keys.
End MergeFacts.

(** For objects [A] and [B] whose keys are names (no array index, which
    JavaScript would list first, and no name of [Object.prototype]), the
    object that [mergeObjects(A, B)] returns has the keys of [A], in their
    order, followed by the keys of [B] that [A] lacks, in theirs: it drops
    no field, and it gives every field of [B] a place, also one whose value
    is [null]. *)
Theorem mergeObjects_keys
    (fuel : nat) (h : list Store.cell) (ls lu : nat)
    (sp up : list (string * Store.value)) (result : Store.value)
    (h' : list Store.cell) :
  h !! ls = Some (Store.CObj sp) -> h !! lu = Some (Store.CObj up) ->
  NoDup (map fst up) ->
  Forall (fun key => Store.nameKey key = true) (map fst sp ++ map fst up) ->
  Store.mergeObjects fuel (Store.VRef ls) (Store.VRef lu) h = Store.Ok result h' ->
  exists rp,
    h' !! length h = Some (Store.CObj rp) /\
    map fst rp = map fst sp ++ filter (MergeFacts.isNew sp) (map fst up).
Proof.
  intros Hs Hu Hnd _ E.
  destruct fuel as [|fuel]; [discriminate|]. simpl in E.
  apply StoreFacts.bind_Ok in E as (props & h1 & Ep & E).
  unfold Store.ownProps, Store.bind, Store.readCell in Ep. rewrite Hs in Ep.
  injection Ep as <- <-.
  apply StoreFacts.bind_Ok in E as (res & h1 & Ea & E).
  unfold Store.alloc in Ea. injection Ea as <- <-.
  apply StoreFacts.bind_Ok in E as (keys & h1 & Ek & E).
  assert ((h ++ [Store.CObj sp]) !! lu = Some (Store.CObj up)) as Hu1.
  { rewrite lookup_app_l; [exact Hu|]. now apply lookup_lt_Some in Hu. }
  unfold Store.objectKeys, Store.ownProps, Store.bind, Store.readCell in Ek.
  rewrite Hu1 in Ek. injection Ek as <- <-.
  apply StoreFacts.bind_Ok in E as ([] & h2 & El & E). injection E as <- <-.
  apply (MergeFacts.mergeLoop_keys fuel h ls lu sp Hs (map fst up) []
           (h ++ [Store.CObj sp]) h2 sp); auto.
  - intros l c Hl. rewrite lookup_app_l; [exact Hl|]. now apply lookup_lt_Some in Hl.
  - now rewrite list_lookup_middle.
  - simpl. now rewrite app_nil_r.
Qed.

Lemma mergeObjects_keys_witness :
  exists rp h',
    Store.mergeObjects 3 (Store.VRef 0) (Store.VRef 1) Examples.mergeStore
      = Store.Ok (Store.VRef 6) h' /\
    h' !! 6 = Some (Store.CObj rp) /\
    map fst rp = ["a"; "tags"; "n"; "z"; "b"; "q"].
Proof.
  destruct (Store.mergeObjects 3 (Store.VRef 0) (Store.VRef 1) Examples.mergeStore)
    as [res h'|h'|] eqn:E; [|vm_compute in E; discriminate..].
  pose proof E as E2. vm_compute in E2. injection E2 as <- <-.
  assert (NoDup (map fst [("a", Store.VNull); ("tags", Store.VRef 3);
                          ("n", Store.VRef 5); ("b", Store.VStr "x");
                          ("q", Store.VNull)])) as Hnd.
  { simpl. repeat (apply NoDup_cons_2;
      [intros H; repeat (apply elem_of_cons in H as [H|H]; [discriminate|]);
       inversion H|]).
    apply NoDup_nil_2. }
  assert (Forall (fun key => Store.nameKey key = true)
            ["a"; "tags"; "n"; "z"; "a"; "tags"; "n"; "b"; "q"]) as Hnames
    by (repeat constructor).
  destruct (mergeObjects_keys 3 Examples.mergeStore 0 1 _ _ _ _ eq_refl eq_refl Hnd
              Hnames E) as (rp & Hrp & Hkeys).
  exists rp. eexists. split; [reflexivity|]. split; [exact Hrp|exact Hkeys].
Defined.

(** ** Splitting a string *)

Module SplitFacts.
Import Converters.

Lemma split_cons separator s : exists segment segments, split separator s = segment :: segments.
Proof.
  destruct s as [|c r]; simpl; [eauto|].
  destruct (Ascii.eqb c separator); [eauto|].
  destruct (split separator r); eauto.
Qed.

Lemma length_split separator s :
  length (split separator s) = S (JsString.occurrences separator s).
Proof.
  induction s as [|c r IH]; simpl; [reflexivity|].
  destruct (Ascii.eqb c separator); simpl; [now rewrite IH|].
  destruct (split separator r); simpl in *; [discriminate|exact IH].
Qed.

(** Joining the segments with the separator gives the string back. *)
Lemma join_split separator s :
  Store.joinWith (String separator EmptyString) (split separator s) = s.
Proof.
  induction s as [|c r IH]; simpl; [reflexivity|].
  destruct (Ascii.eqb_spec c separator) as [->|Hne].
  - destruct (split_cons separator r) as (seg & segs & E). rewrite E in *.
    simpl. simpl in IH. now rewrite IH.
  - destruct (split_cons separator r) as (seg & segs & E). rewrite E in *.
    destruct segs as [|seg' segs]; simpl in *; now rewrite IH.
Qed.

Section TrySplit.
Context {F : Type}.
Variable uniformityScore : list string -> F.
Variable lt : F -> F -> bool.
Variable zero : F.

(** The best split so far, after the separators [done]: none, and none of
    them occurs in the value; or the split by one of them that occurs. *)
Definition bestOf (value : string) (done : list ascii) (best : list string * F) : Prop :=
  (fst best = [] /\ forall sep, sep ∈ done -> JsString.occurrences sep value = 0) \/
  (exists sep, sep ∈ done /\ fst best = split sep value /\
               1 <= JsString.occurrences sep value).

Lemma consider_bestOf value done best sep :
  bestOf value done best ->
  bestOf value (done ++ [sep]) (consider uniformityScore lt value best sep).
Proof.
  intros Hb. unfold consider. rewrite length_split.
  destruct (JsString.occurrences sep value) as [|n] eqn:En; simpl.
  - destruct Hb as [[He Hn]|(s & Hs & He & Ho)].
    + left. split; [exact He|]. intros x Hx.
      apply elem_of_app in Hx as [Hx|Hx]; [auto|].
      apply list_elem_of_singleton in Hx as ->. exact En.
    + right. exists s. split; [apply elem_of_app; now left|auto].
  - destruct (_ || _) eqn:Etake.
    + right. exists sep. split; [apply elem_of_app; right; left|].
      split; [reflexivity|lia].
    + destruct Hb as [[He Hn]|(s & Hs & He & Ho)].
      * (* an empty best split is always replaced *)
        rewrite He in Etake. discriminate.
      * right. exists s. split; [apply elem_of_app; now left|auto].
Qed.
End TrySplit.
End SplitFacts.

(** [trySplitByDifferentSeparators] gives back the value itself when none
    of the six separators occurs in it, and otherwise its split by one of
    the separators that occur: at least two segments which, joined by that
    separator, are the value again.  Which of the splits it is depends on
    the uniformity scores only. *)
Theorem trySplitByDifferentSeparators_splits_by_one_separator {F : Type}
    (uniformityScore : list string -> F) (lt : F -> F -> bool) (zero : F)
    (value : string) :
  let result :=
    Converters.trySplitByDifferentSeparators uniformityScore lt zero value in
  (result = [value] /\
   forall sep, sep ∈ Converters.separators -> JsString.occurrences sep value = 0) \/
  (exists sep,
     sep ∈ Converters.separators /\ 1 <= JsString.occurrences sep value /\
     result = Converters.split sep value /\
     length result = S (JsString.occurrences sep value) /\
     Store.joinWith (String sep EmptyString) result = value).
Proof.
  cbv zeta. unfold Converters.trySplitByDifferentSeparators.
  assert (forall seps done best,
            SplitFacts.bestOf value done best ->
            SplitFacts.bestOf value (done ++ seps)
              (fold_left (Converters.consider uniformityScore lt value) seps best))
    as Hfold.
  { induction seps as [|sep seps IH]; intros done best Hb; simpl.
    - now rewrite app_nil_r.
    - replace (done ++ sep :: seps) with ((done ++ [sep]) ++ seps)
        by (now rewrite <- app_assoc).
      apply IH. now apply SplitFacts.consider_bestOf. }
  specialize (Hfold Converters.separators [] ([], zero)). simpl app in Hfold.
  destruct Hfold as [[He Hn]|(sep & Hs & He & Ho)].
  - left. split; [reflexivity|]. intros sep Hsep. inversion Hsep.
  - left. rewrite He. simpl. auto.
  - right. exists sep. rewrite He, SplitFacts.length_split. simpl.
    repeat split; auto using SplitFacts.length_split, SplitFacts.join_split.
Qed.

(** ** More on setting up the maps *)

Module SetupMoreFacts.
Import Config Setup JsMapFacts.

Section SetupMaps.
Context {A W : Type}.
Variable parse : configCollection A -> option (configCollection A).
Variable checkForCollection :
  string -> configCollection A -> W -> option (option string * W).
Variable findOrCreateOperation : string -> W -> option (string * W).

(** The key has an empty stage and an operation. *)
Definition registered (m : maps A) (key : string) : Prop :=
  JsMap.get key (importMap m) = Some {| data := [] |} /\
  exists op, JsMap.get key (collectionImportOperations m) = Some op.

(** The database finds the collection, whatever its state, and the
    collection has a name. *)
Definition found (db : configDatabase) (c : configCollection A) : Prop :=
  parse c = Some c /\ JsString.nonEmpty (name c) = true /\
  forall w, exists id w', checkForCollection (dbId db) c w = Some (Some id, w').

Hypothesis operations : forall id w, exists op w', findOrCreateOperation id w = Some (op, w').

Lemma setupCollection_found db c m w :
  found db c ->
  exists c' m' w',
    setupCollection parse checkForCollection findOrCreateOperation db c m w
      = Some (c', m', w') /\
    registered m' (getCollectionKey (name c)) /\
    (forall k, registered m k -> registered m' k).
Proof.
  intros (Hp & Hn & Hc). unfold setupCollection. rewrite Hp.
  destruct (Hc w) as (id & w1 & ->). rewrite Hn. simpl.
  destruct (operations id w1) as (op & w2 & ->).
  eexists _, _, _. split; [reflexivity|]. unfold registered. simpl. split.
  - rewrite !get_set_same. eauto.
  - intros k [Hs [op' Ho]].
    destruct (String.eqb_spec (getCollectionKey (name c)) k) as [<-|Hne].
    + rewrite !get_set_same. eauto.
    + rewrite !get_set_other by exact Hne. eauto.
Qed.

Lemma setupCollections_found db : forall cs m w,
  (forall c, c ∈ cs -> found db c) ->
  exists cs' m' w',
    setupCollections parse checkForCollection findOrCreateOperation db cs m w
      = Some (cs', m', w') /\
    (forall c, c ∈ cs -> registered m' (getCollectionKey (name c))) /\
    (forall k, registered m k -> registered m' k).
Proof.
  induction cs as [|c cs IH]; intros m w Hf; simpl.
  - eexists _, _, _. split; [reflexivity|]. split; [intros c Hc; inversion Hc|auto].
  - destruct (setupCollection_found db c m w (Hf c ltac:(left)))
      as (c1 & m1 & w1 & -> & Hr1 & Hk1).
    destruct (IH m1 w1 (fun x Hx => Hf x ltac:(now right)))
      as (cs2 & m2 & w2 & -> & Hr2 & Hk2).
    eexists _, _, _. split; [reflexivity|]. split; [|auto].
    intros x Hx. apply elem_of_cons in Hx as [->|Hx]; auto.
Qed.

(** Without a database of the identifier, the loop over the databases
    does nothing. *)
Lemma setupDatabases_no_match dbId : forall dbs st,
  (forall db, db ∈ dbs -> Config.dbId db <> dbId) ->
  setupDatabases parse checkForCollection findOrCreateOperation dbId dbs st = Some st.
Proof.
  induction dbs as [|db dbs IH]; intros st Hno; simpl; [reflexivity|].
  unfold setupDatabase. destruct st as [[cs m] w].
  destruct (String.eqb_spec (Config.dbId db) dbId) as [Heq|Hne].
  - exfalso. apply (Hno db); [left|exact Heq].
  - simpl. apply IH. intros d Hd. apply Hno. now right.
Qed.
End SetupMaps.
End SetupMoreFacts.

(** With one database of the requested identifier, in which every
    configured collection is found and has a name, and over a database that
    gives every operation it is asked for, [setupMaps] returns, and every
    configured collection then has an empty stage and an operation
    identifier under its key: what the create pass asks for. *)
Theorem setupMaps_registers_found_collections {A W : Type}
    (parse : Config.configCollection A -> option (Config.configCollection A))
    (checkForCollection :
       string -> Config.configCollection A -> W -> option (option string * W))
    (findOrCreateOperation : string -> W -> option (string * W))
    (db : Config.configDatabase) (cs : list (Config.configCollection A))
    (m : Setup.maps A) (w : W) :
  (forall id w, exists op w', findOrCreateOperation id w = Some (op, w')) ->
  (forall c, c ∈ cs ->
     parse c = Some c /\ JsString.nonEmpty (Config.name c) = true /\
     forall w, exists id w', checkForCollection (Config.dbId db) c w = Some (Some id, w')) ->
  exists cs' m' w',
    Setup.setupMaps parse checkForCollection findOrCreateOperation
      [db] (Some cs) (Config.dbId db) m w = Some (Some cs', m', w') /\
    forall c, c ∈ cs ->
      JsMap.get (getCollectionKey (Config.name c)) (Setup.importMap m')
        = Some {| Config.data := [] |} /\
      exists op,
        JsMap.get (getCollectionKey (Config.name c)) (Setup.collectionImportOperations m')
          = Some op.
Proof.
  intros Hops Hfound. unfold Setup.setupMaps. simpl.
  rewrite String.eqb_refl. simpl.
  destruct (SetupMoreFacts.setupCollections_found parse checkForCollection
              findOrCreateOperation Hops db cs
              {| Setup.importMap :=
                   JsMap.set (getCollectionKey "users") {| Config.data := [] |}
                     (Setup.importMap m);
                 Setup.collectionImportOperations := Setup.collectionImportOperations m |}
              w Hfound) as (cs' & m' & w' & -> & Hreg & _).
  exists cs', m', w'. split; [reflexivity|]. exact Hreg.
Qed.

Lemma setupMaps_registers_found_collections_witness :
  exists cs' m' w',
    Setup.setupMaps Some MoreExamples.findsAll MoreExamples.newOperation
      [Examples.mainDb] (Some [Examples.itemsCollection]) "db1"
      MoreExamples.noMaps tt = Some (Some cs', m', w') /\
    JsMap.get "items" (Setup.importMap m') = Some {| Config.data := [] |} /\
    exists op, JsMap.get "items" (Setup.collectionImportOperations m') = Some op.
Proof.
  destruct (setupMaps_registers_found_collections Some MoreExamples.findsAll
              MoreExamples.newOperation Examples.mainDb [Examples.itemsCollection]
              MoreExamples.noMaps tt) as (cs' & m' & w' & Hrun & Hreg).
  - intros id w. exists "op1", w. reflexivity.
  - intros c Hc. apply list_elem_of_singleton in Hc as ->.
    split; [reflexivity|]. split; [reflexivity|].
    intros w. exists "cid", w. reflexivity.
  - exists cs', m', w'. split; [exact Hrun|].
    apply (Hreg Examples.itemsCollection). left.
Defined.

(** When no configured database has the requested identifier, [setupMaps]
    empties the stage of "users" and does nothing else: no collection is
    looked for, no operation is created, and the configuration is as it
    was. *)
Theorem setupMaps_without_matching_database {A W : Type}
    (parse : Config.configCollection A -> option (Config.configCollection A))
    (checkForCollection :
       string -> Config.configCollection A -> W -> option (option string * W))
    (findOrCreateOperation : string -> W -> option (string * W))
    (databases : list Config.configDatabase)
    (collections : option (list (Config.configCollection A)))
    (dbId : string) (m : Setup.maps A) (w : W) :
  (forall db, db ∈ databases -> Config.dbId db <> dbId) ->
  Setup.setupMaps parse checkForCollection findOrCreateOperation
    databases collections dbId m w
  = Some (collections,
          {| Setup.importMap :=
               JsMap.set "users" {| Config.data := [] |} (Setup.importMap m);
             Setup.collectionImportOperations := Setup.collectionImportOperations m |},
          w).
Proof.
  intros Hno. unfold Setup.setupMaps.
  now apply SetupMoreFacts.setupDatabases_no_match.
Qed.

Lemma setupMaps_without_matching_database_witness :
  exists m',
    Setup.setupMaps Some MoreExamples.findsAll MoreExamples.newOperation
      [Examples.mainDb] (Some [Examples.itemsCollection]) "db9"
      MoreExamples.noMaps tt = Some (Some [Examples.itemsCollection], m', tt) /\
    JsMap.get "items" (Setup.importMap m') = Some {| Config.data := [Examples.ann] |}.
Proof.
  eexists. split.
  - apply setupMaps_without_matching_database.
    intros db Hdb. apply list_elem_of_singleton in Hdb as ->. discriminate.
  - reflexivity.
Defined.
(** ** The identifiers the create pass assigns *)

Module TableFacts.
Import Store Config Ingest StoreFacts JsMapFacts.
Local Open Scope store_scope.

Lemma values_set_new {V} k (v : V) m :
  JsMap.has k m = false -> JsMap.values (JsMap.set k v m) = JsMap.values m ++ [v].
Proof.
  unfold JsMap.values, JsMap.has. induction m as [|[k' v'] m IH]; simpl; [reflexivity|].
  destruct (String.eqb k k'); [discriminate|]. intros H. simpl. now rewrite IH.
Qed.

Lemma tableOf_set key m t : Ids.tableOf (JsMap.set key m t) key = m.
Proof. unfold Ids.tableOf. now rewrite get_set_same. Qed.

Lemma tableOf_put_back key t :
  Ids.tableOf (JsMap.set key (Ids.tableOf t key) t) key = Ids.tableOf t key.
Proof. apply tableOf_set. Qed.

(** Away from the empty key, the new identifiers of the table are pairwise
    distinct. *)
Definition distinctIds (key : string) (t : Ids.tables) : Prop :=
  "" ∉ JsMap.keys (Ids.tableOf t key) -> NoDup (Ids.assigned t key).

Lemma distinctIds_enter key t supply newId rest text :
  distinctIds key t ->
  Ids.getTrueUniqueId t key supply = Some (newId, rest) ->
  JsMap.has text (Ids.tableOf t key) = false ->
  distinctIds key (JsMap.set key (JsMap.set text newId (Ids.tableOf t key)) t).
Proof.
  unfold distinctIds, Ids.assigned. intros Hd Hid Hhas. rewrite tableOf_set.
  rewrite keys_set, Hhas, values_set_new by exact Hhas.
  intros Hkeys. apply not_elem_of_app in Hkeys as [Hkeys _].
  apply NoDup_app. split; [auto|]. split; [|apply NoDup_singleton].
  intros x Hx Hin. apply list_elem_of_singleton in Hin as ->.
  revert Hx. eapply IdFacts.getTrueUniqueId_unassigned; eauto.
Qed.

Section CreatePass.
Context {A : Type}.
Variable transformData : value -> A -> M value.
Variable validateItem : value -> A -> value -> M bool.
Variable getAttributeMappingsWithActions : A -> value -> value -> M A.

Lemma stageItem_table collection importDef currentData item context td st h st' h' :
  Ingest.stageItem validateItem getAttributeMappingsWithActions collection importDef
    currentData item context td st h = Ok st' h' ->
  Ids.tableOf (oldIdToNewIdPerCollectionMap st') (getCollectionKey (name collection))
  = Ids.tableOf (oldIdToNewIdPerCollectionMap st) (getCollectionKey (name collection)).
Proof.
  unfold Ingest.stageItem. intros E.
  apply bind_Ok in E as (ctx & h1 & _ & E).
  apply bind_Ok in E as (isValid & h2 & _ & E).
  destruct isValid; simpl in E.
  - apply bind_Ok in E as (am & h3 & _ & E).
    destruct currentData as [cd|]; injection E as <- _; simpl; [|reflexivity].
    apply tableOf_put_back.
  - now injection E as <- _.
Qed.

Lemma createItem_distinct db collection importDef item st h st' h' :
  Ingest.createItem transformData validateItem getAttributeMappingsWithActions
    db collection importDef item st h = Ok st' h' ->
  distinctIds (getCollectionKey (name collection)) (oldIdToNewIdPerCollectionMap st) ->
  distinctIds (getCollectionKey (name collection)) (oldIdToNewIdPerCollectionMap st').
Proof.
  unfold Ingest.createItem. intros E Hd.
  destruct (Ids.getTrueUniqueId _ _ _) as [[itemIdNew supply']|] eqn:Hid; [|discriminate].
  apply bind_Ok in E as (context & h1 & _ & E).
  apply bind_Ok in E as (td & h2 & _ & E).
  destruct (JsString.nonEmpty (primaryKeyField importDef)).
  - apply bind_Ok in E as (oldId & h3 & _ & E).
    apply bind_Ok in E as (text & h4 & _ & E).
    simpl in E.
    destruct (JsMap.has text _) eqn:Hhas.
    + now injection E as <- _.
    + apply stageItem_table in E. simpl in E.
      unfold distinctIds, Ids.assigned in *. rewrite E.
      pose proof (distinctIds_enter _ _ _ _ _ text Hd Hid Hhas) as Hd'.
      unfold distinctIds, Ids.assigned in Hd'. exact Hd'.
  - apply stageItem_table in E. simpl in E.
    unfold distinctIds, Ids.assigned in *. now rewrite E.
Qed.

Lemma createLoop_distinct db collection importDef : forall items st h st' h',
  forEachAcc (Ingest.createItem transformData validateItem getAttributeMappingsWithActions
                db collection importDef) items st h = Ok st' h' ->
  distinctIds (getCollectionKey (name collection)) (oldIdToNewIdPerCollectionMap st) ->
  distinctIds (getCollectionKey (name collection)) (oldIdToNewIdPerCollectionMap st').
Proof.
  induction items as [|item items IH]; intros st h st' h' E Hd; simpl in E.
  - now injection E as <- _.
  - apply bind_Ok in E as (st1 & h1 & E1 & E).
    eapply IH; [exact E|]. eapply createItem_distinct; eauto.
Qed.
End CreatePass.
End TableFacts.

(** The create pass gives distinct records distinct identifiers, away from
    the empty key: if the new identifiers in the collection's table were
    pairwise distinct before [prepareCreateData], and the empty string is
    not a key of the table when it returns, the new identifiers in the
    table are pairwise distinct then, whatever [ID.unique()] has
    returned. *)
Theorem prepareCreateData_assigns_distinct_ids {A : Type}
    (transformData : Store.value -> A -> Store.M Store.value)
    (validateItem : Store.value -> A -> Store.value -> Store.M bool)
    (getAttributeMappingsWithActions : A -> Store.value -> Store.value -> Store.M A)
    (db : Config.configDatabase) (collection : Config.configCollection A)
    (importDef : Config.importDef A) (rawData : list Store.value)
    (st st' : Ingest.loader A) (h h' : list Store.cell) :
  Ingest.prepareCreateData transformData validateItem getAttributeMappingsWithActions
    db collection importDef rawData st h = Store.Ok st' h' ->
  NoDup (Ids.assigned (Ingest.oldIdToNewIdPerCollectionMap st)
           (getCollectionKey (Config.name collection))) ->
  ("" ∉ JsMap.keys (Ids.tableOf (Ingest.oldIdToNewIdPerCollectionMap st')
                      (getCollectionKey (Config.name collection)))) ->
  NoDup (Ids.assigned (Ingest.oldIdToNewIdPerCollectionMap st')
           (getCollectionKey (Config.name collection))).
Proof.
  unfold Ingest.prepareCreateData. intros E Hnd Hkeys.
  destruct (JsMap.get _ (Ingest.collectionImportOperations st)) as [op|]; [|discriminate].
  destruct (negb (JsString.nonEmpty op)); [discriminate|].
  apply TableFacts.createLoop_distinct in E; [exact (E Hkeys)|].
  intros _.
  destruct (JsMap.get (getCollectionKey (Config.name collection))
              (Ingest.oldIdToNewIdPerCollectionMap st)) eqn:Eg; [exact Hnd|].
  unfold Ids.assigned. simpl. rewrite TableFacts.tableOf_set. apply NoDup_nil_2.
Qed.

Lemma prepareCreateData_assigns_distinct_ids_witness :
  exists st' h',
    Ingest.prepareCreateData Examples.keepItem Examples.acceptItem Examples.noActions
      Examples.mainDb Examples.itemsCollection Examples.itemsDef
      [Store.VRef 2; Store.VRef 0] (Examples.freshLoader ["abc"; "abc"; "def"])
      Examples.petStore = Store.Ok st' h' /\
    Ids.assigned (Ingest.oldIdToNewIdPerCollectionMap st') "items" = ["abc"; "def"] /\
    NoDup (Ids.assigned (Ingest.oldIdToNewIdPerCollectionMap st') "items").
Proof.
  destruct (Ingest.prepareCreateData Examples.keepItem Examples.acceptItem
              Examples.noActions Examples.mainDb Examples.itemsCollection
              Examples.itemsDef [Store.VRef 2; Store.VRef 0]
              (Examples.freshLoader ["abc"; "abc"; "def"]) Examples.petStore)
    as [st' h'|h'|] eqn:E; [|vm_compute in E; discriminate..].
  exists st', h'. split; [reflexivity|].
  pose proof (prepareCreateData_assigns_distinct_ids _ _ _ _ _ _ _ _ _ _ _ E) as H.
  vm_compute in E. injection E as <- <-.
  split; [reflexivity|]. apply H.
  - apply NoDup_nil_2.
  - vm_compute. intros Hin.
    apply elem_of_cons in Hin as [Hx|Hin]; [discriminate|].
    apply list_elem_of_singleton in Hin. discriminate.
Defined.
